(** * EdgeSQL Lite: storage and execution substrate

    A shallow embedding of the paged slotted storage ([Page],
    [PageManager]), the write-ahead log ([Wal]), startup recovery
    ([RecoveryManager]), the execution context and the pull-based executor,
    and the transaction coordinator, followed by the properties of the
    specification that concern them.

    Conventions.  Fixed-width C++ integers are [Z] with the wrap-around
    written out ([mod 2^w]).  Raw memory ([std::array<uint8_t, N>], file
    contents, payload vectors) is [list byte].  Structs that the code
    overlays on raw memory with [reinterpret_cast] or [memcpy] are records
    together with their little-endian layout. *)

From Stdlib Require Import ZArith Lia List Bool Permutation Sorted.
From Stdlib.Strings Require Import Byte.
From stdpp Require Import base gmap strings list pretty.

Local Open Scope Z_scope.
Set Warnings "-register-all".

(** ** Outcomes of calls on raw memory *)

(** [Done a]: the call returned [true] (or a non-null pointer) with [a];
    [Refused]: it returned [false] (or [nullptr]) and left the object as it
    was; [Crash]: the call has no defined result in C++ (an access outside
    the array it works on, or an allocation of an impossible size). *)
Inductive outcome (A : Type) : Type :=
| Done (a : A)
| Refused
| Crash.
Arguments Done {A} a.
Arguments Refused {A}.
Arguments Crash {A}.

(** ** Bytes and little-endian layout *)

Module Mem.

Definition byte_of_Z (z : Z) : byte :=
  match Byte.of_N (Z.to_N (z mod 256)) with
  | Some b => b
  | None => x00
  end.

Definition Z_of_byte (b : byte) : Z := Z.of_N (Byte.to_N b).

(** [le_bytes n z]: the [n] bytes of the unsigned integer [z mod 256^n],
    least significant first. *)
Fixpoint le_bytes (n : nat) (z : Z) : list byte :=
  match n with
  | O => []
  | S n' => byte_of_Z z :: le_bytes n' (z / 256)
  end.

Fixpoint le_value (bs : list byte) : Z :=
  match bs with
  | [] => 0
  | b :: r => Z_of_byte b + 256 * le_value r
  end.

(** Unchecked access, for ranges known to lie inside the array. *)
Definition peek (off len : nat) (d : list byte) : list byte :=
  take len (drop off d).

Definition poke (off : nat) (bs d : list byte) : list byte :=
  take off d ++ bs ++ drop (off + length bs) d.

(** Checked access: [None] when the range leaves the array. *)
Definition load (off len : Z) (d : list byte) : option (list byte) :=
  if (0 <=? off) && (0 <=? len) && (off + len <=? Z.of_nat (length d))
  then Some (peek (Z.to_nat off) (Z.to_nat len) d)
  else None.

Definition store (off : Z) (bs d : list byte) : option (list byte) :=
  if (0 <=? off) && (off + Z.of_nat (length bs) <=? Z.of_nat (length d))
  then Some (poke (Z.to_nat off) bs d)
  else None.

Definition zeros (n : nat) : list byte := replicate n x00.

End Mem.

(** ** Page (page.hpp, page.cpp) *)

Module Page.
Import Mem.

Definition PAGE_SIZE : Z := 8192.
Definition PAGE_MAGIC : Z := 0x45444247.
Definition sizeof_PageHeader : Z := 24.
Definition sizeof_SlotEntry : Z := 4.

Definition FLAG_NONE : Z := 0x0000.
Definition FLAG_LEAF : Z := 0x0001.
Definition FLAG_INTERNAL : Z := 0x0002.
Definition FLAG_OVERFLOW : Z := 0x0004.
Definition FLAG_DIRTY : Z := 0x0008.

(** [std::array<uint8_t, PAGE_SIZE> data_] *)
Definition Page : Type := list byte.

Record PageHeader : Type := mkPageHeader {
  magic : Z;       (* uint32_t *)
  page_id : Z;     (* uint32_t *)
  lsn : Z;         (* uint64_t *)
  slot_count : Z;  (* uint16_t *)
  free_space : Z;  (* uint16_t *)
  data_start : Z;  (* uint16_t *)
  flags : Z        (* uint16_t *)
}.

Record SlotEntry : Type := mkSlotEntry {
  offset : Z;      (* uint16_t *)
  length : Z       (* uint16_t *)
}.

(** The byte image of a header: the struct has no padding (the source
    asserts [sizeof(PageHeader) == 24]). *)
Definition encode_header (h : PageHeader) : list byte :=
  le_bytes 4 (magic h) ++ le_bytes 4 (page_id h) ++ le_bytes 8 (lsn h) ++
  le_bytes 2 (slot_count h) ++ le_bytes 2 (free_space h) ++
  le_bytes 2 (data_start h) ++ le_bytes 2 (flags h).

Definition decode_header (bs : list byte) : PageHeader :=
  {| magic := le_value (peek 0 4 bs);
     page_id := le_value (peek 4 4 bs);
     lsn := le_value (peek 8 8 bs);
     slot_count := le_value (peek 16 2 bs);
     free_space := le_value (peek 18 2 bs);
     data_start := le_value (peek 20 2 bs);
     flags := le_value (peek 22 2 bs) |}.

Definition encode_slot (s : SlotEntry) : list byte :=
  le_bytes 2 (offset s) ++ le_bytes 2 (length s).

Definition decode_slot (bs : list byte) : SlotEntry :=
  {| offset := le_value (peek 0 2 bs); length := le_value (peek 2 2 bs) |}.

(** [header()]: the header overlaid on the first 24 bytes. *)
Definition header (p : Page) : PageHeader := decode_header (peek 0 24 p).

(** Assignment through [header()]. *)
Definition set_header (h : PageHeader) (p : Page) : Page :=
  poke 0 (encode_header h) p.

Definition is_valid (h : PageHeader) : bool := magic h =? PAGE_MAGIC.
Definition is_dirty (h : PageHeader) : bool :=
  negb (Z.land (flags h) FLAG_DIRTY =? 0).

Definition set_dirty (dirty : bool) (h : PageHeader) : PageHeader :=
  {| magic := magic h; page_id := page_id h; lsn := lsn h;
     slot_count := slot_count h; free_space := free_space h;
     data_start := data_start h;
     flags := if dirty then Z.lor (flags h) FLAG_DIRTY
              else Z.land (flags h) (Z.lxor 0xFFFF FLAG_DIRTY) |}.

Definition set_lsn (l : Z) (h : PageHeader) : PageHeader :=
  {| magic := magic h; page_id := page_id h; lsn := l;
     slot_count := slot_count h; free_space := free_space h;
     data_start := data_start h; flags := flags h |}.

Definition is_empty (s : SlotEntry) : bool :=
  (offset s =? 0) && (length s =? 0).
Definition is_deleted (s : SlotEntry) : bool := offset s =? 0xFFFF.

Definition mark_deleted (s : SlotEntry) : SlotEntry :=
  {| offset := 0xFFFF; length := 0 |}.

(** [Page::init(page_id, flags)] *)
Definition init (pid : Z) (fl : Z) : Page :=
  set_header
    {| magic := PAGE_MAGIC; page_id := pid; lsn := 0; slot_count := 0;
       free_space := (PAGE_SIZE - sizeof_PageHeader) mod 65536;
       data_start := PAGE_SIZE mod 65536;
       flags := fl |}
    (zeros (Z.to_nat PAGE_SIZE)).

Definition slot_address (slot_index : Z) : Z :=
  sizeof_PageHeader + slot_index * sizeof_SlotEntry.

(** [Page::get_slot]: the address of the entry and the entry it holds.
    The callers dereference the pointer at once, so an entry outside the
    array is reported here. *)
Definition get_slot (slot_index : Z) (p : Page) : outcome (Z * SlotEntry) :=
  if slot_index >=? slot_count (header p) then Refused
  else match load (slot_address slot_index) sizeof_SlotEntry p with
       | Some bs => Done (slot_address slot_index, decode_slot bs)
       | None => Crash
       end.

(** [Page::get_record]: on success the pair [( *out_data - data_, *out_length)]. *)
Definition get_record (slot_index : Z) (p : Page) : outcome (Z * Z) :=
  match get_slot slot_index p with
  | Done (_, s) =>
      if is_empty s || is_deleted s then Refused
      else Done (offset s, length s)
  | Refused => Refused
  | Crash => Crash
  end.

(** The bytes that a pair returned by [get_record] designates. *)
Definition record_bytes (ptr : Z * Z) (p : Page) : option (list byte) :=
  load (fst ptr) (snd ptr) p.

Definition slot_directory_end (p : Page) : Z :=
  (sizeof_PageHeader + slot_count (header p) * sizeof_SlotEntry) mod 65536.

(** [memcpy(data_.data() + dst, data, length)] *)
Definition memcpy_in (dst : Z) (data : list byte) (len : Z) (p : Page)
  : option Page :=
  if len <=? Z.of_nat (List.length data)
  then store dst (take (Z.to_nat len) data) p
  else None.

(** [Page::insert_record(data, length, out_slot_index)]: on success the
    slot index and the page after the call. *)
Definition insert_record (data : list byte) (len : Z) (p : Page)
  : outcome (Z * Page) :=
  let required_space := (len + sizeof_SlotEntry) mod 65536 in
  if free_space (header p) <? required_space then Refused
  else
    let record_offset := (data_start (header p) - len) mod 65536 in
    let slot_dir_end := (slot_directory_end p + sizeof_SlotEntry) mod 65536 in
    if record_offset <? slot_dir_end then Refused
    else
      match memcpy_in record_offset data len p with
      | None => Crash
      | Some p1 =>
          let slot_index := slot_count (header p1) in
          match store (slot_address slot_index)
                  (encode_slot {| offset := record_offset; length := len |}) p1 with
          | None => Crash
          | Some p2 =>
              let h := header p2 in
              let h1 :=
                {| magic := magic h; page_id := page_id h; lsn := lsn h;
                   slot_count := (slot_count h + 1) mod 65536;
                   free_space := (free_space h - required_space) mod 65536;
                   data_start := record_offset;
                   flags := flags h |} in
              Done (slot_index, set_header (set_dirty true h1) p2)
          end
      end.

(** [Page::delete_record(slot_index)] *)
Definition delete_record (slot_index : Z) (p : Page) : outcome Page :=
  match get_slot slot_index p with
  | Done (addr, s) =>
      if is_empty s || is_deleted s then Refused
      else
        match store addr (encode_slot (mark_deleted s)) p with
        | None => Crash
        | Some p1 => Done (set_header (set_dirty true (header p1)) p1)
        end
  | Refused => Refused
  | Crash => Crash
  end.

(** [Page::update_record(slot_index, data, length)] *)
Definition update_record (slot_index : Z) (data : list byte) (len : Z)
    (p : Page) : outcome Page :=
  match get_slot slot_index p with
  | Done (addr, s) =>
      if is_empty s || is_deleted s then Refused
      else if len >? length s then Refused
      else
        match memcpy_in (offset s) data len p with
        | None => Crash
        | Some p1 =>
            match store addr (encode_slot {| offset := offset s; length := len |}) p1 with
            | None => Crash
            | Some p2 => Done (set_header (set_dirty true (header p2)) p2)
            end
        end
  | Refused => Refused
  | Crash => Crash
  end.

End Page.

(** ** Write-ahead log (wal.hpp, wal.cpp) *)

Module Wal.
Import Mem.

Definition WAL_MAGIC : Z := 0x57414C45.
Definition CURRENT_VERSION : Z := 1.
Definition sizeof_WalRecordHeader : Z := 32.
Definition sizeof_WalFileHeader : Z := 24.
Definition READ_BUFFER_SIZE : Z := 64 * 1024.

Inductive WalRecordType : Type :=
| INVALID | INSERT | UPDATE | DELETE | CREATE_TABLE | DROP_TABLE
| CHECKPOINT | COMMIT | ROLLBACK.

Definition type_code (t : WalRecordType) : Z :=
  match t with
  | INVALID => 0 | INSERT => 1 | UPDATE => 2 | DELETE => 3
  | CREATE_TABLE => 4 | DROP_TABLE => 5 | CHECKPOINT => 6
  | COMMIT => 7 | ROLLBACK => 8
  end.

(** The enumerator a raw [uint8_t] denotes, if any: a header read back from
    a file can carry any byte in its [type] field. *)
Definition type_of_code (c : Z) : option WalRecordType :=
  if c =? 0 then Some INVALID else if c =? 1 then Some INSERT
  else if c =? 2 then Some UPDATE else if c =? 3 then Some DELETE
  else if c =? 4 then Some CREATE_TABLE else if c =? 5 then Some DROP_TABLE
  else if c =? 6 then Some CHECKPOINT else if c =? 7 then Some COMMIT
  else if c =? 8 then Some ROLLBACK else None.

Record WalRecordHeader : Type := mkWalRecordHeader {
  lsn : Z;        (* uint64_t *)
  length : Z;     (* uint32_t, total length including the header *)
  crc32 : Z;      (* uint32_t, of the payload *)
  type : Z;       (* WalRecordType : uint8_t, as stored *)
  reserved : Z;   (* uint8_t[3], as a 24-bit little-endian number *)
  table_id : Z;   (* uint32_t *)
  page_id : Z;    (* uint32_t *)
  slot_id : Z;    (* uint16_t *)
  padding : Z     (* uint16_t *)
}.

Record WalRecord : Type := mkWalRecord {
  header : WalRecordHeader;
  payload : list byte
}.

Record WalFileHeader : Type := mkWalFileHeader {
  fh_magic : Z;                (* uint32_t *)
  fh_version : Z;              (* uint32_t *)
  fh_first_lsn : Z;            (* uint64_t *)
  fh_last_checkpoint_lsn : Z   (* uint64_t *)
}.

(** [init_crc32_table]: entry [i] of the lookup table. *)
Definition crc32_step (crc : Z) : Z :=
  Z.lxor (Z.shiftr crc 1)
         (Z.land 0xEDB88320 ((- (Z.land crc 1)) mod 2^32)).

Definition crc32_table (i : Z) : Z := Nat.iter 8 crc32_step i.

(** [compute_crc32(data, length)] *)
Definition compute_crc32 (data : list byte) : Z :=
  Z.lxor
    (fold_left
       (fun crc b =>
          Z.lxor (crc32_table (Z.land (Z.lxor crc (Z_of_byte b)) 0xFF))
                 (Z.shiftr crc 8))
       data 0xFFFFFFFF)
    0xFFFFFFFF mod 2^32.

Definition calculate_crc32 (r : WalRecord) : Z := compute_crc32 (payload r).

Definition is_valid (r : WalRecord) : bool :=
  crc32 (header r) =? calculate_crc32 r.

Definition serialized_size (r : WalRecord) : Z :=
  sizeof_WalRecordHeader + Z.of_nat (List.length (payload r)).

(** The byte image of a record header (the source asserts its size, 32). *)
Definition encode_header (h : WalRecordHeader) : list byte :=
  le_bytes 8 (lsn h) ++ le_bytes 4 (length h) ++ le_bytes 4 (crc32 h) ++
  le_bytes 1 (type h) ++ le_bytes 3 (reserved h) ++
  le_bytes 4 (table_id h) ++ le_bytes 4 (page_id h) ++
  le_bytes 2 (slot_id h) ++ le_bytes 2 (padding h).

Definition decode_header (bs : list byte) : WalRecordHeader :=
  {| lsn := le_value (peek 0 8 bs);
     length := le_value (peek 8 4 bs);
     crc32 := le_value (peek 12 4 bs);
     type := le_value (peek 16 1 bs);
     reserved := le_value (peek 17 3 bs);
     table_id := le_value (peek 20 4 bs);
     page_id := le_value (peek 24 4 bs);
     slot_id := le_value (peek 28 2 bs);
     padding := le_value (peek 30 2 bs) |}.

Definition encode_file_header (h : WalFileHeader) : list byte :=
  le_bytes 4 (fh_magic h) ++ le_bytes 4 (fh_version h) ++
  le_bytes 8 (fh_first_lsn h) ++ le_bytes 8 (fh_last_checkpoint_lsn h).

Definition decode_file_header (bs : list byte) : WalFileHeader :=
  {| fh_magic := le_value (peek 0 4 bs);
     fh_version := le_value (peek 4 4 bs);
     fh_first_lsn := le_value (peek 8 8 bs);
     fh_last_checkpoint_lsn := le_value (peek 16 8 bs) |}.

Definition file_header_is_valid (h : WalFileHeader) : bool :=
  (fh_magic h =? WAL_MAGIC) && (fh_version h =? CURRENT_VERSION).

(** [WalRecord::serialize(buffer, buffer_size)]: the bytes written at the
    start of the buffer; [None] when the call returns 0 and writes nothing. *)
Definition serialize (r : WalRecord) (buffer_size : Z) : option (list byte) :=
  if buffer_size <? serialized_size r then None
  else Some (encode_header (header r) ++ payload r).

(** [WalRecord::deserialize(data, length)]: [Done r] when the call returns
    [true] and leaves [r] in the object.  A header length below 32 makes
    [payload_size] wrap around and [payload.resize] fail. *)
Definition deserialize (data : list byte) (len : Z) : outcome WalRecord :=
  if len <? sizeof_WalRecordHeader then Refused
  else
    match load 0 sizeof_WalRecordHeader data with
    | None => Crash
    | Some hb =>
        let h := decode_header hb in
        let payload_size := (length h - sizeof_WalRecordHeader) mod 2^64 in
        if len <? length h then Refused
        else if length h <? sizeof_WalRecordHeader then Crash
        else
          match load sizeof_WalRecordHeader payload_size data with
          | None => Crash
          | Some pl =>
              let r := {| header := h; payload := pl |} in
              if is_valid r then Done r else Refused
          end
    end.

(** The log: the file at [path_] ([None]: no such file), the append cursor
    and the open flag.  Reads and writes of an existing file succeed. *)
Record Wal : Type := mkWal {
  file_ : option (list byte);
  current_lsn_ : Z;      (* uint64_t *)
  is_open_ : bool
}.

(** [Wal(path)], for a path that holds [content]. *)
Definition new (content : option (list byte)) : Wal :=
  {| file_ := content; current_lsn_ := 1; is_open_ := false |}.

Definition file_bytes (w : Wal) : list byte :=
  match file_ w with Some bs => bs | None => [] end.

(** [Wal::write_header] *)
Definition initial_file : list byte :=
  encode_file_header
    {| fh_magic := WAL_MAGIC; fh_version := CURRENT_VERSION;
       fh_first_lsn := 1; fh_last_checkpoint_lsn := 0 |}.

(** The scan of [Wal::read_header]: one record header per iteration, the
    payload skipped by a relative seek; [None]: more iterations needed. *)
Fixpoint scan_last_lsn (fuel : nat) (bytes : list byte) (pos : Z) (cur : Z)
  : option Z :=
  match fuel with
  | O => None
  | S fuel' =>
      match load pos sizeof_WalRecordHeader bytes with
      | None => Some cur
      | Some hb =>
          let h := decode_header hb in
          if length h <? sizeof_WalRecordHeader then Some cur
          else scan_last_lsn fuel' bytes (pos + length h) ((lsn h + 1) mod 2^64)
      end
  end.

(** [Wal::read_header]: the new [current_lsn_], or [None] for [false]. *)
Definition read_header (w : Wal) : outcome Z :=
  match load 0 sizeof_WalFileHeader (file_bytes w) with
  | None => Refused
  | Some hb =>
      if file_header_is_valid (decode_file_header hb) then
        match scan_last_lsn (S (List.length (file_bytes w))) (file_bytes w)
                sizeof_WalFileHeader (current_lsn_ w) with
        | Some l => Done l
        | None => Crash
        end
      else Refused
  end.

(** [Wal::open] *)
Definition open (w : Wal) : outcome Wal :=
  if is_open_ w then Done w
  else
    match file_ w with
    | Some _ =>
        match read_header w with
        | Done l => Done {| file_ := file_ w; current_lsn_ := l; is_open_ := true |}
        | Refused => Refused
        | Crash => Crash
        end
    | None =>
        Done {| file_ := Some initial_file; current_lsn_ := current_lsn_ w;
                is_open_ := true |}
    end.

Definition close (w : Wal) : Wal :=
  {| file_ := file_ w; current_lsn_ := current_lsn_ w; is_open_ := false |}.

(** The record that [Wal::append] writes for [record]. *)
Definition stamp (cur : Z) (record : WalRecord) : WalRecord :=
  let h := header record in
  {| header :=
       {| lsn := cur;
          length := (sizeof_WalRecordHeader
                     + Z.of_nat (List.length (payload record))) mod 2^32;
          crc32 := compute_crc32 (payload record);
          type := type h; reserved := reserved h; table_id := table_id h;
          page_id := page_id h; slot_id := slot_id h; padding := padding h |};
     payload := payload record |}.

(** [Wal::append(record)]: the returned LSN (0 on failure) and the log. *)
Definition append (record : WalRecord) (w : Wal) : Z * Wal :=
  if negb (is_open_ w) then (0, w)
  else
    let rec := stamp (current_lsn_ w) record in
    match serialize rec (serialized_size rec) with
    | None => (0, w)
    | Some bytes =>
        (current_lsn_ w,
         {| file_ := Some (file_bytes w ++ bytes);
            current_lsn_ := (current_lsn_ w + 1) mod 2^64;
            is_open_ := true |})
    end.

(** The loop of [Wal::read_from] over the unread part of the file.
    [None]: more iterations needed. *)
Fixpoint read_records (fuel : nat) (start_lsn : Z) (rest : list byte)
    (records : list WalRecord) : option (list WalRecord) :=
  match fuel with
  | O => None
  | S fuel' =>
      match load 0 sizeof_WalRecordHeader rest with
      | None => Some records                       (* end of file *)
      | Some hb =>
          let h := decode_header hb in
          if (length h <? sizeof_WalRecordHeader)
             || (length h >? READ_BUFFER_SIZE)
          then Some records                        (* invalid record *)
          else
            let payload_size := length h - sizeof_WalRecordHeader in
            match load sizeof_WalRecordHeader payload_size rest with
            | None => Some records                 (* incomplete record *)
            | Some pl =>
                match deserialize (hb ++ pl) (length h) with
                | Done r =>
                    read_records fuel' start_lsn
                      (drop (Z.to_nat (length h)) rest)
                      (if lsn (header r) >=? start_lsn
                       then records ++ [r] else records)
                | _ => Some records                (* invalid record *)
                end
            end
      end
  end.

(** [Wal::read_from(start_lsn, records)] *)
Definition read_from (start_lsn : Z) (w : Wal) : outcome (list WalRecord) :=
  if negb (is_open_ w) then Refused
  else
    match read_records (S (List.length (file_bytes w))) start_lsn
            (drop (Z.to_nat sizeof_WalFileHeader) (file_bytes w)) [] with
    | Some rs => Done rs
    | None => Crash
    end.

(** [Wal::read_all(records)] *)
Definition read_all (w : Wal) : outcome (list WalRecord) := read_from 1 w.

(** [Wal::checkpoint()].  The local record is default-initialised: the
    header fields that the function does not assign hold whatever [uninit]
    holds. *)
Definition checkpoint (uninit : WalRecordHeader) (w : Wal) : Z * Wal :=
  append
    {| header :=
         {| lsn := lsn uninit; length := length uninit; crc32 := crc32 uninit;
            type := type_code CHECKPOINT; reserved := reserved uninit;
            table_id := 0; page_id := 0; slot_id := 0;
            padding := padding uninit |};
       payload := [] |}
    w.

End Wal.

(** ** Results of stateful calls *)

(** A call on a state of type [S] either returns a value and a new state,
    or lets a [std::exception] escape (the state is the one at the throw),
    or has no defined behaviour (a null or dangling pointer is used, or a
    page operation reports [Crash]), or has not finished within the
    iterations it was allowed. *)
Inductive res (S A : Type) : Type :=
| Val (a : A) (s : S)
| Throw (what : string) (s : S)
| Fault
| Diverge.
Arguments Val {S A} a s.
Arguments Throw {S A} what s.
Arguments Fault {S A}.
Arguments Diverge {S A}.

Definition M (S A : Type) : Type := S -> res S A.

Global Instance M_ret {S} : MRet (M S) := fun A a s => Val a s.

Global Instance M_bind {S} : MBind (M S) := fun A B f m s =>
  match m s with
  | Val a s' => f a s'
  | Throw w s' => Throw w s'
  | Fault => Fault
  | Diverge => Diverge
  end.

Definition get {S} : M S S := fun s => Val s s.
Definition put {S} (s : S) : M S unit := fun _ => Val tt s.
Definition modify {S} (f : S -> S) : M S unit := fun s => Val tt (f s).
Definition throw {S A} (what : string) : M S A := fun s => Throw what s.
Definition fault {S A} : M S A := fun _ => Fault.
Definition diverge {S A} : M S A := fun _ => Diverge.

(** Run a computation on a component of the state. *)
Definition zoom {S T A} (proj : S -> T) (upd : T -> S -> S) (m : M T A)
  : M S A := fun s =>
  match m (proj s) with
  | Val a t => Val a (upd t s)
  | Throw w t => Throw w (upd t s)
  | Fault => Fault
  | Diverge => Diverge
  end.

(** ** Buffer pool (page_manager.hpp, page_manager.cpp) *)

Module PageManager.

Record BufferEntry : Type := mkBufferEntry {
  table_id : Z;        (* uint32_t *)
  page_id : Z;         (* uint32_t *)
  page : Page.Page;    (* std::unique_ptr<Page> *)
  dirty : bool
}.

(** A [PageKey] is the pair [(table_id, page_id)]. *)

(** The members of the page manager and the table files under [data_dir_].
    A node of [lru_list_] is a key with the identity of its list node, which
    is what the iterators stored in [lru_map_] denote; [next_node_] is the
    identity that the next [push_front] creates.  A table file is the
    sequence of its page images: the code writes whole pages at multiples of
    [PAGE_SIZE] only. *)
Record t : Type := mkPageManager {
  max_pages_ : Z;                           (* size_t *)
  buffer_pool_ : gmap (Z * Z) BufferEntry;
  lru_list_ : list (nat * (Z * Z));
  lru_map_ : gmap (Z * Z) nat;
  next_node_ : nat;
  next_page_id_ : gmap Z Z;
  files_ : gmap Z (list Page.Page)
}.

Definition with_pool (f : gmap (Z * Z) BufferEntry -> gmap (Z * Z) BufferEntry)
    (pm : t) : t :=
  {| max_pages_ := max_pages_ pm; buffer_pool_ := f (buffer_pool_ pm);
     lru_list_ := lru_list_ pm; lru_map_ := lru_map_ pm;
     next_node_ := next_node_ pm; next_page_id_ := next_page_id_ pm;
     files_ := files_ pm |}.

Definition with_files (f : gmap Z (list Page.Page) -> gmap Z (list Page.Page))
    (pm : t) : t :=
  {| max_pages_ := max_pages_ pm; buffer_pool_ := buffer_pool_ pm;
     lru_list_ := lru_list_ pm; lru_map_ := lru_map_ pm;
     next_node_ := next_node_ pm; next_page_id_ := next_page_id_ pm;
     files_ := f (files_ pm) |}.

(** [PageManager(data_dir, max_pages)] over the table files [files]. *)
Definition new (max_pages : Z) (files : gmap Z (list Page.Page)) : t :=
  {| max_pages_ := max_pages; buffer_pool_ := ∅; lru_list_ := [];
     lru_map_ := ∅; next_node_ := O; next_page_id_ := ∅; files_ := files |}.

Definition zero_page : Page.Page := Mem.zeros (Z.to_nat Page.PAGE_SIZE).

(** Writing one page image at index [p] of a file, the gap filled with
    zero bytes. *)
Definition write_at (p : nat) (pg : Page.Page) (f : list Page.Page)
  : list Page.Page :=
  if decide (p < List.length f)%nat then <[p := pg]> f
  else f ++ replicate (p - List.length f) zero_page ++ [pg].

(** [PageManager::write_page]: the table files after the write (the file
    is created when missing). *)
Definition write_page (tid pid : Z) (pg : Page.Page)
    (files : gmap Z (list Page.Page)) : gmap Z (list Page.Page) :=
  <[tid := write_at (Z.to_nat pid) pg (default [] (files !! tid))]> files.

(** [lru_list_.push_front(key); lru_map_[key] = lru_list_.begin()] *)
Definition lru_push_front (key : Z * Z) (pm : t) : t :=
  {| max_pages_ := max_pages_ pm; buffer_pool_ := buffer_pool_ pm;
     lru_list_ := (next_node_ pm, key) :: lru_list_ pm;
     lru_map_ := <[key := next_node_ pm]> (lru_map_ pm);
     next_node_ := S (next_node_ pm); next_page_id_ := next_page_id_ pm;
     files_ := files_ pm |}.

(** [lru_list_.erase(it)] for the iterator of node [n]. *)
Definition lru_erase (n : nat) (l : list (nat * (Z * Z)))
  : list (nat * (Z * Z)) :=
  List.filter (fun nk => negb (Nat.eqb (fst nk) n)) l.

(** The node that the reverse scan of [evict_page] stops at. *)
Definition find_victim (pool : gmap (Z * Z) BufferEntry)
    (l : list (nat * (Z * Z))) : option (nat * (Z * Z)) :=
  List.find (fun nk => bool_decide (is_Some (pool !! snd nk))) (rev l).

(** [PageManager::evict_page] *)
Definition evict_page (pm : t) : t :=
  match lru_list_ pm with
  | [] => pm
  | _ =>
      match find_victim (buffer_pool_ pm) (lru_list_ pm) with
      | None => pm
      | Some (n, key) =>
          match buffer_pool_ pm !! key with
          | None => pm
          | Some e =>
              {| max_pages_ := max_pages_ pm;
                 buffer_pool_ := delete key (buffer_pool_ pm);
                 lru_list_ := lru_erase n (lru_list_ pm);
                 lru_map_ := delete key (lru_map_ pm);
                 next_node_ := next_node_ pm;
                 next_page_id_ := next_page_id_ pm;
                 files_ := if dirty e
                           then write_page (fst key) (snd key) (page e) (files_ pm)
                           else files_ pm |}
          end
      end
  end.

Definition page_count (pm : t) : Z := Z.of_nat (size (buffer_pool_ pm)).

(** [while (buffer_pool_.size() >= max_pages_) evict_page();] *)
Fixpoint evict_while_full (fuel : nat) : M t unit :=
  match fuel with
  | O => diverge
  | S fuel' => fun pm =>
      if page_count pm >=? max_pages_ pm
      then evict_while_full fuel' (evict_page pm)
      else Val tt pm
  end.

(** [buffer_pool_[key] = entry; lru_list_.push_front(key); ...] *)
Definition install (key : Z * Z) (e : BufferEntry) (pm : t) : t :=
  lru_push_front key (with_pool (fun pool => <[key := e]> pool) pm).

(** [PageManager::load_page] *)
Definition load_page (fuel : nat) (tid pid : Z) : M t bool :=
  _ ← evict_while_full fuel;
  pm ← get;
  match files_ pm !! tid with
  | None => mret false                              (* file not open *)
  | Some f =>
      match f !! Z.to_nat pid with
      | None => mret false                          (* short read *)
      | Some pg =>
          if negb (Page.is_valid (Page.header pg)) then mret false
          else
            _ ← modify (install (tid, pid)
                          {| table_id := tid; page_id := pid; page := pg;
                             dirty := false |});
            mret true
      end
  end.

(** [PageManager::get_page]: the returned pointer is the key of the pool
    entry whose page it points to. *)
Definition get_page (fuel : nat) (tid pid : Z) : M t (option (Z * Z)) :=
  pm ← get;
  let key := (tid, pid) in
  match buffer_pool_ pm !! key with
  | Some _ =>
      match lru_map_ pm !! key with
      | Some n =>
          _ ← put (lru_push_front key
                     {| max_pages_ := max_pages_ pm;
                        buffer_pool_ := buffer_pool_ pm;
                        lru_list_ := lru_erase n (lru_list_ pm);
                        lru_map_ := lru_map_ pm;
                        next_node_ := next_node_ pm;
                        next_page_id_ := next_page_id_ pm;
                        files_ := files_ pm |});
          mret (Some key)
      | None => mret (Some key)
      end
  | None =>
      ok ← load_page fuel tid pid;
      if ok : bool then mret (Some key) else mret None
  end.

(** [PageManager::allocate_page] *)
Definition allocate_page (fuel : nat) (tid : Z) : M t Z :=
  pm ← get;
  let pid := default 0 (next_page_id_ pm !! tid) in
  _ ← put {| max_pages_ := max_pages_ pm; buffer_pool_ := buffer_pool_ pm;
             lru_list_ := lru_list_ pm; lru_map_ := lru_map_ pm;
             next_node_ := next_node_ pm;
             next_page_id_ := <[tid := (pid + 1) mod 2^32]> (next_page_id_ pm);
             files_ := files_ pm |};
  _ ← evict_while_full fuel;
  _ ← modify (install (tid, pid)
                {| table_id := tid; page_id := pid;
                   page := Page.init pid Page.FLAG_LEAF; dirty := true |});
  mret pid.

Definition set_entry_dirty (d : bool) (e : BufferEntry) : BufferEntry :=
  {| table_id := table_id e; page_id := page_id e;
     page := Page.set_header (Page.set_dirty d (Page.header (page e))) (page e);
     dirty := d |}.

(** [PageManager::mark_dirty] *)
Definition mark_dirty (tid pid : Z) (pm : t) : t :=
  match buffer_pool_ pm !! (tid, pid) with
  | Some e => with_pool (fun pool => <[(tid, pid) := set_entry_dirty true e]> pool) pm
  | None => pm
  end.

(** [PageManager::flush_page] (the write succeeds, so it returns [true]). *)
Definition flush_page (tid pid : Z) (pm : t) : t :=
  match buffer_pool_ pm !! (tid, pid) with
  | Some e =>
      if dirty e then
        with_pool (fun pool => <[(tid, pid) := set_entry_dirty false e]> pool)
          (with_files (write_page tid pid (page e)) pm)
      else pm
  | None => pm
  end.

Definition flush_entry (e : BufferEntry) (files : gmap Z (list Page.Page))
  : gmap Z (list Page.Page) :=
  if dirty e then write_page (table_id e) (page_id e) (page e) files
  else files.

(** [PageManager::flush_all]: the number of pages written and the state. *)
Definition flush_all (pm : t) : Z * t :=
  (Z.of_nat (size (filter (fun kv => dirty (snd kv) = true) (buffer_pool_ pm))),
   with_pool (fmap (fun e => if dirty e then set_entry_dirty false e else e))
     (with_files
        (fun files =>
           map_fold (fun _ e acc => flush_entry e acc) files (buffer_pool_ pm))
        pm)).

Definition dirty_count (pm : t) : Z :=
  Z.of_nat (size (filter (fun kv => dirty (snd kv) = true) (buffer_pool_ pm))).

(** [PageManager::create_table_file] *)
Definition create_table_file (tid : Z) (pm : t) : t :=
  {| max_pages_ := max_pages_ pm; buffer_pool_ := buffer_pool_ pm;
     lru_list_ := lru_list_ pm; lru_map_ := lru_map_ pm;
     next_node_ := next_node_ pm;
     next_page_id_ := <[tid := 0]> (next_page_id_ pm);
     files_ := <[tid := []]> (files_ pm) |}.

(** One step of the removal loop of [delete_table_file]. *)
Definition drop_key (key : Z * Z) (pm : t) : t :=
  {| max_pages_ := max_pages_ pm;
     buffer_pool_ := delete key (buffer_pool_ pm);
     lru_list_ := match lru_map_ pm !! key with
                  | Some n => lru_erase n (lru_list_ pm)
                  | None => lru_list_ pm
                  end;
     lru_map_ := delete key (lru_map_ pm);
     next_node_ := next_node_ pm; next_page_id_ := next_page_id_ pm;
     files_ := files_ pm |}.

(** [PageManager::delete_table_file] *)
Definition delete_table_file (tid : Z) (pm : t) : t :=
  let to_remove :=
    List.filter (fun key => fst key =? tid)
      (List.map fst (map_to_list (buffer_pool_ pm))) in
  let pm1 := fold_left (fun acc key => drop_key key acc) to_remove pm in
  {| max_pages_ := max_pages_ pm1; buffer_pool_ := buffer_pool_ pm1;
     lru_list_ := lru_list_ pm1; lru_map_ := lru_map_ pm1;
     next_node_ := next_node_ pm1;
     next_page_id_ := delete tid (next_page_id_ pm1);
     files_ := delete tid (files_ pm1) |}.

(** [PageManager::close] *)
Definition close (pm : t) : t :=
  {| max_pages_ := max_pages_ pm; buffer_pool_ := ∅; lru_list_ := [];
     lru_map_ := ∅; next_node_ := next_node_ pm;
     next_page_id_ := next_page_id_ pm;
     files_ := map_fold (fun _ e acc => flush_entry e acc) (files_ pm)
                 (buffer_pool_ pm) |}.

(** Use of a [Page*] obtained from [get_page]: the page it points to. *)
Definition deref (key : Z * Z) : M t Page.Page := fun pm =>
  match buffer_pool_ pm !! key with
  | Some e => Val (page e) pm
  | None => Fault
  end.

(** Assignment through a [Page*] obtained from [get_page]. *)
Definition assign (key : Z * Z) (pg : Page.Page) : M t unit := fun pm =>
  match buffer_pool_ pm !! key with
  | Some e =>
      Val tt (with_pool
                (fun pool => <[key := {| table_id := table_id e;
                                         page_id := page_id e; page := pg;
                                         dirty := dirty e |}]> pool) pm)
  | None => Fault
  end.

End PageManager.

(** ** Startup recovery (recovery.hpp, recovery.cpp) *)

Module Recovery.

Record RecoveryStats : Type := mkRecoveryStats {
  records_processed : Z;
  records_applied : Z;
  records_skipped : Z;
  errors : Z;
  start_lsn : Z;
  end_lsn : Z
}.

Definition no_stats : RecoveryStats := mkRecoveryStats 0 0 0 0 0 0.

(** The recovery manager with the log and the buffer pool it refers to. *)
Record t : Type := mkRecoveryManager {
  wal_ : Wal.Wal;
  page_manager_ : PageManager.t;
  stats_ : RecoveryStats
}.

Definition new (w : Wal.Wal) (pm : PageManager.t) : t :=
  {| wal_ := w; page_manager_ := pm; stats_ := no_stats |}.

Definition on_pm {A} (m : M PageManager.t A) : M t A :=
  zoom page_manager_
       (fun pm s => {| wal_ := wal_ s; page_manager_ := pm; stats_ := stats_ s |})
       m.

Definition on_stats (f : RecoveryStats -> RecoveryStats) : M t unit :=
  modify (fun s => {| wal_ := wal_ s; page_manager_ := page_manager_ s;
                      stats_ := f (stats_ s) |}).

Definition u64 (z : Z) : Z := z mod 2^64.

Definition bump_processed (st : RecoveryStats) : RecoveryStats :=
  mkRecoveryStats (u64 (records_processed st + 1)) (records_applied st)
    (records_skipped st) (errors st) (start_lsn st) (end_lsn st).
Definition bump_applied (st : RecoveryStats) : RecoveryStats :=
  mkRecoveryStats (records_processed st) (u64 (records_applied st + 1))
    (records_skipped st) (errors st) (start_lsn st) (end_lsn st).
Definition bump_skipped (st : RecoveryStats) : RecoveryStats :=
  mkRecoveryStats (records_processed st) (records_applied st)
    (u64 (records_skipped st + 1)) (errors st) (start_lsn st) (end_lsn st).
Definition bump_errors (st : RecoveryStats) : RecoveryStats :=
  mkRecoveryStats (records_processed st) (records_applied st)
    (records_skipped st) (u64 (errors st + 1)) (start_lsn st) (end_lsn st).
Definition set_start_lsn (l : Z) (st : RecoveryStats) : RecoveryStats :=
  mkRecoveryStats (records_processed st) (records_applied st)
    (records_skipped st) (errors st) l (end_lsn st).
Definition set_end_lsn (l : Z) (st : RecoveryStats) : RecoveryStats :=
  mkRecoveryStats (records_processed st) (records_applied st)
    (records_skipped st) (errors st) (start_lsn st) l.

Definition is_checkpoint (r : Wal.WalRecord) : bool :=
  Wal.type (Wal.header r) =? Wal.type_code Wal.CHECKPOINT.

(** The loop of [find_last_checkpoint] over the records read. *)
Definition last_checkpoint_of (records : list Wal.WalRecord) : Z :=
  fold_left
    (fun last r => if is_checkpoint r then Wal.lsn (Wal.header r) else last)
    records 0.

(** [RecoveryManager::find_last_checkpoint] *)
Definition find_last_checkpoint (w : Wal.Wal) : outcome Z :=
  match Wal.read_all w with
  | Done records => Done (last_checkpoint_of records)
  | Refused => Done 0
  | Crash => Crash
  end.

(** [RecoveryManager::needs_recovery] *)
Definition needs_recovery (rm : t) : outcome bool :=
  match find_last_checkpoint (wal_ rm) with
  | Done checkpoint_lsn =>
      match Wal.read_from checkpoint_lsn (wal_ rm) with
      | Done records => Done (Z.of_nat (List.length records) >? 1)
      | Refused => Done false
      | Crash => Crash
      end
  | Refused => Refused
  | Crash => Crash
  end.

Definition UINT32_MAX : Z := 2^32 - 1.

(** [page->header().lsn = lsn] through the pointer [key]. *)
Definition set_page_lsn (key : Z * Z) (l : Z) : M PageManager.t unit :=
  pg ← PageManager.deref key;
  PageManager.assign key (Page.set_header (Page.set_lsn l (Page.header pg)) pg).

(** [RecoveryManager::apply_insert] *)
Definition apply_insert (fuel : nat) (record : Wal.WalRecord) : M t bool :=
  let h := Wal.header record in
  page ← on_pm (PageManager.get_page fuel (Wal.table_id h) (Wal.page_id h));
  page ← match page with
         | Some key => mret (Some key)
         | None =>
             new_page_id ← on_pm (PageManager.allocate_page fuel (Wal.table_id h));
             if new_page_id =? UINT32_MAX then mret None
             else on_pm (PageManager.get_page fuel (Wal.table_id h) new_page_id)
         end;
  match page with
  | None => mret false
  | Some key =>
      pg ← on_pm (PageManager.deref key);
      let insert :=
        match Page.insert_record (Wal.payload record)
                (Z.of_nat (List.length (Wal.payload record)) mod 65536) pg with
        | Done (_, pg') =>
            _ ← on_pm (PageManager.assign key pg');
            _ ← on_pm (set_page_lsn key (Wal.lsn h));
            _ ← on_pm (modify (PageManager.mark_dirty (Wal.table_id h) (Wal.page_id h)));
            mret true
        | Refused => mret false
        | Crash => fault
        end in
      if Wal.slot_id h <? Page.slot_count (Page.header pg) then
        match Page.get_record (Wal.slot_id h) pg with
        | Done _ => _ ← on_stats bump_skipped; mret true
        | Refused => insert
        | Crash => fault
        end
      else insert
  end.

(** [RecoveryManager::apply_update] *)
Definition apply_update (fuel : nat) (record : Wal.WalRecord) : M t bool :=
  let h := Wal.header record in
  page ← on_pm (PageManager.get_page fuel (Wal.table_id h) (Wal.page_id h));
  match page with
  | None => mret false
  | Some key =>
      pg ← on_pm (PageManager.deref key);
      if Page.lsn (Page.header pg) >=? Wal.lsn h then
        _ ← on_stats bump_skipped; mret true
      else
        match Page.update_record (Wal.slot_id h) (Wal.payload record)
                (Z.of_nat (List.length (Wal.payload record)) mod 65536) pg with
        | Done pg' =>
            _ ← on_pm (PageManager.assign key pg');
            _ ← on_pm (set_page_lsn key (Wal.lsn h));
            _ ← on_pm (modify (PageManager.mark_dirty (Wal.table_id h) (Wal.page_id h)));
            mret true
        | Refused => mret false
        | Crash => fault
        end
  end.

(** [RecoveryManager::apply_delete] *)
Definition apply_delete (fuel : nat) (record : Wal.WalRecord) : M t bool :=
  let h := Wal.header record in
  page ← on_pm (PageManager.get_page fuel (Wal.table_id h) (Wal.page_id h));
  match page with
  | None => mret false
  | Some key =>
      pg ← on_pm (PageManager.deref key);
      if Page.lsn (Page.header pg) >=? Wal.lsn h then
        _ ← on_stats bump_skipped; mret true
      else
        match Page.delete_record (Wal.slot_id h) pg with
        | Done pg' =>
            _ ← on_pm (PageManager.assign key pg');
            _ ← on_pm (set_page_lsn key (Wal.lsn h));
            _ ← on_pm (modify (PageManager.mark_dirty (Wal.table_id h) (Wal.page_id h)));
            mret true
        | Refused => _ ← on_stats bump_skipped; mret true
        | Crash => fault
        end
  end.

(** [RecoveryManager::apply_record] *)
Definition apply_record (fuel : nat) (record : Wal.WalRecord) : M t bool :=
  let count (success : bool) : M t bool :=
    _ ← on_stats (if success then bump_applied else bump_errors);
    mret true in
  match Wal.type_of_code (Wal.type (Wal.header record)) with
  | Some Wal.INSERT => success ← apply_insert fuel record; count success
  | Some Wal.UPDATE => success ← apply_update fuel record; count success
  | Some Wal.DELETE => success ← apply_delete fuel record; count success
  | Some Wal.CREATE_TABLE => count true
  | Some Wal.DROP_TABLE => count true
  | Some Wal.COMMIT => count true
  | Some Wal.ROLLBACK => count true
  | _ => _ ← on_stats bump_errors; mret true
  end.

(** The replay loop of [recover]: [false] when the callback stops it. *)
Fixpoint replay (callback : Wal.WalRecord -> M t bool)
    (records : list Wal.WalRecord) : M t bool :=
  match records with
  | [] => mret true
  | record :: rest =>
      _ ← on_stats bump_processed;
      if is_checkpoint record then
        _ ← on_stats bump_skipped; replay callback rest
      else
        continue ← callback record;
        if continue : bool then
          _ ← on_stats (set_end_lsn (Wal.lsn (Wal.header record)));
          replay callback rest
        else mret false
  end.

(** [RecoveryManager::recover(callback)] *)
Definition recover_with (callback : Wal.WalRecord -> M t bool) : M t bool :=
  _ ← on_stats (fun _ => no_stats);
  rm ← get;
  match find_last_checkpoint (wal_ rm) with
  | Done checkpoint_lsn =>
      let start := if checkpoint_lsn >? 0 then checkpoint_lsn else 1 in
      _ ← on_stats (set_start_lsn start);
      match Wal.read_from start (wal_ rm) with
      | Done records =>
          finished ← replay callback records;
          if finished : bool then
            rm' ← get; mret (errors (stats_ rm') =? 0)
          else mret false
      | Refused => mret false
      | Crash => fault
      end
  | _ => fault
  end.

(** [RecoveryManager::recover()] *)
Definition recover (fuel : nat) : M t bool := recover_with (apply_record fuel).

End Recovery.

(** ** Query allocator and execution context
       (query_allocator.hpp, context.hpp, context.cpp) *)

Module Context.

(** [QueryAllocator]: the accounting members; the arena is not modelled. *)
Record QueryAllocator : Type := mkQueryAllocator {
  memory_limit_ : Z;   (* size_t *)
  bytes_used_ : Z      (* size_t *)
}.

(** [QueryAllocator::would_exceed(size)] *)
Definition would_exceed (size : Z) (a : QueryAllocator) : bool :=
  (bytes_used_ a + size) mod 2^64 >? memory_limit_ a.

Definition bytes_used (a : QueryAllocator) : Z := bytes_used_ a.

Record QueryBudget : Type := mkQueryBudget {
  max_memory_bytes : Z;   (* size_t *)
  max_instructions : Z;   (* uint64_t *)
  max_time : Z;           (* std::chrono::milliseconds *)
  max_result_rows : Z     (* size_t *)
}.

Record ExecutionStats : Type := mkExecutionStats {
  instructions_executed : Z;  (* uint64_t *)
  rows_scanned : Z;           (* uint64_t *)
  rows_returned : Z;          (* uint64_t *)
  memory_used : Z;            (* size_t *)
  elapsed_time : Z            (* std::chrono::microseconds *)
}.

Inductive BudgetViolation : Type :=
| NONE | MEMORY_EXCEEDED | INSTRUCTIONS_EXCEEDED | TIMEOUT | ROWS_EXCEEDED
| ABORTED.

(** The execution context.  [allocator_] is the allocator it refers to.
    The steady clock is an input of the program: [clock_ k] is the value,
    in nanoseconds, of the [k]-th reading, and [clock_reads_] counts the
    readings made so far. *)
Record ExecutionContext : Type := mkExecutionContext {
  budget_ : QueryBudget;
  allocator_ : QueryAllocator;
  stats_ : ExecutionStats;
  start_time_ : Z;
  started_ : bool;
  aborted_ : bool;
  violation_ : BudgetViolation;
  clock_ : nat -> Z;
  clock_reads_ : nat
}.

(** [ExecutionContext(budget, allocator)] *)
Definition new (budget : QueryBudget) (allocator : QueryAllocator)
    (clock : nat -> Z) : ExecutionContext :=
  {| budget_ := budget; allocator_ := allocator;
     stats_ := mkExecutionStats 0 0 0 0 0;
     start_time_ := 0; started_ := false; aborted_ := false;
     violation_ := NONE; clock_ := clock; clock_reads_ := O |}.

Definition with_stats (f : ExecutionStats -> ExecutionStats)
    (c : ExecutionContext) : ExecutionContext :=
  {| budget_ := budget_ c; allocator_ := allocator_ c; stats_ := f (stats_ c);
     start_time_ := start_time_ c; started_ := started_ c;
     aborted_ := aborted_ c; violation_ := violation_ c;
     clock_ := clock_ c; clock_reads_ := clock_reads_ c |}.

Definition with_violation (v : BudgetViolation) (c : ExecutionContext)
  : ExecutionContext :=
  {| budget_ := budget_ c; allocator_ := allocator_ c; stats_ := stats_ c;
     start_time_ := start_time_ c; started_ := started_ c;
     aborted_ := aborted_ c; violation_ := v;
     clock_ := clock_ c; clock_reads_ := clock_reads_ c |}.

(** [std::chrono::steady_clock::now()] *)
Definition now : M ExecutionContext Z := fun c =>
  Val (clock_ c (clock_reads_ c))
      {| budget_ := budget_ c; allocator_ := allocator_ c; stats_ := stats_ c;
         start_time_ := start_time_ c; started_ := started_ c;
         aborted_ := aborted_ c; violation_ := violation_ c;
         clock_ := clock_ c; clock_reads_ := S (clock_reads_ c) |}.

(** [ExecutionContext::start] *)
Definition start : M ExecutionContext unit :=
  t ← now;
  modify (fun c =>
    {| budget_ := budget_ c; allocator_ := allocator_ c; stats_ := stats_ c;
       start_time_ := t; started_ := true;
       aborted_ := aborted_ c; violation_ := violation_ c;
       clock_ := clock_ c; clock_reads_ := clock_reads_ c |}).

Definition u64 (z : Z) : Z := z mod 2^64.

(** [ExecutionContext::record_instructions(count)] *)
Definition record_instructions (count : Z) : M ExecutionContext unit :=
  modify (with_stats (fun s =>
    mkExecutionStats (u64 (instructions_executed s + count)) (rows_scanned s)
      (rows_returned s) (memory_used s) (elapsed_time s))).

(** [ExecutionContext::record_row_scanned] *)
Definition record_row_scanned : M ExecutionContext unit :=
  modify (with_stats (fun s =>
    mkExecutionStats (instructions_executed s) (u64 (rows_scanned s + 1))
      (rows_returned s) (memory_used s) (elapsed_time s))).

(** [ExecutionContext::record_row_returned] *)
Definition record_row_returned : M ExecutionContext unit :=
  modify (with_stats (fun s =>
    mkExecutionStats (instructions_executed s) (rows_scanned s)
      (u64 (rows_returned s + 1)) (memory_used s) (elapsed_time s))).

Definition set_memory_used (m : Z) (s : ExecutionStats) : ExecutionStats :=
  mkExecutionStats (instructions_executed s) (rows_scanned s)
    (rows_returned s) m (elapsed_time s).

Definition set_elapsed_time (e : Z) (s : ExecutionStats) : ExecutionStats :=
  mkExecutionStats (instructions_executed s) (rows_scanned s)
    (rows_returned s) (memory_used s) e.

(** [std::to_string] of an integer. *)
Definition to_string (z : Z) : string := pretty z.

(** [ExecutionContext::violation_message] *)
Definition violation_message (c : ExecutionContext) : string :=
  match violation_ c with
  | NONE => "No violation"
  | MEMORY_EXCEEDED =>
      "Memory budget exceeded: " +:+ to_string (memory_used (stats_ c)) +:+
      " bytes used, limit is " +:+ to_string (max_memory_bytes (budget_ c))
  | INSTRUCTIONS_EXCEEDED =>
      "Instruction limit exceeded: " +:+
      to_string (instructions_executed (stats_ c)) +:+
      " executed, limit is " +:+ to_string (max_instructions (budget_ c))
  | TIMEOUT =>
      "Query timeout after " +:+
      to_string (Z.quot (elapsed_time (stats_ c)) 1000) +:+
      "ms, limit is " +:+ to_string (max_time (budget_ c)) +:+ "ms"
  | ROWS_EXCEEDED =>
      "Row limit exceeded: " +:+ to_string (rows_returned (stats_ c)) +:+
      " rows, limit is " +:+ to_string (max_result_rows (budget_ c))
  | ABORTED => "Query was aborted"
  end.

(** [violation_ = v; throw std::runtime_error(violation_message());] *)
Definition violate (v : BudgetViolation) : M ExecutionContext unit :=
  _ ← modify (with_violation v);
  c ← get;
  throw (violation_message c).

(** The value that an [int64_t] holds after an operation whose exact result
    is [z]: out of range it wraps around, as the machine arithmetic that
    the compiled code uses does. *)
Definition int64 (z : Z) : Z := (z + 2^63) mod 2^64 - 2^63.

(** [now - start_time_]: a [steady_clock::duration], nanoseconds in an
    [int64_t]. *)
Definition elapsed_since (start t : Z) : Z := int64 (t - start).

(** [elapsed > budget_.max_time] compares nanoseconds with milliseconds:
    both sides are converted to the common type, nanoseconds in an
    [int64_t], which multiplies the count of [max_time] by 1000000. *)
Definition over_time (elapsed_ns : Z) (c : ExecutionContext) : bool :=
  elapsed_ns >? int64 (max_time (budget_ c) * 1000000).

(** [ExecutionContext::check_time] *)
Definition check_time : M ExecutionContext unit :=
  c ← get;
  if negb (started_ c) then mret tt
  else
    t ← now;
    let elapsed := elapsed_since (start_time_ c) t in
    if over_time elapsed c then
      _ ← modify (with_stats (set_elapsed_time (Z.quot elapsed 1000)));
      violate TIMEOUT
    else mret tt.

(** [ExecutionContext::check_instructions] *)
Definition check_instructions : M ExecutionContext unit :=
  c ← get;
  if instructions_executed (stats_ c) >=? max_instructions (budget_ c)
  then violate INSTRUCTIONS_EXCEEDED
  else mret tt.

(** [ExecutionContext::check_rows] *)
Definition check_rows : M ExecutionContext unit :=
  c ← get;
  if rows_returned (stats_ c) >=? max_result_rows (budget_ c)
  then violate ROWS_EXCEEDED
  else mret tt.

(** [ExecutionContext::check_budget] *)
Definition check_budget : M ExecutionContext unit :=
  c ← get;
  if aborted_ c then violate ABORTED
  else
    _ ← check_time;
    _ ← check_instructions;
    _ ← check_rows;
    _ ← modify (fun c => with_stats (set_memory_used (bytes_used (allocator_ c))) c);
    c ← get;
    if would_exceed 0 (allocator_ c) then violate MEMORY_EXCEEDED
    else mret tt.

(** [ExecutionContext::should_stop] *)
Definition should_stop : M ExecutionContext bool :=
  c ← get;
  if aborted_ c then mret true
  else if negb match violation_ c with NONE => true | _ => false end
  then mret true
  else
    late ← (if started_ c
            then t ← now; mret (over_time (elapsed_since (start_time_ c) t) c)
            else mret false);
    if late : bool then mret true
    else mret (instructions_executed (stats_ c) >=? max_instructions (budget_ c)).

(** [ExecutionContext::abort] *)
Definition abort (c : ExecutionContext) : ExecutionContext :=
  {| budget_ := budget_ c; allocator_ := allocator_ c; stats_ := stats_ c;
     start_time_ := start_time_ c; started_ := started_ c;
     aborted_ := true; violation_ := ABORTED;
     clock_ := clock_ c; clock_reads_ := clock_reads_ c |}.

(** [ExecutionContext::finalize] *)
Definition finalize : M ExecutionContext unit :=
  c ← get;
  _ ← (if started_ c
       then t ← now;
            modify (with_stats (set_elapsed_time
                                  (Z.quot (elapsed_since (start_time_ c) t) 1000)))
       else mret tt);
  modify (fun c => with_stats (set_memory_used (bytes_used (allocator_ c))) c).

End Context.

(** ** Catalog (catalog.hpp, planner.cpp) *)

Module Catalog.

Inductive ColumnType : Type :=
| NULLTYPE | INTEGER | FLOAT | TEXT | BLOB | BOOLEAN.

Record ColumnInfo : Type := mkColumnInfo {
  col_name : string;
  col_type : ColumnType;
  not_null : bool;
  primary_key : bool;
  index : Z           (* uint32_t *)
}.

Record TableInfo : Type := mkTableInfo {
  id : Z;             (* uint32_t *)
  name : string;
  columns : list ColumnInfo;
  row_count : Z       (* uint64_t *)
}.

(** [tables_by_id_] holds pointers to the entries that [tables_by_name_]
    owns: an id maps to the name under which its entry is stored. *)
Record t : Type := mkCatalog {
  tables_by_name_ : gmap string TableInfo;
  tables_by_id_ : gmap Z string;
  next_table_id_ : Z  (* uint32_t *)
}.

Definition empty : t :=
  {| tables_by_name_ := ∅; tables_by_id_ := ∅; next_table_id_ := 1 |}.

Definition get_table (n : string) (c : t) : option TableInfo :=
  tables_by_name_ c !! n.

Definition get_table_by_id (i : Z) (c : t) : option TableInfo :=
  match tables_by_id_ c !! i with
  | Some n => tables_by_name_ c !! n
  | None => None
  end.

Definition table_exists (n : string) (c : t) : bool :=
  bool_decide (is_Some (tables_by_name_ c !! n)).

(** The loop of [create_table] that numbers the columns. *)
Fixpoint set_indices (i : Z) (cols : list ColumnInfo) : list ColumnInfo :=
  match cols with
  | [] => []
  | col :: rest =>
      mkColumnInfo (col_name col) (col_type col) (not_null col)
        (primary_key col) (i mod 2^32) :: set_indices (i + 1) rest
  end.

(** [Catalog::create_table]: the id assigned (0 on failure). *)
Definition create_table (n : string) (cols : list ColumnInfo) (c : t) : Z * t :=
  match tables_by_name_ c !! n with
  | Some _ => (0, c)
  | None =>
      let i := next_table_id_ c in
      (i, {| tables_by_name_ :=
               <[n := mkTableInfo i n (set_indices 0 cols) 0]> (tables_by_name_ c);
             tables_by_id_ := <[i := n]> (tables_by_id_ c);
             next_table_id_ := (i + 1) mod 2^32 |})
  end.

(** [Catalog::drop_table] *)
Definition drop_table (n : string) (c : t) : bool * t :=
  match tables_by_name_ c !! n with
  | None => (false, c)
  | Some ti =>
      (true, {| tables_by_name_ := delete n (tables_by_name_ c);
                tables_by_id_ := delete (id ti) (tables_by_id_ c);
                next_table_id_ := next_table_id_ c |})
  end.

End Catalog.

(** ** Plans and the executor (plan.hpp, executor.hpp, executor.cpp) *)

Module Executor.

(** [sql::Literal]: the tag with the member it selects. *)
Inductive Literal : Type :=
| NULL_VAL
| INTEGER (int_value : Z)          (* int64_t *)
| FLOAT (float_bits : Z)           (* double, by its bit pattern *)
| STRING (string_value : string)
| BOOLEAN (bool_value : bool).

(** [ResultRow]: the vector [values]. *)
Definition ResultRow : Type := list Literal.

Inductive PlanNodeType : Type :=
| TABLE_SCAN | INDEX_SCAN | FILTER | PROJECT | SORT | LIMIT | AGGREGATE
| INSERT | CREATE_TABLE | DROP_TABLE.

Inductive AggregateType : Type := COUNT | SUM | MIN | MAX | AVG.

(** [sql::ColumnDef], without the default value expression. *)
Record ColumnDef : Type := mkColumnDef {
  def_name : string;
  def_type : string;
  def_not_null : bool;
  def_primary_key : bool
}.

Record ExecutionResult : Type := mkExecutionResult {
  success : bool;
  error : string;
  column_names : list string;
  rows : list ResultRow;
  rows_affected : Z;                   (* uint64_t *)
  stats : Context.ExecutionStats
}.

(** [ExecutionResult result;] *)
Definition default_result : ExecutionResult :=
  {| success := false; error := ""; column_names := []; rows := [];
     rows_affected := 0; stats := Context.mkExecutionStats 0 0 0 0 0 |}.

(** What a query runs on: its context, the buffer pool and the catalog the
    executor refers to, and the write-ahead log of the engine, to which the
    executor holds no reference. *)
Record Engine : Type := mkEngine {
  ctx : Context.ExecutionContext;
  page_manager_ : PageManager.t;
  catalog_ : Catalog.t;
  wal : Wal.Wal
}.

Definition on_ctx {A} (m : M Context.ExecutionContext A) : M Engine A :=
  zoom ctx
       (fun c e => {| ctx := c; page_manager_ := page_manager_ e;
                      catalog_ := catalog_ e; wal := wal e |})
       m.

Definition on_pm {A} (m : M PageManager.t A) : M Engine A :=
  zoom page_manager_
       (fun pm e => {| ctx := ctx e; page_manager_ := pm;
                       catalog_ := catalog_ e; wal := wal e |})
       m.

Definition set_catalog (c : Catalog.t) : M Engine unit :=
  modify (fun e => {| ctx := ctx e; page_manager_ := page_manager_ e;
                      catalog_ := c; wal := wal e |}).

(** [try { body } catch (const std::exception &e) { handler(e.what()) }] *)
Definition try_catch {S A} (body : M S A) (handler : string -> M S A)
  : M S A := fun s =>
  match body s with
  | Throw what s' => handler what s'
  | r => r
  end.

Section WithLibrary.

(** The expression trees of the parser: the executor tests the pointers to
    them and counts them, and does not look inside. *)
Variable Expression : Type.

(** [std::sort(first, last, comp)] of the C++ library, on the vector that
    the range covers. *)
Variable std_sort :
  (ResultRow -> ResultRow -> bool) -> list ResultRow -> list ResultRow.

Record AggregateExpr : Type := mkAggregateExpr {
  agg_type : AggregateType;
  agg_arg : option Expression;
  agg_distinct : bool;
  agg_output_name : string
}.

(** The alternatives of [PlanNode::node]; [P] is [PlanNode] and a child is
    a [std::unique_ptr<PlanNode>], which may be null. *)
Inductive PlanVariant (P : Type) : Type :=
| TableScanNode (table_id : Z) (table_name : string) (column_indices : list Z)
| FilterNode (child : option P) (predicate : option Expression)
| ProjectNode (child : option P) (expressions : list Expression)
    (output_names : list string)
| SortNode (child : option P) (sort_keys : list Expression)
    (ascending : list bool)
| LimitNode (child : option P) (limit offset : Z)
| AggregateNode (child : option P) (aggregates : list AggregateExpr)
    (group_by : list Expression)
| InsertNode (table_id : Z) (table_name : string) (names : list string)
    (values : list (list Expression))
| CreateTableNode (table_name : string) (columns : list ColumnDef)
    (if_not_exists : bool)
| DropTableNode (table_name : string) (if_exists : bool).

Inductive PlanNode : Type :=
| mkPlanNode (type : PlanNodeType) (node : PlanVariant PlanNode).

(** The operators, each with its members; a child is a
    [std::unique_ptr<Operator>], which may be null.  [schema_] is the table
    entry that the pointer designated when the operator was built, and
    [page_] the key of the pool entry that the [Page*] points into. *)
Inductive Operator : Type :=
| TableScanOperator (table_id_ : Z) (table_name_ : string)
    (schema_ : option Catalog.TableInfo)
    (current_page_ : Z) (current_slot_ : Z) (page_ : option (Z * Z))
| FilterOperator (child_ : option Operator) (predicate_ : option Expression)
| LimitOperator (child_ : option Operator) (limit_ offset_ : Z)
    (skipped_ returned_ : Z)
| SortOperator (child_ : option Operator) (sort_columns_ : list nat)
    (ascending_ : list bool) (buffer_ : list ResultRow) (current_row_ : nat)
    (materialized_ : bool).

Definition record_instructions (n : Z) : M Engine unit :=
  on_ctx (Context.record_instructions n).

Definition column_values (schema : option Catalog.TableInfo) : ResultRow :=
  match schema with
  | Some ti => List.map (fun _ => NULL_VAL) (Catalog.columns ti)
  | None => []
  end.

(** The loops of [TableScanOperator::next], after its first statement. *)
Fixpoint scan (fuel : nat) (tid : Z) (tname : string)
    (schema : option Catalog.TableInfo) (current_page current_slot : Z)
    (page : option (Z * Z)) : M Engine (option ResultRow * Operator) :=
  match fuel with
  | O => diverge
  | S fuel' =>
      match page with
      | None =>
          mret (None, TableScanOperator tid tname schema current_page
                        current_slot None)
      | Some key =>
          pg ← on_pm (PageManager.deref key);
          if current_slot <? Page.slot_count (Page.header pg) then
            match Page.get_record current_slot pg with
            | Done _ =>
                _ ← on_ctx Context.record_row_scanned;
                _ ← record_instructions 5;
                mret (Some (column_values schema),
                      TableScanOperator tid tname schema current_page
                        ((current_slot + 1) mod 65536) page)
            | Refused =>
                scan fuel' tid tname schema current_page
                  ((current_slot + 1) mod 65536) page
            | Crash => fault
            end
          else
            let next_page := (current_page + 1) mod 2^32 in
            page' ← on_pm (PageManager.get_page fuel' tid next_page);
            _ ← record_instructions 10;
            scan fuel' tid tname schema next_page 0 page'
      end
  end.

(** [FilterOperator::evaluate_predicate] *)
Definition evaluate_predicate (row : ResultRow) : bool := true.

(** The comparison that [SortOperator::next] hands to [std::sort].  The two
    vectors have the same size in every operator that [build_operator]
    creates. *)
Fixpoint row_less (sort_columns : list nat) (ascending : list bool)
    (a b : ResultRow) : bool :=
  match sort_columns, ascending with
  | col :: cols, asc :: ascs =>
      match a !! col, b !! col with
      | Some (INTEGER va), Some (INTEGER vb) =>
          if negb (va =? vb) then (if asc then va <? vb else va >? vb)
          else row_less cols ascs a b
      | _, _ => row_less cols ascs a b
      end
  | _, _ => false
  end.

Definition with_child (op : option Operator)
    (k : Operator -> M Engine (option ResultRow * Operator))
  : M Engine (option ResultRow * Operator) :=
  match op with
  | Some c => k c
  | None => fault
  end.

(** [Operator::next(ctx, row)]: the row produced, if any, and the operator
    after the call.  A loop that opens the body of a [next] continues by
    entering [next] again. *)
Fixpoint next (fuel : nat) (op : Operator)
  : M Engine (option ResultRow * Operator) :=
  match fuel with
  | O => diverge
  | S fuel' =>
      match op with
      | TableScanOperator tid tname schema current_page current_slot page =>
          _ ← record_instructions 1;
          scan fuel' tid tname schema current_page current_slot page
      | FilterOperator child predicate =>
          with_child child (fun c =>
            '(r, c') ← next fuel' c;
            match r with
            | Some row =>
                _ ← record_instructions 5;
                if negb (bool_decide (is_Some predicate)) || evaluate_predicate row
                then mret (Some row, FilterOperator (Some c') predicate)
                else next fuel' (FilterOperator (Some c') predicate)
            | None => mret (None, FilterOperator (Some c') predicate)
            end)
      | LimitOperator child limit offset skipped returned =>
          with_child child (fun c =>
            if skipped <? offset then
              '(r, c') ← next fuel' c;
              match r with
              | Some _ =>
                  _ ← record_instructions 1;
                  next fuel' (LimitOperator (Some c') limit offset
                                (skipped + 1) returned)
              | None =>
                  mret (None, LimitOperator (Some c') limit offset skipped
                                returned)
              end
            else if (limit >=? 0) && (returned >=? limit) then
              mret (None, op)
            else
              '(r, c') ← next fuel' c;
              match r with
              | Some row =>
                  _ ← on_ctx Context.record_row_returned;
                  mret (Some row, LimitOperator (Some c') limit offset skipped
                                    (returned + 1))
              | None =>
                  mret (None, LimitOperator (Some c') limit offset skipped
                                returned)
              end)
      | SortOperator child cols ascs buffer current_row materialized =>
          let stream (buf : list ResultRow) (c : option Operator)
              : M Engine (option ResultRow * Operator) :=
            match buf !! current_row with
            | Some row =>
                mret (Some row, SortOperator c cols ascs buf (S current_row) true)
            | None => mret (None, SortOperator c cols ascs buf current_row true)
            end in
          if materialized then stream buffer child
          else
            with_child child (fun c =>
              '(r, c') ← next fuel' c;
              match r with
              | Some temp =>
                  _ ← record_instructions 2;
                  _ ← on_ctx Context.check_budget;
                  next fuel' (SortOperator (Some c') cols ascs (buffer ++ [temp])
                                current_row false)
              | None =>
                  let sorted := std_sort (row_less cols ascs) buffer in
                  _ ← record_instructions
                        (Z.of_nat (List.length sorted) * 10 mod 2^64);
                  stream sorted (Some c')
              end)
      end
  end.

(** [Operator::open(ctx)] *)
Fixpoint open (fuel : nat) (op : Operator) : M Engine Operator :=
  match op with
  | TableScanOperator tid tname schema _ _ _ =>
      page ← on_pm (PageManager.get_page fuel tid 0);
      _ ← record_instructions 10;
      mret (TableScanOperator tid tname schema 0 0 page)
  | FilterOperator child predicate =>
      match child with
      | Some c => c' ← open fuel c; mret (FilterOperator (Some c') predicate)
      | None => fault
      end
  | LimitOperator child limit offset _ _ =>
      match child with
      | Some c => c' ← open fuel c; mret (LimitOperator (Some c') limit offset 0 0)
      | None => fault
      end
  | SortOperator child cols ascs _ _ _ =>
      match child with
      | Some c => c' ← open fuel c; mret (SortOperator (Some c') cols ascs [] O false)
      | None => fault
      end
  end.

(** [Operator::close()] *)
Fixpoint close (op : Operator) : M Engine Operator :=
  match op with
  | TableScanOperator tid tname schema current_page current_slot _ =>
      mret (TableScanOperator tid tname schema current_page current_slot None)
  | FilterOperator child predicate =>
      match child with
      | Some c => c' ← close c; mret (FilterOperator (Some c') predicate)
      | None => fault
      end
  | LimitOperator child limit offset skipped returned =>
      match child with
      | Some c =>
          c' ← close c; mret (LimitOperator (Some c') limit offset skipped returned)
      | None => fault
      end
  | SortOperator child cols ascs _ current_row materialized =>
      match child with
      | Some c =>
          c' ← close c;
          mret (SortOperator (Some c') cols ascs [] current_row materialized)
      | None => fault
      end
  end.

(** [Operator::column_names()] *)
Fixpoint op_column_names (op : Operator) : M Engine (list string) :=
  match op with
  | TableScanOperator _ _ schema _ _ _ =>
      mret match schema with
           | Some ti => List.map Catalog.col_name (Catalog.columns ti)
           | None => []
           end
  | FilterOperator child _ | LimitOperator child _ _ _ _
  | SortOperator child _ _ _ _ _ =>
      match child with
      | Some c => op_column_names c
      | None => fault
      end
  end.

(** [Executor::build_operator] *)
Fixpoint build_operator (cat : Catalog.t) (plan : PlanNode) : option Operator :=
  match plan with
  | mkPlanNode TABLE_SCAN (TableScanNode _ tid tname _) =>
      Some (TableScanOperator tid tname (Catalog.get_table_by_id tid cat) 0 0 None)
  | mkPlanNode FILTER (FilterNode _ (Some child) predicate) =>
      Some (FilterOperator (build_operator cat child) predicate)
  | mkPlanNode LIMIT (LimitNode _ (Some child) limit offset) =>
      Some (LimitOperator (build_operator cat child) limit offset 0 0)
  | mkPlanNode SORT (SortNode _ (Some child) _ ascending) =>
      Some (SortOperator (build_operator cat child)
              (seq 0 (List.length ascending)) ascending [] O false)
  | _ => None
  end.

(** The loop of [execute_select]: the rows pushed and the operator at the
    end. *)
Fixpoint pull (fuel : nat) (op : Operator) (acc : list ResultRow)
  : M Engine (list ResultRow * Operator) :=
  match fuel with
  | O => diverge
  | S fuel' =>
      '(r, op') ← next fuel' op;
      match r with
      | Some row =>
          _ ← on_ctx Context.check_budget;
          pull fuel' op' (acc ++ [row])
      | None => mret (acc, op')
      end
  end.

Definition with_error (what : string) (r : ExecutionResult) : ExecutionResult :=
  {| success := success r; error := what; column_names := column_names r;
     rows := rows r; rows_affected := rows_affected r; stats := stats r |}.

Definition with_success (b : bool) (r : ExecutionResult) : ExecutionResult :=
  {| success := b; error := error r; column_names := column_names r;
     rows := rows r; rows_affected := rows_affected r; stats := stats r |}.

(** [Executor::execute_select] *)
Definition execute_select (fuel : nat) (plan : PlanNode)
  : M Engine ExecutionResult :=
  e ← get;
  match build_operator (catalog_ e) plan with
  | None => mret (with_error "Failed to build operator tree" default_result)
  | Some op =>
      op1 ← open fuel op;
      names ← op_column_names op1;
      '(rs, op2) ← pull fuel op1 [];
      _ ← close op2;
      mret {| success := true; error := ""; column_names := names; rows := rs;
              rows_affected := 0; stats := Context.mkExecutionStats 0 0 0 0 0 |}
  end.

(** [Executor::execute_insert], on the members of the [InsertNode]. *)
Definition execute_insert (table_name : string)
    (values : list (list Expression)) : M Engine ExecutionResult :=
  e ← get;
  match Catalog.get_table table_name (catalog_ e) with
  | None => mret (with_error ("Table not found: " +:+ table_name) default_result)
  | Some _ =>
      _ ← record_instructions (Z.of_nat (List.length values) * 20 mod 2^64);
      mret {| success := true; error := ""; column_names := []; rows := [];
              rows_affected := Z.of_nat (List.length values);
              stats := Context.mkExecutionStats 0 0 0 0 0 |}
  end.

Definition column_info_of (col : ColumnDef) : Catalog.ColumnInfo :=
  Catalog.mkColumnInfo (def_name col)
    (if String.eqb (def_type col) "INTEGER" then Catalog.INTEGER
     else if String.eqb (def_type col) "TEXT" then Catalog.TEXT
     else if String.eqb (def_type col) "FLOAT" then Catalog.FLOAT
     else if String.eqb (def_type col) "BOOLEAN" then Catalog.BOOLEAN
     else if String.eqb (def_type col) "BLOB" then Catalog.BLOB
     else Catalog.TEXT)
    (def_not_null col) (def_primary_key col) 0.

(** [Executor::execute_create_table] *)
Definition execute_create_table (table_name : string)
    (columns : list ColumnDef) (if_not_exists : bool)
  : M Engine ExecutionResult :=
  e ← get;
  if negb if_not_exists && Catalog.table_exists table_name (catalog_ e) then
    mret (with_error ("Table already exists: " +:+ table_name) default_result)
  else
    let '(table_id, cat') :=
      Catalog.create_table table_name (List.map column_info_of columns)
        (catalog_ e) in
    _ ← set_catalog cat';
    if (table_id =? 0) && negb if_not_exists then
      mret (with_error "Failed to create table" default_result)
    else
      _ ← record_instructions 100;
      mret (with_success true default_result).

(** [Executor::execute_drop_table] *)
Definition execute_drop_table (table_name : string) (if_exists : bool)
  : M Engine ExecutionResult :=
  e ← get;
  if negb (Catalog.table_exists table_name (catalog_ e)) then
    if negb if_exists then
      mret (with_error ("Table not found: " +:+ table_name) default_result)
    else
      _ ← record_instructions 50;
      mret (with_success true default_result)
  else
    _ ← set_catalog (snd (Catalog.drop_table table_name (catalog_ e)));
    _ ← record_instructions 50;
    mret (with_success true default_result).

(** The [switch] of [Executor::execute]. *)
Definition dispatch (fuel : nat) (plan : PlanNode) : M Engine ExecutionResult :=
  match plan with
  | mkPlanNode ty nd =>
      match ty with
      | TABLE_SCAN | FILTER | PROJECT | SORT | LIMIT | AGGREGATE =>
          execute_select fuel plan
      | INSERT =>
          match nd with
          | InsertNode _ _ table_name _ values => execute_insert table_name values
          | _ => mret (with_success false default_result)
          end
      | CREATE_TABLE =>
          match nd with
          | CreateTableNode _ table_name columns if_not_exists =>
              execute_create_table table_name columns if_not_exists
          | _ => mret (with_success false default_result)
          end
      | DROP_TABLE =>
          match nd with
          | DropTableNode _ table_name if_exists =>
              execute_drop_table table_name if_exists
          | _ => mret (with_success false default_result)
          end
      | INDEX_SCAN =>
          mret (with_error "Unsupported plan type" default_result)
      end
  end.

(** [Executor::execute] *)
Definition execute (fuel : nat) (plan : PlanNode) : M Engine ExecutionResult :=
  _ ← on_ctx Context.start;
  result ← try_catch (dispatch fuel plan)
              (fun what => mret (with_error what (with_success false default_result)));
  _ ← on_ctx Context.finalize;
  e ← get;
  mret {| success := success result; error := error result;
          column_names := column_names result; rows := rows result;
          rows_affected := rows_affected result;
          stats := Context.stats_ (ctx e) |}.

End WithLibrary.

End Executor.

(** ** Transactions (rw_lock.hpp, rw_lock.cpp, transaction.hpp,
       transaction.cpp) *)

Module Transaction.

(** The members of [RWLock] that its mutex protects. *)
Record RWLock : Type := mkRWLock {
  readers_ : Z;           (* int *)
  writer_ : bool;
  waiting_writers_ : Z    (* int *)
}.

Definition unlocked : RWLock := mkRWLock 0 false 0.

(** [RWLock::lock_read]: [true] and the lock when the call returns;
    [false] and the lock while the calling thread waits. *)
Definition lock_read (l : RWLock) : bool * RWLock :=
  if negb (writer_ l) && (waiting_writers_ l =? 0)
  then (true, mkRWLock (readers_ l + 1) (writer_ l) (waiting_writers_ l))
  else (false, l).

(** [RWLock::unlock_read] *)
Definition unlock_read (l : RWLock) : RWLock :=
  mkRWLock (readers_ l - 1) (writer_ l) (waiting_writers_ l).

(** The wait of [lock_write] and the statements after it: once there is
    neither a reader nor a writer, the waiting thread is no longer counted
    in [waiting_writers_] and holds the lock.  [None]: it keeps waiting. *)
Definition leave_write_wait (l : RWLock) : option RWLock :=
  if (readers_ l =? 0) && negb (writer_ l)
  then Some (mkRWLock (readers_ l) true (waiting_writers_ l - 1))
  else None.

(** [RWLock::lock_write]: [true] and the lock when the call returns;
    [false] and the lock while the calling thread waits, counted in
    [waiting_writers_]. *)
Definition lock_write (l : RWLock) : bool * RWLock :=
  let counted :=
    mkRWLock (readers_ l) (writer_ l) (waiting_writers_ l + 1) in
  match leave_write_wait counted with
  | Some l' => (true, l')
  | None => (false, counted)
  end.

(** [RWLock::unlock_write] *)
Definition unlock_write (l : RWLock) : RWLock :=
  mkRWLock (readers_ l) false (waiting_writers_ l).

(** [RWLock::try_lock_write], the mutex being free. *)
Definition try_lock_write (l : RWLock) : bool * RWLock :=
  if (readers_ l >? 0) || writer_ l then (false, l)
  else (true, mkRWLock (readers_ l) true (waiting_writers_ l)).

Inductive TransactionState : Type := ACTIVE | COMMITTED | ABORTED.

Record Transaction : Type := mkTransaction {
  id_ : Z;                 (* uint64_t *)
  read_only_ : bool;
  state_ : TransactionState;
  start_time_ : Z
}.

(** [Transaction(id, read_only)], the clock reading [now]. *)
Definition new_transaction (id : Z) (read_only : bool) (now : Z) : Transaction :=
  {| id_ := id; read_only_ := read_only; state_ := ACTIVE; start_time_ := now |}.

Definition state (t : Transaction) : TransactionState := state_ t.
Definition is_read_only (t : Transaction) : bool := read_only_ t.

(** [Transaction::commit] and [Transaction::abort] *)
Definition txn_commit (t : Transaction) : Transaction :=
  {| id_ := id_ t; read_only_ := read_only_ t; state_ := COMMITTED;
     start_time_ := start_time_ t |}.
Definition txn_abort (t : Transaction) : Transaction :=
  {| id_ := id_ t; read_only_ := read_only_ t; state_ := ABORTED;
     start_time_ := start_time_ t |}.

Record TransactionManager : Type := mkTransactionManager {
  lock_ : RWLock;
  next_id_ : Z;        (* std::atomic<uint64_t> *)
  active_count_ : Z    (* std::atomic<uint64_t> *)
}.

(** The singleton before its first use. *)
Definition instance : TransactionManager :=
  {| lock_ := unlocked; next_id_ := 1; active_count_ := 0 |}.

Definition u64 (z : Z) : Z := z mod 2^64.

(** The statements of the [begin_*] functions after the lock is taken. *)
Definition start_transaction (read_only : bool) (now : Z) (l : RWLock)
    (tm : TransactionManager) : Transaction * TransactionManager :=
  (new_transaction (next_id_ tm) read_only now,
   {| lock_ := l; next_id_ := u64 (next_id_ tm + 1);
      active_count_ := u64 (active_count_ tm + 1) |}).

(** The manager while a caller waits inside [lock_]. *)
Definition waiting_in (l : RWLock) (tm : TransactionManager)
  : TransactionManager :=
  {| lock_ := l; next_id_ := next_id_ tm; active_count_ := active_count_ tm |}.

(** [TransactionManager::begin_read]: the handle and the manager when the
    call returns; no handle, and the manager as it then is, while the
    caller waits for the lock. *)
Definition begin_read (now : Z) (tm : TransactionManager)
  : option Transaction * TransactionManager :=
  match lock_read (lock_ tm) with
  | (true, l) => let '(t, tm') := start_transaction true now l tm in (Some t, tm')
  | (false, l) => (None, waiting_in l tm)
  end.

(** [TransactionManager::begin_write]: as [begin_read]. *)
Definition begin_write (now : Z) (tm : TransactionManager)
  : option Transaction * TransactionManager :=
  match lock_write (lock_ tm) with
  | (true, l) => let '(t, tm') := start_transaction false now l tm in (Some t, tm')
  | (false, l) => (None, waiting_in l tm)
  end.

(** The caller that waits in [begin_write] once the lock is free: it takes
    the lock and the function goes on.  [None]: it keeps waiting. *)
Definition resume_begin_write (now : Z) (tm : TransactionManager)
  : option (Transaction * TransactionManager) :=
  match leave_write_wait (lock_ tm) with
  | Some l => Some (start_transaction false now l tm)
  | None => None
  end.

(** [TransactionManager::try_begin_write]: the handle is null when the lock
    is not free. *)
Definition try_begin_write (now : Z) (tm : TransactionManager)
  : option Transaction * TransactionManager :=
  match try_lock_write (lock_ tm) with
  | (true, l) => let '(t, tm') := start_transaction false now l tm in (Some t, tm')
  | (false, _) => (None, tm)
  end.

(** [TransactionManager::end_transaction] *)
Definition end_transaction (t : Transaction) (tm : TransactionManager)
  : TransactionManager :=
  {| lock_ := if is_read_only t then unlock_read (lock_ tm)
              else unlock_write (lock_ tm);
     next_id_ := next_id_ tm;
     active_count_ := u64 (active_count_ tm - 1) |}.

(** [TransactionManager::commit] and [TransactionManager::abort]: the
    transaction and the manager after the call. *)
Definition commit (t : Transaction) (tm : TransactionManager)
  : Transaction * TransactionManager :=
  (txn_commit t, end_transaction (txn_commit t) tm).

Definition abort (t : Transaction) (tm : TransactionManager)
  : Transaction * TransactionManager :=
  (txn_abort t, end_transaction (txn_abort t) tm).

(** The destructor of the [std::unique_ptr<Transaction>] that the [begin_*]
    functions return: [~Transaction] is the implicit one, so the object is
    freed in the state it has and the manager is not involved. *)
Definition drop_handle (h : option Transaction) (tm : TransactionManager)
  : option Transaction * TransactionManager := (h, tm).

(** [TransactionGuard]: the member [txn_]. *)
Record TransactionGuard : Type := mkTransactionGuard {
  txn_ : option Transaction
}.

(** [TransactionGuard::abort] *)
Definition guard_abort (g : TransactionGuard) (tm : TransactionManager)
  : TransactionGuard * TransactionManager :=
  match txn_ g with
  | Some t => let '(t', tm') := abort t tm in (mkTransactionGuard (Some t'), tm')
  | None => (g, tm)
  end.

(** [TransactionGuard::commit] *)
Definition guard_commit (g : TransactionGuard) (tm : TransactionManager)
  : TransactionGuard * TransactionManager :=
  match txn_ g with
  | Some t => let '(t', tm') := commit t tm in (mkTransactionGuard (Some t'), tm')
  | None => (g, tm)
  end.

(** [TransactionGuard::~TransactionGuard]: the transaction as the destructor
    leaves it, just before its storage is freed, and the manager. *)
Definition drop_guard (g : TransactionGuard) (tm : TransactionManager)
  : option Transaction * TransactionManager :=
  match txn_ g with
  | Some t =>
      match state t with
      | ACTIVE => let '(g', tm') := guard_abort g tm in (txn_ g', tm')
      | _ => (txn_ g, tm)
      end
  | None => (None, tm)
  end.

End Transaction.

(** * Specification-level notions *)

Module Spec.

(** The first violation in the order of [check_budget], by the words of the
    specification, with the strict memory comparison of the allocator: the
    time elapsed and [max_time] are compared as numbers, the one in
    nanoseconds and the other in milliseconds. *)
Definition first_violation (c : Context.ExecutionContext)
  : Context.BudgetViolation :=
  if Context.aborted_ c then Context.ABORTED
  else if Context.started_ c &&
          (Context.clock_ c (Context.clock_reads_ c) - Context.start_time_ c
           >? Context.max_time (Context.budget_ c) * 1000000)
  then Context.TIMEOUT
  else if Context.instructions_executed (Context.stats_ c)
          >=? Context.max_instructions (Context.budget_ c)
  then Context.INSTRUCTIONS_EXCEEDED
  else if Context.rows_returned (Context.stats_ c)
          >=? Context.max_result_rows (Context.budget_ c)
  then Context.ROWS_EXCEEDED
  else if Context.bytes_used_ (Context.allocator_ c)
          >? Context.memory_limit_ (Context.allocator_ c)
  then Context.MEMORY_EXCEEDED
  else Context.NONE.

(** The fields of a record header lie in the ranges of their C++ types. *)
Definition header_in_range (h : Wal.WalRecordHeader) : Prop :=
  0 <= Wal.lsn h < 2^64 /\ 0 <= Wal.length h < 2^32 /\
  0 <= Wal.crc32 h < 2^32 /\ 0 <= Wal.type h < 2^8 /\
  0 <= Wal.reserved h < 2^24 /\ 0 <= Wal.table_id h < 2^32 /\
  0 <= Wal.page_id h < 2^32 /\ 0 <= Wal.slot_id h < 2^16 /\
  0 <= Wal.padding h < 2^16.

(** A record as [Wal::append] writes it: the header length is the header
    size plus the payload size and the checksum is that of the payload. *)
Definition well_formed (r : Wal.WalRecord) : Prop :=
  header_in_range (Wal.header r) /\
  Wal.length (Wal.header r) = Wal.serialized_size r /\
  Wal.crc32 (Wal.header r) = Wal.compute_crc32 (Wal.payload r).

(** A record that a caller may hand to [Wal::append] and that
    [Wal::read_from] can read back: the fields that [append] keeps are in
    range and the serialized record fits the 64 KiB read buffer. *)
Definition appendable (r : Wal.WalRecord) : Prop :=
  0 <= Wal.type (Wal.header r) < 2^8 /\
  0 <= Wal.reserved (Wal.header r) < 2^24 /\
  0 <= Wal.table_id (Wal.header r) < 2^32 /\
  0 <= Wal.page_id (Wal.header r) < 2^32 /\
  0 <= Wal.slot_id (Wal.header r) < 2^16 /\
  0 <= Wal.padding (Wal.header r) < 2^16 /\
  Wal.serialized_size r <= Wal.READ_BUFFER_SIZE.

(** The bytes of a serialized record. *)
Definition image (r : Wal.WalRecord) : list byte :=
  Wal.encode_header (Wal.header r) ++ Wal.payload r.

(** The records that successive calls of [Wal::append] write for [rs],
    the first one at LSN [cur]. *)
Fixpoint stamped (cur : Z) (rs : list Wal.WalRecord) : list Wal.WalRecord :=
  match rs with
  | [] => []
  | r :: rest => Wal.stamp cur r :: stamped ((cur + 1) mod 2^64) rest
  end.

(** The log after the loss of the last [n] bytes of its file. *)
Definition truncate_tail (n : nat) (w : Wal.Wal) : Wal.Wal :=
  {| Wal.file_ :=
       match Wal.file_ w with
       | Some bytes => Some (take (List.length bytes - n) bytes)
       | None => None
       end;
     Wal.current_lsn_ := Wal.current_lsn_ w;
     Wal.is_open_ := Wal.is_open_ w |}.

End Spec.

(** ** Sequences of page operations *)

Module PageSpec.

Inductive op : Type :=
| Insert (data : list byte)
| Update (slot : Z) (data : list byte)
| Delete (slot : Z).

Definition len (data : list byte) : Z := Z.of_nat (List.length data).

(** The arguments of the call are values of its [uint16_t] parameters. *)
Definition representable (o : op) : Prop :=
  match o with
  | Insert d => len d < 65536
  | Update s d => 0 <= s < 65536 /\ len d < 65536
  | Delete s => 0 <= s < 65536
  end.

Definition is_insert (o : op) : Prop :=
  match o with Insert _ => True | _ => False end.

(** One call on the page.  The second component records, by slot index,
    the last successful write: [Some data] after an insert or update of
    [data], [None] after a delete.  A call that returns [false] changes
    neither; the result is [None] when the call has no defined behaviour. *)
Definition step (o : op) (st : Page.Page * gmap Z (option (list byte)))
  : option (Page.Page * gmap Z (option (list byte))) :=
  match o with
  | Insert d =>
      match Page.insert_record d (len d) (fst st) with
      | Done (i, p') => Some (p', <[i := Some d]> (snd st))
      | Refused => Some st
      | Crash => None
      end
  | Update s d =>
      match Page.update_record s d (len d) (fst st) with
      | Done p' => Some (p', <[s := Some d]> (snd st))
      | Refused => Some st
      | Crash => None
      end
  | Delete s =>
      match Page.delete_record s (fst st) with
      | Done p' => Some (p', <[s := None]> (snd st))
      | Refused => Some st
      | Crash => None
      end
  end.

Fixpoint run (ops : list op) (st : Page.Page * gmap Z (option (list byte)))
  : option (Page.Page * gmap Z (option (list byte))) :=
  match ops with
  | [] => Some st
  | o :: rest =>
      match step o st with
      | Some st' => run rest st'
      | None => None
      end
  end.

(** The sum of the lengths of the records that [get_record] finds. *)
Definition live_record_bytes (p : Page.Page) : Z :=
  fold_right
    (fun i acc =>
       match Page.get_record (Z.of_nat i) p with
       | Done (_, l) => l + acc
       | _ => acc
       end)
    0 (seq 0 (Z.to_nat (Page.slot_count (Page.header p)))).

(** The bytes that the record region takes from the page. *)
Definition reserved_record_bytes (p : Page.Page) : Z :=
  Page.PAGE_SIZE - Page.data_start (Page.header p).

(** The abstract view of a slot: the length it was inserted with, which is
    the room it keeps in the record region, and its current content. *)
Record aslot : Type := mkAslot {
  cap : Z;
  content : option (list byte)
}.

Definition total_cap (A : list aslot) : Z :=
  fold_right (fun a acc => cap a + acc) 0 A.

(** Where the room of slot [i] starts. *)
Definition extent_off (A : list aslot) (i : nat) : Z :=
  Page.PAGE_SIZE - total_cap (take (S i) A).

Definition slot_ok (p : Page.Page) (i : nat) (off : Z) (a : aslot) : Prop :=
  0 <= cap a /\
  match content a with
  | Some bs =>
      Page.decode_slot (Mem.peek (24 + 4 * i) 4 p)
      = Page.mkSlotEntry off (len bs) /\
      len bs <= cap a /\
      Mem.peek (Z.to_nat off) (List.length bs) p = bs
  | None =>
      Page.decode_slot (Mem.peek (24 + 4 * i) 4 p)
      = Page.mkSlotEntry 0xFFFF 0
  end.

(** The page [p] represents the slots [A]. *)
Record represents (p : Page.Page) (A : list aslot) : Prop := mkRepresents {
  rep_length : List.length p = Z.to_nat Page.PAGE_SIZE;
  rep_slot_count : Page.slot_count (Page.header p) = Z.of_nat (List.length A);
  rep_data_start :
    Page.data_start (Page.header p) = Page.PAGE_SIZE - total_cap A;
  rep_free_space :
    Page.free_space (Page.header p)
    = Page.data_start (Page.header p) - 24 - 4 * Z.of_nat (List.length A);
  rep_gap : 0 <= Page.free_space (Page.header p);
  rep_slots : forall i a, A !! i = Some a -> slot_ok p i (extent_off A i) a
}.

(** The record of last writes [sh] agrees with the slots [A]. *)
Definition tracks (sh : gmap Z (option (list byte))) (A : list aslot) : Prop :=
  forall i : Z,
    sh !! i = if decide (0 <= i < Z.of_nat (List.length A))
              then content <$> (A !! Z.to_nat i) else None.

(** Every slot holds a record of the length it was inserted with. *)
Definition tight (A : list aslot) : Prop :=
  Forall (fun a => exists bs, content a = Some bs /\ cap a = len bs) A.

Definition live_cap (A : list aslot) : Z :=
  fold_right
    (fun a acc => match content a with Some bs => len bs + acc | None => acc end)
    0 A.

End PageSpec.

(** ** The buffer pool that a program can reach *)

Module PoolSpec.
Import PageManager.

(** The list nodes are distinct and older than [next_node_]; an iterator of
    [lru_map_] denotes a node of its own key, if the node is still in the
    list; every resident page has a node. *)
Record nodes_ok (pm : t) : Prop := mkNodesOk {
  nodes_distinct : NoDup (List.map fst (lru_list_ pm));
  nodes_old : forall n k, In (n, k) (lru_list_ pm) -> (n < next_node_ pm)%nat;
  iterators_old : forall k n, lru_map_ pm !! k = Some n -> (n < next_node_ pm)%nat;
  iterators_own : forall k n k',
      lru_map_ pm !! k = Some n -> In (n, k') (lru_list_ pm) -> k' = k;
  resident_listed : forall k,
      is_Some (buffer_pool_ pm !! k) -> exists n, In (n, k) (lru_list_ pm)
}.

(** The page managers that a program can hold: built by the constructor and
    changed by the public member functions and by assignments through the
    page pointers that [get_page] hands out.  The table and page ids that
    a caller passes for a page to load or to allocate are values of their
    [uint32_t] parameters. *)
Inductive reachable (max_pages : Z) : t -> Prop :=
| reach_new files : reachable max_pages (new max_pages files)
| reach_get_page pm fuel tid pid r pm' :
    reachable max_pages pm ->
    0 <= tid < 2^32 -> 0 <= pid < 2^32 ->       (* uint32_t arguments *)
    get_page fuel tid pid pm = Val r pm' ->
    reachable max_pages pm'
| reach_allocate_page pm fuel tid r pm' :
    reachable max_pages pm ->
    0 <= tid < 2^32 ->
    allocate_page fuel tid pm = Val r pm' ->
    reachable max_pages pm'
| reach_mark_dirty pm tid pid :
    reachable max_pages pm -> reachable max_pages (mark_dirty tid pid pm)
| reach_flush_page pm tid pid :
    reachable max_pages pm -> reachable max_pages (flush_page tid pid pm)
| reach_flush_all pm :
    reachable max_pages pm -> reachable max_pages (snd (flush_all pm))
| reach_create_table_file pm tid :
    reachable max_pages pm -> reachable max_pages (create_table_file tid pm)
| reach_delete_table_file pm tid :
    reachable max_pages pm -> reachable max_pages (delete_table_file tid pm)
| reach_close pm :
    reachable max_pages pm -> reachable max_pages (close pm)
| reach_assign pm key pg pm' :
    reachable max_pages pm -> assign key pg pm = Val tt pm' ->
    reachable max_pages pm'.

(** The list is sound and the pool holds no more pages than its capacity. *)
Definition within (pm : t) : Prop :=
  nodes_ok pm /\ page_count pm <= max_pages_ pm.

(** No resident page has a negative page id, and no page counter is
    negative. *)
Definition ids_in_range (pm : t) : Prop :=
  (forall key e, buffer_pool_ pm !! key = Some e -> 0 <= snd key) /\
  (forall tid n, next_page_id_ pm !! tid = Some n -> 0 <= n).

(** The page image at index [pid] of the file of table [tid]. *)
Definition on_disk (files : gmap Z (list Page.Page)) (tid pid : Z)
  : option Page.Page :=
  match files !! tid with
  | Some f => f !! Z.to_nat pid
  | None => None
  end.

End PoolSpec.

(** ** The Sort operator in the words of the specification *)

Module SortSpec.
Import Executor.

Section WithLibrary.

Variable Expression : Type.
Variable std_sort :
  (ResultRow -> ResultRow -> bool) -> list ResultRow -> list ResultRow.

(** Draining the child: each row is pushed on the buffer, two instructions
    are charged and the budget is checked; the result is the buffer and the
    child once it is exhausted. *)
Fixpoint drain (fuel : nat) (c : Operator Expression) (buffer : list ResultRow)
  : M Engine (list ResultRow * Operator Expression) :=
  match fuel with
  | O => diverge
  | S fuel' =>
      '(r, c') ← next Expression std_sort fuel' c;
      match r with
      | Some temp =>
          _ ← record_instructions 2;
          _ ← on_ctx Context.check_budget;
          drain fuel' c' (buffer ++ [temp])
      | None => mret (buffer, c')
      end
  end.

(** The integer that a row holds in a column, if it holds one there. *)
Definition int_key (col : nat) (row : ResultRow) : option Z :=
  match row !! col with
  | Some (INTEGER v) => Some v
  | _ => None
  end.

(** What the drain does besides pushing rows, for [n] rows: after each row
    two instructions are charged and the budget is checked. *)
Fixpoint charge (n : nat) : M Engine unit :=
  match n with
  | O => mret tt
  | S n' =>
      _ ← record_instructions 2;
      _ ← on_ctx Context.check_budget;
      charge n'
  end.

End WithLibrary.

(** The comparison [less] induces a strict weak ordering on the elements
    of [l]: it is irreflexive and transitive, and so is the relation of
    the elements that it does not tell apart. *)
Definition strict_weak (less : ResultRow -> ResultRow -> bool)
    (l : list ResultRow) : Prop :=
  (forall a, In a l -> less a a = false) /\
  (forall a b c, In a l -> In b l -> In c l ->
     less a b = true -> less b c = true -> less a c = true) /\
  (forall a b c, In a l -> In b l -> In c l ->
     less a b = false -> less b a = false ->
     less b c = false -> less c b = false ->
     less a c = false /\ less c a = false).

(** No row of [l] is ordered before a row that precedes it. *)
Definition ordered (less : ResultRow -> ResultRow -> bool)
    (l : list ResultRow) : Prop :=
  forall i j a b, (i < j)%nat -> l !! i = Some a -> l !! j = Some b ->
    less b a = false.

(** The contract of [std::sort(first, last, comp)]: when [comp] induces a
    strict weak ordering on the elements, the call leaves a permutation of
    them that is ordered by [comp].  The order of elements that [comp]
    does not tell apart is not determined, and nothing is known of the
    result for another [comp]. *)
Definition sorts
    (std_sort : (ResultRow -> ResultRow -> bool) -> list ResultRow ->
                list ResultRow) : Prop :=
  forall less l, strict_weak less l ->
    Permutation (std_sort less l) l /\ ordered less (std_sort less l).

(** In each sort column either every row holds an integer or none does. *)
Definition uniform (cols : list nat) (rows : list ResultRow) : Prop :=
  forall col a b, In col cols -> In a rows -> In b rows ->
    int_key col a = None -> int_key col b = None.

End SortSpec.

(** * Concrete states used in the examples *)

Module Sample.

(** A clock that stands still. *)
Definition frozen_clock : nat -> Z := fun _ => 0.

(** A context whose allocator has used exactly its limit of 64 bytes. *)
Definition ctx_at_memory_cap : Context.ExecutionContext :=
  Context.new (Context.mkQueryBudget 64 1000 30000 1000)
    (Context.mkQueryAllocator 64 64) frozen_clock.

(** A context whose allocator is one byte over its limit. *)
Definition ctx_over_memory_cap : Context.ExecutionContext :=
  Context.new (Context.mkQueryBudget 64 1000 30000 1000)
    (Context.mkQueryAllocator 64 65) frozen_clock.

(** A started context, one byte over its memory limit and within its other
    limits. *)
Definition ctx_started_over_memory_cap : Context.ExecutionContext :=
  let c := ctx_over_memory_cap in
  match Context.start c with
  | Val _ c' => c'
  | _ => c
  end.

(** A started context whose time limit, 9223372036855 ms, is the least
    one whose count of nanoseconds does not fit an [int64_t]. *)
Definition ctx_huge_time_limit : Context.ExecutionContext :=
  let c := Context.new (Context.mkQueryBudget 64 1000 9223372036855 1000)
             (Context.mkQueryAllocator 64 0) frozen_clock in
  match Context.start c with
  | Val _ c' => c'
  | _ => c
  end.

(** A log record as a caller of [Wal::append] builds it. *)
Definition record (ty : Wal.WalRecordType) (tid pid slot : Z)
    (pl : list byte) : Wal.WalRecord :=
  Wal.mkWalRecord
    (Wal.mkWalRecordHeader 0 0 0 (Wal.type_code ty) 0 tid pid slot 0) pl.

(** A freshly created and opened log. *)
Definition fresh_wal : Wal.Wal :=
  {| Wal.file_ := Some Wal.initial_file; Wal.current_lsn_ := 1;
     Wal.is_open_ := true |}.

Definition append_all (rs : list Wal.WalRecord) (w : Wal.Wal) : Wal.Wal :=
  fold_left (fun acc r => snd (Wal.append r acc)) rs w.

(** A log holding one INSERT record and no CHECKPOINT. *)
Definition wal_one_insert : Wal.Wal :=
  append_all [record Wal.INSERT 1 0 0 [x41]] fresh_wal.

(** A log holding the insertion of a row into slot 0 of page 0 of table 1
    and then the deletion of that row. *)
Definition wal_insert_delete : Wal.Wal :=
  append_all [record Wal.INSERT 1 0 0 [x41]; record Wal.DELETE 1 0 0 []]
    fresh_wal.

(** A record whose serialized form is one byte longer than the read buffer
    of [Wal::read_from]. *)
Definition oversized_record : Wal.WalRecord :=
  record Wal.INSERT 1 0 0 (replicate (Z.to_nat 65505) x00).

(** An empty buffer pool of four pages over no table file. *)
Definition empty_pool : PageManager.t := PageManager.new 4 ∅.

(** Page 0 of a table with two live one-byte records. *)
Definition page_two_records : Page.Page :=
  match Page.insert_record [x41] 1 (Page.init 0 Page.FLAG_LEAF) with
  | Done (_, p) =>
      match Page.insert_record [x42] 1 p with
      | Done (_, p') => p'
      | _ => p
      end
  | _ => Page.init 0 Page.FLAG_LEAF
  end.

(** A catalog with the table "t" (id 1) of one INTEGER column. *)
Definition catalog_t : Catalog.t :=
  snd (Catalog.create_table "t"
         [Catalog.mkColumnInfo "id" Catalog.INTEGER false false 0]
         Catalog.empty).

(** An engine whose table 1 holds [page_two_records] on disk, for a query
    limited to [max_rows] result rows. *)
Definition engine (max_rows : Z) : Executor.Engine :=
  {| Executor.ctx :=
       Context.new (Context.mkQueryBudget 1000000 1000000 30000 max_rows)
         (Context.mkQueryAllocator 1000000 0) frozen_clock;
     Executor.page_manager_ := PageManager.new 4 {[ 1 := [page_two_records] ]};
     Executor.catalog_ := catalog_t;
     Executor.wal := fresh_wal |}.

Definition scan_plan (Expression : Type) : Executor.PlanNode Expression :=
  Executor.mkPlanNode _ Executor.TABLE_SCAN
    (Executor.TableScanNode _ _ 1 "t" []).

Definition insert_plan {Expression : Type} (e : Expression)
  : Executor.PlanNode Expression :=
  Executor.mkPlanNode _ Executor.INSERT
    (Executor.InsertNode _ _ 1 "t" [] [[e]]).

(** A sorting function with the contract of [std::sort], for running
    plans: insertion sort, which keeps the order of rows that the
    comparison does not tell apart. *)
Fixpoint insert_sorted (less : Executor.ResultRow -> Executor.ResultRow -> bool)
    (x : Executor.ResultRow) (l : list Executor.ResultRow)
  : list Executor.ResultRow :=
  match l with
  | [] => [x]
  | y :: l' => if less y x then y :: insert_sorted less x l' else x :: y :: l'
  end.

Definition insertion_sort
    (less : Executor.ResultRow -> Executor.ResultRow -> bool)
    (l : list Executor.ResultRow) : list Executor.ResultRow :=
  fold_right (insert_sorted less) [] l.

(** What recovery leaves in page 0 of table 1: its verdict, the header of
    the page and the result of [get_record] for slots 0 and 1. *)
Definition observed (r : res Recovery.t bool)
  : option (bool * Page.PageHeader * outcome (Z * Z) * outcome (Z * Z)) :=
  match r with
  | Val ok rm =>
      match PageManager.buffer_pool_ (Recovery.page_manager_ rm) !! (1, 0) with
      | Some e =>
          Some (ok, Page.header (PageManager.page e),
                Page.get_record 0 (PageManager.page e),
                Page.get_record 1 (PageManager.page e))
      | None => None
      end
  | _ => None
  end.

(** [recover(); recover();] *)
Definition recover_twice (fuel : nat) : M Recovery.t bool :=
  _ ← Recovery.recover fuel; Recovery.recover fuel.

(** An operator that yields the given rows and then nothing: a sort
    operator whose buffer is already materialized. *)
Definition row_source (Expression : Type) (rows : list Executor.ResultRow)
  : Executor.Operator Expression :=
  Executor.SortOperator Expression None [] [] rows O true.

(** A freshly opened sort operator over the given rows. *)
Definition sort_over (Expression : Type) (rows : list Executor.ResultRow)
    (cols : list nat) (ascs : list bool) : Executor.Operator Expression :=
  Executor.SortOperator Expression (Some (row_source Expression rows))
    cols ascs [] O false.

(** The rows that successive calls of [next] return before the first call
    that returns [false]. *)
Fixpoint streamed (fuel : nat) (op : Executor.Operator unit)
    (e : Executor.Engine) : option (list Executor.ResultRow) :=
  match fuel with
  | O => None
  | S fuel' =>
      match Executor.next unit insertion_sort fuel op e with
      | Val (Some row, op') e' =>
          match streamed fuel' op' e' with
          | Some rows => Some (row :: rows)
          | None => None
          end
      | Val (None, _) _ => Some []
      | _ => None
      end
  end.

(** A sequence of calls on a page, and the page and the record of writes
    that a sequence of calls leaves. *)
Definition page_calls : list PageSpec.op :=
  [PageSpec.Insert [x41; x42]; PageSpec.Insert [x43];
   PageSpec.Update 0 [x44]; PageSpec.Delete 1].

Definition after_calls (ops : list PageSpec.op)
  : Page.Page * gmap Z (option (list byte)) :=
  default (Page.init 7 Page.FLAG_LEAF, ∅)
    (PageSpec.run ops (Page.init 7 Page.FLAG_LEAF, ∅)).

End Sample.

(** ** Notions for the properties of the executor *)

Module ExecutorSpec.
Import Executor.

(** The counter that [check_rows] compares and the cap it compares with. *)
Definition returned (e : Engine) : Z :=
  Context.rows_returned (Context.stats_ (ctx e)).

Definition row_cap (e : Engine) : Z :=
  Context.max_result_rows (Context.budget_ (ctx e)).

Section WithExpression.

Variable Expression : Type.

(** Operator trees without a limit operator: nothing in them calls
    [record_row_returned]. *)
Fixpoint limit_free (op : Operator Expression) : bool :=
  match op with
  | TableScanOperator _ _ _ _ _ _ _ => true
  | FilterOperator _ child _ | SortOperator _ child _ _ _ _ _ =>
      match child with
      | Some c => limit_free c
      | None => true
      end
  | LimitOperator _ _ _ _ _ _ => false
  end.

End WithExpression.

Section WithLibrary.

Variable Expression : Type.
Variable std_sort :
  (ResultRow -> ResultRow -> bool) -> list ResultRow -> list ResultRow.

(** [execute] returns a failure with the message [what] and an otherwise
    empty result, and leaves the catalog and the buffer pool as they
    were. *)
Definition fails_with (fuel : nat) (plan : PlanNode Expression) (e : Engine)
    (what : string) : Prop :=
  exists r e',
    execute Expression std_sort fuel plan e = Val r e' /\
    success r = false /\ error r = what /\ rows r = [] /\
    column_names r = [] /\ rows_affected r = 0 /\
    catalog_ e' = catalog_ e /\ page_manager_ e' = page_manager_ e.

End WithLibrary.

End ExecutorSpec.

(** ** The catalogs that a program can build *)

Module CatalogSpec.
Import Catalog.

(** Every entry is stored under its own name, its id is below the next id
    and the index by id leads to it; every id of the index leads to an
    entry with that id. *)
Definition consistent (c : t) : Prop :=
  1 <= next_table_id_ c < 2^32 /\
  (forall n ti, tables_by_name_ c !! n = Some ti ->
     name ti = n /\ 1 <= id ti < next_table_id_ c /\
     tables_by_id_ c !! id ti = Some n) /\
  (forall i n, tables_by_id_ c !! i = Some n ->
     exists ti, tables_by_name_ c !! n = Some ti /\ id ti = i).

(** The catalogs built from the empty one by [create_table] and
    [drop_table], before the 32-bit table id runs out. *)
Inductive reachable : t -> Prop :=
| reach_empty : reachable empty
| reach_create_table c n cols :
    reachable c -> next_table_id_ c < 2^32 - 1 ->
    reachable (snd (create_table n cols c))
| reach_drop_table c n :
    reachable c -> reachable (snd (drop_table n c)).

End CatalogSpec.

(** ** Arena (arena.hpp, arena.cpp) *)

Module Arena.

(** A block: the array [data], its size and the bytes used. *)
Record Block : Type := mkBlock {
  data : list byte;    (* std::unique_ptr<uint8_t[]> *)
  size : Z;            (* size_t *)
  used : Z             (* size_t *)
}.

Record t : Type := mkArena {
  block_size_ : Z;       (* size_t *)
  blocks_ : list Block;
  current_block_ : nat;  (* size_t, an index into blocks_ or its size *)
  bytes_allocated_ : Z;  (* size_t *)
  capacity_ : Z          (* size_t *)
}.

Definition size_t (z : Z) : Z := z mod 2^64.

(** [Arena::align_up]: [(value + alignment - 1) & ~(alignment - 1)] *)
Definition align_up (value alignment : Z) : Z :=
  Z.land (size_t (value + alignment - 1))
         (2^64 - 1 - size_t (alignment - 1)).

(** [std::make_unique<uint8_t[]>(n)]: [n] zero bytes. *)
Definition fresh_block (n : Z) : Block :=
  {| data := Mem.zeros (Z.to_nat n); size := n; used := 0 |}.

(** [Arena::add_block] *)
Definition add_block (a : t) : t :=
  {| block_size_ := block_size_ a;
     blocks_ := blocks_ a ++ [fresh_block (block_size_ a)];
     current_block_ := current_block_ a;
     bytes_allocated_ := bytes_allocated_ a;
     capacity_ := size_t (capacity_ a + block_size_ a) |}.

(** [Arena(block_size)] *)
Definition new (block_size : Z) : t :=
  add_block {| block_size_ := block_size; blocks_ := []; current_block_ := O;
               bytes_allocated_ := 0; capacity_ := 0 |}.

(** The loop of [allocate] over the blocks from [current_block_] on: the
    index at which it stops and the aligned offset there, if the request
    fits a block. *)
Fixpoint first_fit (rest : list Block) (idx : nat) (sz alignment : Z)
  : nat * option Z :=
  match rest with
  | [] => (idx, None)
  | b :: rest' =>
      let aligned_offset := align_up (used b) alignment in
      if size_t (aligned_offset + sz) <=? size b
      then (idx, Some aligned_offset)
      else first_fit rest' (S idx) sz alignment
  end.

Definition set_used (u : Z) (b : Block) : Block :=
  {| data := data b; size := size b; used := u |}.

(** [Arena::allocate]: the pointer returned, as a block index and an offset
    into the block ([None]: [nullptr]), and the arena after the call.  The
    blocks are created without failure. *)
Fixpoint allocate (fuel : nat) (sz alignment : Z) : M t (option (nat * Z)) :=
  fun a =>
  if sz =? 0 then Val None a
  else
    match fuel with
    | O => Diverge
    | S fuel' =>
        match first_fit (drop (current_block_ a) (blocks_ a))
                (current_block_ a) sz alignment with
        | (idx, Some aligned_offset) =>
            Val (Some (idx, aligned_offset))
              {| block_size_ := block_size_ a;
                 blocks_ := alter (set_used (size_t (aligned_offset + sz))) idx
                              (blocks_ a);
                 current_block_ := idx;
                 bytes_allocated_ := size_t (bytes_allocated_ a + sz);
                 capacity_ := capacity_ a |}
        | (idx, None) =>
            let min_block_size :=
              size_t (align_up sz alignment + alignment) in
            if min_block_size >? block_size_ a then
              let aligned_offset := align_up 0 alignment in
              Val (Some (List.length (blocks_ a), aligned_offset))
                {| block_size_ := block_size_ a;
                   blocks_ := blocks_ a ++
                              [set_used (size_t (aligned_offset + sz))
                                 (fresh_block min_block_size)];
                   current_block_ := List.length (blocks_ a);
                   bytes_allocated_ := size_t (bytes_allocated_ a + sz);
                   capacity_ := size_t (capacity_ a + min_block_size) |}
            else
              allocate fuel' sz alignment
                (add_block
                   {| block_size_ := block_size_ a; blocks_ := blocks_ a;
                      current_block_ := idx;
                      bytes_allocated_ := bytes_allocated_ a;
                      capacity_ := capacity_ a |})
        end
    end.

(** [std::memset(ptr, 0, size)] through a pointer into a block. *)
Definition zero_fill (ptr : nat * Z) (sz : Z) : M t unit := fun a =>
  match blocks_ a !! fst ptr with
  | Some b =>
      match Mem.store (snd ptr) (Mem.zeros (Z.to_nat sz)) (data b) with
      | Some d =>
          Val tt {| block_size_ := block_size_ a;
                    blocks_ := <[fst ptr := {| data := d; size := size b;
                                               used := used b |}]> (blocks_ a);
                    current_block_ := current_block_ a;
                    bytes_allocated_ := bytes_allocated_ a;
                    capacity_ := capacity_ a |}
      | None => Fault
      end
  | None => Fault
  end.

(** [Arena::allocate_zeroed] *)
Definition allocate_zeroed (fuel : nat) (sz alignment : Z)
  : M t (option (nat * Z)) :=
  ptr ← allocate fuel sz alignment;
  match ptr with
  | Some p => _ ← zero_fill p sz; mret (Some p)
  | None => mret None
  end.

(** [Arena::reset] *)
Definition reset (a : t) : t :=
  {| block_size_ := block_size_ a;
     blocks_ := List.map (set_used 0) (blocks_ a);
     current_block_ := O; bytes_allocated_ := 0;
     capacity_ := capacity_ a |}.

Definition bytes_allocated (a : t) : Z := bytes_allocated_ a.
Definition capacity (a : t) : Z := capacity_ a.
Definition block_count (a : t) : Z := Z.of_nat (List.length (blocks_ a)).

End Arena.

(** ** Query allocator (query_allocator.hpp, query_allocator.cpp) *)

Module Allocator.
Import Context.

(** [QueryAllocator::allocate(size, alignment)] on the allocator and the
    arena it refers to; [MemoryBudgetExceeded] is a [std::runtime_error]
    with the message "Memory budget exceeded". *)
Definition allocate (fuel : nat) (sz alignment : Z)
  : M (QueryAllocator * Arena.t) (option (nat * Z)) := fun qa =>
  if would_exceed sz (fst qa) then Throw "Memory budget exceeded" qa
  else
    match Arena.allocate fuel sz alignment (snd qa) with
    | Val (Some p) a' =>
        Val (Some p)
          ({| memory_limit_ := memory_limit_ (fst qa);
              bytes_used_ := (bytes_used_ (fst qa) + sz) mod 2^64 |}, a')
    | Val None a' => Val None (fst qa, a')
    | Throw what a' => Throw what (fst qa, a')
    | Fault => Fault
    | Diverge => Diverge
    end.

(** [QueryAllocator::allocate_zeroed] *)
Definition allocate_zeroed (fuel : nat) (sz alignment : Z)
  : M (QueryAllocator * Arena.t) (option (nat * Z)) :=
  ptr ← allocate fuel sz alignment;
  match ptr with
  | Some p =>
      _ ← zoom snd (fun a qa => (fst qa, a)) (Arena.zero_fill p sz);
      mret (Some p)
  | None => mret None
  end.

(** [QueryAllocator::reset] *)
Definition reset (q : QueryAllocator) : QueryAllocator :=
  {| memory_limit_ := memory_limit_ q; bytes_used_ := 0 |}.

(** [QueryAllocator::remaining] *)
Definition remaining (q : QueryAllocator) : Z :=
  if memory_limit_ q >? bytes_used_ q then memory_limit_ q - bytes_used_ q
  else 0.

(** [ExecutionContext::allocate(size)]: the allocator of the context, with
    the default alignment of 8. *)
Definition ctx_allocate (fuel : nat) (sz : Z)
  : M (ExecutionContext * Arena.t) (option (nat * Z)) := fun ca =>
  let c := fst ca in
  let with_allocator (q : QueryAllocator) : ExecutionContext :=
    {| budget_ := budget_ c; allocator_ := q; stats_ := stats_ c;
       start_time_ := start_time_ c; started_ := started_ c;
       aborted_ := aborted_ c; violation_ := violation_ c;
       clock_ := clock_ c; clock_reads_ := clock_reads_ c |} in
  match allocate fuel sz 8 (allocator_ c, snd ca) with
  | Val p (q, a) => Val p (with_allocator q, a)
  | Throw what (q, a) => Throw what (with_allocator q, a)
  | Fault => Fault
  | Diverge => Diverge
  end.

End Allocator.

(** ** Well-formed arenas *)

Module ArenaSpec.
Import Arena.

(** A block uses no more than its size and holds as many bytes as its
    size says; sizes stay below 2^63, so that the offsets computed by
    [allocate] for requests below 2^61 do not wrap around. *)
Definition block_ok (b : Block) : Prop :=
  0 <= used b <= size b /\ size b < 2^63 /\
  List.length (data b) = Z.to_nat (size b).

Definition wf (a : t) : Prop :=
  Forall block_ok (blocks_ a) /\
  0 <= block_size_ a < 2^63 /\
  (current_block_ a <= List.length (blocks_ a))%nat.

End ArenaSpec.

(** ** Checkpoints (page_manager.hpp, page_manager.cpp) *)

Module Checkpoint.

(** The checkpoint manager with the log and the buffer pool it refers
    to. *)
Record t : Type := mkCheckpointManager {
  wal_ : Wal.Wal;
  page_manager_ : PageManager.t;
  last_checkpoint_lsn_ : Z                (* uint64_t *)
}.

(** [CheckpointManager(wal, page_manager)] *)
Definition new (w : Wal.Wal) (pm : PageManager.t) : t :=
  {| wal_ := w; page_manager_ := pm; last_checkpoint_lsn_ := 0 |}.

(** [Wal::file_size] *)
Definition file_size (w : Wal.Wal) : Z :=
  if negb (Wal.is_open_ w) then 0
  else Z.of_nat (List.length (Wal.file_bytes w)).

(** [CheckpointManager::checkpoint]; [uninit] is what the local record of
    [Wal::checkpoint] holds before the assignments.  [Wal::sync] flushes
    the stream and changes nothing that the log shows. *)
Definition checkpoint (uninit : Wal.WalRecordHeader) (cm : t) : Z * t :=
  let '(flushed, pm) := PageManager.flush_all (page_manager_ cm) in
  let '(lsn, w) := Wal.checkpoint uninit (wal_ cm) in
  if lsn >? 0 then
    (lsn, {| wal_ := w; page_manager_ := pm; last_checkpoint_lsn_ := lsn |})
  else
    (lsn, {| wal_ := w; page_manager_ := pm;
             last_checkpoint_lsn_ := last_checkpoint_lsn_ cm |}).

(** [CheckpointManager::should_checkpoint] *)
Definition should_checkpoint (wal_size_threshold : Z) (cm : t) : bool :=
  file_size (wal_ cm) >? wal_size_threshold.

End Checkpoint.

Module FlushSpec.
Import PageManager.

(** Every entry of the pool sits under the key of its own table and page,
    and page ids are not negative. *)
Definition keyed (pm : t) : Prop :=
  forall key e, buffer_pool_ pm !! key = Some e ->
    table_id e = fst key /\ page_id e = snd key /\ 0 <= snd key.

End FlushSpec.

(** ** Concrete inputs *)

Module Example.

(** The result and the state that a computation ends with; no result and
    the initial state when it does not return. *)
Definition after {S A} (m : M S A) (s : S) : option A * S :=
  match m s with
  | Val a s' => (Some a, s')
  | _ => (None, s)
  end.

(** The scan of table "t" of [Sample.engine], opened. *)
Definition scan_op : Executor.Operator unit :=
  Executor.TableScanOperator unit 1 "t"
    (Catalog.get_table_by_id 1 Sample.catalog_t) 0 0 (Some (1, 0)).

Definition scan_opened : Executor.Engine :=
  snd (after (Executor.open unit 8 scan_op) (Sample.engine 10)).

(** [SELECT ... FROM t LIMIT limit] *)
Definition limit_plan (limit : Z) : Executor.PlanNode unit :=
  Executor.mkPlanNode _ Executor.LIMIT
    (Executor.LimitNode _ _ (Some (Sample.scan_plan unit)) limit 0).

Definition run (fuel : nat) (plan : Executor.PlanNode unit)
    (e : Executor.Engine) : option Executor.ExecutionResult * Executor.Engine :=
  after (Executor.execute unit Sample.insertion_sort fuel plan) e.

(** A pool of four pages after the allocation of page 0 of table 1. *)
Definition pool_one_dirty : PageManager.t :=
  snd (after (PageManager.allocate_page 1 1) Sample.empty_pool).

(** A pool of one page, full: it holds page 0 of table 1, just allocated
    and so dirty. *)
Definition pool_full_dirty : PageManager.t :=
  snd (after (PageManager.allocate_page 1 1) (PageManager.new 1 ∅)).

(** A pool of four pages over the file of table 1, created, with page 0
    allocated and flushed: the page is resident and in the file, and the
    table has its page counter. *)
Definition pool_with_table : PageManager.t :=
  snd (PageManager.flush_all
         (snd (after (PageManager.allocate_page 1 1)
                 (PageManager.create_table_file 1 Sample.empty_pool)))).

End Example.

(** * Properties *)

(** ** Proof tools *)

Ltac splits := repeat match goal with |- _ /\ _ => split end.

Ltac zbool :=
  repeat match goal with
  | H : (_ >=? _) = _ |- _ => rewrite Z.geb_leb in H
  | H : (_ >? _) = _ |- _ => rewrite Z.gtb_ltb in H
  | H : (_ <=? _) = true |- _ => apply Z.leb_le in H
  | H : (_ <=? _) = false |- _ => apply Z.leb_gt in H
  | H : (_ <? _) = true |- _ => apply Z.ltb_lt in H
  | H : (_ <? _) = false |- _ => apply Z.ltb_ge in H
  | H : (_ =? _) = true |- _ => apply Z.eqb_eq in H
  | H : (_ =? _) = false |- _ => apply Z.eqb_neq in H
  end.

Ltac unfold_monad :=
  unfold mbind, M_bind, mret, M_ret, get, put, modify, throw, fault, diverge,
         zoom in *.

(** ** The state and exception monad *)

Lemma bind_eq {S A B} (m : M S A) (f : A -> M S B) s :
  (m ≫= f) s
  = match m s with
    | Val a s' => f a s'
    | Throw w s' => Throw w s'
    | Fault => Fault
    | Diverge => Diverge
    end.
Proof. reflexivity. Qed.

(** ** Bytes *)

Section Bytes.
Import Mem.

Lemma Z_of_byte_range b : 0 <= Z_of_byte b < 256.
Proof.
  unfold Z_of_byte. pose proof (Byte.to_N_bounded b). lia.
Qed.

Lemma Z_of_byte_of_Z z : Z_of_byte (byte_of_Z z) = z mod 256.
Proof.
  unfold Z_of_byte, byte_of_Z.
  pose proof (Z.mod_pos_bound z 256 ltac:(lia)) as Hr.
  destruct (Byte.of_N (Z.to_N (z mod 256))) as [b|] eqn:Hb.
  - apply Byte.to_of_N in Hb. rewrite Hb. lia.
  - apply Byte.of_N_None_iff in Hb. lia.
Qed.

Lemma byte_of_Z_of_byte b : byte_of_Z (Z_of_byte b) = b.
Proof.
  unfold Z_of_byte, byte_of_Z.
  pose proof (Byte.to_N_bounded b).
  rewrite Z.mod_small by lia. rewrite N2Z.id, Byte.of_to_N. reflexivity.
Qed.

Lemma length_le_bytes n z : List.length (le_bytes n z) = n.
Proof. revert z. induction n; intros z; simpl; [reflexivity|]. rewrite IHn. reflexivity. Qed.

Lemma le_value_range bs : 0 <= le_value bs < 256 ^ Z.of_nat (List.length bs).
Proof.
  induction bs as [|b bs IH]; [simpl; lia|].
  cbn [le_value List.length]. rewrite Nat2Z.inj_succ, Z.pow_succ_r by lia.
  pose proof (Z_of_byte_range b). lia.
Qed.

Lemma le_value_le_bytes n z : le_value (le_bytes n z) = z mod 256 ^ Z.of_nat n.
Proof.
  revert z. induction n as [|n IH]; intros z.
  - simpl. rewrite Z.mod_1_r. reflexivity.
  - cbn [le_bytes le_value]. rewrite IH, Z_of_byte_of_Z.
    rewrite Nat2Z.inj_succ, Z.pow_succ_r by lia.
    rewrite Z.rem_mul_r by lia. lia.
Qed.

Lemma le_value_le_bytes_small n z :
  0 <= z < 256 ^ Z.of_nat n -> le_value (le_bytes n z) = z.
Proof. intros H. rewrite le_value_le_bytes. apply Z.mod_small. exact H. Qed.

Lemma le_bytes_le_value bs : le_bytes (List.length bs) (le_value bs) = bs.
Proof.
  induction bs as [|b bs IH]; [reflexivity|].
  cbn [List.length le_bytes le_value]. f_equal.
  - pose proof (Z_of_byte_range b). unfold byte_of_Z.
    replace ((Z_of_byte b + 256 * le_value bs) mod 256) with (Z_of_byte b).
    + unfold Z_of_byte. rewrite N2Z.id, Byte.of_to_N. reflexivity.
    + replace (Z_of_byte b + 256 * le_value bs)
        with (Z_of_byte b + le_value bs * 256) by lia.
      rewrite Z.mod_add by lia. symmetry. apply Z.mod_small. exact H.
  - replace ((Z_of_byte b + 256 * le_value bs) / 256) with (le_value bs);
      [exact IH|].
    pose proof (Z_of_byte_range b).
    replace (Z_of_byte b + 256 * le_value bs)
      with (Z_of_byte b + le_value bs * 256) by lia.
    rewrite Z.div_add by lia.
    rewrite (Z.div_small (Z_of_byte b)) by lia. lia.
Qed.

Lemma peek_length off len d :
  (off + len <= List.length d)%nat -> List.length (peek off len d) = len.
Proof. intros H. unfold peek. rewrite length_take, length_drop. lia. Qed.

Lemma peek_app_l off len a b :
  (off + len <= List.length a)%nat -> peek off len (a ++ b) = peek off len a.
Proof.
  intros H. unfold peek. rewrite drop_app_le by lia.
  rewrite take_app_le; [reflexivity|]. rewrite length_drop. lia.
Qed.

Lemma peek_app_r off len a b :
  (List.length a <= off)%nat ->
  peek off len (a ++ b) = peek (off - List.length a) len b.
Proof. intros H. unfold peek. rewrite drop_app_ge by lia. reflexivity. Qed.

Lemma peek_all len a b : List.length a = len -> peek 0 len (a ++ b) = a.
Proof.
  intros <-. unfold peek. rewrite drop_0. apply take_app_length.
Qed.

Lemma peek_full d : peek 0 (List.length d) d = d.
Proof. unfold peek. rewrite drop_0. apply firstn_all. Qed.

Lemma poke_length off bs d :
  (off + List.length bs <= List.length d)%nat ->
  List.length (poke off bs d) = List.length d.
Proof.
  intros H. unfold poke. rewrite !length_app, length_take, length_drop. lia.
Qed.

Lemma peek_poke_same off bs d :
  (off + List.length bs <= List.length d)%nat ->
  peek off (List.length bs) (poke off bs d) = bs.
Proof.
  intros H. unfold poke. rewrite peek_app_r by (rewrite length_take; lia).
  rewrite length_take. replace (off - off `min` List.length d)%nat with O by lia.
  apply peek_all. reflexivity.
Qed.

Lemma peek_poke_before off bs d o n :
  (off + List.length bs <= List.length d)%nat -> (o + n <= off)%nat ->
  peek o n (poke off bs d) = peek o n d.
Proof.
  intros H Hn. unfold poke. rewrite peek_app_l by (rewrite length_take; lia).
  unfold peek. rewrite <- (take_drop off d) at 2.
  rewrite drop_app_le by (rewrite length_take; lia).
  rewrite take_app_le; [reflexivity|]. rewrite length_drop, length_take. lia.
Qed.

Lemma peek_poke_after off bs d o n :
  (off + List.length bs <= List.length d)%nat -> (off + List.length bs <= o)%nat ->
  peek o n (poke off bs d) = peek o n d.
Proof.
  intros H Hn. unfold poke.
  rewrite app_assoc. rewrite peek_app_r by (rewrite length_app, length_take; lia).
  rewrite length_app, length_take. unfold peek. rewrite drop_drop.
  f_equal. f_equal. lia.
Qed.

Lemma load_Some off len d bs :
  load off len d = Some bs ->
  0 <= off /\ 0 <= len /\ off + len <= Z.of_nat (List.length d) /\
  bs = peek (Z.to_nat off) (Z.to_nat len) d.
Proof.
  unfold load. destruct (0 <=? off) eqn:H1; [|discriminate].
  destruct (0 <=? len) eqn:H2; [|discriminate].
  destruct (off + len <=? Z.of_nat (List.length d)) eqn:H3; [|discriminate].
  simpl. intros [= <-]. zbool. auto.
Qed.

Lemma load_in_range off len d :
  0 <= off -> 0 <= len -> off + len <= Z.of_nat (List.length d) ->
  load off len d = Some (peek (Z.to_nat off) (Z.to_nat len) d).
Proof.
  intros H1 H2 H3. unfold load.
  destruct (0 <=? off) eqn:E1; [|zbool; lia].
  destruct (0 <=? len) eqn:E2; [|zbool; lia].
  destruct (off + len <=? Z.of_nat (List.length d)) eqn:E3; [|zbool; lia].
  reflexivity.
Qed.

Lemma load_out_of_range off len d :
  Z.of_nat (List.length d) < off + len -> load off len d = None.
Proof.
  intros H. unfold load.
  destruct (off + len <=? Z.of_nat (List.length d)) eqn:E3; [zbool; lia|].
  rewrite andb_false_r. reflexivity.
Qed.

Lemma store_in_range off bs d :
  0 <= off -> off + Z.of_nat (List.length bs) <= Z.of_nat (List.length d) ->
  store off bs d = Some (poke (Z.to_nat off) bs d).
Proof.
  intros H1 H2. unfold store.
  destruct (0 <=? off) eqn:E1; [|zbool; lia].
  destruct (off + _ <=? _) eqn:E2; [|zbool; lia].
  reflexivity.
Qed.

Lemma store_Some off bs d d' :
  store off bs d = Some d' ->
  0 <= off /\ off + Z.of_nat (List.length bs) <= Z.of_nat (List.length d) /\
  d' = poke (Z.to_nat off) bs d.
Proof.
  unfold store. destruct (0 <=? off) eqn:H1; [|discriminate].
  destruct (off + _ <=? _) eqn:H2; [|discriminate].
  simpl. intros [= <-]. zbool. auto.
Qed.

End Bytes.

(** * Properties *)

(** ** Execution context *)

Section CheckBudget.
Import Context.

Lemma would_exceed_0 a :
  0 <= bytes_used_ a < 2^64 ->
  would_exceed 0 a = (bytes_used_ a >? memory_limit_ a).
Proof.
  intros H. unfold would_exceed. rewrite Z.add_0_r, Z.mod_small by lia. reflexivity.
Qed.

Lemma int64_small z : -2^63 <= z < 2^63 -> int64 z = z.
Proof. intros H. unfold int64. rewrite Z.mod_small by lia. lia. Qed.

#[local] Arguments int64 : simpl never.

(** C6, as amended: for a context whose time limit in nanoseconds and
    whose elapsed time fit an [int64_t], [check_budget] signals the first
    violation in the order aborted, timeout (once started), instructions
    >= cap, returned rows >= cap, allocator bytes used > limit; when none
    holds it returns and leaves the recorded tag as it was. *)
Theorem check_budget_first_violation c :
  0 <= bytes_used_ (allocator_ c) < 2^64 ->
  -2^63 <= max_time (budget_ c) * 1000000 < 2^63 ->
  -2^63 <= clock_ c (clock_reads_ c) - start_time_ c < 2^63 ->
  match Spec.first_violation c with
  | NONE => exists c', check_budget c = Val tt c' /\ violation_ c' = violation_ c
  | v => exists c', check_budget c = Throw (violation_message c') c'
                    /\ violation_ c' = v
  end.
Proof.
  intros Hrange Hlimit Helapsed.
  pose proof (would_exceed_0 (allocator_ c) Hrange) as Hw.
  destruct c as [b a s st sd ab v clk rd]; simpl in *.
  unfold Spec.first_violation, check_budget, check_time, check_instructions,
    check_rows, violate, now, over_time, elapsed_since; simpl.
  unfold_monad; simpl.
  destruct ab; simpl; [eexists; split; reflexivity|].
  destruct sd; simpl.
  - rewrite !(int64_small _ Hlimit), !(int64_small _ Helapsed).
    destruct (clk rd - st >? max_time b * 1000000); simpl;
      [eexists; split; reflexivity|].
    destruct (instructions_executed s >=? max_instructions b); simpl;
      [eexists; split; reflexivity|].
    destruct (rows_returned s >=? max_result_rows b); simpl;
      [eexists; split; reflexivity|].
    rewrite Hw.
    destruct (bytes_used_ a >? memory_limit_ a); simpl;
      eexists; split; reflexivity.
  - destruct (instructions_executed s >=? max_instructions b); simpl;
      [eexists; split; reflexivity|].
    destruct (rows_returned s >=? max_result_rows b); simpl;
      [eexists; split; reflexivity|].
    rewrite Hw.
    destruct (bytes_used_ a >? memory_limit_ a); simpl;
      eexists; split; reflexivity.
Qed.

Lemma check_budget_first_violation_witness :
  0 <= bytes_used_ (allocator_ Sample.ctx_started_over_memory_cap) < 2^64 /\
  -2^63 <= max_time (budget_ Sample.ctx_started_over_memory_cap) * 1000000
  < 2^63 /\
  -2^63 <= clock_ Sample.ctx_started_over_memory_cap
             (clock_reads_ Sample.ctx_started_over_memory_cap)
           - start_time_ Sample.ctx_started_over_memory_cap < 2^63 /\
  started_ Sample.ctx_started_over_memory_cap = true /\
  exists c', check_budget Sample.ctx_started_over_memory_cap
             = Throw (violation_message c') c'
             /\ violation_ c' = MEMORY_EXCEEDED.
Proof.
  assert (H : 0 <= bytes_used_ (allocator_ Sample.ctx_started_over_memory_cap)
              < 2^64) by (vm_compute; split; [discriminate|reflexivity]).
  assert (H1 : -2^63 <= max_time (budget_ Sample.ctx_started_over_memory_cap)
                        * 1000000 < 2^63)
    by (vm_compute; split; [discriminate|reflexivity]).
  assert (H2 : -2^63 <= clock_ Sample.ctx_started_over_memory_cap
                          (clock_reads_ Sample.ctx_started_over_memory_cap)
                        - start_time_ Sample.ctx_started_over_memory_cap < 2^63)
    by (vm_compute; split; [discriminate|reflexivity]).
  split; [exact H|]. split; [exact H1|]. split; [exact H2|].
  split; [reflexivity|].
  exact (check_budget_first_violation Sample.ctx_started_over_memory_cap H H1 H2).
Defined.

(** Beyond that range the time limit wraps around: with a limit of
    9223372036855 ms, whose count of nanoseconds is negative in an
    [int64_t], [check_budget] signals a timeout in a started context
    although no time has elapsed. *)
Lemma check_budget_time_limit_wraps :
  Spec.first_violation Sample.ctx_huge_time_limit = NONE /\
  exists c', check_budget Sample.ctx_huge_time_limit
             = Throw (violation_message c') c'
             /\ violation_ c' = TIMEOUT.
Proof. split; [reflexivity|]. eexists. split; reflexivity. Qed.

(** C6 fails as stated: with the allocator at exactly its limit and no other
    cap reached, [check_budget] returns without signalling. *)
Lemma check_budget_at_memory_cap_passes :
  bytes_used_ (allocator_ Sample.ctx_at_memory_cap)
  = memory_limit_ (allocator_ Sample.ctx_at_memory_cap) /\
  exists c', check_budget Sample.ctx_at_memory_cap = Val tt c'
             /\ violation_ c' = NONE.
Proof. split; [reflexivity|]. eexists. split; reflexivity. Qed.

End CheckBudget.

(** ** Transactions *)

Section Transactions.
Import Transaction.

Lemma lock_write_unlock l l' :
  lock_write l = (true, l') -> unlock_write l' = l.
Proof.
  unfold lock_write, leave_write_wait, unlock_write.
  destruct l as [r w ww]; simpl.
  destruct (r =? 0) eqn:Hr; destruct w; simpl; try discriminate.
  intros [= <-]. simpl. f_equal. lia.
Qed.

Lemma lock_read_unlock l l' :
  lock_read l = (true, l') -> unlock_read l' = l.
Proof.
  unfold lock_read, unlock_read. destruct l as [r w ww]; simpl.
  destruct w; destruct (ww =? 0); simpl; try discriminate.
  intros [= <-]. simpl. f_equal. lia.
Qed.

Lemma try_lock_write_unlock l l' :
  try_lock_write l = (true, l') -> unlock_write l' = l.
Proof.
  unfold try_lock_write, unlock_write. destruct l as [r w ww]; simpl.
  destruct (r >? 0); destruct w; simpl; try discriminate.
  intros [= <-]. reflexivity.
Qed.

(** C9, as amended: a handle returned by [begin_read], [begin_write] or
    [try_begin_write] that is owned by a [TransactionGuard] is aborted when
    the guard is dropped while the transaction is active: its state becomes
    ABORTED, the lock is back in the state it had before the transaction
    began, and the transaction is no longer counted as active. *)
Theorem guard_drop_aborts now tm t tm1 :
  begin_read now tm = (Some t, tm1) \/
  begin_write now tm = (Some t, tm1) \/
  try_begin_write now tm = (Some t, tm1) ->
  state t = ACTIVE /\
  exists t' tm2,
    drop_guard (mkTransactionGuard (Some t)) tm1 = (Some t', tm2) /\
    state t' = ABORTED /\
    lock_ tm2 = lock_ tm /\
    active_count_ tm2 = u64 (active_count_ tm1 - 1) /\
    lock_ tm2 = (if is_read_only t then unlock_read (lock_ tm1)
                 else unlock_write (lock_ tm1)).
Proof.
  unfold begin_read, begin_write, try_begin_write, start_transaction.
  intros [H | [H | H]].
  - destruct (lock_read (lock_ tm)) as [[|] l] eqn:Hl; [|discriminate].
    injection H as <- <-. split; [reflexivity|].
    eexists _, _. split; [reflexivity|]. simpl.
    rewrite (lock_read_unlock _ _ Hl). auto.
  - destruct (lock_write (lock_ tm)) as [[|] l] eqn:Hl; [|discriminate].
    injection H as <- <-. split; [reflexivity|].
    eexists _, _. split; [reflexivity|]. simpl.
    rewrite (lock_write_unlock _ _ Hl). auto.
  - destruct (try_lock_write (lock_ tm)) as [[|] l] eqn:Hl; [|discriminate].
    injection H as <- <-. split; [reflexivity|].
    eexists _, _. split; [reflexivity|]. simpl.
    rewrite (try_lock_write_unlock _ _ Hl). auto.
Qed.

Lemma guard_drop_aborts_witness :
  (begin_read 0 instance
     = (Some (new_transaction 1 true 0),
        mkTransactionManager (mkRWLock 1 false 0) 2 1) \/
   begin_write 0 instance
     = (Some (new_transaction 1 true 0),
        mkTransactionManager (mkRWLock 1 false 0) 2 1) \/
   try_begin_write 0 instance
     = (Some (new_transaction 1 true 0),
        mkTransactionManager (mkRWLock 1 false 0) 2 1)) /\
  exists t' tm2,
    drop_guard (mkTransactionGuard (Some (new_transaction 1 true 0)))
      (mkTransactionManager (mkRWLock 1 false 0) 2 1) = (Some t', tm2) /\
    state t' = ABORTED /\ lock_ tm2 = lock_ instance.
Proof.
  assert (H : begin_read 0 instance
     = (Some (new_transaction 1 true 0),
        mkTransactionManager (mkRWLock 1 false 0) 2 1) \/
   begin_write 0 instance
     = (Some (new_transaction 1 true 0),
        mkTransactionManager (mkRWLock 1 false 0) 2 1) \/
   try_begin_write 0 instance
     = (Some (new_transaction 1 true 0),
        mkTransactionManager (mkRWLock 1 false 0) 2 1))
    by (left; reflexivity).
  split; [exact H|].
  destruct (guard_drop_aborts 0 instance _ _ H) as (_ & t' & tm2 & Hd & Hs & Hl & _).
  exists t', tm2. auto.
Defined.

(** C9 fails as stated: dropping the handle that [begin_write] returns
    leaves the transaction active and the write lock held. *)
Lemma dropped_handle_keeps_lock :
  exists t tm1,
    begin_write 0 instance = (Some t, tm1) /\
    drop_handle (Some t) tm1 = (Some t, tm1) /\
    state t = ACTIVE /\
    writer_ (lock_ tm1) = true /\
    active_count_ tm1 = 1 /\
    begin_read 0 tm1 = (None, tm1).
Proof. eexists _, _. repeat split. Qed.

End Transactions.

(** ** The log of the samples *)

Lemma open_new_wal : Wal.open (Wal.new None) = Done Sample.fresh_wal.
Proof. reflexivity. Qed.

(** ** Executor *)

Section ExecutorFacts.
Context (Expression : Type).
Context (std_sort : (Executor.ResultRow -> Executor.ResultRow -> bool) ->
                    list Executor.ResultRow -> list Executor.ResultRow).
Import Executor.

(** C1, the behaviour at the failing input: a table scan over a table of two
    rows under a budget of one result row succeeds and returns both rows, and
    [rows_returned] is still 0. *)
Theorem table_scan_ignores_row_cap :
  Context.max_result_rows (Context.budget_ (ctx (Sample.engine 1))) = 1 /\
  exists r e',
    execute Expression std_sort 20 (Sample.scan_plan Expression) (Sample.engine 1)
    = Val r e' /\
    success r = true /\
    rows r = [[NULL_VAL]; [NULL_VAL]] /\
    Context.rows_returned (stats r) = 0 /\
    Context.violation_ (ctx e') = Context.NONE.
Proof.
  split; [reflexivity|]. eexists _, _. split; [vm_compute; reflexivity|].
  repeat split.
Qed.

(** C2, as amended: an INSERT plan of [n] rows for a table of the catalog
    returns success with [rows_affected = n] and charges [20 * n]
    instructions; it appends nothing to the write-ahead log and leaves the
    buffer pool and the catalog as they were. *)
Theorem execute_insert_counts_rows fuel tid tname names
    (values : list (list Expression)) (e : Engine) ti :
  Catalog.get_table tname (catalog_ e) = Some ti ->
  exists r e',
    execute Expression std_sort fuel
      (mkPlanNode _ INSERT (InsertNode _ _ tid tname names values)) e
    = Val r e' /\
    success r = true /\
    rows_affected r = Z.of_nat (List.length values) /\
    wal e' = wal e /\
    page_manager_ e' = page_manager_ e /\
    catalog_ e' = catalog_ e /\
    Context.instructions_executed (stats r)
    = (Context.instructions_executed (Context.stats_ (ctx e))
       + Z.of_nat (List.length values) * 20 mod 2^64) mod 2^64.
Proof.
  intros Hti. destruct e as [c pm cat w]. simpl in Hti.
  unfold execute, dispatch, execute_insert, try_catch, on_ctx, record_instructions,
    on_ctx, Context.start, Context.finalize, Context.now,
    Context.record_instructions.
  unfold_monad. simpl. rewrite Hti. simpl.
  destruct c as [b a s st sd ab v clk rd]; simpl.
  eexists _, _. split; [reflexivity|]. simpl. repeat split.
Qed.

End ExecutorFacts.

(** ** Recovery *)

Section RecoveryFacts.
Import Recovery.

(** C7, the behaviour at the failing input: for a log that holds a single
    INSERT record and no CHECKPOINT, [needs_recovery] returns [false], while
    [recover] replays that record. *)
Theorem needs_recovery_misses_single_record :
  Wal.read_all Sample.wal_one_insert
  = Done [Wal.stamp 1 (Sample.record Wal.INSERT 1 0 0 [x41])] /\
  find_last_checkpoint Sample.wal_one_insert = Done 0 /\
  needs_recovery (new Sample.wal_one_insert Sample.empty_pool) = Done false /\
  exists rm,
    recover 5 (new Sample.wal_one_insert Sample.empty_pool) = Val true rm /\
    records_applied (stats_ rm) = 1.
Proof.
  repeat split; try (vm_compute; reflexivity).
  eexists. split; vm_compute; reflexivity.
Qed.

(** C3, the behaviour at the failing input: the log inserts a row into slot
    0 and then deletes it.  One recovery leaves the page with one deleted
    slot and LSN 2; a second recovery over the same log inserts the row
    again, into a new slot 1, and sets the page LSN back to 1. *)
Theorem second_recovery_reinserts_deleted_row :
  Wal.read_all Sample.wal_insert_delete
  = Done [Wal.stamp 1 (Sample.record Wal.INSERT 1 0 0 [x41]);
          Wal.stamp 2 (Sample.record Wal.DELETE 1 0 0 [])] /\
  Sample.observed
    (recover 5 (new Sample.wal_insert_delete Sample.empty_pool))
  = Some (true, Page.mkPageHeader Page.PAGE_MAGIC 0 2 1 8163 8191 9,
          Refused, Refused) /\
  Sample.observed
    (Sample.recover_twice 5 (new Sample.wal_insert_delete Sample.empty_pool))
  = Some (true, Page.mkPageHeader Page.PAGE_MAGIC 0 1 2 8158 8190 9,
          Refused, Done (8190, 1)).
Proof. repeat split; vm_compute; reflexivity. Qed.

End RecoveryFacts.

(** ** Closed instances *)

Lemma execute_insert_counts_rows_witness :
  Catalog.get_table "t" (Executor.catalog_ (Sample.engine 10))
  = Some (Catalog.mkTableInfo 1 "t"
            [Catalog.mkColumnInfo "id" Catalog.INTEGER false false 0] 0) /\
  exists r e',
    Executor.execute unit Sample.insertion_sort 5 (Sample.insert_plan tt)
      (Sample.engine 10)
    = Val r e' /\
    Executor.success r = true /\ Executor.rows_affected r = 1 /\
    Executor.wal e' = Executor.wal (Sample.engine 10).
Proof.
  assert (H : Catalog.get_table "t" (Executor.catalog_ (Sample.engine 10))
  = Some (Catalog.mkTableInfo 1 "t"
            [Catalog.mkColumnInfo "id" Catalog.INTEGER false false 0] 0))
    by reflexivity.
  split; [exact H|].
  destruct (execute_insert_counts_rows unit Sample.insertion_sort 5 1 "t" []
              [[tt]] (Sample.engine 10) _ H)
    as (r & e' & Hx & Hs & Hr & Hw & _).
  exists r, e'. auto.
Defined.

(** C2 fails as stated: after an accepted INSERT plan of one row the log
    holds no record and the buffer pool holds no page. *)
Lemma execute_insert_writes_no_wal :
  exists r e',
    Executor.execute unit Sample.insertion_sort 5 (Sample.insert_plan tt)
      (Sample.engine 10)
    = Val r e' /\
    Executor.success r = true /\
    Executor.rows_affected r = 1 /\
    Wal.read_all (Executor.wal e') = Done [] /\
    PageManager.page_count (Executor.page_manager_ e') = 0.
Proof. eexists _, _. split; [vm_compute; reflexivity|]. repeat split. Qed.

Section BufferPool.
Import PageManager PoolSpec.

Lemma In_lru_erase n m k l :
  In (m, k) (lru_erase n l) <-> In (m, k) l /\ m <> n.
Proof.
  unfold lru_erase. rewrite filter_In. simpl.
  rewrite negb_true_iff, Nat.eqb_neq. reflexivity.
Qed.

Lemma NoDup_lru_erase n l :
  NoDup (List.map fst l) -> NoDup (List.map fst (lru_erase n l)).
Proof.
  induction l as [|[m k] l IH]; simpl; intros H; [constructor|].
  apply NoDup_cons in H as [Hm Hl].
  destruct (negb (m =? n)%nat); simpl; [|auto].
  apply NoDup_cons. split; [|auto].
  intros Hin. apply Hm.
  apply list_elem_of_In in Hin. apply list_elem_of_In.
  apply in_map_iff in Hin as [[m' k'] [Heq Hin]]. simpl in Heq. subst m'.
  apply In_lru_erase in Hin as [Hin _].
  apply in_map_iff. exists (m, k'). auto.
Qed.

Lemma NoDup_fst_functional {A} (l : list (nat * A)) n a b :
  NoDup (List.map fst l) -> In (n, a) l -> In (n, b) l -> a = b.
Proof.
  induction l as [|[m c] l IH]; simpl; intros Hnd Ha Hb; [destruct Ha|].
  apply NoDup_cons in Hnd as [Hm Hl].
  assert (Hfst : forall x, In (m, x) l -> False).
  { intros x Hx. apply Hm. apply list_elem_of_In.
    apply in_map_iff. exists (m, x). auto. }
  destruct Ha as [Ha|Ha], Hb as [Hb|Hb].
  - congruence.
  - injection Ha as -> ->. destruct (Hfst _ Hb).
  - injection Hb as -> ->. destruct (Hfst _ Ha).
  - eauto.
Qed.

Lemma find_victim_Some pool l n k :
  find_victim pool l = Some (n, k) ->
  In (n, k) l /\ is_Some (pool !! k).
Proof.
  unfold find_victim. intros H. apply find_some in H as [Hin Hb].
  apply in_rev in Hin. split; [exact Hin|].
  simpl in Hb. apply bool_decide_eq_true in Hb. exact Hb.
Qed.

Lemma find_victim_None pool l n k :
  find_victim pool l = None -> In (n, k) l -> pool !! k = None.
Proof.
  unfold find_victim. intros H Hin.
  pose proof (find_none _ _ H (n, k) (proj1 (in_rev _ _) Hin)) as Hb.
  simpl in Hb. apply bool_decide_eq_false in Hb.
  destruct (pool !! k); [exfalso; apply Hb; eauto | reflexivity].
Qed.

(** [evict_page] on a pool that is not empty removes one resident entry,
    after writing it back if it is dirty. *)
Lemma evict_page_removes_one pm :
  nodes_ok pm -> (0 < size (buffer_pool_ pm))%nat ->
  exists key e,
    buffer_pool_ pm !! key = Some e /\
    buffer_pool_ (evict_page pm) = delete key (buffer_pool_ pm) /\
    files_ (evict_page pm)
    = (if dirty e then write_page (fst key) (snd key) (page e) (files_ pm)
       else files_ pm) /\
    size (buffer_pool_ (evict_page pm)) = pred (size (buffer_pool_ pm)) /\
    max_pages_ (evict_page pm) = max_pages_ pm /\
    nodes_ok (evict_page pm).
Proof.
  intros Hok Hsz.
  assert (Hex : exists k e, buffer_pool_ pm !! k = Some e).
  { destruct (map_to_list (buffer_pool_ pm)) as [|[k e] l] eqn:Hl.
    - apply map_to_list_empty_iff in Hl. rewrite Hl, map_size_empty in Hsz. lia.
    - exists k, e. apply elem_of_map_to_list. rewrite Hl. left. }
  destruct Hex as (k0 & e0 & Hk0).
  destruct (resident_listed _ Hok k0) as [n0 Hn0]; [eauto|].
  unfold evict_page.
  destruct (lru_list_ pm) as [|nk0 l0] eqn:Hlru; [destruct Hn0|].
  rewrite <- Hlru in *. clear Hlru nk0 l0.
  destruct (find_victim (buffer_pool_ pm) (lru_list_ pm)) as [[n key]|] eqn:Hv.
  - apply find_victim_Some in Hv as [Hin [e He]].
    rewrite He. exists key, e. simpl.
    split; [exact He|]. split; [reflexivity|]. split; [reflexivity|].
    split; [apply map_size_delete_Some; eauto|]. split; [reflexivity|].
    constructor; simpl.
    + apply NoDup_lru_erase, Hok.
    + intros m k Hm. apply In_lru_erase in Hm as [Hm _]. eapply nodes_old; eauto.
    + intros k m Hm. apply lookup_delete_Some in Hm as [_ Hm].
      eapply iterators_old; eauto.
    + intros k m k' Hm Hk'. apply lookup_delete_Some in Hm as [_ Hm].
      apply In_lru_erase in Hk' as [Hk' _]. eapply iterators_own; eauto.
    + intros k [x Hx]. apply lookup_delete_Some in Hx as [Hne Hx].
      destruct (resident_listed _ Hok k) as [m Hm]; [eauto|].
      exists m. apply In_lru_erase. split; [exact Hm|].
      intros ->. apply Hne.
      pose proof (nodes_distinct _ Hok) as Hnd.
      symmetry. eapply NoDup_fst_functional; eauto.
  - rewrite (find_victim_None _ _ _ _ Hv Hn0) in Hk0. discriminate.
Qed.

Lemma evict_page_preserves pm :
  nodes_ok pm ->
  nodes_ok (evict_page pm) /\
  max_pages_ (evict_page pm) = max_pages_ pm /\
  (size (buffer_pool_ (evict_page pm)) <= size (buffer_pool_ pm))%nat.
Proof.
  intros Hok.
  destruct (decide (0 < size (buffer_pool_ pm))%nat) as [Hpos|Hzero].
  - destruct (evict_page_removes_one pm Hok Hpos)
      as (key & e & _ & _ & _ & Hsz & Hmax & Hok').
    splits; [exact Hok' | exact Hmax | lia].
  - assert (Hempty : buffer_pool_ pm = ∅).
    { apply map_size_empty_iff. lia. }
    assert (Hsame : evict_page pm = pm).
    { unfold evict_page.
      destruct (lru_list_ pm) as [|nk l] eqn:Hl; [reflexivity|].
      destruct (find_victim _ _) as [[n key]|] eqn:Hv; [|reflexivity].
      rewrite Hempty, lookup_empty. reflexivity. }
    rewrite Hsame. splits; auto.
Qed.

(** What the eviction loop leaves when it ends. *)
Lemma evict_while_full_result fuel pm pm' :
  evict_while_full fuel pm = Val tt pm' ->
  nodes_ok pm ->
  nodes_ok pm' /\
  page_count pm' < max_pages_ pm' /\
  max_pages_ pm' = max_pages_ pm /\
  next_page_id_ pm' = next_page_id_ pm /\
  (size (buffer_pool_ pm') <= size (buffer_pool_ pm))%nat.
Proof.
  revert pm. induction fuel as [|fuel IH]; intros pm Hrun Hok; simpl in Hrun.
  - discriminate.
  - destruct (page_count pm >=? max_pages_ pm) eqn:Hfull.
    + destruct (evict_page_preserves pm Hok) as (Hok1 & Hmax1 & Hsz1).
      destruct (IH _ Hrun Hok1) as (Hok' & Hlt & Hmax & Hnp & Hsz).
      assert (Hnp1 : next_page_id_ (evict_page pm) = next_page_id_ pm).
      { unfold evict_page.
        destruct (lru_list_ pm); [reflexivity|].
        destruct (find_victim _ _) as [[n key]|]; [|reflexivity].
        destruct (buffer_pool_ pm !! key); reflexivity. }
      split; [exact Hok'|]. split; [exact Hlt|]. split; [congruence|].
      split; [congruence|lia].
    + injection Hrun as <-. zbool. splits; auto; lia.
Qed.

(** With [max_pages_ >= 1] the eviction loop ends within as many iterations
    as the pool has pages. *)
Lemma evict_while_full_terminates n pm :
  nodes_ok pm -> 1 <= max_pages_ pm ->
  (size (buffer_pool_ pm) <= n)%nat ->
  exists pm', evict_while_full (S n) pm = Val tt pm'.
Proof.
  revert pm. induction n as [|n IH]; intros pm Hok Hmax Hsz; simpl.
  - unfold page_count.
    destruct (Z.of_nat (size (buffer_pool_ pm)) >=? max_pages_ pm) eqn:Hc;
      [zbool; lia|]. eauto.
  - destruct (page_count pm >=? max_pages_ pm) eqn:Hfull; [|eauto].
    unfold page_count in Hfull. zbool.
    destruct (evict_page_removes_one pm Hok) as (key & e & _ & _ & _ & Hsz' & Hmax' & Hok');
      [lia|].
    apply IH; [exact Hok' | lia | lia].
Qed.

(** With [max_pages_ = 0] the eviction loop never ends. *)
Lemma evict_while_full_diverges fuel pm :
  max_pages_ pm = 0 -> evict_while_full fuel pm = Diverge.
Proof.
  revert pm. induction fuel as [|fuel IH]; intros pm Hmax; simpl; [reflexivity|].
  unfold page_count. destruct (Z.of_nat _ >=? max_pages_ pm) eqn:Hc; [|zbool; lia].
  apply IH. unfold evict_page.
  destruct (lru_list_ pm); [exact Hmax|].
  destruct (find_victim _ _) as [[n key]|]; [|exact Hmax].
  destruct (buffer_pool_ pm !! key); exact Hmax.
Qed.

Lemma push_front_ok key pm :
  NoDup (List.map fst (lru_list_ pm)) ->
  (forall n k, In (n, k) (lru_list_ pm) -> (n < next_node_ pm)%nat) ->
  (forall k n, lru_map_ pm !! k = Some n -> (n < next_node_ pm)%nat) ->
  (forall k n k', lru_map_ pm !! k = Some n -> In (n, k') (lru_list_ pm) -> k' = k) ->
  (forall k, k <> key -> is_Some (buffer_pool_ pm !! k) ->
             exists n, In (n, k) (lru_list_ pm)) ->
  nodes_ok (lru_push_front key pm).
Proof.
  intros Hnd Hold Hiold Hiown Hres. constructor; simpl.
  - apply NoDup_cons. split; [|exact Hnd].
    intros Hin. apply list_elem_of_In in Hin.
    apply in_map_iff in Hin as [[m k] [Heq Hin]]. simpl in Heq. subst m.
    apply Hold in Hin. lia.
  - intros n k [Heq|Hin]; [injection Heq as <- <-; lia|].
    apply Hold in Hin. lia.
  - intros k n Hk. apply lookup_insert_Some in Hk as [[_ <-]|[_ Hk]]; [lia|].
    apply Hiold in Hk. lia.
  - intros k n k' Hk Hin. apply lookup_insert_Some in Hk as [[<- <-]|[Hne Hk]].
    + destruct Hin as [Heq|Hin]; [congruence|]. apply Hold in Hin. lia.
    + destruct Hin as [Heq|Hin].
      * injection Heq as <- <-. apply Hiold in Hk. lia.
      * eauto.
  - intros k Hk. destruct (decide (k = key)) as [->|Hne].
    + exists (next_node_ pm). left. reflexivity.
    + destruct (Hres k Hne Hk) as [n Hn]. exists n. right. exact Hn.
Qed.

Lemma install_ok key e pm :
  nodes_ok pm -> nodes_ok (install key e pm).
Proof.
  intros Hok. unfold install. apply push_front_ok; simpl; try apply Hok.
  intros k Hne Hk. rewrite lookup_insert_ne in Hk by congruence.
  apply Hok. exact Hk.
Qed.

Lemma install_size key e pm :
  (size (buffer_pool_ (install key e pm)) <= S (size (buffer_pool_ pm)))%nat.
Proof.
  unfold install. simpl. rewrite map_size_insert.
  destruct (buffer_pool_ pm !! key); simpl; lia.
Qed.

Lemma same_keys_ok (pm pm' : t) :
  lru_list_ pm' = lru_list_ pm -> lru_map_ pm' = lru_map_ pm ->
  next_node_ pm' = next_node_ pm ->
  (forall k, is_Some (buffer_pool_ pm' !! k) -> is_Some (buffer_pool_ pm !! k)) ->
  nodes_ok pm -> nodes_ok pm'.
Proof.
  intros Hl Hm Hn Hk Hok. constructor; rewrite ?Hl, ?Hm, ?Hn; try apply Hok.
  intros k Hin. apply Hok. auto.
Qed.

Lemma drop_key_ok key pm : nodes_ok pm -> nodes_ok (drop_key key pm).
Proof.
  intros Hok. constructor; simpl.
  - destruct (lru_map_ pm !! key); [apply NoDup_lru_erase|]; apply Hok.
  - intros n k Hin. destruct (lru_map_ pm !! key);
      [apply In_lru_erase in Hin as [Hin _]|]; eapply nodes_old; eauto.
  - intros k n Hk. apply lookup_delete_Some in Hk as [_ Hk].
    eapply iterators_old; eauto.
  - intros k n k' Hk Hin. apply lookup_delete_Some in Hk as [_ Hk].
    destruct (lru_map_ pm !! key);
      [apply In_lru_erase in Hin as [Hin _]|]; eapply iterators_own; eauto.
  - intros k [x Hx]. apply lookup_delete_Some in Hx as [Hne Hx].
    destruct (resident_listed _ Hok k) as [m Hm]; [eauto|].
    exists m. destruct (lru_map_ pm !! key) as [n|] eqn:Hkey; [|exact Hm].
    apply In_lru_erase. split; [exact Hm|]. intros ->.
    apply Hne. symmetry. eapply iterators_own; eauto.
Qed.

Lemma drop_key_size key pm :
  (size (buffer_pool_ (drop_key key pm)) <= size (buffer_pool_ pm))%nat.
Proof.
  simpl. rewrite map_size_delete. destruct (buffer_pool_ pm !! key); simpl; lia.
Qed.

Lemma drop_keys_ok keys pm :
  nodes_ok pm ->
  nodes_ok (fold_left (fun acc key => drop_key key acc) keys pm) /\
  (size (buffer_pool_ (fold_left (fun acc key => drop_key key acc) keys pm))
   <= size (buffer_pool_ pm))%nat /\
  max_pages_ (fold_left (fun acc key => drop_key key acc) keys pm) = max_pages_ pm.
Proof.
  revert pm. induction keys as [|k keys IH]; intros pm Hok; simpl; [auto|].
  destruct (IH (drop_key k pm) (drop_key_ok k pm Hok)) as (H1 & H2 & H3).
  pose proof (drop_key_size k pm). splits; auto; lia.
Qed.

(** The state that a public operation leaves satisfies the list invariant,
    keeps [max_pages_] and stays within the capacity. *)

Lemma load_page_within fuel tid pid pm r pm' :
  within pm -> load_page fuel tid pid pm = Val r pm' ->
  within pm' /\ max_pages_ pm' = max_pages_ pm.
Proof.
  intros [Hok Hle]. unfold load_page. unfold_monad.
  destruct (evict_while_full fuel pm) as [[] pm1| | |] eqn:Hev; try discriminate.
  destruct (evict_while_full_result _ _ _ Hev Hok) as (Hok1 & Hlt & Hmax & _ & _).
  destruct (files_ pm1 !! tid) as [f|];
    [|intros [= <- <-]; split; [split; [auto|lia]|auto]].
  destruct (f !! Z.to_nat pid) as [pg|];
    [|intros [= <- <-]; split; [split; [auto|lia]|auto]].
  destruct (negb (Page.is_valid (Page.header pg)));
    [intros [= <- <-]; split; [split; [auto|lia]|auto]|].
  intros [= <- <-]. split; [|exact Hmax].
  split; [apply install_ok, Hok1|].
  pose proof (install_size (tid, pid)
    {| table_id := tid; page_id := pid; page := pg; dirty := false |} pm1) as Hs.
  unfold page_count in *. simpl max_pages_. lia.
Qed.

Lemma get_page_within fuel tid pid pm r pm' :
  within pm -> get_page fuel tid pid pm = Val r pm' ->
  within pm' /\ max_pages_ pm' = max_pages_ pm.
Proof.
  intros Hw. pose proof Hw as [Hok Hle]. unfold get_page. unfold_monad.
  destruct (buffer_pool_ pm !! (tid, pid)) as [e|] eqn:Hhit.
  - destruct (lru_map_ pm !! (tid, pid)) as [n|] eqn:Hn.
    + intros [= <- <-]. split; [|reflexivity]. split; [|exact Hle].
      apply push_front_ok; simpl.
      * apply NoDup_lru_erase, Hok.
      * intros m k Hin. apply In_lru_erase in Hin as [Hin _].
        eapply nodes_old; eauto.
      * apply Hok.
      * intros k m k' Hk Hin. apply In_lru_erase in Hin as [Hin _].
        eapply iterators_own; eauto.
      * intros k Hne Hk. destruct (resident_listed _ Hok k Hk) as [m Hm].
        exists m. apply In_lru_erase. split; [exact Hm|]. intros ->.
        apply Hne. eapply iterators_own; eauto.
    + intros [= <- <-]. auto.
  - destruct (load_page fuel tid pid pm) as [ok pm1| | |] eqn:Hload; try discriminate.
    destruct (load_page_within _ _ _ _ _ _ Hw Hload) as [Hw1 Hmax].
    destruct ok; intros [= <- <-]; auto.
Qed.

Lemma allocate_page_within fuel tid pm r pm' :
  within pm -> allocate_page fuel tid pm = Val r pm' ->
  within pm' /\ max_pages_ pm' = max_pages_ pm.
Proof.
  intros [Hok Hle]. unfold allocate_page. unfold_monad.
  match goal with |- context [evict_while_full fuel ?p] => set (pm0 := p) end.
  assert (Hok0 : nodes_ok pm0) by (apply (same_keys_ok pm); auto).
  destruct (evict_while_full fuel pm0) as [[] pm1| | |] eqn:Hev; try discriminate.
  destruct (evict_while_full_result _ _ _ Hev Hok0) as (Hok1 & Hlt & Hmax & _ & _).
  intros [= <- <-]. split; [|exact Hmax].
  split; [apply install_ok, Hok1|].
  match goal with |- context [install ?k ?e pm1] =>
    pose proof (install_size k e pm1) as Hs end.
  unfold page_count in *. simpl max_pages_. lia.
Qed.

Lemma map_fmap_is_Some {A B} (f : A -> B) (m : gmap (Z * Z) A) k :
  is_Some ((f <$> m) !! k) -> is_Some (m !! k).
Proof. rewrite lookup_fmap. intros [x Hx]. destruct (m !! k); [eauto|discriminate]. Qed.

Lemma insert_existing_size {A} (m : gmap (Z * Z) A) k x y :
  m !! k = Some x -> size (<[k := y]> m) = size m.
Proof. intros H. apply map_size_insert_Some. eauto. Qed.

Lemma insert_existing_is_Some {A} (m : gmap (Z * Z) A) k x y k' :
  m !! k = Some x -> is_Some (<[k := y]> m !! k') -> is_Some (m !! k').
Proof.
  intros H. destruct (decide (k = k')) as [<-|Hne].
  - eauto.
  - rewrite lookup_insert_ne by exact Hne. auto.
Qed.

Lemma empty_lists_ok pm :
  lru_list_ pm = [] -> lru_map_ pm = ∅ -> buffer_pool_ pm = ∅ -> nodes_ok pm.
Proof.
  intros Hl Hm Hp. constructor; rewrite ?Hl, ?Hm, ?Hp; simpl.
  - constructor.
  - tauto.
  - intros k n H. rewrite lookup_empty in H. discriminate.
  - intros k n k' H. rewrite lookup_empty in H. discriminate.
  - intros k [x H]. rewrite lookup_empty in H. discriminate.
Qed.

(** Every page manager that a program can hold satisfies the list invariant
    and holds at most [max_pages] pages. *)
Lemma reachable_within max_pages pm :
  0 <= max_pages -> reachable max_pages pm ->
  within pm /\ max_pages_ pm = max_pages.
Proof.
  intros Hmp Hr. induction Hr.
  - split; [|reflexivity]. split.
    + apply empty_lists_ok; reflexivity.
    + unfold page_count. simpl. rewrite map_size_empty. simpl. lia.
  - destruct IHHr as [Hw Hmax].
    match goal with Hg : get_page _ _ _ _ = _ |- _ =>
      destruct (get_page_within _ _ _ _ _ _ Hw Hg) end.
    split; [auto|congruence].
  - destruct IHHr as [Hw Hmax].
    match goal with Ha : allocate_page _ _ _ = _ |- _ =>
      destruct (allocate_page_within _ _ _ _ _ Hw Ha) end.
    split; [auto|congruence].
  - destruct IHHr as [[Hok Hle] Hmax]. unfold mark_dirty.
    destruct (buffer_pool_ pm !! (tid, pid)) as [e|] eqn:He; [|unfold within; splits; auto].
    split; [|exact Hmax]. split.
    + apply (same_keys_ok pm); auto. simpl. intros k.
      apply (insert_existing_is_Some _ _ _ _ _ He).
    + unfold page_count in *. simpl.
      rewrite (insert_existing_size _ _ _ _ He). exact Hle.
  - destruct IHHr as [[Hok Hle] Hmax]. unfold flush_page.
    destruct (buffer_pool_ pm !! (tid, pid)) as [e|] eqn:He; [|unfold within; splits; auto].
    destruct (dirty e); [|unfold within; splits; auto].
    split; [|exact Hmax]. split.
    + apply (same_keys_ok pm); auto. simpl. intros k.
      apply (insert_existing_is_Some _ _ _ _ _ He).
    + unfold page_count in *. simpl.
      rewrite (insert_existing_size _ _ _ _ He). exact Hle.
  - destruct IHHr as [[Hok Hle] Hmax]. simpl.
    split; [|exact Hmax]. split.
    + apply (same_keys_ok pm); auto. simpl. intros k. apply map_fmap_is_Some.
    + unfold page_count in *. simpl. rewrite map_size_fmap. exact Hle.
  - destruct IHHr as [[Hok Hle] Hmax]. split; [|exact Hmax]. split.
    + apply (same_keys_ok pm); auto.
    + exact Hle.
  - destruct IHHr as [[Hok Hle] Hmax]. unfold delete_table_file.
    match goal with |- context [fold_left _ ?ks pm] =>
      destruct (drop_keys_ok ks pm Hok) as (H1 & H2 & H3) end.
    split; [|simpl; congruence]. split.
    + eapply same_keys_ok; [| | | |exact H1]; simpl; auto.
    + unfold page_count in *. simpl. lia.
  - destruct IHHr as [[Hok Hle] Hmax]. split; [|exact Hmax]. split.
    + apply empty_lists_ok; reflexivity.
    + unfold page_count. simpl. rewrite map_size_empty. lia.
  - destruct IHHr as [[Hok Hle] Hmax]. unfold assign in H.
    destruct (buffer_pool_ pm !! key) as [e|] eqn:He; [|discriminate].
    injection H as <-. split; [|exact Hmax]. split.
    + apply (same_keys_ok pm); auto. simpl. intros k.
      apply (insert_existing_is_Some _ _ _ _ _ He).
    + unfold page_count in *. simpl.
      rewrite (insert_existing_size _ _ _ _ He). exact Hle.
Qed.

Lemma allocate_page_returns tid pm :
  nodes_ok pm -> 1 <= max_pages_ pm ->
  exists pid pm',
    allocate_page (S (size (buffer_pool_ pm))) tid pm = Val pid pm'.
Proof.
  intros Hok Hmax. unfold allocate_page. unfold_monad.
  match goal with |- context [evict_while_full _ ?p] => set (pm0 := p) end.
  assert (Hok0 : nodes_ok pm0) by (apply (same_keys_ok pm); auto).
  destruct (evict_while_full_terminates (size (buffer_pool_ pm)) pm0 Hok0 Hmax)
    as [pm1 Hev]; [reflexivity|].
  rewrite Hev. eauto.
Qed.

Lemma get_page_returns tid pid pm :
  nodes_ok pm -> 1 <= max_pages_ pm ->
  exists r pm',
    get_page (S (size (buffer_pool_ pm))) tid pid pm = Val r pm'.
Proof.
  intros Hok Hmax. unfold get_page. unfold_monad.
  destruct (buffer_pool_ pm !! (tid, pid)) as [e|].
  - destruct (lru_map_ pm !! (tid, pid)); eauto.
  - unfold load_page. unfold_monad.
    destruct (evict_while_full_terminates (size (buffer_pool_ pm)) pm Hok Hmax)
      as [pm1 Hev]; [reflexivity|].
    rewrite Hev.
    destruct (files_ pm1 !! tid) as [f|]; [|eauto].
    destruct (f !! Z.to_nat pid) as [pg|]; [|eauto].
    destruct (negb (Page.is_valid (Page.header pg))); eauto.
Qed.

(** *** Page images in the table files *)

Lemma write_at_eq p pg f : write_at p pg f !! p = Some pg.
Proof.
  unfold write_at. destruct (decide (p < List.length f)%nat).
  - apply list_lookup_insert_eq. exact l.
  - rewrite lookup_app_r by lia.
    rewrite lookup_app_r by (rewrite length_replicate; lia).
    rewrite length_replicate.
    replace (p - List.length f - (p - List.length f))%nat with O by lia.
    reflexivity.
Qed.

Lemma write_at_ne p q pg f x :
  p <> q -> f !! q = Some x -> write_at p pg f !! q = Some x.
Proof.
  intros Hne Hq. unfold write_at.
  destruct (decide (p < List.length f)%nat).
  - rewrite list_lookup_insert_ne by exact Hne. exact Hq.
  - rewrite lookup_app_l by (apply lookup_lt_Some in Hq; exact Hq). exact Hq.
Qed.

Lemma on_disk_write_eq tid pid pg files :
  on_disk (write_page tid pid pg files) tid pid = Some pg.
Proof.
  unfold on_disk, write_page. rewrite lookup_insert_eq. apply write_at_eq.
Qed.

Lemma on_disk_write_ne tid pid pg files tid' pid' x :
  0 <= pid -> 0 <= pid' -> (tid, pid) <> (tid', pid') ->
  on_disk files tid' pid' = Some x ->
  on_disk (write_page tid pid pg files) tid' pid' = Some x.
Proof.
  intros H0 H0' Hne Hx. unfold on_disk, write_page in *.
  destruct (decide (tid = tid')) as [->|Ht].
  - rewrite lookup_insert_eq.
    destruct (files !! tid') as [f|]; [|discriminate]. cbn [default].
    apply write_at_ne; [|exact Hx].
    intros E. apply Hne. f_equal. lia.
  - rewrite lookup_insert_ne by exact Ht. exact Hx.
Qed.

End BufferPool.

(** ** Write-ahead log *)

Section WalFacts.
Import Mem Wal.

Lemma length_encode_header h : List.length (encode_header h) = 32%nat.
Proof. unfold encode_header. rewrite !length_app, !length_le_bytes. reflexivity. Qed.

Ltac len_lia :=
  rewrite ?length_app, ?length_take, ?length_drop, ?length_encode_header;
  rewrite ?Nat2Z.inj_add; lia.

Ltac peek_field :=
  repeat first
    [ rewrite peek_all by apply length_le_bytes
    | rewrite peek_app_r by (rewrite length_le_bytes; simpl; lia);
      rewrite length_le_bytes; simpl Nat.sub ].

Lemma decode_encode_header h :
  Spec.header_in_range h -> decode_header (encode_header h) = h.
Proof.
  intros (H1 & H2 & H3 & H4 & H5 & H6 & H7 & H8 & H9).
  destruct h as [l len c ty rs tid pid sid pad]; simpl in *.
  unfold decode_header, encode_header;
    cbn [lsn length crc32 type reserved table_id page_id slot_id padding].
  rewrite <- (app_nil_r (le_bytes 2 pad)).
  peek_field.
  rewrite !le_value_le_bytes_small by (simpl; lia).
  reflexivity.
Qed.

Lemma compute_crc32_range data : 0 <= compute_crc32 data < 2^32.
Proof. unfold compute_crc32. apply Z.mod_pos_bound. lia. Qed.

(** [serialize] into a buffer of the serialized size writes the header
    image followed by the payload. *)
Lemma serialize_exact r :
  serialize r (serialized_size r) = Some (encode_header (header r) ++ payload r).
Proof.
  unfold serialize. rewrite Z.ltb_irrefl. reflexivity.
Qed.

Lemma deserialize_image r :
  Spec.well_formed r ->
  deserialize (encode_header (header r) ++ payload r) (serialized_size r) = Done r.
Proof.
  intros (Hr & Hlen & Hcrc).
  pose proof (length_encode_header (header r)) as Hl.
  unfold deserialize, serialized_size, sizeof_WalRecordHeader in *.
  destruct (32 + Z.of_nat (List.length (payload r)) <? 32) eqn:E; [zbool; lia|].
  rewrite load_in_range by len_lia.
  change (Z.to_nat 0) with O. change (Z.to_nat 32) with 32%nat.
  rewrite peek_all by exact Hl.
  rewrite decode_encode_header by exact Hr.
  rewrite Hlen.
  rewrite Z.ltb_irrefl. rewrite E.
  replace ((32 + Z.of_nat (List.length (payload r)) - 32) mod 2^64)
    with (Z.of_nat (List.length (payload r))).
  2:{ destruct Hr as (_ & Hr & _). rewrite Hlen in Hr.
      rewrite Z.mod_small by lia. lia. }
  rewrite load_in_range by len_lia.
  change (Z.to_nat 32) with 32%nat. rewrite Nat2Z.id.
  rewrite peek_app_r by lia. rewrite Hl, Nat.sub_diag, peek_full.
  unfold is_valid, calculate_crc32. simpl. rewrite Hcrc, Z.eqb_refl.
  destruct r; reflexivity.
Qed.

(** The record that [append] writes is well formed. *)
Lemma stamp_well_formed cur r :
  0 <= cur < 2^64 -> Spec.appendable r -> Spec.well_formed (stamp cur r).
Proof.
  intros Hcur (H1 & H2 & H3 & H4 & H5 & H6 & H7).
  unfold serialized_size, sizeof_WalRecordHeader, READ_BUFFER_SIZE in *.
  unfold Spec.well_formed, Spec.header_in_range, stamp, serialized_size,
    sizeof_WalRecordHeader; simpl.
  pose proof (compute_crc32_range (payload r)).
  rewrite Z.mod_small by lia. splits; auto; lia.
Qed.

Lemma stamp_size cur r : serialized_size (stamp cur r) = serialized_size r.
Proof. reflexivity. Qed.

Lemma length_image r :
  Z.of_nat (List.length (Spec.image r)) = serialized_size r.
Proof.
  unfold Spec.image, serialized_size, sizeof_WalRecordHeader.
  rewrite length_app, length_encode_header. lia.
Qed.

(** One iteration of the loop of [read_from] over a complete record. *)
Lemma read_records_step fuel start r rest acc :
  Spec.well_formed r -> serialized_size r <= READ_BUFFER_SIZE ->
  read_records (S fuel) start (Spec.image r ++ rest) acc
  = read_records fuel start rest
      (if lsn (header r) >=? start then acc ++ [r] else acc).
Proof.
  intros Hwf Hsz. pose proof Hwf as (Hr & Hlen & Hcrc).
  pose proof (length_encode_header (header r)) as Hl.
  pose proof (length_image r) as Hli.
  unfold serialized_size, sizeof_WalRecordHeader, READ_BUFFER_SIZE in *.
  assert (Hhead : peek 0 32 (Spec.image r ++ rest) = encode_header (header r)).
  { unfold Spec.image. rewrite <- app_assoc. apply peek_all. exact Hl. }
  assert (Hbody : peek 32 (List.length (payload r)) (Spec.image r ++ rest)
                  = payload r).
  { unfold Spec.image. rewrite <- app_assoc. rewrite peek_app_r by lia.
    rewrite Hl, Nat.sub_diag. apply peek_all. reflexivity. }
  cbn [read_records]. unfold sizeof_WalRecordHeader, READ_BUFFER_SIZE.
  rewrite load_in_range by len_lia.
  change (Z.to_nat 0) with O. change (Z.to_nat 32) with 32%nat.
  rewrite Hhead. rewrite decode_encode_header by exact Hr. rewrite Hlen.
  destruct (32 + Z.of_nat (List.length (payload r)) <? 32) eqn:E1; [zbool; lia|].
  destruct (32 + Z.of_nat (List.length (payload r)) >? 64 * 1024) eqn:E2;
    [zbool; lia|].
  cbn [orb].
  replace (32 + Z.of_nat (List.length (payload r)) - 32)
    with (Z.of_nat (List.length (payload r))) by lia.
  rewrite load_in_range by len_lia.
  change (Z.to_nat 32) with 32%nat. rewrite Nat2Z.id.
  rewrite Hbody.
  pose proof (deserialize_image r Hwf) as Hd.
  unfold serialized_size, sizeof_WalRecordHeader in Hd. rewrite Hd.
  f_equal. rewrite drop_app_length'; [reflexivity|]. lia.
Qed.

(** The loop stops without error at a tail shorter than a header. *)
Lemma read_records_short_tail fuel start rest acc :
  (List.length rest < 32)%nat ->
  read_records (S fuel) start rest acc = Some acc.
Proof.
  intros H. cbn [read_records]. unfold sizeof_WalRecordHeader.
  rewrite load_out_of_range by lia. reflexivity.
Qed.

(** The loop stops without error at a record that lost its last bytes. *)
Lemma read_records_cut_record fuel start r k acc :
  Spec.well_formed r -> serialized_size r <= READ_BUFFER_SIZE ->
  (k < List.length (Spec.image r))%nat ->
  read_records (S fuel) start (take k (Spec.image r)) acc = Some acc.
Proof.
  intros Hwf Hsz Hk. pose proof Hwf as (Hr & Hlen & Hcrc).
  pose proof (length_encode_header (header r)) as Hl.
  pose proof (length_image r) as Hli.
  destruct (decide (k < 32)%nat) as [Hshort|Hlong].
  - apply read_records_short_tail. rewrite length_take. lia.
  - unfold serialized_size, sizeof_WalRecordHeader, READ_BUFFER_SIZE in *.
    cbn [read_records]. unfold sizeof_WalRecordHeader, READ_BUFFER_SIZE.
    rewrite load_in_range by len_lia.
    change (Z.to_nat 0) with O. change (Z.to_nat 32) with 32%nat.
    assert (Hhead : peek 0 32 (take k (Spec.image r)) = encode_header (header r)).
    { unfold peek. rewrite drop_0, take_take.
      replace (32 `min` k)%nat with 32%nat by lia.
      unfold Spec.image. rewrite take_app_length'; [reflexivity|exact Hl]. }
    rewrite Hhead. rewrite decode_encode_header by exact Hr. rewrite Hlen.
    destruct (32 + Z.of_nat (List.length (payload r)) <? 32) eqn:E1; [zbool; lia|].
    destruct (32 + Z.of_nat (List.length (payload r)) >? 64 * 1024) eqn:E2;
      [zbool; lia|].
    cbn [orb].
    rewrite load_out_of_range; [reflexivity|]. rewrite length_take. lia.
Qed.

Lemma stamped_well_formed cur rs :
  0 <= cur < 2^64 -> Forall Spec.appendable rs ->
  Forall (fun r => Spec.well_formed r /\ serialized_size r <= READ_BUFFER_SIZE)
         (Spec.stamped cur rs).
Proof.
  intros Hcur Hrs. revert cur Hcur.
  induction Hrs as [|r rs Hr Hrs IH]; intros cur Hcur; simpl; constructor.
  - split; [apply stamp_well_formed; assumption|].
    rewrite stamp_size. apply Hr.
  - apply IH. apply Z.mod_pos_bound. lia.
Qed.

Lemma stamped_lsn_from cur rs start :
  0 <= cur -> start <= cur -> cur + Z.of_nat (List.length rs) <= 2^64 ->
  Forall (fun r => (lsn (header r) >=? start) = true) (Spec.stamped cur rs).
Proof.
  revert cur. induction rs as [|r rs IH]; intros cur H0 Hs Hn;
    cbn [Spec.stamped]; constructor.
  - cbn [stamp header lsn]. rewrite Z.geb_leb. apply Z.leb_le. exact Hs.
  - cbn [List.length] in Hn. destruct rs as [|r' rs']; [constructor|].
    cbn [List.length] in Hn.
    rewrite Z.mod_small by lia. apply IH; cbn [List.length]; lia.
Qed.

(** The loop of [read_from] over the images of well-formed records that
    all pass the LSN filter yields them in order. *)
Lemma read_records_images srs fuel start tail acc :
  Forall (fun r => Spec.well_formed r /\ serialized_size r <= READ_BUFFER_SIZE) srs ->
  Forall (fun r => (lsn (header r) >=? start) = true) srs ->
  read_records (List.length srs + fuel) start
    (concat (List.map Spec.image srs) ++ tail) acc
  = read_records fuel start tail (acc ++ srs).
Proof.
  intros Hwf. revert acc. induction Hwf as [|r srs [Hr Hsz] Hwf IH]; intros acc Hl.
  - simpl. rewrite app_nil_r. reflexivity.
  - apply Forall_cons in Hl as [Hlr Hl].
    cbn [List.length List.map concat Nat.add]. rewrite <- app_assoc.
    rewrite read_records_step by assumption. rewrite Hlr.
    rewrite IH by exact Hl. rewrite <- app_assoc. reflexivity.
Qed.

Lemma length_images srs :
  (List.length srs <= List.length (concat (List.map Spec.image srs)))%nat.
Proof.
  induction srs as [|r srs IH]; cbn [List.map concat List.length]; [lia|].
  rewrite length_app. pose proof (length_image r) as H.
  unfold serialized_size, sizeof_WalRecordHeader in H. lia.
Qed.

(** What successive appends leave in the file. *)
Lemma append_all_file rs w bytes :
  is_open_ w = true -> file_ w = Some bytes ->
  file_ (Sample.append_all rs w)
  = Some (bytes ++ concat (List.map Spec.image (Spec.stamped (current_lsn_ w) rs)))
  /\ is_open_ (Sample.append_all rs w) = true.
Proof.
  revert w bytes. induction rs as [|r rs IH]; intros w bytes Ho Hf.
  - simpl. rewrite app_nil_r. auto.
  - unfold Sample.append_all in *. cbn [fold_left Spec.stamped List.map concat].
    unfold append at 2 4. rewrite Ho. cbn [negb].
    rewrite stamp_size. change (serialized_size r) with
      (serialized_size (stamp (current_lsn_ w) r)).
    rewrite serialize_exact. cbn [snd].
    match goal with |- context [fold_left _ rs ?w1] =>
      destruct (IH w1 (file_bytes w ++ Spec.image (stamp (current_lsn_ w) r)))
        as [Hfile Hopen]; [reflexivity|reflexivity|] end.
    cbn [current_lsn_] in Hfile. rewrite Hfile, Hopen.
    unfold file_bytes. rewrite Hf. rewrite <- app_assoc. auto.
Qed.

Lemma length_initial_file : List.length initial_file = 24%nat.
Proof. reflexivity. Qed.

(** [read_from] over a file that holds well-formed records followed by a
    tail at which the loop stops. *)
Lemma read_from_images w srs tail start :
  is_open_ w = true ->
  file_ w = Some (initial_file ++ concat (List.map Spec.image srs) ++ tail) ->
  Forall (fun r => Spec.well_formed r /\ serialized_size r <= READ_BUFFER_SIZE) srs ->
  Forall (fun r => (lsn (header r) >=? start) = true) srs ->
  (forall fuel acc, read_records (S fuel) start tail acc = Some acc) ->
  read_from start w = Done srs.
Proof.
  intros Ho Hf Hwf Hl Htail. unfold read_from, file_bytes. rewrite Ho, Hf.
  cbn [negb]. unfold sizeof_WalFileHeader. change (Z.to_nat 24) with 24%nat.
  rewrite drop_app_length' by apply length_initial_file.
  pose proof (length_images srs) as Hn.
  match goal with |- context [read_records (S ?n)] =>
    replace (S n) with (List.length srs + S (n - List.length srs))%nat
      by (rewrite !length_app in *; lia) end.
  rewrite read_records_images by assumption.
  rewrite Htail. reflexivity.
Qed.

Lemma stamped_app cur rs r :
  0 <= cur -> cur + Z.of_nat (List.length rs) < 2^64 ->
  Spec.stamped cur (rs ++ [r])
  = Spec.stamped cur rs ++ [stamp (cur + Z.of_nat (List.length rs)) r].
Proof.
  revert cur. induction rs as [|r0 rs IH]; intros cur H0 Hn.
  - cbn [app Spec.stamped List.length]. rewrite Z.add_0_r. reflexivity.
  - cbn [app Spec.stamped List.length] in *.
    rewrite Z.mod_small by lia. rewrite IH by lia.
    replace (cur + 1 + Z.of_nat (List.length rs))
      with (cur + Z.of_nat (S (List.length rs))) by lia.
    reflexivity.
Qed.

(** C4, as amended: a record as [append] writes it (the header length and
    checksum are those of the payload) is read back by [deserialize] from
    what [serialize] wrote; the records appended to a new log, each of at
    most 64 KiB when serialized, are read back by [read_from] as they were
    written, in order; and after the loss of the last [n] bytes of the
    file, [n] between 1 and the size of the last record, [read_from]
    still succeeds and yields all the records but the last. *)
Theorem wal_round_trip r rs last n :
  Spec.well_formed r ->
  Forall Spec.appendable rs -> Spec.appendable last ->
  Z.of_nat (List.length rs) < 2^64 - 2 ->
  1 <= Z.of_nat n <= serialized_size last ->
  (exists bytes,
     serialize r (serialized_size r) = Some bytes /\
     deserialize bytes (Z.of_nat (List.length bytes)) = Done r) /\
  read_from 1 (Sample.append_all rs Sample.fresh_wal)
  = Done (Spec.stamped 1 rs) /\
  read_from 1 (Sample.append_all (rs ++ [last]) Sample.fresh_wal)
  = Done (Spec.stamped 1 rs ++ [stamp (1 + Z.of_nat (List.length rs)) last]) /\
  read_from 1 (Spec.truncate_tail n
                 (Sample.append_all (rs ++ [last]) Sample.fresh_wal))
  = Done (Spec.stamped 1 rs).
Proof.
  intros Hr Hrs Hlast Hlen Hn.
  assert (Hwf : Forall (fun r => Spec.well_formed r /\
                                 serialized_size r <= READ_BUFFER_SIZE)
                       (Spec.stamped 1 rs))
    by (apply stamped_well_formed; [lia|exact Hrs]).
  assert (Hlsn : Forall (fun r => (lsn (header r) >=? 1) = true)
                        (Spec.stamped 1 rs))
    by (apply stamped_lsn_from; lia).
  set (sl := stamp (1 + Z.of_nat (List.length rs)) last).
  assert (Hsl : Spec.well_formed sl)
    by (apply stamp_well_formed; [lia|exact Hlast]).
  assert (Hszl : serialized_size sl <= READ_BUFFER_SIZE)
    by (unfold sl; rewrite stamp_size; apply Hlast).
  split; [|split; [|split]].
  - exists (Spec.image r). split; [apply serialize_exact|].
    rewrite length_image. apply deserialize_image. exact Hr.
  - destruct (append_all_file rs Sample.fresh_wal initial_file eq_refl eq_refl)
      as [Hf Ho].
    apply (read_from_images _ _ []); [exact Ho| |exact Hwf|exact Hlsn|].
    + rewrite Hf, app_nil_r. reflexivity.
    + intros fuel acc. apply read_records_short_tail. simpl. lia.
  - destruct (append_all_file (rs ++ [last]) Sample.fresh_wal initial_file
                eq_refl eq_refl) as [Hf Ho].
    cbn [Sample.fresh_wal current_lsn_] in Hf.
    rewrite stamped_app in Hf by lia. fold sl in Hf.
    apply (read_from_images _ _ []); [exact Ho| | | |].
    + rewrite Hf, app_nil_r. reflexivity.
    + apply Forall_app. split; [exact Hwf|]. constructor; [auto|constructor].
    + apply Forall_app. split; [exact Hlsn|]. constructor; [|constructor].
      unfold sl. cbn [stamp header lsn]. rewrite Z.geb_leb. apply Z.leb_le. lia.
    + intros fuel acc. apply read_records_short_tail. simpl. lia.
  - destruct (append_all_file (rs ++ [last]) Sample.fresh_wal initial_file
                eq_refl eq_refl) as [Hf Ho].
    cbn [Sample.fresh_wal current_lsn_] in Hf.
    rewrite stamped_app in Hf by lia. fold sl in Hf.
    pose proof (length_image sl) as Hli.
    unfold sl in Hli at 2. rewrite stamp_size in Hli.
    apply (read_from_images _ _
             (take (List.length (Spec.image sl) - n) (Spec.image sl)));
      [exact Ho| |exact Hwf|exact Hlsn|].
    + unfold Spec.truncate_tail. cbn [file_]. rewrite Hf. f_equal.
      rewrite List.map_app, concat_app. cbn [List.map concat].
      rewrite app_nil_r, !app_assoc.
      rewrite take_app_ge by (rewrite !length_app; lia).
      f_equal. f_equal. rewrite !length_app. lia.
    + intros fuel acc. apply read_records_cut_record; auto. lia.
Qed.

End WalFacts.

Ltac by_computation :=
  unfold Spec.well_formed, Spec.header_in_range, Spec.appendable;
  repeat match goal with
  | |- _ /\ _ => split
  | |- Forall _ _ => constructor
  end;
  vm_compute; try reflexivity; try (intros H; discriminate H).

Lemma wal_round_trip_witness :
  Spec.well_formed (Wal.stamp 1 (Sample.record Wal.INSERT 1 0 0 [x41])) /\
  Forall Spec.appendable [Sample.record Wal.INSERT 1 0 0 [x41]] /\
  Spec.appendable (Sample.record Wal.DELETE 1 0 0 []) /\
  Z.of_nat (List.length [Sample.record Wal.INSERT 1 0 0 [x41]]) < 2^64 - 2 /\
  1 <= Z.of_nat 5 <= Wal.serialized_size (Sample.record Wal.DELETE 1 0 0 []) /\
  Wal.read_from 1
    (Spec.truncate_tail 5
       (Sample.append_all
          ([Sample.record Wal.INSERT 1 0 0 [x41]]
           ++ [Sample.record Wal.DELETE 1 0 0 []]) Sample.fresh_wal))
  = Done (Spec.stamped 1 [Sample.record Wal.INSERT 1 0 0 [x41]]).
Proof.
  assert (H1 : Spec.well_formed (Wal.stamp 1 (Sample.record Wal.INSERT 1 0 0 [x41])))
    by by_computation.
  assert (H2 : Forall Spec.appendable [Sample.record Wal.INSERT 1 0 0 [x41]])
    by by_computation.
  assert (H3 : Spec.appendable (Sample.record Wal.DELETE 1 0 0 []))
    by by_computation.
  assert (H4 : Z.of_nat (List.length [Sample.record Wal.INSERT 1 0 0 [x41]]) < 2^64 - 2)
    by by_computation.
  assert (H5 : 1 <= Z.of_nat 5 <= Wal.serialized_size (Sample.record Wal.DELETE 1 0 0 []))
    by by_computation.
  repeat (split; [assumption|]).
  exact (proj2 (proj2 (proj2 (wal_round_trip _ _ _ _ H1 H2 H3 H4 H5)))).
Defined.

(** C4 fails as stated: [append] accepts a record whose serialized form is
    one byte longer than the read buffer, and [read_from] then yields
    neither this record nor the one appended after it. *)
Lemma oversized_record_not_replayed :
  fst (Wal.append Sample.oversized_record Sample.fresh_wal) = 1 /\
  Wal.serialized_size (Wal.stamp 1 Sample.oversized_record)
  = Wal.READ_BUFFER_SIZE + 1 /\
  Wal.read_from 1
    (Sample.append_all
       [Sample.oversized_record; Sample.record Wal.INSERT 1 0 0 [x41]]
       Sample.fresh_wal)
  = Done [].
Proof. repeat split; vm_compute; reflexivity. Qed.

(** ** Pages *)

Section PageFacts.
Import Mem Page PageSpec.

Ltac peek_field :=
  repeat first
    [ rewrite peek_all by apply length_le_bytes
    | rewrite peek_app_r by (rewrite length_le_bytes; simpl; lia);
      rewrite length_le_bytes; simpl Nat.sub ].

Lemma length_encode_page_header h : List.length (encode_header h) = 24%nat.
Proof. unfold encode_header. rewrite !length_app, !length_le_bytes. reflexivity. Qed.

Lemma length_encode_slot s : List.length (encode_slot s) = 4%nat.
Proof. unfold encode_slot. rewrite !length_app, !length_le_bytes. reflexivity. Qed.

(** Reading a header back yields each field in the range of its type. *)
Lemma decode_encode_page_header h :
  decode_header (encode_header h)
  = {| magic := magic h mod 2^32; page_id := page_id h mod 2^32;
       lsn := lsn h mod 2^64; slot_count := slot_count h mod 2^16;
       free_space := free_space h mod 2^16;
       data_start := data_start h mod 2^16; flags := flags h mod 2^16 |}.
Proof.
  destruct h as [m pid l sc fs ds fl].
  unfold decode_header, encode_header;
    cbn [magic page_id lsn slot_count free_space data_start flags].
  rewrite <- (app_nil_r (le_bytes 2 fl)).
  peek_field. rewrite !le_value_le_bytes. reflexivity.
Qed.

Lemma decode_encode_slot s :
  0 <= offset s < 2^16 -> 0 <= length s < 2^16 ->
  decode_slot (encode_slot s) = s.
Proof.
  intros H1 H2. destruct s as [o l]. unfold decode_slot, encode_slot;
    cbn [offset length] in *.
  rewrite <- (app_nil_r (le_bytes 2 l)).
  peek_field. rewrite !le_value_le_bytes_small by (simpl; lia). reflexivity.
Qed.

Lemma header_set_header h p :
  (24 <= List.length p)%nat ->
  header (set_header h p) = decode_header (encode_header h).
Proof.
  intros H. unfold header, set_header.
  pose proof (peek_poke_same 0 (encode_header h) p) as H1.
  rewrite length_encode_page_header in H1. rewrite H1 by lia. reflexivity.
Qed.

Lemma length_set_header h p :
  (24 <= List.length p)%nat -> List.length (set_header h p) = List.length p.
Proof.
  intros H. unfold set_header. apply poke_length.
  rewrite length_encode_page_header. lia.
Qed.

Lemma peek_set_header h p o n :
  (24 <= List.length p)%nat -> (24 <= o)%nat ->
  peek o n (set_header h p) = peek o n p.
Proof.
  intros H Ho. unfold set_header. apply peek_poke_after;
    rewrite length_encode_page_header; lia.
Qed.

Lemma header_poke o bs p :
  (o + List.length bs <= List.length p)%nat -> (24 <= o)%nat ->
  header (poke o bs p) = header p.
Proof.
  intros H Ho. unfold header. f_equal. apply peek_poke_before; lia.
Qed.

Lemma total_cap_app A B : total_cap (A ++ B) = total_cap A + total_cap B.
Proof. induction A as [|a A IH]; simpl; lia. Qed.

Lemma total_cap_nonneg A :
  Forall (fun a => 0 <= cap a) A -> 0 <= total_cap A.
Proof. induction 1; simpl; lia. Qed.

Lemma caps_nonneg p A : represents p A -> Forall (fun a => 0 <= cap a) A.
Proof.
  intros Hrep. apply Forall_lookup. intros i a Hi.
  destruct (rep_slots _ _ Hrep i a Hi) as [Hc _]. exact Hc.
Qed.

Lemma total_cap_take_le A n :
  Forall (fun a => 0 <= cap a) A -> total_cap (take n A) <= total_cap A.
Proof.
  intros H. rewrite <- (take_drop n A) at 2. rewrite total_cap_app.
  pose proof (total_cap_nonneg (drop n A) (Forall_drop _ _ _ H)). lia.
Qed.

Lemma total_cap_take_mono A n m :
  Forall (fun a => 0 <= cap a) A -> (n <= m)%nat ->
  total_cap (take n A) <= total_cap (take m A).
Proof.
  intros H Hnm. replace (take n A) with (take n (take m A)).
  - apply total_cap_take_le. apply Forall_take. exact H.
  - rewrite take_take. f_equal. lia.
Qed.

Lemma total_cap_take_S A i a :
  A !! i = Some a -> total_cap (take (S i) A) = total_cap (take i A) + cap a.
Proof.
  intros H. rewrite (take_S_r _ _ _ H), total_cap_app. simpl. lia.
Qed.

(** The room of slot [i] lies between [data_start] and the end. *)
Lemma extent_bounds p A i a :
  represents p A -> A !! i = Some a ->
  data_start (header p) <= extent_off A i /\
  extent_off A i + cap a <= PAGE_SIZE /\
  24 + 4 * Z.of_nat (List.length A) <= data_start (header p) /\
  (i < List.length A)%nat.
Proof.
  intros Hrep Hi. pose proof (caps_nonneg _ _ Hrep) as Hc.
  pose proof (rep_free_space _ _ Hrep). pose proof (rep_gap _ _ Hrep).
  pose proof (lookup_lt_Some _ _ _ Hi).
  pose proof (rep_data_start _ _ Hrep) as Hds.
  unfold extent_off. rewrite (total_cap_take_S _ _ _ Hi).
  pose proof (total_cap_take_le A (S i) Hc) as Hle.
  rewrite (total_cap_take_S _ _ _ Hi) in Hle.
  pose proof (total_cap_nonneg (take i A) (Forall_take _ _ _ Hc)).
  unfold PAGE_SIZE in *. splits; lia.
Qed.

(** The rooms of two slots do not overlap. *)
Lemma extent_below A i k a :
  Forall (fun a => 0 <= cap a) A -> (i < k)%nat -> A !! k = Some a ->
  extent_off A k + cap a <= extent_off A i.
Proof.
  intros Hc Hik Hk. unfold extent_off.
  rewrite (total_cap_take_S _ _ _ Hk).
  pose proof (total_cap_take_mono A (S i) k Hc ltac:(lia)). lia.
Qed.

Lemma get_slot_resident p A i a :
  represents p A -> A !! i = Some a ->
  get_slot (Z.of_nat i) p
  = Done (24 + 4 * Z.of_nat i, decode_slot (peek (24 + 4 * i) 4 p)).
Proof.
  intros Hrep Hi. destruct (extent_bounds _ _ _ _ Hrep Hi) as (H1 & H2 & H3 & H4).
  pose proof (rep_length _ _ Hrep) as Hlen.
  pose proof (rep_data_start _ _ Hrep) as Hds.
  pose proof (total_cap_nonneg A (caps_nonneg _ _ Hrep)) as Hnn.
  unfold get_slot. rewrite (rep_slot_count _ _ Hrep).
  destruct (Z.of_nat i >=? Z.of_nat (List.length A)) eqn:E; [zbool; lia|].
  unfold slot_address, sizeof_PageHeader, sizeof_SlotEntry, PAGE_SIZE in *.
  rewrite load_in_range by (rewrite ?Hlen; lia).
  replace (Z.to_nat (24 + Z.of_nat i * 4)) with (24 + 4 * i)%nat by lia.
  change (Z.to_nat 4) with 4%nat.
  replace (24 + Z.of_nat i * 4) with (24 + 4 * Z.of_nat i) by lia.
  reflexivity.
Qed.

Lemma get_slot_beyond p A k :
  represents p A -> Z.of_nat (List.length A) <= k -> get_slot k p = Refused.
Proof.
  intros Hrep Hk. unfold get_slot. rewrite (rep_slot_count _ _ Hrep).
  destruct (k >=? Z.of_nat (List.length A)) eqn:E; [reflexivity|zbool; lia].
Qed.

(** What [get_record] finds in a page that represents [A]. *)
Lemma get_record_represented p A k :
  represents p A -> 0 <= k ->
  match A !! Z.to_nat k with
  | Some a =>
      match content a with
      | Some bs =>
          get_record k p = Done (extent_off A (Z.to_nat k), len bs) /\
          record_bytes (extent_off A (Z.to_nat k), len bs) p = Some bs
      | None => get_record k p = Refused
      end
  | None => get_record k p = Refused
  end.
Proof.
  intros Hrep Hk. destruct (A !! Z.to_nat k) as [a|] eqn:Hi.
  - pose proof (get_slot_resident _ _ _ _ Hrep Hi) as Hg.
    rewrite Z2Nat.id in Hg by exact Hk.
    destruct (rep_slots _ _ Hrep _ _ Hi) as [Hc Hs].
    destruct (extent_bounds _ _ _ _ Hrep Hi) as (H1 & H2 & H3 & H4).
    pose proof (rep_length _ _ Hrep) as Hlen.
    unfold get_record. rewrite Hg.
    destruct (content a) as [bs|].
    + destruct Hs as (Hd & Hl & Hb). rewrite Hd.
      unfold is_empty, is_deleted, len, PAGE_SIZE in *. cbn [offset length].
      destruct (extent_off A (Z.to_nat k) =? 0) eqn:E1; [zbool; lia|].
      destruct (extent_off A (Z.to_nat k) =? 65535) eqn:E2; [zbool; lia|].
      cbn [andb orb]. split; [reflexivity|].
      unfold record_bytes. cbn [fst snd].
      rewrite load_in_range by (rewrite ?Hlen; lia).
      rewrite Nat2Z.id. rewrite Hb. reflexivity.
    + rewrite Hs. reflexivity.
  - unfold get_record. rewrite (get_slot_beyond p A k Hrep); [reflexivity|].
    apply lookup_ge_None in Hi. lia.
Qed.

(** A slot keeps what it holds when the bytes of its entry and of its
    record are left alone. *)
Lemma slot_ok_frame p p' i off a :
  peek (24 + 4 * i) 4 p' = peek (24 + 4 * i) 4 p ->
  (forall bs, content a = Some bs ->
     peek (Z.to_nat off) (List.length bs) p'
     = peek (Z.to_nat off) (List.length bs) p) ->
  slot_ok p i off a -> slot_ok p' i off a.
Proof.
  intros Hs Hb [Hc Hok]. split; [exact Hc|]. rewrite Hs.
  destruct (content a) as [bs|]; [|exact Hok].
  destruct Hok as (H1 & H2 & H3). rewrite (Hb bs eq_refl). auto.
Qed.

Lemma init_represents pid fl : represents (init pid fl) [].
Proof.
  assert (Hlen : List.length (zeros (Z.to_nat PAGE_SIZE)) = Z.to_nat PAGE_SIZE)
    by apply length_replicate.
  unfold init.
  constructor; rewrite ?header_set_header, ?decode_encode_page_header
    by (rewrite Hlen; vm_compute; lia); cbn [slot_count data_start free_space].
  - rewrite length_set_header; [exact Hlen|]. rewrite Hlen. vm_compute. lia.
  - reflexivity.
  - reflexivity.
  - reflexivity.
  - vm_compute. discriminate.
  - intros i a Hi. rewrite lookup_nil in Hi. discriminate.
Qed.

Lemma extent_off_app_l A B i :
  (i < List.length A)%nat -> extent_off (A ++ B) i = extent_off A i.
Proof.
  intros H. unfold extent_off. rewrite take_app_le by lia. reflexivity.
Qed.

Lemma extent_off_app_last A a :
  extent_off (A ++ [a]) (List.length A) = PAGE_SIZE - total_cap A - cap a.
Proof.
  unfold extent_off.
  rewrite take_ge by (rewrite length_app; simpl; lia).
  rewrite total_cap_app. simpl. lia.
Qed.

Ltac mod_small :=
  repeat match goal with
  | |- context [?a mod ?b] => rewrite (Z.mod_small a b) by lia
  end.

(** An accepted [insert_record] appends a slot holding the data. *)
Lemma insert_record_represents p A data i p' :
  represents p A -> len data < 65536 ->
  insert_record data (len data) p = Done (i, p') ->
  i = Z.of_nat (List.length A) /\
  represents p' (A ++ [mkAslot (len data) (Some data)]).
Proof.
  intros Hrep Hrepr.
  pose proof (rep_length _ _ Hrep) as Hlen.
  pose proof (rep_slot_count _ _ Hrep) as Hsc.
  pose proof (rep_data_start _ _ Hrep) as Hds.
  pose proof (rep_free_space _ _ Hrep) as Hfs.
  pose proof (rep_gap _ _ Hrep) as Hgap.
  pose proof (caps_nonneg _ _ Hrep) as Hcaps.
  pose proof (total_cap_nonneg A Hcaps) as Hnn.
  assert (HlenZ : Z.of_nat (List.length p) = 8192) by (rewrite Hlen; reflexivity).
  unfold insert_record, slot_directory_end, memcpy_in, slot_address,
    sizeof_SlotEntry, sizeof_PageHeader.
  unfold PAGE_SIZE, len in *.
  remember (header p) as hp eqn:Hhp.
  remember (Z.of_nat (List.length A)) as n eqn:Hn.
  remember (data_start hp) as ds eqn:Eds.
  remember (free_space hp) as fs eqn:Efs.
  remember (Z.of_nat (List.length data)) as L eqn:EL.
  rewrite Hsc.
  assert (Hsde : ((24 + n * 4) mod 65536 + 4) mod 65536 = 28 + 4 * n)
    by (mod_small; lia).
  rewrite Hsde.
  destruct (Z_lt_le_dec (L + 4) 65536) as [Hsmall|Hwrap].
  - rewrite (Z.mod_small (L + 4)) by lia.
    destruct (fs <? L + 4) eqn:E1; [discriminate|]. zbool.
    rewrite (Z.mod_small (ds - L)) by lia.
    destruct (ds - L <? 28 + 4 * n) eqn:E2; [zbool; lia|]. clear E2.
    rewrite Z.leb_refl.
    assert (Htake : take (Z.to_nat L) data = data) by (apply take_ge; lia).
    rewrite Htake.
    rewrite store_in_range by lia.
    remember (poke (Z.to_nat (ds - L)) data p) as p1 eqn:Hp1.
    assert (Hlen1 : List.length p1 = List.length p)
      by (rewrite Hp1, poke_length; lia).
    assert (Hh1 : header p1 = hp)
      by (rewrite Hhp, Hp1; apply header_poke; lia).
    rewrite Hh1, Hsc.
    rewrite store_in_range by (rewrite ?length_encode_slot, ?Hlen1; lia).
    remember (encode_slot {| offset := ds - L; length := L |}) as sb eqn:Hsbd.
    assert (Hsb : List.length sb = 4%nat)
      by (rewrite Hsbd; apply length_encode_slot).
    remember (poke (Z.to_nat (24 + n * 4)) sb p1) as p2 eqn:Hp2.
    assert (Hlen2 : List.length p2 = List.length p)
      by (rewrite Hp2, poke_length; lia).
    assert (Hh2 : header p2 = hp)
      by (rewrite Hp2, header_poke by lia; exact Hh1).
    rewrite Hh2. intros [= <- <-]. split; [reflexivity|].
    constructor; unfold PAGE_SIZE.
    + rewrite length_set_header by lia. rewrite Hlen2. exact Hlen.
    + rewrite header_set_header, decode_encode_page_header by lia.
      cbn [slot_count set_dirty]. rewrite Hsc.
      rewrite length_app. cbn [List.length]. mod_small. lia.
    + rewrite header_set_header, decode_encode_page_header by lia.
      cbn [data_start set_dirty]. rewrite total_cap_app.
      cbn [total_cap fold_right cap]. mod_small. lia.
    + rewrite header_set_header, decode_encode_page_header by lia.
      cbn [data_start free_space set_dirty]. rewrite <- Efs.
      rewrite length_app. cbn [List.length]. mod_small. lia.
    + rewrite header_set_header, decode_encode_page_header by lia.
      cbn [free_space set_dirty]. rewrite <- Efs. mod_small. lia.
    + intros i a Hi.
      destruct (decide (i < List.length A)%nat) as [Hlt|Hge].
      * rewrite lookup_app_l in Hi by exact Hlt.
        rewrite extent_off_app_l by exact Hlt.
        destruct (extent_bounds _ _ _ _ Hrep Hi) as (B1 & B2 & B3 & B4).
        rewrite <- Hhp, <- Eds in B1, B3.
        eapply slot_ok_frame; [| |exact (rep_slots _ _ Hrep _ _ Hi)].
        -- rewrite peek_set_header by lia. rewrite Hp2.
           rewrite peek_poke_before by lia. rewrite Hp1.
           rewrite peek_poke_before by lia. reflexivity.
        -- intros bs Hbs.
           destruct (rep_slots _ _ Hrep _ _ Hi) as [Hc Hs]. rewrite Hbs in Hs.
           destruct Hs as (_ & Hl & _). unfold len in Hl.
           rewrite peek_set_header by lia. rewrite Hp2.
           rewrite peek_poke_after by lia. rewrite Hp1.
           rewrite peek_poke_after by lia. reflexivity.
      * assert (i = List.length A).
        { apply lookup_lt_Some in Hi. rewrite length_app in Hi. simpl in Hi. lia. }
        subst i. rewrite list_lookup_middle in Hi by reflexivity.
        injection Hi as <-. rewrite extent_off_app_last.
        cbn [cap]. unfold PAGE_SIZE. rewrite <- Hds.
        split; [cbn [cap]; lia|]. cbn [content].
        split; [|split; [cbn [cap]; unfold len; lia|]].
        -- rewrite peek_set_header by lia. rewrite Hp2.
           replace (24 + 4 * List.length A)%nat with (Z.to_nat (24 + n * 4))
             by lia.
           rewrite <- Hsb. rewrite peek_poke_same by lia.
           unfold len. rewrite <- EL.
           rewrite Hsbd. apply decode_encode_slot; cbn [offset length]; lia.
        -- rewrite peek_set_header by lia. rewrite Hp2.
           rewrite peek_poke_after by lia. rewrite Hp1.
           apply peek_poke_same. lia.
  - assert (Hreq : (L + 4) mod 65536 = L + 4 - 65536).
    { symmetry. apply Z.mod_unique with (q := 1); lia. }
    rewrite Hreq.
    destruct (fs <? L + 4 - 65536) eqn:E1; [discriminate|]. zbool.
    assert (Hoff : (ds - L) mod 65536 = ds - L + 65536).
    { symmetry. apply Z.mod_unique with (q := -1); lia. }
    rewrite Hoff.
    destruct (ds - L + 65536 <? 28 + 4 * n) eqn:E2; [discriminate|].
    rewrite Z.leb_refl.
    assert (Htake : take (Z.to_nat L) data = data) by (apply take_ge; lia).
    rewrite Htake. unfold store. rewrite <- EL.
    destruct (ds - L + 65536 + L <=? Z.of_nat (List.length p)) eqn:E4;
      [zbool; lia|].
    rewrite andb_false_r. discriminate.
Qed.

Lemma poke_nil off p : poke off [] p = p.
Proof.
  unfold poke. cbn [List.length app]. rewrite Nat.add_0_r. apply take_drop.
Qed.

Lemma total_cap_fmap A : total_cap A = foldr Z.add 0 (cap <$> A).
Proof.
  induction A as [|a A IH]; [reflexivity|].
  rewrite fmap_cons. cbn [foldr]. rewrite <- IH. reflexivity.
Qed.

Lemma total_cap_take_insert A k a' m :
  (forall a, A !! k = Some a -> cap a' = cap a) ->
  total_cap (take m (<[k := a']> A)) = total_cap (take m A).
Proof.
  intros Hc. rewrite !total_cap_fmap, !fmap_take, list_fmap_insert.
  destruct (A !! k) as [a|] eqn:Hk.
  - rewrite (Hc a eq_refl). rewrite list_insert_id; [reflexivity|].
    rewrite list_lookup_fmap, Hk. reflexivity.
  - rewrite list_insert_ge; [reflexivity|].
    rewrite length_fmap. apply lookup_ge_None. exact Hk.
Qed.

Lemma total_cap_insert A k a' :
  (forall a, A !! k = Some a -> cap a' = cap a) ->
  total_cap (<[k := a']> A) = total_cap A.
Proof.
  intros Hc.
  pose proof (total_cap_take_insert A k a' (List.length A) Hc) as H.
  rewrite (take_ge A) in H by lia.
  rewrite (take_ge (<[k:=a']> A)) in H by (rewrite length_insert; lia).
  exact H.
Qed.

(** A page that differs from a represented page in the header flags, in
    the entry of slot [k] and inside the room of slot [k] represents the
    slots with slot [k] replaced, if slot [k] holds in it what is claimed. *)
Lemma rewritten_slot_represents p A k a a' bs sb h p' :
  represents p A -> A !! k = Some a ->
  Z.of_nat (List.length bs) <= cap a -> List.length sb = 4%nat ->
  p' = set_header h
         (poke (24 + 4 * k) sb (poke (Z.to_nat (extent_off A k)) bs p)) ->
  slot_count h = slot_count (header p) ->
  data_start h = data_start (header p) ->
  free_space h = free_space (header p) ->
  cap a' = cap a ->
  slot_ok p' k (extent_off A k) a' ->
  represents p' (<[k := a']> A).
Proof.
  intros Hrep Hk Hbs Hsb -> Hsc Hds Hfs Hcap Hok.
  pose proof (rep_length _ _ Hrep) as Hlen.
  assert (HlenZ : Z.of_nat (List.length p) = 8192) by (rewrite Hlen; reflexivity).
  pose proof (caps_nonneg _ _ Hrep) as Hcaps.
  pose proof (total_cap_nonneg A Hcaps) as Hnn.
  destruct (extent_bounds _ _ _ _ Hrep Hk) as (B1 & B2 & B3 & B4).
  pose proof (rep_slot_count _ _ Hrep) as Rsc.
  pose proof (rep_data_start _ _ Hrep) as Rds.
  pose proof (rep_free_space _ _ Hrep) as Rfs.
  pose proof (rep_gap _ _ Hrep) as Rgap.
  unfold PAGE_SIZE in *.
  remember (extent_off A k) as off eqn:Hoff.
  remember (poke (Z.to_nat off) bs p) as p1 eqn:Hp1.
  assert (Hlen1 : List.length p1 = List.length p)
    by (rewrite Hp1, poke_length; lia).
  remember (poke (24 + 4 * k) sb p1) as p2 eqn:Hp2.
  assert (Hlen2 : List.length p2 = List.length p)
    by (rewrite Hp2, poke_length; lia).
  assert (Hsame : forall a0, A !! k = Some a0 -> cap a' = cap a0)
    by (intros a0 Ha0; congruence).
  constructor; unfold PAGE_SIZE;
    rewrite ?header_set_header, ?decode_encode_page_header by lia;
    cbn [slot_count data_start free_space];
    rewrite ?length_insert, ?total_cap_insert by exact Hsame;
    rewrite ?Hsc, ?Hds, ?Hfs.
  - rewrite length_set_header by lia. rewrite Hlen2. exact Hlen.
  - mod_small. lia.
  - mod_small. lia.
  - mod_small. lia.
  - mod_small. lia.
  - intros i ai Hi.
    assert (Hext : extent_off (<[k:=a']> A) i = extent_off A i).
    { unfold extent_off. f_equal. apply total_cap_take_insert. exact Hsame. }
    rewrite Hext.
    destruct (decide (i = k)) as [->|Hne].
    + rewrite list_lookup_insert_eq in Hi by lia. injection Hi as <-.
      rewrite <- Hoff. exact Hok.
    + rewrite list_lookup_insert_ne in Hi by congruence.
      destruct (extent_bounds _ _ _ _ Hrep Hi) as (C1 & C2 & C3 & C4).
      unfold PAGE_SIZE in *.
      eapply slot_ok_frame; [| |exact (rep_slots _ _ Hrep _ _ Hi)].
      * rewrite peek_set_header by lia. rewrite Hp2.
        assert (i < k \/ k < i)%nat as [Hlt|Hgt] by lia.
        -- rewrite peek_poke_before by lia. rewrite Hp1.
           rewrite peek_poke_before by lia. reflexivity.
        -- rewrite peek_poke_after by lia. rewrite Hp1.
           rewrite peek_poke_before by lia. reflexivity.
      * intros bsi Hbsi.
        destruct (rep_slots _ _ Hrep _ _ Hi) as [Hc Hs]. rewrite Hbsi in Hs.
        destruct Hs as (_ & Hl & _). unfold len in Hl.
        rewrite peek_set_header by lia. rewrite Hp2.
        rewrite peek_poke_after by lia. rewrite Hp1.
        assert (i < k \/ k < i)%nat as [Hlt|Hgt] by lia.
        -- pose proof (extent_below A i k a Hcaps Hlt Hk). rewrite <- Hoff in *.
           rewrite peek_poke_after by lia. reflexivity.
        -- pose proof (extent_below A k i ai Hcaps Hgt Hi). rewrite <- Hoff in *.
           rewrite peek_poke_before by lia. reflexivity.
Qed.

(** An accepted [update_record] replaces the content of a live slot. *)
Lemma update_record_represents p A k data p' :
  represents p A -> 0 <= k ->
  update_record k data (len data) p = Done p' ->
  exists a, A !! Z.to_nat k = Some a /\ is_Some (content a) /\
            represents p' (<[Z.to_nat k := mkAslot (cap a) (Some data)]> A).
Proof.
  intros Hrep Hk0.
  pose proof (rep_length _ _ Hrep) as Hlen.
  assert (HlenZ : Z.of_nat (List.length p) = 8192) by (rewrite Hlen; reflexivity).
  unfold update_record.
  destruct (A !! Z.to_nat k) as [a|] eqn:Hk.
  2:{ rewrite (get_slot_beyond p A k Hrep); [discriminate|].
      apply lookup_ge_None in Hk. lia. }
  pose proof (get_slot_resident _ _ _ _ Hrep Hk) as Hg.
  rewrite Z2Nat.id in Hg by exact Hk0. rewrite Hg.
  destruct (rep_slots _ _ Hrep _ _ Hk) as [Hc Hs].
  destruct (extent_bounds _ _ _ _ Hrep Hk) as (B1 & B2 & B3 & B4).
  pose proof (rep_gap _ _ Hrep) as Rgap.
  pose proof (rep_free_space _ _ Hrep) as Rfs.
  unfold PAGE_SIZE, len in *.
  remember (extent_off A (Z.to_nat k)) as off eqn:Hoff.
  remember (Z.of_nat (List.length data)) as L eqn:EL.
  destruct (content a) as [bs0|] eqn:Hca.
  2:{ rewrite Hs. discriminate. }
  destruct Hs as (Hd & Hl & Hb). rewrite Hd.
  unfold is_empty, is_deleted, memcpy_in. cbn [offset length].
  destruct (off =? 0) eqn:E1; [zbool; lia|].
  destruct (off =? 65535) eqn:E2; [zbool; lia|].
  cbn [andb orb].
  destruct (L >? Z.of_nat (List.length bs0)) eqn:E3; [discriminate|]. zbool.
  replace (L <=? Z.of_nat (List.length data)) with true
    by (symmetry; apply Z.leb_le; lia).
  assert (Htake : take (Z.to_nat L) data = data) by (apply take_ge; lia).
  rewrite Htake.
  rewrite store_in_range by lia.
  remember (poke (Z.to_nat off) data p) as p1 eqn:Hp1.
  assert (Hlen1 : List.length p1 = List.length p)
    by (rewrite Hp1, poke_length; lia).
  rewrite store_in_range by (rewrite ?length_encode_slot, ?Hlen1; lia).
  remember (encode_slot {| offset := off; length := L |}) as sb eqn:Hsbd.
  assert (Hsb : List.length sb = 4%nat)
    by (rewrite Hsbd; apply length_encode_slot).
  replace (Z.to_nat (24 + 4 * k)) with (24 + 4 * Z.to_nat k)%nat by lia.
  remember (poke (24 + 4 * Z.to_nat k) sb p1) as p2 eqn:Hp2.
  assert (Hlen2 : List.length p2 = List.length p)
    by (rewrite Hp2, poke_length; lia).
  assert (Hh2 : header p2 = header p).
  { rewrite Hp2, header_poke by lia. rewrite Hp1. apply header_poke; lia. }
  intros [= <-]. exists a. split; [reflexivity|]. split; [eauto|].
  eapply (rewritten_slot_represents p A (Z.to_nat k) a _ data sb);
    [exact Hrep|exact Hk|cbn [cap]; lia|exact Hsb| | | | | |].
  - rewrite <- Hoff, <- Hp1, <- Hp2. reflexivity.
  - rewrite Hh2. reflexivity.
  - rewrite Hh2. reflexivity.
  - rewrite Hh2. reflexivity.
  - reflexivity.
  - rewrite <- Hoff. split; [cbn [cap]; exact Hc|]. cbn [content cap].
    unfold len. rewrite <- EL. split; [|split; [lia|]].
    + rewrite peek_set_header by lia. rewrite Hp2.
      rewrite <- Hsb. rewrite peek_poke_same by lia.
      rewrite Hsbd. apply decode_encode_slot; cbn [offset length]; lia.
    + rewrite peek_set_header by lia. rewrite Hp2.
      rewrite peek_poke_after by lia. rewrite Hp1.
      apply peek_poke_same. lia.
Qed.

(** An accepted [delete_record] marks a live slot deleted. *)
Lemma delete_record_represents p A k p' :
  represents p A -> 0 <= k ->
  delete_record k p = Done p' ->
  exists a, A !! Z.to_nat k = Some a /\ is_Some (content a) /\
            represents p' (<[Z.to_nat k := mkAslot (cap a) None]> A).
Proof.
  intros Hrep Hk0.
  pose proof (rep_length _ _ Hrep) as Hlen.
  assert (HlenZ : Z.of_nat (List.length p) = 8192) by (rewrite Hlen; reflexivity).
  unfold delete_record.
  destruct (A !! Z.to_nat k) as [a|] eqn:Hk.
  2:{ rewrite (get_slot_beyond p A k Hrep); [discriminate|].
      apply lookup_ge_None in Hk. lia. }
  pose proof (get_slot_resident _ _ _ _ Hrep Hk) as Hg.
  rewrite Z2Nat.id in Hg by exact Hk0. rewrite Hg.
  destruct (rep_slots _ _ Hrep _ _ Hk) as [Hc Hs].
  destruct (extent_bounds _ _ _ _ Hrep Hk) as (B1 & B2 & B3 & B4).
  pose proof (rep_gap _ _ Hrep) as Rgap.
  pose proof (rep_free_space _ _ Hrep) as Rfs.
  unfold PAGE_SIZE, len in *.
  remember (extent_off A (Z.to_nat k)) as off eqn:Hoff.
  destruct (content a) as [bs0|] eqn:Hca.
  2:{ rewrite Hs. discriminate. }
  destruct Hs as (Hd & Hl & Hb). rewrite Hd.
  unfold is_empty, is_deleted. cbn [offset length].
  destruct (off =? 0) eqn:E1; [zbool; lia|].
  destruct (off =? 65535) eqn:E2; [zbool; lia|].
  cbn [andb orb].
  rewrite store_in_range by (rewrite ?length_encode_slot; lia).
  remember (encode_slot (mark_deleted {| offset := off;
              length := Z.of_nat (List.length bs0) |})) as sb eqn:Hsbd.
  assert (Hsb : List.length sb = 4%nat)
    by (rewrite Hsbd; apply length_encode_slot).
  replace (Z.to_nat (24 + 4 * k)) with (24 + 4 * Z.to_nat k)%nat by lia.
  remember (poke (24 + 4 * Z.to_nat k) sb p) as p2 eqn:Hp2.
  assert (Hlen2 : List.length p2 = List.length p)
    by (rewrite Hp2, poke_length; lia).
  assert (Hh2 : header p2 = header p).
  { rewrite Hp2. apply header_poke; lia. }
  intros [= <-]. exists a. split; [reflexivity|]. split; [eauto|].
  eapply (rewritten_slot_represents p A (Z.to_nat k) a _ [] sb);
    [exact Hrep|exact Hk|cbn [List.length]; lia|exact Hsb| | | | | |].
  - rewrite poke_nil, <- Hp2. reflexivity.
  - rewrite Hh2. reflexivity.
  - rewrite Hh2. reflexivity.
  - rewrite Hh2. reflexivity.
  - reflexivity.
  - rewrite <- Hoff. split; [cbn [cap]; exact Hc|]. cbn [content].
    rewrite peek_set_header by lia. rewrite Hp2.
    rewrite <- Hsb. rewrite peek_poke_same by lia.
    rewrite Hsbd. apply decode_encode_slot; cbn [offset length mark_deleted]; lia.
Qed.

(** *** The record of last writes *)

Lemma tracks_empty : tracks ∅ [].
Proof.
  intros i. rewrite lookup_empty. cbn [List.length].
  destruct (decide _); [lia|reflexivity].
Qed.

Lemma tracks_snoc sh A a :
  tracks sh A ->
  tracks (<[Z.of_nat (List.length A) := content a]> sh) (A ++ [a]).
Proof.
  intros Ht i. rewrite length_app. cbn [List.length].
  destruct (decide (i = Z.of_nat (List.length A))) as [->|Hne].
  - rewrite lookup_insert_eq. destruct (decide _) as [_|Hn]; [|lia].
    rewrite Nat2Z.id, list_lookup_middle by reflexivity. reflexivity.
  - rewrite lookup_insert_ne by congruence. rewrite (Ht i).
    destruct (decide (0 <= i < Z.of_nat (List.length A))) as [Hin|Hout].
    + destruct (decide _) as [_|Hn]; [|lia].
      rewrite lookup_app_l by lia. reflexivity.
    + destruct (decide _) as [Hin|_]; [lia|reflexivity].
Qed.

Lemma tracks_rewrite sh A k a a' :
  tracks sh A -> 0 <= k -> A !! Z.to_nat k = Some a ->
  tracks (<[k := content a']> sh) (<[Z.to_nat k := a']> A).
Proof.
  intros Ht Hk Hl i. rewrite length_insert.
  pose proof (lookup_lt_Some _ _ _ Hl) as Hlt.
  destruct (decide (i = k)) as [->|Hne].
  - rewrite lookup_insert_eq. destruct (decide _) as [_|Hn]; [|lia].
    rewrite list_lookup_insert_eq by exact Hlt. reflexivity.
  - rewrite lookup_insert_ne by congruence. rewrite (Ht i).
    destruct (decide _) as [Hin|_]; [|reflexivity].
    rewrite list_lookup_insert_ne by lia. reflexivity.
Qed.

Lemma tight_snoc A data :
  tight A -> tight (A ++ [mkAslot (len data) (Some data)]).
Proof.
  intros Ht. apply Forall_app. split; [exact Ht|].
  constructor; [|constructor]. exists data. split; reflexivity.
Qed.

(** *** One call preserves the representation *)

Lemma step_represents o p sh A p' sh' :
  representable o -> represents p A -> tracks sh A ->
  step o (p, sh) = Some (p', sh') ->
  exists A', represents p' A' /\ tracks sh' A' /\
             (is_insert o -> tight A -> tight A').
Proof.
  intros Ho Hrep Ht. destruct o as [d|s d|s]; cbn [step fst snd representable] in *.
  - destruct (insert_record d (len d) p) as [[i q]| |] eqn:E; [| |discriminate].
    + intros [= <- <-].
      destruct (insert_record_represents _ _ _ _ _ Hrep Ho E) as [-> Hrep'].
      exists (A ++ [mkAslot (len d) (Some d)]). splits.
      * exact Hrep'.
      * exact (tracks_snoc sh A (mkAslot (len d) (Some d)) Ht).
      * intros _. apply tight_snoc.
    + intros [= <- <-]. exists A. splits; auto.
  - destruct Ho as [[Hs0 Hs1] Hd].
    destruct (update_record s d (len d) p) as [q| |] eqn:E; [| |discriminate].
    + intros [= <- <-].
      destruct (update_record_represents _ _ _ _ _ Hrep Hs0 E)
        as (a & Ha & _ & Hrep').
      exists (<[Z.to_nat s := mkAslot (cap a) (Some d)]> A). splits.
      * exact Hrep'.
      * exact (tracks_rewrite sh A s a (mkAslot (cap a) (Some d)) Ht Hs0 Ha).
      * intros [].
    + intros [= <- <-]. exists A. splits; auto.
  - destruct Ho as [Hs0 Hs1].
    destruct (delete_record s p) as [q| |] eqn:E; [| |discriminate].
    + intros [= <- <-].
      destruct (delete_record_represents _ _ _ _ Hrep Hs0 E)
        as (a & Ha & _ & Hrep').
      exists (<[Z.to_nat s := mkAslot (cap a) None]> A). splits.
      * exact Hrep'.
      * exact (tracks_rewrite sh A s a (mkAslot (cap a) None) Ht Hs0 Ha).
      * intros [].
    + intros [= <- <-]. exists A. splits; auto.
Qed.

Lemma run_represents ops : forall p sh A p' sh',
  Forall representable ops -> represents p A -> tracks sh A ->
  run ops (p, sh) = Some (p', sh') ->
  exists A', represents p' A' /\ tracks sh' A' /\
             (Forall is_insert ops -> tight A -> tight A').
Proof.
  induction ops as [|o ops IH]; intros p sh A p' sh' Hops Hrep Ht; cbn [run].
  - intros [= <- <-]. exists A. splits; auto.
  - inversion Hops as [|? ? Ho Hrest]; subst.
    destruct (step o (p, sh)) as [[q shq]|] eqn:E; [|discriminate].
    intros Hrun.
    destruct (step_represents _ _ _ _ _ _ Ho Hrep Ht E) as (B & HB & HtB & HtiB).
    destruct (IH _ _ _ _ _ Hrest HB HtB Hrun) as (C & HC & HtC & HtiC).
    exists C. splits; auto.
    intros Hins Hti. inversion Hins; subst. auto.
Qed.

(** *** Live and reserved record bytes *)

Lemma live_cap_le A :
  Forall (fun a => 0 <= cap a /\
     match content a with Some bs => len bs <= cap a | None => True end) A ->
  live_cap A <= total_cap A.
Proof.
  induction 1 as [|a A [H0 H1] _ IH]; cbn [live_cap total_cap fold_right].
  - lia.
  - fold (live_cap A). fold (total_cap A). destruct (content a); lia.
Qed.

Lemma live_cap_tight A : tight A -> live_cap A = total_cap A.
Proof.
  induction 1 as [|a A (bs & Hc & Hcap) _ IH]; cbn [live_cap total_cap fold_right].
  - reflexivity.
  - fold (live_cap A). fold (total_cap A). rewrite Hc, Hcap, IH. reflexivity.
Qed.

Lemma live_fold (g : nat -> outcome (Z * Z)) B : forall j,
  (forall i a, B !! i = Some a ->
     match content a with
     | Some bs => exists off, g (j + i)%nat = Done (off, len bs)
     | None => g (j + i)%nat = Refused
     end) ->
  fold_right (fun i acc => match g i with Done (_, l) => l + acc | _ => acc end)
    0 (seq j (List.length B)) = live_cap B.
Proof.
  induction B as [|b B IH]; intros j H; cbn [List.length seq fold_right live_cap].
  - reflexivity.
  - fold (live_cap B). rewrite (IH (S j)).
    + pose proof (H 0%nat b eq_refl) as H0. rewrite Nat.add_0_r in H0.
      destruct (content b) as [bs|].
      * destruct H0 as [off ->]. reflexivity.
      * rewrite H0. reflexivity.
    + intros i a Hi. pose proof (H (S i) a Hi) as HS.
      replace (S j + i)%nat with (j + S i)%nat by lia. exact HS.
Qed.

Lemma live_record_bytes_represented p A :
  represents p A -> live_record_bytes p = live_cap A.
Proof.
  intros Hrep. unfold live_record_bytes.
  rewrite (rep_slot_count _ _ Hrep), Nat2Z.id.
  apply (live_fold (fun i => get_record (Z.of_nat i) p) A 0).
  intros i a Hi. cbn [Nat.add].
  pose proof (get_record_represented p A (Z.of_nat i) Hrep (Nat2Z.is_nonneg i)) as H.
  rewrite Nat2Z.id, Hi in H.
  destruct (content a) as [bs|]; [|exact H].
  destruct H as [H _]. eauto.
Qed.

Lemma represented_slots_bounded p A :
  represents p A ->
  Forall (fun a => 0 <= cap a /\
     match content a with Some bs => len bs <= cap a | None => True end) A.
Proof.
  intros Hrep. apply Forall_lookup. intros i a Hi.
  destruct (rep_slots _ _ Hrep _ _ Hi) as [Hc Hs]. split; [exact Hc|].
  destruct (content a); [tauto|exact I].
Qed.

(** *** The calls are defined on a represented page *)

Lemma insert_record_defined p A data :
  represents p A -> len data + 4 < 65536 ->
  insert_record data (len data) p <> Crash.
Proof.
  intros Hrep Hrepr.
  pose proof (rep_length _ _ Hrep) as Hlen.
  pose proof (rep_slot_count _ _ Hrep) as Hsc.
  pose proof (rep_data_start _ _ Hrep) as Hds.
  pose proof (rep_free_space _ _ Hrep) as Hfs.
  pose proof (rep_gap _ _ Hrep) as Hgap.
  pose proof (caps_nonneg _ _ Hrep) as Hcaps.
  pose proof (total_cap_nonneg A Hcaps) as Hnn.
  assert (HlenZ : Z.of_nat (List.length p) = 8192) by (rewrite Hlen; reflexivity).
  unfold insert_record, slot_directory_end, memcpy_in, slot_address,
    sizeof_SlotEntry, sizeof_PageHeader.
  unfold PAGE_SIZE, len in *.
  remember (header p) as hp eqn:Hhp.
  remember (Z.of_nat (List.length A)) as n eqn:Hn.
  remember (data_start hp) as ds eqn:Eds.
  remember (free_space hp) as fs eqn:Efs.
  remember (Z.of_nat (List.length data)) as L eqn:EL.
  rewrite Hsc.
  assert (Hsde : ((24 + n * 4) mod 65536 + 4) mod 65536 = 28 + 4 * n)
    by (mod_small; lia).
  rewrite Hsde.
  rewrite (Z.mod_small (L + 4)) by lia.
  destruct (fs <? L + 4) eqn:E1; [discriminate|]. zbool.
  rewrite (Z.mod_small (ds - L)) by lia.
  destruct (ds - L <? 28 + 4 * n) eqn:E2; [discriminate|]. clear E2.
  rewrite Z.leb_refl.
  assert (Htake : take (Z.to_nat L) data = data) by (apply take_ge; lia).
  rewrite Htake.
  rewrite store_in_range by lia.
  remember (poke (Z.to_nat (ds - L)) data p) as p1 eqn:Hp1.
  assert (Hlen1 : List.length p1 = List.length p)
    by (rewrite Hp1, poke_length; lia).
  assert (Hh1 : header p1 = hp)
    by (rewrite Hhp, Hp1; apply header_poke; lia).
  rewrite Hh1, Hsc.
  rewrite store_in_range by (rewrite ?length_encode_slot, ?Hlen1; lia).
  discriminate.
Qed.

Lemma update_record_defined p A k data :
  represents p A -> 0 <= k -> update_record k data (len data) p <> Crash.
Proof.
  intros Hrep Hk0.
  pose proof (rep_length _ _ Hrep) as Hlen.
  assert (HlenZ : Z.of_nat (List.length p) = 8192) by (rewrite Hlen; reflexivity).
  unfold update_record.
  destruct (A !! Z.to_nat k) as [a|] eqn:Hk.
  2:{ rewrite (get_slot_beyond p A k Hrep); [discriminate|].
      apply lookup_ge_None in Hk. lia. }
  pose proof (get_slot_resident _ _ _ _ Hrep Hk) as Hg.
  rewrite Z2Nat.id in Hg by exact Hk0. rewrite Hg.
  destruct (rep_slots _ _ Hrep _ _ Hk) as [Hc Hs].
  destruct (extent_bounds _ _ _ _ Hrep Hk) as (B1 & B2 & B3 & B4).
  unfold PAGE_SIZE, len in *.
  remember (extent_off A (Z.to_nat k)) as off eqn:Hoff.
  remember (Z.of_nat (List.length data)) as L eqn:EL.
  destruct (content a) as [bs0|] eqn:Hca.
  2:{ rewrite Hs. discriminate. }
  destruct Hs as (Hd & Hl & Hb). rewrite Hd.
  unfold memcpy_in.
  destruct (is_empty _ || is_deleted _); [discriminate|].
  cbn [offset length].
  destruct (L >? Z.of_nat (List.length bs0)) eqn:E3; [discriminate|]. zbool.
  replace (L <=? Z.of_nat (List.length data)) with true
    by (symmetry; apply Z.leb_le; lia).
  assert (Htake : take (Z.to_nat L) data = data) by (apply take_ge; lia).
  rewrite Htake.
  rewrite store_in_range by lia.
  rewrite store_in_range
    by (rewrite ?length_encode_slot, ?poke_length; lia).
  discriminate.
Qed.

Lemma delete_record_defined p A k :
  represents p A -> 0 <= k -> delete_record k p <> Crash.
Proof.
  intros Hrep Hk0.
  pose proof (rep_length _ _ Hrep) as Hlen.
  assert (HlenZ : Z.of_nat (List.length p) = 8192) by (rewrite Hlen; reflexivity).
  unfold delete_record.
  destruct (A !! Z.to_nat k) as [a|] eqn:Hk.
  2:{ rewrite (get_slot_beyond p A k Hrep); [discriminate|].
      apply lookup_ge_None in Hk. lia. }
  pose proof (get_slot_resident _ _ _ _ Hrep Hk) as Hg.
  rewrite Z2Nat.id in Hg by exact Hk0. rewrite Hg.
  destruct (rep_slots _ _ Hrep _ _ Hk) as [Hc _].
  destruct (extent_bounds _ _ _ _ Hrep Hk) as (B1 & B2 & B3 & B4).
  unfold PAGE_SIZE in *.
  destruct (is_empty _ || is_deleted _); [discriminate|].
  rewrite store_in_range by (rewrite ?length_encode_slot; lia).
  discriminate.
Qed.

(** A sequence of calls whose inserted records leave room for the slot
    entry in sixteen bits runs to the end. *)
Lemma run_defined ops : forall p sh A,
  Forall representable ops ->
  Forall (fun o => match o with Insert d => len d + 4 < 65536 | _ => True end)
    ops ->
  represents p A -> tracks sh A ->
  is_Some (run ops (p, sh)).
Proof.
  induction ops as [|o ops IH]; intros p sh A Hops Hfit Hrep Ht; cbn [run].
  - eauto.
  - inversion Hops as [|? ? Ho Hrest]; subst.
    inversion Hfit as [|? ? Hf Hfrest]; subst.
    destruct (step o (p, sh)) as [[q shq]|] eqn:E.
    + destruct (step_represents _ _ _ _ _ _ Ho Hrep Ht E) as (B & HB & HtB & _).
      exact (IH _ _ _ Hrest Hfrest HB HtB).
    + exfalso. destruct o as [d|s d|s]; cbn [step fst snd representable] in *.
      * pose proof (insert_record_defined p A d Hrep Hf) as Hn.
        destruct (insert_record d (len d) p) as [[i q]| |];
          [discriminate|discriminate|congruence].
      * destruct Ho as [[Hs0 _] _].
        pose proof (update_record_defined p A s d Hrep Hs0) as Hn.
        destruct (update_record s d (len d) p);
          [discriminate|discriminate|congruence].
      * destruct Ho as [Hs0 _].
        pose proof (delete_record_defined p A s Hrep Hs0) as Hn.
        destruct (delete_record s p);
          [discriminate|discriminate|congruence].
Qed.

(** C5, as amended: after every sequence of [insert_record],
    [update_record] and [delete_record] calls on a fresh page that the page
    runs through, [get_record] on a slot returns the bytes of the last
    successful write to it and fails on a deleted or never written slot;
    [free_space], the bytes reserved for records (from [data_start] to the
    end of the page), four bytes for each slot and the header add up to
    [PAGE_SIZE]; with the lengths of the live records in place of the
    reserved bytes the sum is at most [PAGE_SIZE], and is [PAGE_SIZE] when
    every call was an insert. *)
Theorem page_read_back_and_accounting ops pid fl p sh :
  Forall representable ops ->
  run ops (init pid fl, ∅) = Some (p, sh) ->
  (forall i, 0 <= i < 65536 ->
     match sh !! i with
     | Some (Some bs) =>
         exists ptr, get_record i p = Done ptr /\ record_bytes ptr p = Some bs
     | Some None => get_record i p = Refused
     | None => get_record i p = Refused
     end) /\
  free_space (header p) + reserved_record_bytes p
    + slot_count (header p) * sizeof_SlotEntry + sizeof_PageHeader = PAGE_SIZE /\
  free_space (header p) + live_record_bytes p
    + slot_count (header p) * sizeof_SlotEntry + sizeof_PageHeader <= PAGE_SIZE /\
  (Forall is_insert ops ->
   free_space (header p) + live_record_bytes p
     + slot_count (header p) * sizeof_SlotEntry + sizeof_PageHeader = PAGE_SIZE).
Proof.
  intros Hops Hrun.
  destruct (run_represents ops _ _ [] _ _ Hops (init_represents pid fl)
              tracks_empty Hrun) as (A & Hrep & Ht & Hti).
  pose proof (rep_slot_count _ _ Hrep) as Hsc.
  pose proof (rep_data_start _ _ Hrep) as Hds.
  pose proof (rep_free_space _ _ Hrep) as Hfs.
  pose proof (live_record_bytes_represented _ _ Hrep) as Hlive.
  pose proof (live_cap_le A (represented_slots_bounded _ _ Hrep)) as Hle.
  unfold reserved_record_bytes, sizeof_SlotEntry, sizeof_PageHeader, PAGE_SIZE
    in *.
  splits.
  - intros i Hi. rewrite (Ht i).
    pose proof (get_record_represented p A i Hrep (proj1 Hi)) as Hg.
    destruct (decide (0 <= i < Z.of_nat (List.length A))) as [Hin|Hout].
    + destruct (A !! Z.to_nat i) as [a|] eqn:Ha; cbn [fmap option_fmap option_map].
      * destruct (content a) as [bs|]; [|exact Hg]. eauto.
      * exact Hg.
    + destruct (A !! Z.to_nat i) as [a|] eqn:Ha; [|exact Hg].
      apply lookup_lt_Some in Ha. lia.
  - lia.
  - lia.
  - intros Hins. rewrite Hlive, (live_cap_tight A (Hti Hins (List.Forall_nil _))). lia.
Qed.

Lemma page_read_back_and_accounting_witness :
  let p := fst (Sample.after_calls Sample.page_calls) in
  let sh := snd (Sample.after_calls Sample.page_calls) in
  Forall representable Sample.page_calls /\
  run Sample.page_calls (init 7 FLAG_LEAF, ∅) = Some (p, sh) /\
  (forall i, 0 <= i < 65536 ->
     match sh !! i with
     | Some (Some bs) =>
         exists ptr, get_record i p = Done ptr /\ record_bytes ptr p = Some bs
     | Some None => get_record i p = Refused
     | None => get_record i p = Refused
     end) /\
  free_space (header p) + reserved_record_bytes p
    + slot_count (header p) * sizeof_SlotEntry + sizeof_PageHeader = PAGE_SIZE /\
  free_space (header p) + live_record_bytes p
    + slot_count (header p) * sizeof_SlotEntry + sizeof_PageHeader <= PAGE_SIZE /\
  (Forall is_insert Sample.page_calls ->
   free_space (header p) + live_record_bytes p
     + slot_count (header p) * sizeof_SlotEntry + sizeof_PageHeader = PAGE_SIZE).
Proof.
  assert (Hops : Forall representable Sample.page_calls)
    by (repeat constructor; cbn; lia).
  assert (Hrun : run Sample.page_calls (init 7 FLAG_LEAF, ∅)
                 = Some (fst (Sample.after_calls Sample.page_calls),
                         snd (Sample.after_calls Sample.page_calls)))
    by (vm_compute; reflexivity).
  split; [exact Hops|]. split; [exact Hrun|].
  exact (page_read_back_and_accounting Sample.page_calls 7 FLAG_LEAF _ _
           Hops Hrun).
Defined.

(** C5 fails as stated: after an insert of one byte and the delete of its
    slot, free space, live record bytes, slot entries and header add up to
    one byte less than [PAGE_SIZE]. *)
Lemma accounting_short_after_delete :
  match run [Insert [x41]; Delete 0] (init 0 FLAG_LEAF, ∅) with
  | Some (p, _) =>
      get_record 0 p = Refused /\
      free_space (header p) + live_record_bytes p
        + slot_count (header p) * sizeof_SlotEntry + sizeof_PageHeader = 8191 /\
      PAGE_SIZE = 8192
  | None => False
  end.
Proof. vm_compute. repeat split; reflexivity. Qed.

(** Inserting a record of 65532 bytes copies it past the end of the page. *)
Lemma insert_record_overflows_page :
  insert_record (replicate (Z.to_nat 65532) x00) 65532 (init 0 FLAG_LEAF) = Crash.
Proof. vm_compute. reflexivity. Qed.

End PageFacts.

(** ** The order that the sort operator hands to [std::sort] *)

Section SortOrder.
Import Executor SortSpec.

Lemma row_less_cons col asc cols ascs a b :
  row_less (col :: cols) (asc :: ascs) a b
  = match int_key col a, int_key col b with
    | Some va, Some vb =>
        if negb (va =? vb) then (if asc then va <? vb else va >? vb)
        else row_less cols ascs a b
    | _, _ => row_less cols ascs a b
    end.
Proof.
  unfold int_key. cbn [row_less].
  destruct (a !! col) as [[|va| | |]|]; try reflexivity;
    destruct (b !! col) as [[|vb| | |]|]; reflexivity.
Qed.

Lemma row_less_irrefl cols : forall ascs a, row_less cols ascs a a = false.
Proof.
  induction cols as [|col cols IH]; intros ascs a; [reflexivity|].
  destruct ascs as [|asc ascs]; [reflexivity|].
  rewrite row_less_cons. destruct (int_key col a) as [va|]; [|apply IH].
  rewrite Z.eqb_refl. apply IH.
Qed.

Lemma uniform_tail col cols rows : uniform (col :: cols) rows -> uniform cols rows.
Proof. intros H c a b Hc. apply H. right. exact Hc. Qed.

Lemma uniform_keys col cols rows a b :
  uniform (col :: cols) rows -> In a rows -> In b rows ->
  (int_key col a = None /\ int_key col b = None) \/
  (exists va vb, int_key col a = Some va /\ int_key col b = Some vb).
Proof.
  intros Hu Ha Hb.
  destruct (int_key col a) as [va|] eqn:Ea.
  - destruct (int_key col b) as [vb|] eqn:Eb; [right; eauto|].
    pose proof (Hu col b a (or_introl eq_refl) Hb Ha Eb). congruence.
  - left. split; [reflexivity|].
    exact (Hu col a b (or_introl eq_refl) Ha Hb Ea).
Qed.

(** On rows that are uniform in the sort columns the comparison induces a
    strict weak ordering: the order of the integer keys, key by key. *)
Lemma row_less_strict_weak cols : forall ascs rows,
  uniform cols rows -> strict_weak (row_less cols ascs) rows.
Proof.
  induction cols as [|col cols IH]; intros ascs rows Hu.
  { split; [reflexivity|]. split; [discriminate|]. intros; split; reflexivity. }
  destruct ascs as [|asc ascs].
  { split; [reflexivity|]. split; [discriminate|]. intros; split; reflexivity. }
  destruct (IH ascs rows (uniform_tail _ _ _ Hu)) as (_ & Htr & Heq).
  split; [intros a _; apply row_less_irrefl|]. split.
  - intros a b c Ha Hb Hc. rewrite !row_less_cons.
    assert (Kab := uniform_keys _ _ _ a b Hu Ha Hb).
    assert (Kbc := uniform_keys _ _ _ b c Hu Hb Hc).
    destruct (int_key col a) as [va|] eqn:Ea;
      destruct (int_key col b) as [vb|] eqn:Eb;
      destruct (int_key col c) as [vc|] eqn:Ec;
      try (destruct Kab as [[? ?]|(? & ? & ? & ?)]; congruence);
      try (destruct Kbc as [[? ?]|(? & ? & ? & ?)]; congruence);
      try (apply Htr; assumption).
    destruct (va =? vb) eqn:E1; destruct (vb =? vc) eqn:E2;
      destruct (va =? vc) eqn:E3; zbool; cbn [negb]; rewrite ?Z.gtb_ltb;
      try lia; try (apply Htr; assumption);
      destruct asc; intros H1 H2; zbool; try lia;
      try (apply Z.ltb_lt; lia).
  - intros a b c Ha Hb Hc. rewrite !row_less_cons.
    assert (Kab := uniform_keys _ _ _ a b Hu Ha Hb).
    assert (Kbc := uniform_keys _ _ _ b c Hu Hb Hc).
    destruct (int_key col a) as [va|] eqn:Ea;
      destruct (int_key col b) as [vb|] eqn:Eb;
      destruct (int_key col c) as [vc|] eqn:Ec;
      try (destruct Kab as [[? ?]|(? & ? & ? & ?)]; congruence);
      try (destruct Kbc as [[? ?]|(? & ? & ? & ?)]; congruence);
      try (apply Heq; assumption).
    rewrite (Z.eqb_sym vb va), (Z.eqb_sym vc vb), (Z.eqb_sym vc va).
    destruct (va =? vb) eqn:E1; destruct (vb =? vc) eqn:E2;
      destruct (va =? vc) eqn:E3; zbool; cbn [negb]; rewrite ?Z.gtb_ltb;
      try lia; try (apply Heq; assumption);
      destruct asc; intros H1 H2 H3 H4; zbool; lia.
Qed.

(** Rows that hold NULL and integers in a sort column are outside the
    contract: the comparison tells 1 from 2, but neither of them from
    NULL. *)
Lemma row_less_mixed_not_strict_weak :
  ~ strict_weak (row_less [O] [true])
      [[INTEGER 1]; [NULL_VAL]; [INTEGER 2]].
Proof.
  intros (_ & _ & H).
  destruct (H [INTEGER 1] [NULL_VAL] [INTEGER 2]) as [E _]; cbn; auto.
  discriminate.
Qed.

(** *** Insertion sort keeps the contract of [std::sort] *)

Lemma strict_weak_incl less l l' :
  (forall a, In a l' -> In a l) -> strict_weak less l -> strict_weak less l'.
Proof.
  intros Hi (H1 & H2 & H3). split; [auto|]. split.
  - intros a b c Ha Hb Hc. apply H2; auto.
  - intros a b c Ha Hb Hc. apply H3; auto.
Qed.

Lemma strict_weak_asym less l a b :
  strict_weak less l -> In a l -> In b l ->
  less a b = true -> less b a = false.
Proof.
  intros (H1 & H2 & _) Ha Hb Hab.
  destruct (less b a) eqn:E; [|reflexivity].
  pose proof (H2 a b a Ha Hb Ha Hab E). rewrite H1 in H; [discriminate|exact Ha].
Qed.

(** An element below another is below every element, or every element is
    below the other. *)
Lemma strict_weak_between less l a b c :
  strict_weak less l -> In a l -> In b l -> In c l ->
  less a b = true -> less a c = true \/ less c b = true.
Proof.
  intros Hsw Ha Hb Hc Hab. pose proof Hsw as (H1 & H2 & H3).
  destruct (less a c) eqn:Eac; [left; reflexivity|].
  destruct (less c b) eqn:Ecb; [right; reflexivity|]. exfalso.
  assert (Eca : less c a = false).
  { destruct (less c a) eqn:E; [|reflexivity].
    rewrite (H2 c a b Hc Ha Hb E Hab) in Ecb. discriminate. }
  assert (Ebc : less b c = false).
  { destruct (less b c) eqn:E; [|reflexivity].
    rewrite (H2 a b c Ha Hb Hc Hab E) in Eac. discriminate. }
  destruct (H3 a c b Ha Hc Hb Eac Eca Ecb Ebc) as [E _]. congruence.
Qed.

Lemma insert_sorted_perm less x l :
  Permutation (Sample.insert_sorted less x l) (x :: l).
Proof.
  induction l as [|y l IH]; cbn; [reflexivity|].
  destruct (less y x); [|reflexivity].
  rewrite IH. apply perm_swap.
Qed.

Lemma insertion_sort_perm less l : Permutation (Sample.insertion_sort less l) l.
Proof.
  induction l as [|x l IH]; cbn; [reflexivity|].
  fold (Sample.insertion_sort less l).
  rewrite insert_sorted_perm, IH. reflexivity.
Qed.

Lemma insert_sorted_sorted less x l :
  strict_weak less (x :: l) ->
  StronglySorted (fun a b => less b a = false) l ->
  StronglySorted (fun a b => less b a = false) (Sample.insert_sorted less x l).
Proof.
  induction l as [|y l IH]; intros Hsw Hs; cbn.
  - repeat constructor.
  - inversion Hs as [|? ? Hs' Hy]; subst.
    destruct (less y x) eqn:Eyx.
    + constructor.
      * apply IH; [|exact Hs'].
        apply (strict_weak_incl less (x :: y :: l)); [|exact Hsw].
        intros a [<-|Ha]; [left; reflexivity|right; right; exact Ha].
      * apply (Permutation_Forall (Permutation_sym (insert_sorted_perm less x l))).
        constructor; [|exact Hy].
        apply (strict_weak_asym less (x :: y :: l)); cbn; auto.
    + constructor; [exact Hs|].
      constructor; [exact Eyx|].
      apply List.Forall_forall. intros z Hz.
      destruct (less z x) eqn:Ezx; [|reflexivity]. exfalso.
      destruct (strict_weak_between less (x :: y :: l) z x y Hsw) as [E|E];
        cbn; auto.
      * rewrite List.Forall_forall in Hy. rewrite (Hy z Hz) in E. discriminate.
      * congruence.
Qed.

Lemma strongly_sorted_ordered less l :
  StronglySorted (fun a b => less b a = false) l -> ordered less l.
Proof.
  induction 1 as [|x l Hs IH Hx]; intros i j a b Hij Hi Hj.
  - rewrite lookup_nil in Hi. discriminate.
  - destruct j as [|j]; [lia|]. cbn in Hj.
    destruct i as [|i].
    + cbn in Hi. injection Hi as <-.
      rewrite List.Forall_forall in Hx. apply Hx.
      apply list_elem_of_In. eapply list_elem_of_lookup_2. exact Hj.
    + cbn in Hi. apply (IH i j); [lia|exact Hi|exact Hj].
Qed.

(** Insertion sort is one of the functions that [std::sort] may be. *)
Lemma insertion_sort_sorts : sorts Sample.insertion_sort.
Proof.
  intros less l Hsw. split; [apply insertion_sort_perm|].
  apply strongly_sorted_ordered.
  induction l as [|x l IH]; cbn; [constructor|].
  fold (Sample.insertion_sort less l).
  apply insert_sorted_sorted.
  - apply (strict_weak_incl less (x :: l)); [|exact Hsw].
    intros a [<-|Ha]; [left; reflexivity|right].
    apply (Permutation_in _ (insertion_sort_perm less l)). exact Ha.
  - apply IH. apply (strict_weak_incl less (x :: l)); [|exact Hsw].
    intros a Ha. right. exact Ha.
Qed.

End SortOrder.

(** ** The sort operator *)

Section SortFacts.
Context (Expression : Type)
        (std_sort : (Executor.ResultRow -> Executor.ResultRow -> bool) ->
                    list Executor.ResultRow -> list Executor.ResultRow).
Import Executor SortSpec.

(** A materialized sort operator hands out its buffer row by row. *)
Lemma next_sort_materialized f c cols ascs buf k s :
  next Expression std_sort (S f) (SortOperator Expression c cols ascs buf k true) s
  = Val (buf !! k,
         SortOperator Expression c cols ascs buf
           (match buf !! k with Some _ => S k | None => k end) true) s.
Proof. cbn. destruct (buf !! k); reflexivity. Qed.

(** The first call: the drain, then [std::sort], the charge for it and the
    first row. *)
Lemma next_sort_drains fuel : forall c cols ascs buf k s,
  next Expression std_sort fuel
    (SortOperator Expression (Some c) cols ascs buf k false) s
  = match drain Expression std_sort fuel c buf s with
    | Val (rows, c') s' =>
        let sorted := std_sort (row_less cols ascs) rows in
        (_ ← record_instructions (Z.of_nat (List.length sorted) * 10 mod 2^64);
         mret (sorted !! k,
               SortOperator Expression (Some c') cols ascs sorted
                 (match sorted !! k with Some _ => S k | None => k end) true)) s'
    | Throw w s' => Throw w s'
    | Fault => Fault
    | Diverge => Diverge
    end.
Proof.
  induction fuel as [|f IH]; intros c cols ascs buf k s.
  - reflexivity.
  - cbn [next drain with_child]. unfold mbind, M_bind.
    destruct (next Expression std_sort f c s) as [[[temp|] c1] s1|w s1| |];
      try reflexivity.
    + destruct (record_instructions 2 s1) as [[] s2|w s2| |]; try reflexivity.
      destruct (on_ctx Context.check_budget s2) as [[] s3|w s3| |];
        try reflexivity.
      apply IH.
    + cbn. destruct (std_sort (row_less cols ascs) buf !! k); reflexivity.
Qed.

Lemma row_less_skips col asc cols ascs a b :
  int_key col a = None \/ int_key col b = None \/ int_key col a = int_key col b ->
  row_less (col :: cols) (asc :: ascs) a b = row_less cols ascs a b.
Proof.
  unfold int_key. cbn [row_less].
  destruct (a !! col) as [[|va| | |]|]; try reflexivity;
    destruct (b !! col) as [[|vb| | |]|]; try reflexivity.
  intros [H|[H|H]]; try discriminate.
  injection H as ->. rewrite Z.eqb_refl. reflexivity.
Qed.

Lemma row_less_decides col asc cols ascs a b va vb :
  int_key col a = Some va -> int_key col b = Some vb -> va <> vb ->
  row_less (col :: cols) (asc :: ascs) a b
  = if asc then va <? vb else vb <? va.
Proof.
  unfold int_key. cbn [row_less].
  destruct (a !! col) as [[|va'| | |]|]; try discriminate.
  destruct (b !! col) as [[|vb'| | |]|]; try discriminate.
  intros [= ->] [= ->] Hne.
  destruct (va =? vb) eqn:E; [zbool; contradiction|]. cbn [negb].
  rewrite Z.gtb_ltb. reflexivity.
Qed.

Lemma row_less_asym cols : forall ascs a b,
  row_less cols ascs a b = true -> row_less cols ascs b a = false.
Proof.
  induction cols as [|col cols IH]; intros ascs a b; [discriminate|].
  destruct ascs as [|asc ascs]; [discriminate|]. cbn [row_less].
  destruct (a !! col) as [[|va| | |]|]; try apply IH;
    destruct (b !! col) as [[|vb| | |]|]; try apply IH.
  rewrite (Z.eqb_sym vb va).
  destruct (va =? vb) eqn:E; cbn [negb]; [apply IH|].
  rewrite !Z.gtb_ltb. destruct asc; intros H; zbool; apply Z.ltb_ge; lia.
Qed.

(** A budget violation during the drain leaves the first call by the same
    exception. *)
Lemma sort_next_budget_violation fuel c cols ascs s w s' :
  drain Expression std_sort fuel c [] s = Throw w s' ->
  next Expression std_sort fuel
    (SortOperator Expression (Some c) cols ascs [] O false) s = Throw w s'.
Proof. intros H. rewrite next_sort_drains, H. reflexivity. Qed.

(** [check_budget] returns or throws. *)
Lemma check_budget_returns s :
  match on_ctx Context.check_budget s with
  | Val _ _ | Throw _ _ => True
  | _ => False
  end.
Proof.
  unfold on_ctx, zoom.
  destruct s as [c pm cat w]. cbn [ctx].
  destruct c as [b a st t0 sd ab v clk rd].
  unfold Context.check_budget, Context.check_time, Context.check_instructions,
    Context.check_rows, Context.violate, Context.now, Context.over_time.
  unfold_monad. cbn.
  destruct ab; cbn; [exact I|].
  destruct sd; cbn.
  - match goal with |- context [if ?late then _ else _] => destruct late end;
      cbn; [exact I|].
    destruct (Context.instructions_executed st >=? Context.max_instructions b);
      cbn; [exact I|].
    destruct (Context.rows_returned st >=? Context.max_result_rows b);
      cbn; [exact I|].
    destruct (Context.would_exceed 0 a); exact I.
  - destruct (Context.instructions_executed st >=? Context.max_instructions b);
      cbn; [exact I|].
    destruct (Context.rows_returned st >=? Context.max_result_rows b);
      cbn; [exact I|].
    destruct (Context.would_exceed 0 a); exact I.
Qed.

(** The bookkeeping of the drain returns, or throws the exception of the
    first budget check that fails. *)
Lemma charge_returns n : forall s,
  match charge n s with
  | Val _ _ | Throw _ _ => True
  | _ => False
  end.
Proof.
  induction n as [|n IH]; intros s; cbn [charge]; [exact I|].
  rewrite bind_eq. cbn.
  rewrite bind_eq.
  match goal with |- context [on_ctx Context.check_budget ?s1] =>
    pose proof (check_budget_returns s1) as Hc;
    destruct (on_ctx Context.check_budget s1) as [[] s2|w s2| |]
  end; try exact I; try contradiction.
  apply IH.
Qed.

Lemma drain_step f c buffer s :
  drain Expression std_sort (S f) c buffer s
  = match next Expression std_sort f c s with
    | Val (Some temp, c') s1 =>
        (_ ← record_instructions 2;
         _ ← on_ctx Context.check_budget;
         drain Expression std_sort f c' (buffer ++ [temp])) s1
    | Val (None, c') s1 => Val (buffer, c') s1
    | Throw w s1 => Throw w s1
    | Fault => Fault
    | Diverge => Diverge
    end.
Proof.
  cbn [drain]. rewrite bind_eq.
  destruct (next Expression std_sort f c s) as [[[temp|] c'] s1|w s1| |];
    reflexivity.
Qed.

Lemma next_sort_buffered f c cols ascs buf k row s :
  buf !! k = Some row ->
  next Expression std_sort (S f)
    (SortOperator Expression c cols ascs buf k true) s
  = Val (Some row, SortOperator Expression c cols ascs buf (S k) true) s.
Proof. intros H. rewrite next_sort_materialized, H. reflexivity. Qed.

(** Draining an operator that hands out the rows of a buffer: the rows,
    with the bookkeeping for each. *)
Lemma drain_buffer child cols0 ascs0 rows n : forall k fuel buffer s,
  (k + n = List.length rows)%nat -> (n + 2 <= fuel)%nat ->
  drain Expression std_sort fuel
    (SortOperator Expression child cols0 ascs0 rows k true) buffer s
  = (_ ← charge n;
     mret (buffer ++ drop k rows,
           SortOperator Expression child cols0 ascs0 rows (List.length rows)
             true)) s.
Proof.
  induction n as [|n IH]; intros k fuel buffer s Hk Hf.
  - destruct fuel as [|[|f]]; try lia.
    rewrite drain_step, next_sort_materialized.
    rewrite lookup_ge_None_2 by lia.
    rewrite drop_ge by lia. rewrite app_nil_r.
    replace k with (List.length rows) by lia. reflexivity.
  - destruct fuel as [|[|f]]; try lia.
    destruct (rows !! k) as [row|] eqn:Er;
      [|apply lookup_ge_None in Er; lia].
    rewrite drain_step, (next_sort_buffered _ _ _ _ _ _ _ _ Er).
    cbn [charge]. rewrite !bind_eq.
    destruct (record_instructions 2 s) as [[] s1|w s1| |]; try reflexivity.
    rewrite !bind_eq.
    destruct (on_ctx Context.check_budget s1) as [[] s2|w s2| |];
      try reflexivity.
    rewrite (IH (S k) (S f) (buffer ++ [row]) s2) by lia.
    rewrite (drop_S _ _ _ Er). rewrite <- app_assoc. reflexivity.
Qed.

(** Along the leading key the rows of an ordered buffer do not descend
    (ascend for a descending key). *)
Lemma ordered_leading_key col asc cols ascs sorted i j a b va vb :
  ordered (row_less (col :: cols) (asc :: ascs)) sorted ->
  (i < j)%nat -> sorted !! i = Some a -> sorted !! j = Some b ->
  int_key col a = Some va -> int_key col b = Some vb ->
  if asc then va <= vb else vb <= va.
Proof.
  intros Ho Hij Hi Hj Ha Hb.
  pose proof (Ho i j a b Hij Hi Hj) as Hba.
  destruct (Z.eq_dec vb va) as [->|Hne]; [destruct asc; lia|].
  rewrite (row_less_decides col asc cols ascs b a vb va Hb Ha Hne) in Hba.
  destruct asc; zbool; lia.
Qed.

(** C8, as amended, for a [std::sort] that keeps its contract.  The first
    [next] of a sort operator drains its child: every row is pushed on the
    buffer, two instructions are charged and [check_budget] is called
    after each, and a failing check leaves [next] by its exception.  For
    every row sequence that is left in the buffer of a child, with enough
    fuel, the drain ends with exactly these rows or with the exception of
    a budget check, and so does the first [next].  The buffer is then
    handed to [std::sort], ten instructions are charged for each row and
    the first row of the result is returned; every later call returns the
    next row, and no row after the last.
    When in each sort column either every row holds an integer or none
    does, the rows streamed are a permutation of the rows drained in which
    no row is ordered before a row that precedes it; along the leading
    key they ascend (or descend, for a descending key).  The comparison
    goes through the keys in order: a key on which one of the rows holds
    no integer (NULL included), or both the same integer, is passed over;
    the first key on which the rows hold different integers decides, by
    [<] for an ascending key and by [>] for a descending one. *)
Theorem sort_next_drains_sorts_streams fuel c cols ascs s :
  sorts std_sort ->
  next Expression std_sort fuel
    (SortOperator Expression (Some c) cols ascs [] O false) s
  = match drain Expression std_sort fuel c [] s with
    | Val (rows, c') s' =>
        let sorted := std_sort (row_less cols ascs) rows in
        (_ ← record_instructions (Z.of_nat (List.length sorted) * 10 mod 2^64);
         mret (sorted !! O,
               SortOperator Expression (Some c') cols ascs sorted
                 (match sorted !! O with Some _ => 1%nat | None => O end)
                 true)) s'
    | Throw w s' => Throw w s'
    | Fault => Fault
    | Diverge => Diverge
    end /\
  (forall rows child cols0 ascs0 k e,
     (k <= List.length rows)%nat ->
     (List.length rows - k + 2 <= fuel)%nat ->
     drain Expression std_sort fuel
       (SortOperator Expression child cols0 ascs0 rows k true) [] e
     = (_ ← charge (List.length rows - k);
        mret (drop k rows,
              SortOperator Expression child cols0 ascs0 rows
                (List.length rows) true)) e /\
     match charge (List.length rows - k) e with
     | Val _ _ | Throw _ _ => True
     | _ => False
     end /\
     next Expression std_sort fuel
       (SortOperator Expression
          (Some (SortOperator Expression child cols0 ascs0 rows k true))
          cols ascs [] O false) e
     = match charge (List.length rows - k) e with
       | Val _ e' =>
           let sorted := std_sort (row_less cols ascs) (drop k rows) in
           (_ ← record_instructions
                  (Z.of_nat (List.length sorted) * 10 mod 2^64);
            mret (sorted !! O,
                  SortOperator Expression
                    (Some (SortOperator Expression child cols0 ascs0 rows
                             (List.length rows) true))
                    cols ascs sorted
                    (match sorted !! O with Some _ => 1%nat | None => O end)
                    true)) e'
       | Throw w e' => Throw w e'
       | Fault => Fault
       | Diverge => Diverge
       end) /\
  (forall rows,
     uniform cols rows ->
     Permutation (std_sort (row_less cols ascs) rows) rows /\
     ordered (row_less cols ascs) (std_sort (row_less cols ascs) rows) /\
     forall col asc cols' ascs' i j a b va vb,
       cols = col :: cols' -> ascs = asc :: ascs' -> (i < j)%nat ->
       std_sort (row_less cols ascs) rows !! i = Some a ->
       std_sort (row_less cols ascs) rows !! j = Some b ->
       int_key col a = Some va -> int_key col b = Some vb ->
       if asc then va <= vb else vb <= va) /\
  (forall buf c' k f t,
     next Expression std_sort (S f)
       (SortOperator Expression c' cols ascs buf k true) t
     = Val (buf !! k,
            SortOperator Expression c' cols ascs buf
              (match buf !! k with Some _ => S k | None => k end) true) t) /\
  (forall col asc cols' ascs' a b,
     int_key col a = None \/ int_key col b = None \/
     int_key col a = int_key col b ->
     row_less (col :: cols') (asc :: ascs') a b = row_less cols' ascs' a b) /\
  (forall col asc cols' ascs' a b va vb,
     int_key col a = Some va -> int_key col b = Some vb -> va <> vb ->
     row_less (col :: cols') (asc :: ascs') a b
     = if asc then va <? vb else vb <? va) /\
  (forall a b, row_less cols ascs a b = true -> row_less cols ascs b a = false).
Proof.
  intros Hsort. split; [|split; [|split; [|split; [|split; [|split]]]]].
  - apply next_sort_drains.
  - intros rows child cols0 ascs0 k e Hk Hf.
    pose proof (drain_buffer child cols0 ascs0 rows (List.length rows - k) k
                  fuel [] e ltac:(lia) Hf) as Hd.
    split; [exact Hd|]. split; [apply charge_returns|].
    rewrite next_sort_drains, Hd, bind_eq.
    destruct (charge (List.length rows - k) e) as [[] e'|w e'| |];
      reflexivity.
  - intros rows Hu.
    destruct (Hsort (row_less cols ascs) rows
                (row_less_strict_weak cols ascs rows Hu)) as [Hp Ho].
    split; [exact Hp|]. split; [exact Ho|].
    intros col asc cols' ascs' i j a b va vb -> -> Hij Hi Hj Ha Hb.
    exact (ordered_leading_key col asc cols' ascs' _ i j a b va vb
             Ho Hij Hi Hj Ha Hb).
  - intros buf c' k f t. apply next_sort_materialized.
  - intros. apply row_less_skips. assumption.
  - intros. apply row_less_decides; assumption.
  - apply row_less_asym.
Qed.

End SortFacts.

Lemma sort_next_drains_sorts_streams_witness :
  SortSpec.sorts Sample.insertion_sort /\
  Executor.next unit Sample.insertion_sort 10
    (Sample.sort_over unit
       [[Executor.INTEGER 3]; [Executor.INTEGER 1]; [Executor.INTEGER 2]]
       [O] [true])
    (Sample.engine 1000)
  = Val (Some [Executor.INTEGER 1],
         Executor.SortOperator unit
           (Some (Executor.SortOperator unit None [] []
                    [[Executor.INTEGER 3]; [Executor.INTEGER 1];
                     [Executor.INTEGER 2]] 3 true))
           [O] [true]
           [[Executor.INTEGER 1]; [Executor.INTEGER 2]; [Executor.INTEGER 3]]
           1 true)
        (snd (Example.after
                (Executor.next unit Sample.insertion_sort 10
                   (Sample.sort_over unit
                      [[Executor.INTEGER 3]; [Executor.INTEGER 1];
                       [Executor.INTEGER 2]] [O] [true]))
                (Sample.engine 1000))).
Proof.
  split; [exact insertion_sort_sorts|].
  unfold Sample.sort_over.
  rewrite (proj1 (sort_next_drains_sorts_streams unit Sample.insertion_sort 10
                    (Sample.row_source unit
                       [[Executor.INTEGER 3]; [Executor.INTEGER 1];
                        [Executor.INTEGER 2]])
                    [O] [true] (Sample.engine 1000) insertion_sort_sorts)).
  vm_compute. reflexivity.
Defined.

(** C8 fails as stated: the comparison tells neither NULL from an integer
    nor one string from another, so such rows leave the sort in the order of
    the input: the integer before NULL, "b" before "a". *)
Lemma sort_leaves_null_after_integer :
  Executor.row_less [O] [true] [Executor.NULL_VAL] [Executor.INTEGER 1] = false /\
  Executor.row_less [O] [true] [Executor.INTEGER 1] [Executor.NULL_VAL] = false /\
  Executor.row_less [O] [true] [Executor.STRING "a"] [Executor.STRING "b"] = false /\
  Executor.row_less [O] [true] [Executor.STRING "b"] [Executor.STRING "a"] = false /\
  Sample.streamed 10
    (Sample.sort_over unit [[Executor.INTEGER 1]; [Executor.NULL_VAL]] [O] [true])
    (Sample.engine 1000)
  = Some [[Executor.INTEGER 1]; [Executor.NULL_VAL]] /\
  Sample.streamed 10
    (Sample.sort_over unit [[Executor.STRING "b"]; [Executor.STRING "a"]] [O] [true])
    (Sample.engine 1000)
  = Some [[Executor.STRING "b"]; [Executor.STRING "a"]].
Proof. vm_compute. repeat split; reflexivity. Qed.

(** ** Executor: results and exceptions *)

Section ExecutorResults.
Context (Expression : Type).
Context (std_sort : (Executor.ResultRow -> Executor.ResultRow -> bool) ->
                    list Executor.ResultRow -> list Executor.ResultRow).
Import Executor ExecutorSpec.

Lemma on_ctx_start e :
  on_ctx Context.start e
  = Val tt {| ctx := match Context.start (ctx e) with
                     | Val _ c => c
                     | _ => ctx e
                     end;
              page_manager_ := page_manager_ e; catalog_ := catalog_ e;
              wal := wal e |}.
Proof. reflexivity. Qed.

Lemma on_ctx_finalize e :
  exists e2, on_ctx Context.finalize e = Val tt e2 /\
             page_manager_ e2 = page_manager_ e /\ catalog_ e2 = catalog_ e /\
             returned e2 = returned e.
Proof.
  unfold on_ctx, Context.finalize, Context.now, zoom, returned. unfold_monad.
  destruct (Context.started_ (ctx e)); eexists; (split; [reflexivity|]);
    repeat split.
Qed.

(** The three ways in which [execute] ends. *)
Lemma execute_cases fuel plan e :
  exists e0,
    on_ctx Context.start e = Val tt e0 /\
    catalog_ e0 = catalog_ e /\ page_manager_ e0 = page_manager_ e /\
    returned e0 = returned e /\ row_cap e0 = row_cap e /\
    match dispatch Expression std_sort fuel plan e0 with
    | Val r0 e1 =>
        exists e2,
          execute Expression std_sort fuel plan e
          = Val {| success := success r0; error := error r0;
                   column_names := column_names r0; rows := rows r0;
                   rows_affected := rows_affected r0;
                   stats := Context.stats_ (ctx e2) |} e2 /\
          page_manager_ e2 = page_manager_ e1 /\ catalog_ e2 = catalog_ e1 /\
          returned e2 = returned e1
    | Throw what e1 =>
        exists e2,
          execute Expression std_sort fuel plan e
          = Val {| success := false; error := what; column_names := [];
                   rows := []; rows_affected := 0;
                   stats := Context.stats_ (ctx e2) |} e2 /\
          page_manager_ e2 = page_manager_ e1 /\ catalog_ e2 = catalog_ e1 /\
          returned e2 = returned e1
    | Fault => execute Expression std_sort fuel plan e = Fault
    | Diverge => execute Expression std_sort fuel plan e = Diverge
    end.
Proof.
  destruct (on_ctx Context.start e) as [[] e0| | |] eqn:Hs;
    try (rewrite on_ctx_start in Hs; discriminate).
  exists e0. split; [reflexivity|].
  assert (He0 : catalog_ e0 = catalog_ e /\ page_manager_ e0 = page_manager_ e /\
                returned e0 = returned e /\ row_cap e0 = row_cap e).
  { rewrite on_ctx_start in Hs. injection Hs as <-. repeat split. }
  destruct He0 as (H1 & H2 & H3 & H4). do 4 (split; [assumption|]).
  unfold execute. rewrite bind_eq, Hs, bind_eq. unfold try_catch.
  destruct (dispatch Expression std_sort fuel plan e0) as [r0 e1|what e1| |];
    try reflexivity.
  - destruct (on_ctx_finalize e1) as (e2 & Hf & F1 & F2 & F3).
    rewrite bind_eq, Hf. exists e2. split; [reflexivity|]. auto.
  - destruct (on_ctx_finalize e1) as (e2 & Hf & F1 & F2 & F3).
    cbn [mret M_ret]. rewrite bind_eq, Hf.
    exists e2. split; [reflexivity|]. auto.
Qed.

(** X1: [execute] lets no exception escape.  When running the plan throws,
    the call returns a result with [success = false], the message of the
    exception as [error] and no rows, column names or affected count: the
    rows pulled before the exception are dropped.  Otherwise it returns
    the result of the plan with the statistics of the context. *)
Theorem execute_reports_exceptions fuel plan e :
  exists e0,
    on_ctx Context.start e = Val tt e0 /\
    match dispatch Expression std_sort fuel plan e0 with
    | Val r0 e1 =>
        exists e2,
          execute Expression std_sort fuel plan e
          = Val {| success := success r0; error := error r0;
                   column_names := column_names r0; rows := rows r0;
                   rows_affected := rows_affected r0;
                   stats := Context.stats_ (ctx e2) |} e2 /\
          page_manager_ e2 = page_manager_ e1 /\ catalog_ e2 = catalog_ e1
    | Throw what e1 =>
        exists e2,
          execute Expression std_sort fuel plan e
          = Val {| success := false; error := what; column_names := [];
                   rows := []; rows_affected := 0;
                   stats := Context.stats_ (ctx e2) |} e2 /\
          page_manager_ e2 = page_manager_ e1 /\ catalog_ e2 = catalog_ e1
    | Fault => execute Expression std_sort fuel plan e = Fault
    | Diverge => execute Expression std_sort fuel plan e = Diverge
    end.
Proof.
  destruct (execute_cases fuel plan e) as (e0 & Hs & _ & _ & _ & _ & H).
  exists e0. split; [exact Hs|].
  destruct (dispatch Expression std_sort fuel plan e0) as [r0 e1|what e1| |];
    try exact H.
  - destruct H as (e2 & H & H1 & H2 & _). exists e2. auto.
  - destruct H as (e2 & H & H1 & H2 & _). exists e2. auto.
Qed.

End ExecutorResults.

(** ** Executor: operators *)

Section OperatorFacts.
Context (Expression : Type).
Context (std_sort : (Executor.ResultRow -> Executor.ResultRow -> bool) ->
                    list Executor.ResultRow -> list Executor.ResultRow).
Import Executor ExecutorSpec.

Lemma on_pm_ctx {A} (m : M PageManager.t A) s a s1 :
  on_pm m s = Val a s1 -> ctx s1 = ctx s /\ catalog_ s1 = catalog_ s.
Proof.
  unfold on_pm, zoom. destruct (m (page_manager_ s)); try discriminate.
  intros [= <- <-]. split; reflexivity.
Qed.

Lemma record_instructions_counters n s :
  exists s1, record_instructions n s = Val tt s1 /\
             returned s1 = returned s /\ row_cap s1 = row_cap s /\
             Context.rows_scanned (Context.stats_ (ctx s1))
             = Context.rows_scanned (Context.stats_ (ctx s)) /\
             catalog_ s1 = catalog_ s.
Proof. eexists. split; [reflexivity|]. repeat split. Qed.

(** A passed [check_budget] leaves the row counter below the cap. *)
Lemma check_budget_passed s s1 :
  on_ctx Context.check_budget s = Val tt s1 ->
  returned s1 = returned s /\ row_cap s1 = row_cap s /\
  returned s < row_cap s /\ catalog_ s1 = catalog_ s.
Proof.
  unfold on_ctx, zoom, returned, row_cap.
  destruct s as [c pm cat w]. cbn [ctx page_manager_ catalog_ wal].
  destruct c as [b a st t0 sd ab v clk rd].
  unfold Context.check_budget, Context.check_time, Context.check_instructions,
    Context.check_rows, Context.violate, Context.now, Context.over_time.
  unfold_monad. cbn.
  destruct ab; cbn; [discriminate|].
  destruct sd; cbn.
  - match goal with |- context [if ?late then _ else _] => destruct late end;
      cbn; [discriminate|].
    destruct (Context.instructions_executed st >=? Context.max_instructions b);
      cbn; [discriminate|].
    destruct (Context.rows_returned st >=? Context.max_result_rows b) eqn:E;
      cbn; [discriminate|].
    destruct (Context.would_exceed 0 a); cbn; [discriminate|].
    intros [= <-]. cbn. zbool. repeat split; lia.
  - destruct (Context.instructions_executed st >=? Context.max_instructions b);
      cbn; [discriminate|].
    destruct (Context.rows_returned st >=? Context.max_result_rows b) eqn:E;
      cbn; [discriminate|].
    destruct (Context.would_exceed 0 a); cbn; [discriminate|].
    intros [= <-]. cbn. zbool. repeat split; lia.
Qed.

(** The rows of a table scan: one row of NULLs, as wide as the schema, for
    each live record; the scan counts it and touches neither the row
    counter nor the catalog. *)
Lemma scan_row fuel : forall tid tname schema cp cs page s r op' s',
  scan Expression fuel tid tname schema cp cs page s = Val (r, op') s' ->
  limit_free Expression op' = true /\
  returned s' = returned s /\ row_cap s' = row_cap s /\
  catalog_ s' = catalog_ s /\
  match r with
  | Some row =>
      row = List.map (fun _ => NULL_VAL)
              (match schema with Some ti => Catalog.columns ti | None => [] end) /\
      Context.rows_scanned (Context.stats_ (ctx s'))
      = (Context.rows_scanned (Context.stats_ (ctx s)) + 1) mod 2^64
  | None =>
      Context.rows_scanned (Context.stats_ (ctx s'))
      = Context.rows_scanned (Context.stats_ (ctx s))
  end.
Proof.
  induction fuel as [|f IH]; intros tid tname schema cp cs page s r op' s';
    [discriminate|].
  cbn [scan]. destruct page as [key|].
  2:{ intros [= <- <- <-]. repeat split. }
  rewrite bind_eq.
  destruct (on_pm (PageManager.deref key) s) as [pg s1| | |] eqn:Hd;
    try discriminate.
  assert (s1 = s) as ->.
  { unfold on_pm, zoom, PageManager.deref in Hd.
    destruct (PageManager.buffer_pool_ (page_manager_ s) !! key);
      [|discriminate].
    injection Hd as _ <-. destruct s; reflexivity. }
  destruct (cs <? Page.slot_count (Page.header pg)).
  - destruct (Page.get_record cs pg) as [ptr| |]; [| |discriminate].
    + intros [= <- <- <-]. unfold column_values.
      destruct schema; repeat split.
    + intros H. apply IH in H. exact H.
  - rewrite bind_eq.
    destruct (on_pm (PageManager.get_page f tid ((cp + 1) mod 2 ^ 32)) s)
      as [page' s1| | |] eqn:Hg; try discriminate.
    destruct (on_pm_ctx _ _ _ _ Hg) as [Hc Hcat].
    rewrite bind_eq.
    destruct (record_instructions_counters 10 s1) as (s2 & Hr & R1 & R2 & R3 & R4).
    rewrite Hr. intros H. apply IH in H.
    destruct H as (L & H1 & H2 & H3 & H4).
    unfold returned, row_cap in *. rewrite Hc in *.
    split; [exact L|].
    split; [congruence|]. split; [congruence|]. split; [congruence|].
    destruct r; [destruct H4 as [H4 H5]; split; [exact H4|]|]; congruence.
Qed.

(** X2: every row that a table scan returns consists of NULLs, one for each
    column of the schema (none without a schema), whatever bytes the
    record holds; the call counts exactly one scanned row and leaves the
    catalog and the counter of returned rows as they were. *)
Theorem table_scan_rows_are_null fuel tid tname schema cp cs page s row op' s' :
  next Expression std_sort fuel
    (TableScanOperator Expression tid tname schema cp cs page) s
  = Val (Some row, op') s' ->
  row = List.map (fun _ => NULL_VAL)
          (match schema with Some ti => Catalog.columns ti | None => [] end) /\
  Context.rows_scanned (Context.stats_ (ctx s'))
  = (Context.rows_scanned (Context.stats_ (ctx s)) + 1) mod 2^64 /\
  returned s' = returned s /\ catalog_ s' = catalog_ s.
Proof.
  destruct fuel as [|f]; [discriminate|]. cbn [next]. rewrite bind_eq.
  destruct (record_instructions_counters 1 s) as (s1 & Hr & R1 & R2 & R3 & R4).
  rewrite Hr. intros H. apply scan_row in H.
  destruct H as (_ & H1 & H2 & H3 & H4 & H5).
  split; [exact H4|]. split; [congruence|]. split; congruence.
Qed.

(** X3: a filter operator passes every row of its child on, whatever its
    predicate, charging five instructions for each. *)
Theorem filter_passes_every_row fuel c predicate s :
  next Expression std_sort (S fuel)
    (FilterOperator Expression (Some c) predicate) s
  = match next Expression std_sort fuel c s with
    | Val (Some row, c') s1 =>
        (_ ← record_instructions 5;
         mret (Some row, FilterOperator Expression (Some c') predicate)) s1
    | Val (None, c') s1 =>
        Val (None, FilterOperator Expression (Some c') predicate) s1
    | Throw what s1 => Throw what s1
    | Fault => Fault
    | Diverge => Diverge
    end.
Proof.
  cbn [next with_child]. rewrite bind_eq.
  destruct (next Expression std_sort fuel c s) as [[[row|] c'] s1| | |];
    try reflexivity.
  rewrite !bind_eq.
  destruct (record_instructions 5 s1) as [[] s2| | |]; try reflexivity.
  unfold evaluate_predicate. rewrite orb_true_r. reflexivity.
Qed.


(** Operators without a limit operator leave the counter of returned rows
    alone. *)
Lemma next_limit_free fuel : forall op s r op' s',
  limit_free Expression op = true ->
  next Expression std_sort fuel op s = Val (r, op') s' ->
  limit_free Expression op' = true /\
  returned s' = returned s /\ row_cap s' = row_cap s.
Proof.
  induction fuel as [|f IH]; intros op s r op' s' Hlf; [discriminate|].
  destruct op as [tid tname schema cp cs page|child predicate
                 |child limit offset skipped ret
                 |child cols ascs buffer cur materialized];
    cbn [next limit_free] in *.
  - rewrite bind_eq.
    destruct (record_instructions_counters 1 s) as (s1 & Hr & R1 & R2 & _).
    rewrite Hr. intros H. apply scan_row in H.
    destruct H as (L & H1 & H2 & _). split; [exact L|]. split; congruence.
  - destruct child as [c|]; [|discriminate]. cbn [with_child].
    rewrite bind_eq.
    destruct (next Expression std_sort f c s) as [[[row|] c'] s1| | |] eqn:Hn;
      try discriminate.
    + destruct (IH _ _ _ _ _ Hlf Hn) as (L & H1 & H2).
      rewrite bind_eq.
      destruct (record_instructions_counters 5 s1) as (s2 & Hr & R1 & R2 & _).
      rewrite Hr. unfold evaluate_predicate. rewrite orb_true_r.
      intros [= <- <- <-]. cbn [limit_free]. split; [exact L|].
      split; congruence.
    + destruct (IH _ _ _ _ _ Hlf Hn) as (L & H1 & H2).
      intros [= <- <- <-]. cbn [limit_free]. auto.
  - discriminate.
  - destruct materialized.
    + destruct (buffer !! cur); intros [= <- <- <-]; cbn [limit_free]; auto.
    + destruct child as [c|]; [|discriminate]. cbn [with_child].
      rewrite bind_eq.
      destruct (next Expression std_sort f c s) as [[[temp|] c'] s1| | |] eqn:Hn;
        try discriminate.
      * destruct (IH _ _ _ _ _ Hlf Hn) as (L & H1 & H2).
        rewrite bind_eq.
        destruct (record_instructions_counters 2 s1) as (s2 & Hr & R1 & R2 & _).
        rewrite Hr. rewrite bind_eq.
        destruct (on_ctx Context.check_budget s2) as [[] s3| | |] eqn:Hc;
          try discriminate.
        destruct (check_budget_passed _ _ Hc) as (C1 & C2 & _).
        intros H. apply IH in H; [|exact L].
        destruct H as (L' & H3 & H4). split; [exact L'|]. split; congruence.
      * destruct (IH _ _ _ _ _ Hlf Hn) as (L & H1 & H2).
        rewrite bind_eq.
        match goal with |- context [record_instructions ?n s1] =>
          destruct (record_instructions_counters n s1)
            as (s2 & Hr & R1 & R2 & _) end.
        rewrite Hr.
        destruct (std_sort (row_less cols ascs) buffer !! cur);
          intros [= <- <- <-]; cbn [limit_free]; split; auto;
          split; congruence.
Qed.

(** One call of [next] on a limit operator. *)
Lemma next_limit fuel : forall c limit offset skipped ret s r op' s',
  next Expression std_sort fuel
    (LimitOperator Expression (Some c) limit offset skipped ret) s
  = Val (r, op') s' ->
  exists c' skipped' ret',
    op' = LimitOperator Expression (Some c') limit offset skipped' ret' /\
    match r with
    | Some _ => ret' = ret + 1 /\ ~ (0 <= limit <= ret)
    | None => ret' = ret
    end /\
    (limit_free Expression c = true ->
     limit_free Expression c' = true /\ row_cap s' = row_cap s /\
     returned s'
     = match r with
       | Some _ => (returned s + 1) mod 2^64
       | None => returned s
       end).
Proof.
  induction fuel as [|f IH]; intros c limit offset skipped ret s r op' s';
    [discriminate|].
  cbn [next with_child].
  destruct (skipped <? offset).
  - rewrite bind_eq.
    destruct (next Expression std_sort f c s) as [[[row|] c'] s1| | |] eqn:Hn;
      try discriminate.
    + rewrite bind_eq.
      destruct (record_instructions_counters 1 s1) as (s2 & Hr & R1 & R2 & _).
      rewrite Hr. intros H. apply IH in H.
      destruct H as (c2 & sk & rt & -> & Hret & Hfree).
      exists c2, sk, rt. split; [reflexivity|]. split; [exact Hret|].
      intros Hlf. destruct (next_limit_free _ _ _ _ _ _ Hlf Hn) as (L & H1 & H2).
      destruct (Hfree L) as (L' & H3 & H4). split; [exact L'|].
      split; [congruence|]. rewrite H4, R1, H1. reflexivity.
    + intros [= <- <- <-]. exists c', skipped, ret.
      split; [reflexivity|]. split; [reflexivity|].
      intros Hlf. destruct (next_limit_free _ _ _ _ _ _ Hlf Hn) as (L & H1 & H2).
      auto.
  - destruct ((limit >=? 0) && (ret >=? limit)) eqn:E.
    + intros [= <- <- <-]. exists c, skipped, ret. auto.
    + rewrite bind_eq.
      destruct (next Expression std_sort f c s) as [[[row|] c'] s1| | |] eqn:Hn;
        try discriminate.
      * rewrite bind_eq. intros H.
        assert (s' = {| ctx := match Context.record_row_returned (ctx s1) with
                               | Val _ x => x | _ => ctx s1 end;
                        page_manager_ := page_manager_ s1;
                        catalog_ := catalog_ s1; wal := wal s1 |}
                /\ r = Some row
                /\ op' = LimitOperator Expression (Some c') limit offset skipped
                           (ret + 1)) as (-> & -> & ->).
        { cbn in H. injection H as <- <- <-. auto. }
        exists c', skipped, (ret + 1). split; [reflexivity|].
        split.
        { split; [reflexivity|]. intros [H0 H1].
          apply andb_false_iff in E. destruct E as [E|E]; zbool; lia. }
        intros Hlf. destruct (next_limit_free _ _ _ _ _ _ Hlf Hn) as (L & H1 & H2).
        split; [exact L|]. unfold row_cap, returned in *. cbn.
        split; [exact H2|]. rewrite H1. reflexivity.
      * intros [= <- <- <-]. exists c', skipped, ret.
        split; [reflexivity|]. split; [reflexivity|].
        intros Hlf. destruct (next_limit_free _ _ _ _ _ _ Hlf Hn) as (L & H1 & H2).
        auto.
Qed.

(** The loop of [execute_select] over a limit operator. *)
Lemma pull_limit fuel : forall c limit offset skipped ret acc s rows op' s',
  pull Expression std_sort fuel
    (LimitOperator Expression (Some c) limit offset skipped ret) acc s
  = Val (rows, op') s' ->
  exists new,
    rows = acc ++ new /\
    (0 <= limit -> ret <= limit -> Z.of_nat (List.length new) <= limit - ret) /\
    (limit_free Expression c = true -> 0 <= returned s < 2^64 - 1 ->
     row_cap s < 2^64 ->
     returned s' = returned s + Z.of_nat (List.length new) /\
     row_cap s' = row_cap s /\
     (new <> [] -> returned s' < row_cap s)).
Proof.
  induction fuel as [|f IH]; intros c limit offset skipped ret acc s rows op' s';
    [discriminate|].
  cbn [pull]. rewrite bind_eq.
  destruct (next Expression std_sort f
              (LimitOperator Expression (Some c) limit offset skipped ret) s)
    as [[[row|] op1] s1| | |] eqn:Hn; try discriminate.
  - destruct (next_limit _ _ _ _ _ _ _ _ _ _ Hn)
      as (c1 & sk1 & rt1 & -> & [-> Hlim] & Hfree).
    rewrite bind_eq.
    destruct (on_ctx Context.check_budget s1) as [[] s2| | |] eqn:Hc;
      try discriminate.
    destruct (check_budget_passed _ _ Hc) as (C1 & C2 & C3 & _).
    intros H. apply IH in H. destruct H as (new & -> & Hbound & Hcount).
    exists (row :: new). split; [rewrite <- app_assoc; reflexivity|].
    split.
    + intros H0 H1. cbn [List.length]. rewrite Nat2Z.inj_succ.
      assert (ret < limit) by lia. specialize (Hbound H0). lia.
    + intros Hlf Hrange Hcap.
      destruct (Hfree Hlf) as (L & R2 & R1).
      rewrite Z.mod_small in R1 by lia.
      destruct Hcount as (Hs' & Hcap' & Hlt); [exact L|lia|lia|].
      cbn [List.length]. rewrite Nat2Z.inj_succ.
      split; [lia|]. split; [lia|]. intros _.
      destruct new as [|row2 new2].
      * cbn [List.length] in Hs'. lia.
      * assert (returned s' < row_cap s2) by (apply Hlt; discriminate). lia.
  - destruct (next_limit _ _ _ _ _ _ _ _ _ _ Hn)
      as (c1 & sk1 & rt1 & -> & -> & Hfree).
    intros [= <- <- <-]. exists []. split; [rewrite app_nil_r; reflexivity|].
    split; [cbn; lia|].
    intros Hlf _ _. destruct (Hfree Hlf) as (_ & R2 & R1).
    cbn [List.length]. split; [lia|]. split; [exact R2|].
    intros H. contradiction.
Qed.

End OperatorFacts.

Lemma table_scan_rows_are_null_witness :
  Executor.next unit Sample.insertion_sort 8 Example.scan_op Example.scan_opened
  = Val (Some [Executor.NULL_VAL],
         Executor.TableScanOperator unit 1 "t"
           (Catalog.get_table_by_id 1 Sample.catalog_t) 0 1 (Some (1, 0)))
        (snd (Example.after
                (Executor.next unit Sample.insertion_sort 8 Example.scan_op)
                Example.scan_opened)) /\
  Context.rows_scanned
    (Context.stats_
       (Executor.ctx
          (snd (Example.after
                  (Executor.next unit Sample.insertion_sort 8 Example.scan_op)
                  Example.scan_opened)))) = 1.
Proof.
  assert (H : Executor.next unit Sample.insertion_sort 8 Example.scan_op
                Example.scan_opened
              = Val (Some [Executor.NULL_VAL],
                     Executor.TableScanOperator unit 1 "t"
                       (Catalog.get_table_by_id 1 Sample.catalog_t) 0 1
                       (Some (1, 0)))
                  (snd (Example.after
                          (Executor.next unit Sample.insertion_sort 8
                             Example.scan_op)
                          Example.scan_opened)))
    by (vm_compute; reflexivity).
  split; [exact H|].
  rewrite (proj1 (proj2 (table_scan_rows_are_null unit Sample.insertion_sort
                           _ _ _ _ _ _ _ _ _ _ _ H))).
  vm_compute. reflexivity.
Defined.

(** ** Executor: plans with a limit *)

Section LimitPlans.
Context (Expression : Type).
Context (std_sort : (Executor.ResultRow -> Executor.ResultRow -> bool) ->
                    list Executor.ResultRow -> list Executor.ResultRow).
Import Executor ExecutorSpec.

Lemma open_counters fuel : forall op s op' s',
  open Expression fuel op s = Val op' s' ->
  returned s' = returned s /\ row_cap s' = row_cap s /\
  (limit_free Expression op = true -> limit_free Expression op' = true).
Proof.
  fix IH 1. intros op s op' s'.
  destruct op as [tid tname schema cp cs page|child predicate
                 |child limit offset skipped ret
                 |child cols ascs buffer cur materialized];
    cbn [open limit_free].
  - rewrite bind_eq.
    destruct (on_pm (PageManager.get_page fuel tid 0) s) as [page' s1| | |] eqn:Hg;
      try discriminate.
    destruct (on_pm_ctx _ _ _ _ Hg) as [Hc _]. rewrite bind_eq.
    destruct (record_instructions_counters 10 s1) as (s2 & Hr & R1 & R2 & _).
    rewrite Hr. intros [= <- <-]. unfold returned, row_cap in *.
    rewrite Hc in *. auto.
  - destruct child as [c|]; [|discriminate]. rewrite bind_eq.
    destruct (open Expression fuel c s) as [c' s1| | |] eqn:Ho; try discriminate.
    intros [= <- <-]. destruct (IH _ _ _ _ Ho) as (H1 & H2 & H3). auto.
  - destruct child as [c|]; [|discriminate]. rewrite bind_eq.
    destruct (open Expression fuel c s) as [c' s1| | |] eqn:Ho; try discriminate.
    intros [= <- <-]. destruct (IH _ _ _ _ Ho) as (H1 & H2 & H3).
    split; [exact H1|]. split; [exact H2|]. discriminate.
  - destruct child as [c|]; [|discriminate]. rewrite bind_eq.
    destruct (open Expression fuel c s) as [c' s1| | |] eqn:Ho; try discriminate.
    intros [= <- <-]. destruct (IH _ _ _ _ Ho) as (H1 & H2 & H3). auto.
Qed.

Lemma op_column_names_state : forall op s names s',
  op_column_names Expression op s = Val names s' -> s' = s.
Proof.
  fix IH 1. intros op s names s'.
  destruct op as [tid tname schema cp cs page|child predicate
                 |child limit offset skipped ret
                 |child cols ascs buffer cur materialized];
    cbn [op_column_names].
  - intros [= _ <-]. reflexivity.
  - destruct child as [c|]; [apply IH|discriminate].
  - destruct child as [c|]; [apply IH|discriminate].
  - destruct child as [c|]; [apply IH|discriminate].
Qed.

Lemma close_state : forall op s op' s',
  close Expression op s = Val op' s' -> s' = s.
Proof.
  fix IH 1. intros op s op' s'.
  destruct op as [tid tname schema cp cs page|child predicate
                 |child limit offset skipped ret
                 |child cols ascs buffer cur materialized];
    cbn [close].
  - intros [= _ <-]. reflexivity.
  - destruct child as [c|]; [|discriminate]. rewrite bind_eq.
    destruct (close Expression c s) as [c' s1| | |] eqn:Hc; try discriminate.
    intros [= _ <-]. exact (IH _ _ _ _ Hc).
  - destruct child as [c|]; [|discriminate]. rewrite bind_eq.
    destruct (close Expression c s) as [c' s1| | |] eqn:Hc; try discriminate.
    intros [= _ <-]. exact (IH _ _ _ _ Hc).
  - destruct child as [c|]; [|discriminate]. rewrite bind_eq.
    destruct (close Expression c s) as [c' s1| | |] eqn:Hc; try discriminate.
    intros [= _ <-]. exact (IH _ _ _ _ Hc).
Qed.

(** [execute_select] on a plan with a limit on top. *)
Lemma execute_select_limit fuel child limit offset s r s' :
  execute_select Expression std_sort fuel
    (mkPlanNode Expression LIMIT (LimitNode Expression _ (Some child) limit offset)) s
  = Val r s' ->
  success r = true /\
  (0 <= limit -> Z.of_nat (List.length (rows r)) <= limit) /\
  (forall c, build_operator Expression (catalog_ s) child = Some c ->
     limit_free Expression c = true ->
     0 <= returned s < 2^64 - 1 -> row_cap s < 2^64 ->
     row_cap s' = row_cap s /\
     returned s' = returned s + Z.of_nat (List.length (rows r)) /\
     (rows r <> [] -> returned s' < row_cap s)).
Proof.
  unfold execute_select. rewrite bind_eq. cbn [get build_operator].
  destruct (build_operator Expression (catalog_ s) child) as [c|] eqn:Hb.
  2:{ cbn [open]. discriminate. }
  cbn [open]. rewrite !bind_eq.
  destruct (open Expression fuel c s) as [c1 s1| | |] eqn:Ho; try discriminate.
  destruct (open_counters _ _ _ _ _ Ho) as (O1 & O2 & O3).
  cbn [mret M_ret]. rewrite bind_eq.
  destruct (op_column_names Expression
              (LimitOperator Expression (Some c1) limit offset 0 0) s1)
    as [names s2| | |] eqn:Hnames; try discriminate.
  apply op_column_names_state in Hnames. subst s2. rewrite bind_eq.
  destruct (pull Expression std_sort fuel
              (LimitOperator Expression (Some c1) limit offset 0 0) [] s1)
    as [[rs op2] s2| | |] eqn:Hp; try discriminate.
  destruct (pull_limit _ _ _ _ _ _ _ _ _ _ _ _ _ Hp) as (new & -> & Hbound & Hcount).
  rewrite bind_eq.
  destruct (close Expression op2 s2) as [op3 s3| | |] eqn:Hc; try discriminate.
  apply close_state in Hc. subst s3.
  intros [= <- <-]. cbn [success rows app].
  split; [reflexivity|]. split; [intros H; specialize (Hbound H); lia|].
  intros c0 [= <-] Hlf Hrange Hcap.
  destruct Hcount as (H1 & H2 & H3); [auto|lia|lia|].
  split; [congruence|]. split; [lia|]. intros Hne.
  rewrite <- O2. apply H3. exact Hne.
Qed.

(** X4: a plan with a limit of [limit >= 0] rows on top never returns more
    than [limit] rows. *)
Theorem limit_plan_returns_at_most_limit fuel child limit offset e r e' :
  0 <= limit ->
  execute Expression std_sort fuel
    (mkPlanNode Expression LIMIT
       (LimitNode Expression _ (Some child) limit offset)) e
  = Val r e' ->
  Z.of_nat (List.length (rows r)) <= limit.
Proof.
  intros Hl Hx.
  destruct (execute_cases Expression std_sort fuel
              (mkPlanNode Expression LIMIT
                 (LimitNode Expression _ (Some child) limit offset)) e)
    as (e0 & _ & _ & _ & _ & _ & H).
  cbn [dispatch] in H.
  match type of H with match ?d with _ => _ end =>
    destruct d as [r0 e1|what e1| |] eqn:Hd end.
  - destruct H as (e2 & H & _). rewrite Hx in H. injection H as -> _.
    cbn [rows].
    destruct (execute_select_limit _ _ _ _ _ _ _ Hd) as (_ & Hb & _). auto.
  - destruct H as (e2 & H & _). rewrite Hx in H. injection H as -> _.
    cbn [rows List.length]. lia.
  - rewrite Hx in H. discriminate.
  - rewrite Hx in H. discriminate.
Qed.

(** X5: a plan with a limit on top of scans, filters and sorts, run in a
    context that has returned no row yet, returns fewer rows than
    [max_result_rows]; when it succeeds the statistics count exactly the
    rows of the result. *)
Theorem limit_plan_stays_below_row_cap fuel child limit offset c e r e' :
  build_operator Expression (catalog_ e) child = Some c ->
  limit_free Expression c = true ->
  returned e = 0 -> row_cap e < 2^64 ->
  execute Expression std_sort fuel
    (mkPlanNode Expression LIMIT
       (LimitNode Expression _ (Some child) limit offset)) e
  = Val r e' ->
  (rows r <> [] -> Z.of_nat (List.length (rows r)) < row_cap e) /\
  (success r = true ->
   Context.rows_returned (stats r) = Z.of_nat (List.length (rows r))).
Proof.
  intros Hb Hlf Hret Hcap Hx.
  destruct (execute_cases Expression std_sort fuel
              (mkPlanNode Expression LIMIT
                 (LimitNode Expression _ (Some child) limit offset)) e)
    as (e0 & _ & E1 & _ & E3 & E4 & H).
  cbn [dispatch] in H.
  match type of H with match ?d with _ => _ end =>
    destruct d as [r0 e1|what e1| |] eqn:Hd end.
  - destruct H as (e2 & H & _ & _ & F3). rewrite Hx in H.
    injection H as -> ->. cbn [rows success stats].
    destruct (execute_select_limit _ _ _ _ _ _ _ Hd) as (_ & _ & Hc).
    rewrite E1 in Hc.
    destruct (Hc c Hb Hlf) as (C1 & C2 & C3); [lia|lia|].
    split.
    + intros Hne. specialize (C3 Hne). lia.
    + intros _. unfold returned in *. lia.
  - destruct H as (e2 & H & _). rewrite Hx in H. injection H as -> _.
    cbn [rows success]. split; [intros Hne; contradiction|discriminate].
  - rewrite Hx in H. discriminate.
  - rewrite Hx in H. discriminate.
Qed.

End LimitPlans.

Lemma limit_plan_returns_at_most_limit_witness :
  0 <= 1 /\
  Executor.execute unit Sample.insertion_sort 20 (Example.limit_plan 1)
    (Sample.engine 10)
  = Val (default Executor.default_result
           (fst (Example.run 20 (Example.limit_plan 1) (Sample.engine 10))))
        (snd (Example.run 20 (Example.limit_plan 1) (Sample.engine 10))) /\
  Z.of_nat (List.length
    (Executor.rows
       (default Executor.default_result
          (fst (Example.run 20 (Example.limit_plan 1) (Sample.engine 10))))))
  <= 1.
Proof.
  assert (H0 : 0 <= 1) by lia.
  assert (H : Executor.execute unit Sample.insertion_sort 20
                (Example.limit_plan 1) (Sample.engine 10)
              = Val (default Executor.default_result
                       (fst (Example.run 20 (Example.limit_plan 1)
                               (Sample.engine 10))))
                    (snd (Example.run 20 (Example.limit_plan 1)
                            (Sample.engine 10))))
    by (vm_compute; reflexivity).
  split; [exact H0|]. split; [exact H|].
  exact (limit_plan_returns_at_most_limit unit Sample.insertion_sort 20
           (Sample.scan_plan unit) 1 0 _ _ _ H0 H).
Defined.

Lemma limit_plan_stays_below_row_cap_witness :
  Executor.build_operator unit (Executor.catalog_ (Sample.engine 10))
    (Sample.scan_plan unit)
  = Some (Executor.TableScanOperator unit 1 "t"
            (Catalog.get_table_by_id 1 Sample.catalog_t) 0 0 None) /\
  ExecutorSpec.returned (Sample.engine 10) = 0 /\
  ExecutorSpec.row_cap (Sample.engine 10) < 2^64 /\
  Context.rows_returned
    (Executor.stats
       (default Executor.default_result
          (fst (Example.run 20 (Example.limit_plan 1) (Sample.engine 10)))))
  = Z.of_nat (List.length
      (Executor.rows
         (default Executor.default_result
            (fst (Example.run 20 (Example.limit_plan 1) (Sample.engine 10)))))).
Proof.
  assert (H1 : Executor.build_operator unit
                 (Executor.catalog_ (Sample.engine 10)) (Sample.scan_plan unit)
               = Some (Executor.TableScanOperator unit 1 "t"
                         (Catalog.get_table_by_id 1 Sample.catalog_t) 0 0 None))
    by reflexivity.
  assert (H2 : ExecutorSpec.returned (Sample.engine 10) = 0) by reflexivity.
  assert (H3 : ExecutorSpec.row_cap (Sample.engine 10) < 2^64)
    by (vm_compute; reflexivity).
  assert (H : Executor.execute unit Sample.insertion_sort 20
                (Example.limit_plan 1) (Sample.engine 10)
              = Val (default Executor.default_result
                       (fst (Example.run 20 (Example.limit_plan 1)
                               (Sample.engine 10))))
                    (snd (Example.run 20 (Example.limit_plan 1)
                            (Sample.engine 10))))
    by (vm_compute; reflexivity).
  split; [exact H1|]. split; [exact H2|]. split; [exact H3|].
  apply (proj2 (limit_plan_stays_below_row_cap unit Sample.insertion_sort 20
                  (Sample.scan_plan unit) 1 0 _ _ _ _ H1 eq_refl H2 H3 H)).
  vm_compute. reflexivity.
Defined.

(** ** Executor: data definition *)

Section DataDefinition.
Context (Expression : Type).
Context (std_sort : (Executor.ResultRow -> Executor.ResultRow -> bool) ->
                    list Executor.ResultRow -> list Executor.ResultRow).
Import Executor ExecutorSpec.

Lemma table_exists_get_table n c :
  Catalog.table_exists n c = bool_decide (is_Some (Catalog.get_table n c)).
Proof. reflexivity. Qed.

(** X6: CREATE TABLE.  For a name that the catalog does not hold (and a
    next table id other than 0) the call succeeds and the table is found
    by its name, with the next table id, the columns numbered from 0 and
    typed by their type names (TEXT for an unknown one).  For a name that
    the catalog holds the call fails with "Table already exists: <name>",
    or succeeds without effect under IF NOT EXISTS; the catalog is
    unchanged in both cases. *)
Theorem execute_create_table_registers fuel name cols if_not_exists e :
  exists r e',
    execute Expression std_sort fuel
      (mkPlanNode Expression CREATE_TABLE
         (CreateTableNode Expression _ name cols if_not_exists)) e
    = Val r e' /\
    match Catalog.get_table name (catalog_ e) with
    | None =>
        Catalog.next_table_id_ (catalog_ e) <> 0 ->
        success r = true /\
        Catalog.get_table name (catalog_ e')
        = Some (Catalog.mkTableInfo (Catalog.next_table_id_ (catalog_ e)) name
                  (Catalog.set_indices 0 (List.map column_info_of cols)) 0) /\
        (forall other, other <> name ->
           Catalog.get_table other (catalog_ e')
           = Catalog.get_table other (catalog_ e))
    | Some _ =>
        catalog_ e' = catalog_ e /\
        if if_not_exists then success r = true
        else success r = false /\ error r = "Table already exists: " +:+ name
    end.
Proof.
  destruct (execute_cases Expression std_sort fuel
              (mkPlanNode Expression CREATE_TABLE
                 (CreateTableNode Expression _ name cols if_not_exists)) e)
    as (e0 & _ & E1 & _ & _ & _ & H).
  cbn [dispatch] in H. unfold execute_create_table in H.
  rewrite bind_eq in H. cbn [get] in H.
  rewrite table_exists_get_table, E1 in H.
  unfold Catalog.create_table in H. unfold Catalog.get_table in *.
  destruct (Catalog.tables_by_name_ (catalog_ e) !! name) as [ti|] eqn:Hn.
  - rewrite bool_decide_true in H by eauto.
    destruct if_not_exists; cbn [negb andb] in H.
    + cbn in H. destruct H as (e2 & H & _ & H2 & _).
      eexists _, e2. split; [exact H|]. cbn. split; [|reflexivity].
      rewrite H2. destruct e0; cbn in *. congruence.
    + cbn in H. destruct H as (e2 & H & _ & H2 & _).
      eexists _, e2. split; [exact H|]. cbn. split; [congruence|].
      split; reflexivity.
  - rewrite bool_decide_false in H by (intros [x Hx]; discriminate).
    rewrite andb_false_r in H.
    destruct (Catalog.next_table_id_ (catalog_ e) =? 0) eqn:Hz.
    + destruct if_not_exists; cbn in H.
      * destruct H as (e2 & H & _). eexists _, e2. split; [exact H|].
        intros Hne. zbool. contradiction.
      * cbn in H. destruct H as (e2 & H & _).
        eexists _, e2. split; [exact H|]. intros Hne. zbool. contradiction.
    + cbn in H.
      destruct H as (e2 & H & _ & H2 & _).
      eexists _, e2. split; [exact H|]. intros _. cbn.
      split; [reflexivity|]. rewrite H2. cbn.
      split; [apply lookup_insert_eq|].
      intros other Hne. apply lookup_insert_ne. congruence.
Qed.

(** X7: DROP TABLE.  For a table that the catalog holds the call succeeds,
    the name is no longer found, and an INSERT plan for it then fails with
    "Table not found: <name>".  For a name that the catalog does not hold
    the call fails with that message, or succeeds under IF EXISTS; the
    catalog is unchanged in both cases. *)
Theorem execute_drop_table_forgets fuel name if_exists e :
  exists r e',
    execute Expression std_sort fuel
      (mkPlanNode Expression DROP_TABLE
         (DropTableNode Expression _ name if_exists)) e
    = Val r e' /\
    match Catalog.get_table name (catalog_ e) with
    | Some _ =>
        success r = true /\
        Catalog.get_table name (catalog_ e') = None /\
        (forall other, other <> name ->
           Catalog.get_table other (catalog_ e')
           = Catalog.get_table other (catalog_ e)) /\
        forall fuel' tid names values,
          exists r2 e2,
            execute Expression std_sort fuel'
              (mkPlanNode Expression INSERT
                 (InsertNode Expression _ tid name names values)) e'
            = Val r2 e2 /\
            success r2 = false /\ error r2 = "Table not found: " +:+ name /\
            rows_affected r2 = 0
    | None =>
        catalog_ e' = catalog_ e /\
        if if_exists then success r = true
        else success r = false /\ error r = "Table not found: " +:+ name
    end.
Proof.
  destruct (execute_cases Expression std_sort fuel
              (mkPlanNode Expression DROP_TABLE
                 (DropTableNode Expression _ name if_exists)) e)
    as (e0 & _ & E1 & _ & _ & _ & H).
  cbn [dispatch] in H. unfold execute_drop_table in H.
  rewrite bind_eq in H. cbn [get] in H.
  rewrite table_exists_get_table, E1 in H.
  unfold Catalog.drop_table in H. unfold Catalog.get_table in *.
  destruct (Catalog.tables_by_name_ (catalog_ e) !! name) as [ti|] eqn:Hn.
  - rewrite bool_decide_true in H by eauto. cbn in H.
    destruct H as (e2 & H & _ & H2 & _).
    eexists _, e2. split; [exact H|]. cbn.
    split; [reflexivity|]. rewrite H2. cbn.
    split; [apply lookup_delete_eq|].
    split; [intros other Hne; apply lookup_delete_ne; congruence|].
    intros fuel' tid names values.
    destruct (execute_cases Expression std_sort fuel'
                (mkPlanNode Expression INSERT
                   (InsertNode Expression _ tid name names values)) e2)
      as (e3 & _ & E3 & _ & _ & _ & H3).
    cbn [dispatch] in H3. unfold execute_insert in H3.
    rewrite bind_eq in H3. cbn [get] in H3. rewrite E3, H2 in H3.
    unfold Catalog.get_table in H3. cbn in H3.
    rewrite lookup_delete_eq in H3. cbn in H3.
    destruct H3 as (e4 & H3 & _). eexists _, e4. split; [exact H3|].
    repeat split.
  - rewrite bool_decide_false in H by (intros [x Hx]; discriminate).
    destruct if_exists; cbn in H.
    + destruct H as (e2 & H & _ & H2 & _).
      eexists _, e2. split; [exact H|]. cbn. split; [|reflexivity].
      rewrite H2. destruct e0; cbn in *. congruence.
    + destruct H as (e2 & H & _ & H2 & _).
      eexists _, e2. split; [exact H|]. cbn. split; [congruence|].
      split; reflexivity.
Qed.

End DataDefinition.

(** ** Catalog *)

Section CatalogFacts.
Import Catalog CatalogSpec.

Lemma empty_consistent : consistent empty.
Proof.
  split; [cbn; lia|]. split.
  - intros n ti H. cbn in H. rewrite lookup_empty in H. discriminate.
  - intros i n H. cbn in H. rewrite lookup_empty in H. discriminate.
Qed.

Lemma create_table_consistent n cols c :
  consistent c -> next_table_id_ c < 2^32 - 1 ->
  consistent (snd (create_table n cols c)).
Proof.
  intros (Hnext & Hname & Hid) Hroom. unfold create_table.
  destruct (tables_by_name_ c !! n) as [ti0|] eqn:Hn; cbn [snd].
  - split; [exact Hnext|]. split; assumption.
  - split; [cbn; rewrite Z.mod_small by lia; lia|]. split.
    + intros n' ti. cbn. rewrite Z.mod_small by lia.
      destruct (decide (n' = n)) as [->|Hne].
      * rewrite lookup_insert_eq. intros [= <-]. cbn.
        split; [reflexivity|]. split; [lia|]. apply lookup_insert_eq.
      * rewrite lookup_insert_ne by congruence. intros H.
        destruct (Hname _ _ H) as (H1 & H2 & H3).
        split; [exact H1|]. split; [lia|].
        rewrite lookup_insert_ne by lia. exact H3.
    + intros i n'. cbn.
      destruct (decide (i = next_table_id_ c)) as [->|Hne].
      * rewrite lookup_insert_eq. intros [= <-].
        eexists. rewrite lookup_insert_eq. split; reflexivity.
      * rewrite lookup_insert_ne by congruence. intros H.
        destruct (Hid _ _ H) as (ti & H1 & H2).
        exists ti. split; [|exact H2].
        rewrite lookup_insert_ne; [exact H1|]. intros ->. congruence.
Qed.

Lemma drop_table_consistent n c :
  consistent c -> consistent (snd (drop_table n c)).
Proof.
  intros (Hnext & Hname & Hid). unfold drop_table.
  destruct (tables_by_name_ c !! n) as [ti0|] eqn:Hn; cbn [snd].
  2:{ split; [exact Hnext|]. split; assumption. }
  destruct (Hname _ _ Hn) as (N1 & N2 & N3).
  split; [exact Hnext|]. split.
  - intros n' ti. cbn.
    destruct (decide (n' = n)) as [->|Hne].
    + rewrite lookup_delete_eq. discriminate.
    + rewrite lookup_delete_ne by congruence. intros H.
      destruct (Hname _ _ H) as (H1 & H2 & H3).
      split; [exact H1|]. split; [exact H2|].
      rewrite lookup_delete_ne; [exact H3|]. intros Heq.
      rewrite <- Heq in H3. congruence.
  - intros i n'. cbn.
    destruct (decide (i = id ti0)) as [->|Hne].
    + rewrite lookup_delete_eq. discriminate.
    + rewrite lookup_delete_ne by congruence. intros H.
      destruct (Hid _ _ H) as (ti & H1 & H2).
      exists ti. split; [|exact H2].
      rewrite lookup_delete_ne; [exact H1|]. intros ->. congruence.
Qed.

Lemma reachable_consistent c : reachable c -> consistent c.
Proof.
  induction 1 as [|c n cols _ IH Hroom|c n _ IH].
  - apply empty_consistent.
  - apply create_table_consistent; assumption.
  - apply drop_table_consistent; assumption.
Qed.

(** X8: in a catalog built by [create_table] and [drop_table] the two
    lookups agree: a table found by name is found by its id, a table found
    by an id has that id and is found by its name, every table is stored
    under its own name with an id that is not 0, and two names never share
    an id. *)
Theorem catalog_lookups_agree c :
  reachable c ->
  (forall n ti, get_table n c = Some ti ->
     name ti = n /\ id ti <> 0 /\ get_table_by_id (id ti) c = Some ti) /\
  (forall i ti, get_table_by_id i c = Some ti ->
     id ti = i /\ get_table (name ti) c = Some ti) /\
  (forall n1 n2 t1 t2, get_table n1 c = Some t1 -> get_table n2 c = Some t2 ->
     id t1 = id t2 -> n1 = n2).
Proof.
  intros Hr. destruct (reachable_consistent c Hr) as (Hnext & Hname & Hid).
  unfold get_table, get_table_by_id. splits.
  - intros n ti H. destruct (Hname _ _ H) as (H1 & H2 & H3).
    split; [exact H1|]. split; [lia|]. rewrite H3. exact H.
  - intros i ti H. destruct (tables_by_id_ c !! i) as [n|] eqn:Hi; [|discriminate].
    destruct (Hid _ _ Hi) as (ti' & H1 & H2).
    assert (ti' = ti) by congruence. subst ti'.
    destruct (Hname _ _ H) as (H3 & _). split; [exact H2|]. rewrite H3. exact H.
  - intros n1 n2 t1 t2 H1 H2 Heq.
    destruct (Hname _ _ H1) as (_ & _ & A). destruct (Hname _ _ H2) as (_ & _ & B).
    rewrite Heq in A. congruence.
Qed.

Lemma catalog_lookups_agree_witness :
  reachable Sample.catalog_t /\
  (forall n ti, get_table n Sample.catalog_t = Some ti ->
     name ti = n /\ id ti <> 0 /\
     get_table_by_id (id ti) Sample.catalog_t = Some ti).
Proof.
  assert (H : reachable Sample.catalog_t).
  { unfold Sample.catalog_t. apply reach_create_table; [apply reach_empty|].
    cbn. lia. }
  split; [exact H|]. exact (proj1 (catalog_lookups_agree _ H)).
Defined.

(** X9: [create_table] with a new name returns the next table id, which is
    not 0; the new entry, with its columns numbered from 0 and no rows, is
    then found by the name and by the id, and every other lookup answers
    as before.  With a name that the catalog holds the call returns 0 and
    changes nothing. *)
Theorem create_table_then_lookup n cols c :
  reachable c -> next_table_id_ c < 2^32 - 1 ->
  match get_table n c with
  | None =>
      let entry := mkTableInfo (next_table_id_ c) n (set_indices 0 cols) 0 in
      fst (create_table n cols c) = next_table_id_ c /\
      next_table_id_ c <> 0 /\
      get_table n (snd (create_table n cols c)) = Some entry /\
      get_table_by_id (next_table_id_ c) (snd (create_table n cols c))
      = Some entry /\
      (forall n', n' <> n ->
         get_table n' (snd (create_table n cols c)) = get_table n' c) /\
      (forall i, i <> next_table_id_ c ->
         get_table_by_id i (snd (create_table n cols c)) = get_table_by_id i c)
  | Some _ => create_table n cols c = (0, c)
  end.
Proof.
  intros Hr Hroom. destruct (reachable_consistent c Hr) as (Hnext & Hname & Hid).
  unfold get_table, get_table_by_id, create_table.
  destruct (tables_by_name_ c !! n) as [ti0|] eqn:Hn; [reflexivity|].
  cbn. splits.
  - reflexivity.
  - lia.
  - apply lookup_insert_eq.
  - rewrite !lookup_insert_eq. reflexivity.
  - intros n' Hne. apply lookup_insert_ne. congruence.
  - intros i Hne. rewrite lookup_insert_ne by congruence.
    destruct (tables_by_id_ c !! i) as [n'|] eqn:Hi; [|reflexivity].
    apply lookup_insert_ne. intros ->.
    destruct (Hid _ _ Hi) as (ti & H1 & _). congruence.
Qed.

Lemma create_table_then_lookup_witness :
  reachable empty /\ next_table_id_ empty < 2^32 - 1 /\
  fst (create_table "t" [mkColumnInfo "id" INTEGER false false 7] empty) = 1 /\
  get_table_by_id 1
    (snd (create_table "t" [mkColumnInfo "id" INTEGER false false 7] empty))
  = Some (mkTableInfo 1 "t" [mkColumnInfo "id" INTEGER false false 0] 0).
Proof.
  assert (H1 : reachable empty) by apply reach_empty.
  assert (H2 : next_table_id_ empty < 2^32 - 1) by (cbn; lia).
  split; [exact H1|]. split; [exact H2|].
  pose proof (create_table_then_lookup "t"
                [mkColumnInfo "id" INTEGER false false 7] empty H1 H2) as H.
  cbn in H. destruct H as (A & _ & _ & B & _). split; [exact A|exact B].
Defined.

(** X10: [drop_table] of a table that the catalog holds returns [true];
    the table is then found neither by its name nor by its id, and every
    other lookup answers as before.  For a name that the catalog does not
    hold it returns [false] and changes nothing. *)
Theorem drop_table_then_lookup n c :
  reachable c ->
  match get_table n c with
  | Some ti =>
      fst (drop_table n c) = true /\
      get_table n (snd (drop_table n c)) = None /\
      get_table_by_id (id ti) (snd (drop_table n c)) = None /\
      (forall n', n' <> n ->
         get_table n' (snd (drop_table n c)) = get_table n' c) /\
      (forall i, i <> id ti ->
         get_table_by_id i (snd (drop_table n c)) = get_table_by_id i c)
  | None => drop_table n c = (false, c)
  end.
Proof.
  intros Hr. destruct (reachable_consistent c Hr) as (Hnext & Hname & Hid).
  unfold get_table, get_table_by_id, drop_table.
  destruct (tables_by_name_ c !! n) as [ti0|] eqn:Hn; [|reflexivity].
  destruct (Hname _ _ Hn) as (N1 & N2 & N3).
  cbn. splits.
  - reflexivity.
  - apply lookup_delete_eq.
  - rewrite lookup_delete_eq. reflexivity.
  - intros n' Hne. apply lookup_delete_ne. congruence.
  - intros i Hne. rewrite lookup_delete_ne by congruence.
    destruct (tables_by_id_ c !! i) as [n'|] eqn:Hi; [|reflexivity].
    apply lookup_delete_ne. intros ->.
    destruct (Hid _ _ Hi) as (ti & H1 & H2). congruence.
Qed.

Lemma drop_table_then_lookup_witness :
  reachable Sample.catalog_t /\
  fst (drop_table "t" Sample.catalog_t) = true /\
  get_table "t" (snd (drop_table "t" Sample.catalog_t)) = None /\
  get_table_by_id 1 (snd (drop_table "t" Sample.catalog_t)) = None.
Proof.
  assert (H : reachable Sample.catalog_t).
  { unfold Sample.catalog_t. apply reach_create_table; [apply reach_empty|].
    cbn. lia. }
  split; [exact H|].
  pose proof (drop_table_then_lookup "t" Sample.catalog_t H) as D.
  cbn in D. destruct D as (A & B & C & _). auto.
Defined.

End CatalogFacts.

(** ** Transactions: commit and exclusion *)

Section TransactionFacts.
Import Transaction.

Lemma u64_succ_pred a : 0 <= a < 2^64 -> u64 (u64 (a + 1) - 1) = a.
Proof.
  intros H. unfold u64.
  destruct (Z.eq_dec a (2^64 - 1)) as [->|Hne].
  - reflexivity.
  - rewrite (Z.mod_small (a + 1)) by lia.
    replace (a + 1 - 1) with a by lia. apply Z.mod_small. lia.
Qed.

(** X11: a transaction begun by [begin_read], [begin_write] or
    [try_begin_write] and committed through its guard is COMMITTED, the
    lock and the count of active transactions are as they were before it
    began, and dropping the guard afterwards changes nothing: the lock is
    released once. *)
Theorem guard_commit_releases_once now tm t tm1 :
  0 <= active_count_ tm < 2^64 ->
  begin_read now tm = (Some t, tm1) \/
  begin_write now tm = (Some t, tm1) \/
  try_begin_write now tm = (Some t, tm1) ->
  exists t' tm2,
    guard_commit (mkTransactionGuard (Some t)) tm1
    = (mkTransactionGuard (Some t'), tm2) /\
    state t' = COMMITTED /\
    lock_ tm2 = lock_ tm /\
    active_count_ tm2 = active_count_ tm /\
    drop_guard (mkTransactionGuard (Some t')) tm2 = (Some t', tm2).
Proof.
  intros Hac.
  unfold begin_read, begin_write, try_begin_write, start_transaction.
  intros [H | [H | H]].
  - destruct (lock_read (lock_ tm)) as [[|] l] eqn:Hl; [|discriminate].
    injection H as <- <-. eexists _, _. split; [reflexivity|]. cbn.
    rewrite (lock_read_unlock _ _ Hl). repeat split.
    apply u64_succ_pred. exact Hac.
  - destruct (lock_write (lock_ tm)) as [[|] l] eqn:Hl; [|discriminate].
    injection H as <- <-. eexists _, _. split; [reflexivity|]. cbn.
    rewrite (lock_write_unlock _ _ Hl). repeat split.
    apply u64_succ_pred. exact Hac.
  - destruct (try_lock_write (lock_ tm)) as [[|] l] eqn:Hl; [|discriminate].
    injection H as <- <-. eexists _, _. split; [reflexivity|]. cbn.
    rewrite (try_lock_write_unlock _ _ Hl). repeat split.
    apply u64_succ_pred. exact Hac.
Qed.

Lemma guard_commit_releases_once_witness :
  0 <= active_count_ instance < 2^64 /\
  exists t' tm2,
    guard_commit (mkTransactionGuard (Some (new_transaction 1 false 5)))
      (mkTransactionManager (mkRWLock 0 true 0) 2 1)
    = (mkTransactionGuard (Some t'), tm2) /\
    state t' = COMMITTED /\ lock_ tm2 = lock_ instance /\
    active_count_ tm2 = active_count_ instance /\
    drop_guard (mkTransactionGuard (Some t')) tm2 = (Some t', tm2).
Proof.
  assert (H0 : 0 <= active_count_ instance < 2^64) by (cbn; lia).
  assert (H1 : begin_read 5 instance
               = (Some (new_transaction 1 false 5),
                  mkTransactionManager (mkRWLock 0 true 0) 2 1) \/
               begin_write 5 instance
               = (Some (new_transaction 1 false 5),
                  mkTransactionManager (mkRWLock 0 true 0) 2 1) \/
               try_begin_write 5 instance
               = (Some (new_transaction 1 false 5),
                  mkTransactionManager (mkRWLock 0 true 0) 2 1))
    by (right; left; reflexivity).
  split; [exact H0|].
  exact (guard_commit_releases_once 5 instance _ _ H0 H1).
Defined.

(** X12: while a write transaction is active no transaction can begin:
    [begin_read] waits, [try_begin_write] returns no handle, and
    [begin_write] waits and is counted as a waiting writer.  While a read
    transaction is active and no writer waits, further read transactions
    begin and [try_begin_write] returns no handle; [begin_write] waits and
    is counted as a waiting writer, and from then on [begin_read] waits as
    well.  Once the reader has committed, the waiting writer takes the
    lock and its transaction begins. *)
Theorem active_transaction_excludes now now' tm t tm1 :
  0 <= readers_ (lock_ tm) ->
  (begin_write now tm = (Some t, tm1) \/
   try_begin_write now tm = (Some t, tm1) ->
   begin_read now' tm1 = (None, tm1) /\
   try_begin_write now' tm1 = (None, tm1) /\
   exists tm2,
     begin_write now' tm1 = (None, tm2) /\
     waiting_writers_ (lock_ tm2) = waiting_writers_ (lock_ tm1) + 1 /\
     begin_read now' tm2 = (None, tm2)) /\
  (begin_read now tm = (Some t, tm1) ->
   waiting_writers_ (lock_ tm1) = 0 /\
   (exists t2 tm2, begin_read now' tm1 = (Some t2, tm2)) /\
   try_begin_write now' tm1 = (None, tm1) /\
   exists tm2,
     begin_write now' tm1 = (None, tm2) /\
     waiting_writers_ (lock_ tm2) = 1 /\
     begin_read now' tm2 = (None, tm2) /\
     try_begin_write now' tm2 = (None, tm2) /\
     (readers_ (lock_ tm) = 0 ->
      exists t3 tm3,
        resume_begin_write now' (snd (commit t tm2)) = Some (t3, tm3) /\
        is_read_only t3 = false /\ state t3 = ACTIVE /\
        lock_ tm3 = mkRWLock 0 true 0)).
Proof.
  intros Hr.
  unfold begin_read, begin_write, try_begin_write, resume_begin_write, commit,
    end_transaction, start_transaction, waiting_in,
    lock_read, lock_write, leave_write_wait, try_lock_write, unlock_read,
    unlock_write.
  destruct tm as [[r w ww] nid ac].
  cbn [lock_ readers_ writer_ waiting_writers_] in *.
  split.
  - intros [H|H].
    + destruct (r =? 0) eqn:E; destruct w; cbn in H; try discriminate.
      injection H as <- <-. cbn. rewrite E. cbn.
      destruct (r >? 0); (split; [reflexivity|]); (split; [reflexivity|]);
        eexists; repeat split.
    + destruct (r >? 0) eqn:E; destruct w; cbn in H; try discriminate.
      injection H as <- <-. cbn. rewrite E. cbn.
      destruct (r =? 0); (split; [reflexivity|]); (split; [reflexivity|]);
        eexists; repeat split.
  - intros H.
    destruct w; destruct (ww =? 0) eqn:E; cbn in H; try discriminate.
    injection H as <- <-. zbool. subst ww. cbn.
    destruct (r + 1 =? 0) eqn:E1; [zbool; lia|].
    destruct (r + 1 >? 0) eqn:E2; [|zbool; lia].
    cbn.
    split; [reflexivity|]. split; [eauto|]. split; [reflexivity|].
    eexists. split; [reflexivity|]. cbn. rewrite E2. cbn.
    split; [reflexivity|]. split; [reflexivity|]. split; [reflexivity|].
    intros ->. cbn. eexists _, _. split; [reflexivity|]. repeat split.
Qed.

Lemma active_transaction_excludes_witness :
  0 <= readers_ (lock_ instance) /\
  begin_read 5 instance
  = (Some (new_transaction 1 true 5),
     mkTransactionManager (mkRWLock 1 false 0) 2 1) /\
  begin_write 9 (mkTransactionManager (mkRWLock 1 false 0) 2 1)
  = (None, mkTransactionManager (mkRWLock 1 false 1) 2 1) /\
  begin_read 9 (mkTransactionManager (mkRWLock 1 false 1) 2 1)
  = (None, mkTransactionManager (mkRWLock 1 false 1) 2 1).
Proof.
  assert (H0 : 0 <= readers_ (lock_ instance)) by (cbn; lia).
  assert (H1 : begin_read 5 instance
               = (Some (new_transaction 1 true 5),
                  mkTransactionManager (mkRWLock 1 false 0) 2 1))
    by reflexivity.
  split; [exact H0|]. split; [exact H1|].
  destruct (active_transaction_excludes 5 9 instance
              (new_transaction 1 true 5)
              (mkTransactionManager (mkRWLock 1 false 0) 2 1) H0) as [_ Hrd].
  destruct (Hrd H1) as (_ & _ & _ & tm2 & Hw & _ & Hb & _).
  assert (Hc : begin_write 9 (mkTransactionManager (mkRWLock 1 false 0) 2 1)
               = (None, mkTransactionManager (mkRWLock 1 false 1) 2 1))
    by reflexivity.
  assert (E : tm2 = mkTransactionManager (mkRWLock 1 false 1) 2 1)
    by (rewrite Hc in Hw; injection Hw as <-; reflexivity).
  rewrite E in Hw, Hb. split; [exact Hw|exact Hb].
Defined.

End TransactionFacts.

(** ** Arena *)

Section ArenaFacts.
Import Arena ArenaSpec.

(** The mask [~(2^k - 1)] of [align_up] clears the low [k] bits. *)
Lemma land_mask x k :
  0 <= k <= 64 -> 0 <= x < 2^64 ->
  Z.land x (2^64 - 1 - size_t (2^k - 1)) = 2^k * (x / 2^k).
Proof.
  intros Hk Hx. unfold size_t.
  assert (Hp : 0 < 2^k) by (apply Z.pow_pos_nonneg; lia).
  assert (Hle : 2^k <= 2^64) by (apply Z.pow_le_mono_r; lia).
  rewrite (Z.mod_small (2^k - 1)) by lia.
  replace (2^64 - 1 - (2^k - 1)) with (Z.shiftl (Z.ones (64 - k)) k).
  2:{ rewrite Z.shiftl_mul_pow2, Z.ones_equiv by lia.
      rewrite <- Z.sub_1_r, Z.mul_sub_distr_r, <- Z.pow_add_r by lia.
      replace (64 - k + k) with 64 by lia. lia. }
  replace (2^k * (x / 2^k)) with (Z.shiftl (Z.shiftr x k) k)
    by (rewrite Z.shiftl_mul_pow2, Z.shiftr_div_pow2 by lia; lia).
  apply Z.bits_inj'. intros n Hn.
  rewrite Z.land_spec, !Z.shiftl_spec by lia.
  destruct (Z_lt_le_dec n k) as [Hlt|Hge].
  - rewrite !(Z.testbit_neg_r _ (n - k)) by lia. apply andb_false_r.
  - rewrite Z.shiftr_spec by lia. replace (n - k + k) with n by lia.
    destruct (Z_lt_le_dec n 64) as [H64|H64].
    + rewrite Z.ones_spec_low by lia. apply andb_true_r.
    + rewrite Z.ones_spec_high by lia. rewrite andb_false_r.
      symmetry. apply Z.bits_above_log2; [lia|].
      destruct (Z.eq_dec x 0) as [->|Hx0]; [cbn; lia|].
      apply Z.log2_lt_pow2; [lia|].
      apply Z.lt_le_trans with (2^64); [lia|]. apply Z.pow_le_mono_r; lia.
Qed.

(** For a power of two, [align_up] is the least multiple of the alignment
    that is not below the value. *)
Lemma align_up_pow2 v k :
  0 <= k <= 62 -> 0 <= v -> v + 2^k <= 2^64 ->
  v <= align_up v (2^k) < v + 2^k /\ align_up v (2^k) mod 2^k = 0.
Proof.
  intros Hk Hv Hsum.
  assert (Hp : 0 < 2^k) by (apply Z.pow_pos_nonneg; lia).
  assert (Heq : align_up v (2^k) = 2^k * ((v + 2^k - 1) / 2^k)).
  { unfold align_up. unfold size_t at 1.
    rewrite (Z.mod_small (v + 2^k - 1)) by lia. apply land_mask; lia. }
  rewrite Heq.
  pose proof (Z.div_mod (v + 2^k - 1) (2^k) ltac:(lia)) as Hdm.
  pose proof (Z.mod_pos_bound (v + 2^k - 1) (2^k) Hp) as Hb.
  split; [lia|].
  rewrite Z.mul_comm. apply Z.mod_mul. lia.
Qed.

Lemma align_up_zero k : 0 <= k <= 62 -> align_up 0 (2^k) = 0.
Proof.
  intros Hk.
  assert (Hp : 0 < 2^k) by (apply Z.pow_pos_nonneg; lia).
  assert (Hle : 2^k <= 2^62) by (apply Z.pow_le_mono_r; lia).
  destruct (align_up_pow2 0 k Hk ltac:(lia) ltac:(lia)) as [Hb Hm].
  apply Z.mod_divide in Hm; [|lia]. destruct Hm as [q Hq].
  assert (q = 0) by nia. subst q. lia.
Qed.

(** The loop of [allocate] stops at the first block with room. *)
Lemma first_fit_found rest : forall idx sz k i off,
  Forall block_ok rest -> 0 < sz < 2^61 -> 0 <= k <= 61 ->
  first_fit rest idx sz (2^k) = (i, Some off) ->
  exists j b,
    i = (idx + j)%nat /\ rest !! j = Some b /\
    used b <= off /\ off + sz <= size b /\ off mod 2^k = 0.
Proof.
  induction rest as [|b rest IH]; intros idx sz k i off Hok Hsz Hk;
    cbn [first_fit]; [discriminate|].
  apply Forall_cons in Hok as [(Hu & Hs & _) Hok].
  assert (Hle : 2^k <= 2^61) by (apply Z.pow_le_mono_r; lia).
  destruct (align_up_pow2 (used b) k ltac:(lia) ltac:(lia) ltac:(lia))
    as [Hb Hm].
  unfold size_t.
  rewrite (Z.mod_small (align_up (used b) (2^k) + sz)) by lia.
  destruct (align_up (used b) (2^k) + sz <=? size b) eqn:E.
  - intros [= <- <-]. zbool. exists O, b.
    split; [lia|]. split; [reflexivity|]. repeat split; lia.
  - intros H. destruct (IH _ _ _ _ _ Hok Hsz Hk H) as (j & b' & -> & Hj & Hrest).
    exists (S j), b'. split; [lia|]. split; [exact Hj|exact Hrest].
Qed.

Lemma first_fit_none rest : forall idx sz al i,
  first_fit rest idx sz al = (i, None) -> i = (idx + List.length rest)%nat.
Proof.
  induction rest as [|b rest IH]; intros idx sz al i; cbn [first_fit List.length].
  - intros [= <-]. lia.
  - destruct (size_t (align_up (used b) al + sz) <=? size b); [discriminate|].
    intros H. apply IH in H. lia.
Qed.

Lemma fresh_block_ok n : 0 <= n < 2^63 -> block_ok (fresh_block n).
Proof.
  intros H. unfold block_ok, fresh_block. cbn.
  split; [lia|]. split; [lia|]. apply length_replicate.
Qed.

(** An allocation from a well-formed arena, with a power of two as the
    alignment. *)
Lemma allocate_result a sz k :
  wf a -> 0 < sz < 2^61 -> 0 <= k <= 61 ->
  exists i off a' b',
    allocate 2 sz (2^k) a = Val (Some (i, off)) a' /\
    wf a' /\
    0 <= off /\ off mod 2^k = 0 /\
    blocks_ a' !! i = Some b' /\
    used b' = off + sz /\ off + sz <= size b' /\
    match blocks_ a !! i with
    | Some b => used b <= off /\ data b' = data b /\ size b' = size b
    | None => i = List.length (blocks_ a) /\ off = 0
    end /\
    (forall j, j <> i -> blocks_ a' !! j = blocks_ a !! j) /\
    bytes_allocated_ a' = size_t (bytes_allocated_ a + sz) /\
    block_size_ a' = block_size_ a.
Proof.
  intros (Hok & Hbs & Hcur) Hsz Hk.
  assert (Hp : 0 < 2^k) by (apply Z.pow_pos_nonneg; lia).
  assert (Hle : 2^k <= 2^61) by (apply Z.pow_le_mono_r; lia).
  destruct (align_up_pow2 sz k ltac:(lia) ltac:(lia) ltac:(lia)) as [Hasz _].
  pose proof (align_up_zero k ltac:(lia)) as Hz.
  cbn [allocate]. destruct (sz =? 0) eqn:E0; [zbool; lia|].
  destruct (first_fit (drop (current_block_ a) (blocks_ a)) (current_block_ a)
              sz (2^k)) as [i [off|]] eqn:Hff.
  - destruct (first_fit_found _ _ _ _ _ _
                (Forall_drop _ _ _ Hok) Hsz Hk Hff)
      as (j & b & -> & Hj & Hu & Hfit & Hmod).
    rewrite lookup_drop in Hj.
    assert (Hbok : block_ok b) by (eapply Forall_lookup_1; eauto).
    destruct Hbok as (Hb1 & Hb2 & Hb3).
    eexists _, off, _, (set_used (off + sz) b).
    unfold size_t at 1. rewrite (Z.mod_small (off + sz)) by lia.
    split; [reflexivity|]. unfold wf.
    cbn [blocks_ bytes_allocated_ block_size_ current_block_].
    assert (Hlt : (current_block_ a + j < List.length (blocks_ a))%nat)
      by (apply lookup_lt_Some in Hj; exact Hj).
    splits; try lia; try reflexivity; try exact Hmod.
    + apply Forall_alter; [exact Hok|].
      intros b0 Hb0. rewrite Hj in Hb0. injection Hb0 as <-.
      intros _. unfold block_ok, set_used. cbn. repeat split; try lia;
        exact Hb3.
    + rewrite length_alter. lia.
    + rewrite list_lookup_alter_eq, Hj. reflexivity.
    + cbn. lia.
    + rewrite Hj. cbn. auto.
    + intros j' Hne. apply list_lookup_alter_ne. congruence.
  - apply first_fit_none in Hff. rewrite length_drop in Hff.
    assert (Hi : i = List.length (blocks_ a)) by lia. clear Hff. subst i.
    assert (Hmin : size_t (align_up sz (2^k) + 2^k) = align_up sz (2^k) + 2^k)
      by (unfold size_t; apply Z.mod_small; lia).
    assert (Hs0 : size_t (0 + sz) = sz)
      by (unfold size_t; cbn [Z.add]; apply Z.mod_small; lia).
    rewrite !Hmin, !Hz, !Hs0.
    destruct (align_up sz (2^k) + 2^k >? block_size_ a) eqn:Ebig.
    + eexists _, 0, _, _. split; [reflexivity|].
      unfold wf. cbn [blocks_ bytes_allocated_ block_size_ current_block_].
      splits; try lia; try reflexivity.
      * apply Forall_app. split; [exact Hok|]. constructor; [|constructor].
        unfold block_ok, set_used, fresh_block. cbn.
        repeat split; try lia. apply length_replicate.
      * rewrite length_app. cbn. lia.
      * apply list_lookup_middle. reflexivity.
      * reflexivity.
      * cbn. lia.
      * rewrite lookup_ge_None_2 by lia. auto.
      * intros j Hne.
        destruct (decide (j < List.length (blocks_ a))%nat).
        -- apply lookup_app_l. lia.
        -- rewrite !lookup_ge_None_2; [reflexivity|lia|].
           rewrite length_app. cbn. lia.
    + zbool.
      cbn [add_block blocks_ current_block_ block_size_ bytes_allocated_ capacity_].
      rewrite drop_app_length. cbn [first_fit fresh_block used size].
      rewrite !Hz, !Hs0.
      destruct (sz <=? block_size_ a) eqn:Efit; [|zbool; lia].
      eexists _, 0, _, _. split; [reflexivity|].
      cbn [blocks_ bytes_allocated_ block_size_ current_block_].
      assert (Halter : alter (set_used sz) (List.length (blocks_ a))
                         (blocks_ a ++ [fresh_block (block_size_ a)])
                       = blocks_ a ++ [set_used sz (fresh_block (block_size_ a))]).
      { rewrite alter_app_r_alt by lia. rewrite Nat.sub_diag. reflexivity. }
      rewrite ?Hz, ?Hs0. rewrite ?Halter. unfold fresh_block in Halter.
      rewrite ?Halter. zbool. unfold wf.
      cbn [blocks_ bytes_allocated_ block_size_ current_block_].
      splits; try lia; try reflexivity.
      * apply Forall_app. split; [exact Hok|]. constructor; [|constructor].
        unfold block_ok, set_used. cbn.
        repeat split; try lia. apply length_replicate.
      * rewrite length_app. cbn. lia.
      * apply list_lookup_middle. reflexivity.
      * reflexivity.
      * cbn. lia.
      * rewrite lookup_ge_None_2 by lia. auto.
      * intros j Hne.
        destruct (decide (j < List.length (blocks_ a))%nat).
        -- apply lookup_app_l. lia.
        -- rewrite !lookup_ge_None_2; [reflexivity|lia|].
           rewrite length_app. cbn. lia.
Qed.

(** [Arena::allocate] throws nothing. *)
Lemma allocate_no_throw fuel : forall sz al a what a',
  allocate fuel sz al a <> Throw what a'.
Proof.
  induction fuel as [|f IH]; intros sz al a what a'; cbn [allocate];
    destruct (sz =? 0); try discriminate.
  destruct (first_fit _ _ _ _) as [idx [off|]]; [discriminate|].
  destruct (_ >? _); [discriminate|]. apply IH.
Qed.

Lemma new_wf n : 0 <= n < 2^63 -> wf (new n).
Proof.
  intros H. unfold wf, new, add_block. cbn.
  split; [constructor; [apply fresh_block_ok; exact H|constructor]|].
  split; [exact H|lia].
Qed.

(** X13: an allocation of [sz] bytes (0 < sz < 2^61) from a well-formed
    arena, aligned to a power of two, returns a pointer into a block at an
    offset that is a multiple of the alignment; the [sz] bytes from there
    lie inside the block and above everything the block had in use, so
    they overlap no earlier allocation; the other blocks are untouched,
    [bytes_allocated] grows by [sz] and the arena stays well-formed. *)
Theorem arena_allocate_fresh_aligned a sz k :
  wf a -> 0 < sz < 2^61 -> 0 <= k <= 61 ->
  exists i off a' b',
    allocate 2 sz (2^k) a = Val (Some (i, off)) a' /\
    wf a' /\
    0 <= off /\ off mod 2^k = 0 /\
    blocks_ a' !! i = Some b' /\
    used b' = off + sz /\ off + sz <= size b' /\
    match blocks_ a !! i with
    | Some b => used b <= off /\ data b' = data b /\ size b' = size b
    | None => i = List.length (blocks_ a) /\ off = 0
    end /\
    (forall j, j <> i -> blocks_ a' !! j = blocks_ a !! j) /\
    bytes_allocated_ a' = size_t (bytes_allocated_ a + sz) /\
    block_size_ a' = block_size_ a.
Proof. apply allocate_result. Qed.

Lemma arena_allocate_fresh_aligned_witness :
  wf (new 64) /\ 0 < 10 < 2^61 /\ 0 <= 3 <= 61 /\
  exists i off a' b',
    allocate 2 10 (2^3) (snd (Example.after (allocate 2 5 (2^3)) (new 64)))
    = Val (Some (i, off)) a' /\
    off mod 2^3 = 0 /\ blocks_ a' !! i = Some b' /\ used b' = off + 10.
Proof.
  assert (H0 : wf (new 64)) by (apply new_wf; lia).
  assert (H1 : wf (snd (Example.after (allocate 2 5 (2^3)) (new 64)))).
  { replace (snd (Example.after (allocate 2 5 (2^3)) (new 64)))
      with (mkArena 64 [mkBlock (Mem.zeros 64) 64 5] 0 5 64)
      by (vm_compute; reflexivity).
    split; [|split; cbn; lia].
    cbn. constructor; [|constructor]. unfold block_ok. cbn.
    split; [lia|]. split; [lia|]. reflexivity. }
  split; [exact H0|]. split; [lia|]. split; [lia|].
  destruct (arena_allocate_fresh_aligned _ 10 3 H1 ltac:(lia) ltac:(lia))
    as (i & off & a' & b' & Ha & _ & _ & Hm & Hb & Hu & _).
  exists i, off, a', b'. auto.
Defined.

(** X14: [reset] keeps the blocks and their bytes, the capacity and the
    number of blocks, and sets [bytes_allocated] to 0; the next allocation
    that fits the first block is served from its start, with the bytes
    that the block held before the reset. *)
Theorem arena_reset_reuses_blocks a sz k b0 :
  wf a -> blocks_ a !! O = Some b0 ->
  0 < sz <= size b0 -> sz < 2^61 -> 0 <= k <= 61 ->
  wf (reset a) /\
  bytes_allocated (reset a) = 0 /\ capacity (reset a) = capacity a /\
  block_count (reset a) = block_count a /\
  exists a' b',
    allocate 1 sz (2^k) (reset a) = Val (Some (O, 0)) a' /\
    blocks_ a' !! O = Some b' /\ data b' = data b0 /\ used b' = sz.
Proof.
  intros (Hok & Hbs & Hcur) Hb0 Hsz Hsmall Hk.
  assert (Hb0ok : block_ok b0) by (eapply Forall_lookup_1; eauto).
  destruct Hb0ok as (B1 & B2 & B3).
  pose proof (align_up_zero k ltac:(lia)) as Hz.
  assert (Hwf' : wf (reset a)).
  { split; [|split; cbn; [exact Hbs|lia]]. cbn.
    apply Forall_fmap. eapply Forall_impl; [exact Hok|].
    intros b (H1 & H2 & H3). unfold block_ok, set_used. cbn.
    repeat split; try lia; exact H3. }
  split; [exact Hwf'|]. split; [reflexivity|]. split; [reflexivity|].
  split; [unfold block_count, reset; cbn; rewrite length_map; reflexivity|].
  destruct (blocks_ a) as [|b bs] eqn:Hbl; [discriminate|].
  cbn in Hb0. injection Hb0 as ->.
  cbn [allocate]. destruct (sz =? 0) eqn:E0; [zbool; lia|].
  unfold reset. rewrite Hbl.
  cbn [blocks_ current_block_ List.map drop first_fit set_used used size].
  rewrite Hz. unfold size_t at 1. cbn [Z.add].
  rewrite (Z.mod_small sz) by lia.
  destruct (sz <=? size b0) eqn:E1; [|zbool; lia].
  eexists _, _. split; [reflexivity|]. cbn.
  split; [reflexivity|]. split; [reflexivity|].
  unfold size_t. cbn [Z.add]. apply Z.mod_small. lia.
Qed.

Lemma arena_reset_reuses_blocks_witness :
  let a := snd (Example.after (allocate 2 5 (2^3)) (new 64)) in
  wf a /\ blocks_ a !! O = Some (mkBlock (Mem.zeros 64) 64 5) /\
  0 < 10 <= 64 /\ 10 < 2^61 /\ 0 <= 3 <= 61 /\
  bytes_allocated (reset a) = 0 /\
  exists a' b',
    allocate 1 10 (2^3) (reset a) = Val (Some (O, 0)) a' /\
    blocks_ a' !! O = Some b' /\ used b' = 10.
Proof.
  intros a.
  assert (H1 : wf a).
  { replace a with (mkArena 64 [mkBlock (Mem.zeros 64) 64 5] 0 5 64)
      by (vm_compute; reflexivity).
    split; [|split; cbn; lia].
    cbn. constructor; [|constructor]. unfold block_ok. cbn.
    split; [lia|]. split; [lia|]. reflexivity. }
  assert (H2 : blocks_ a !! O = Some (mkBlock (Mem.zeros 64) 64 5))
    by reflexivity.
  split; [exact H1|]. split; [exact H2|].
  split; [lia|]. split; [lia|]. split; [lia|].
  destruct (arena_reset_reuses_blocks a 10 3 _ H1 H2 ltac:(cbn; lia)
              ltac:(lia) ltac:(lia))
    as (_ & Hb & _ & _ & a' & b' & Ha & Hl & _ & Hu).
  split; [exact Hb|]. exists a', b'. auto.
Defined.

(** X15: [allocate_zeroed] returns a pointer to [sz] zero bytes, whatever
    the block held there before. *)
Theorem arena_allocate_zeroed_is_zero a sz k :
  wf a -> 0 < sz < 2^61 -> 0 <= k <= 61 ->
  exists i off a' b',
    allocate_zeroed 2 sz (2^k) a = Val (Some (i, off)) a' /\
    blocks_ a' !! i = Some b' /\
    off + sz <= size b' /\
    Mem.peek (Z.to_nat off) (Z.to_nat sz) (data b') = Mem.zeros (Z.to_nat sz) /\
    wf a'.
Proof.
  intros Hwf Hsz Hk.
  destruct (allocate_result a sz k Hwf Hsz Hk)
    as (i & off & a1 & b1 & Ha & Hwf1 & Hoff & _ & Hb1 & Hu & Hfit & _).
  destruct Hwf1 as (Hok1 & Hbs1 & Hcur1).
  assert (Hb1ok : block_ok b1) by (eapply Forall_lookup_1; eauto).
  destruct Hb1ok as (B1 & B2 & B3).
  unfold allocate_zeroed. rewrite bind_eq, Ha. rewrite bind_eq.
  unfold zero_fill. cbn [fst snd]. rewrite Hb1.
  assert (Hzl : List.length (Mem.zeros (Z.to_nat sz)) = Z.to_nat sz)
    by apply length_replicate.
  rewrite store_in_range by (rewrite ?Hzl, ?B3; lia).
  cbn [mret M_ret].
  eexists i, off, _, _. split; [reflexivity|]. cbn [blocks_].
  split; [apply list_lookup_insert_eq; eapply lookup_lt_Some; eauto|].
  cbn [size data]. split; [exact Hfit|]. split.
  - rewrite <- Hzl at 1. apply peek_poke_same. rewrite Hzl, B3. lia.
  - split; [|split; cbn; [exact Hbs1|rewrite length_insert; exact Hcur1]].
    cbn. apply Forall_insert; [exact Hok1|].
    unfold block_ok. cbn. split; [lia|]. split; [lia|].
    rewrite poke_length by (rewrite Hzl, B3; lia). exact B3.
Qed.

Lemma arena_allocate_zeroed_is_zero_witness :
  wf (new 64) /\ 0 < 10 < 2^61 /\ 0 <= 3 <= 61 /\
  exists i off a' b',
    allocate_zeroed 2 10 (2^3) (new 64) = Val (Some (i, off)) a' /\
    blocks_ a' !! i = Some b' /\
    Mem.peek (Z.to_nat off) (Z.to_nat 10) (data b') = Mem.zeros (Z.to_nat 10).
Proof.
  assert (H0 : wf (new 64)) by (apply new_wf; lia).
  split; [exact H0|]. split; [lia|]. split; [lia|].
  destruct (arena_allocate_zeroed_is_zero _ 10 3 H0 ltac:(lia) ltac:(lia))
    as (i & off & a' & b' & Ha & Hb & _ & Hz & _).
  exists i, off, a', b'. auto.
Defined.

End ArenaFacts.

(** ** Query allocator *)

Section AllocatorFacts.
Import Context Allocator.

(** X16: [QueryAllocator::allocate] of [sz] bytes (0 < sz < 2^61) with an
    allocator that is within a limit below 2^63.  When [bytes_used + sz]
    exceeds the limit the call throws "Memory budget exceeded" and changes
    neither the allocator nor the arena; otherwise it returns a pointer,
    [bytes_used] grows by [sz] and is still within the limit. *)
Theorem allocator_enforces_limit q a sz k :
  ArenaSpec.wf a -> 0 < sz < 2^61 -> 0 <= k <= 61 ->
  0 <= bytes_used_ q <= memory_limit_ q -> memory_limit_ q < 2^63 ->
  if bytes_used_ q + sz >? memory_limit_ q
  then allocate 2 sz (2^k) (q, a) = Throw "Memory budget exceeded" (q, a)
  else exists p q' a',
         allocate 2 sz (2^k) (q, a) = Val (Some p) (q', a') /\
         bytes_used_ q' = bytes_used_ q + sz /\
         memory_limit_ q' = memory_limit_ q /\
         bytes_used_ q' <= memory_limit_ q' /\
         remaining q' = remaining q - sz /\
         ArenaSpec.wf a'.
Proof.
  intros Hwf Hsz Hk Hq Hlim.
  unfold allocate, would_exceed. cbn [fst snd].
  rewrite (Z.mod_small (bytes_used_ q + sz)) by lia.
  destruct (bytes_used_ q + sz >? memory_limit_ q) eqn:E; [reflexivity|].
  zbool.
  destruct (allocate_result a sz k Hwf Hsz Hk)
    as (i & off & a' & b' & Ha & Hwf' & _).
  rewrite Ha. eexists _, _, _. split; [reflexivity|].
  unfold remaining. cbn [bytes_used_ memory_limit_].
  split; [reflexivity|]. split; [reflexivity|]. split; [lia|].
  split; [|exact Hwf'].
  destruct (memory_limit_ q >? bytes_used_ q + sz) eqn:E1;
    destruct (memory_limit_ q >? bytes_used_ q) eqn:E2; zbool; lia.
Qed.

Lemma allocator_enforces_limit_witness :
  ArenaSpec.wf (Arena.new 64) /\ 0 < 10 < 2^61 /\ 0 <= 3 <= 61 /\
  0 <= bytes_used_ (mkQueryAllocator 16 8) <= memory_limit_ (mkQueryAllocator 16 8) /\
  memory_limit_ (mkQueryAllocator 16 8) < 2^63 /\
  allocate 2 10 (2^3) (mkQueryAllocator 16 8, Arena.new 64)
  = Throw "Memory budget exceeded" (mkQueryAllocator 16 8, Arena.new 64).
Proof.
  assert (H0 : ArenaSpec.wf (Arena.new 64)) by (apply new_wf; lia).
  assert (H1 : 0 <= bytes_used_ (mkQueryAllocator 16 8)
               <= memory_limit_ (mkQueryAllocator 16 8)) by (cbn; lia).
  assert (H2 : memory_limit_ (mkQueryAllocator 16 8) < 2^63) by (cbn; lia).
  split; [exact H0|]. split; [lia|]. split; [lia|].
  split; [exact H1|]. split; [exact H2|].
  exact (allocator_enforces_limit (mkQueryAllocator 16 8) (Arena.new 64) 10 3
           H0 ltac:(lia) ltac:(lia) H1 H2).
Defined.

(** X17: after an allocation through the context, the allocator of the
    context is within its limit if it was before, and [check_budget] does
    not signal MEMORY_EXCEEDED: a request over the limit shows as the
    exception of [allocate], which leaves the context as it was. *)
Theorem context_allocation_within_limit fuel c a sz :
  0 <= bytes_used_ (allocator_ c) <= memory_limit_ (allocator_ c) ->
  memory_limit_ (allocator_ c) < 2^63 -> 0 <= sz < 2^63 ->
  match ctx_allocate fuel sz (c, a) with
  | Val _ (c', _) =>
      0 <= bytes_used_ (allocator_ c') <= memory_limit_ (allocator_ c') /\
      memory_limit_ (allocator_ c') = memory_limit_ (allocator_ c) /\
      forall what c'',
        check_budget c' = Throw what c'' -> violation_ c'' <> MEMORY_EXCEEDED
  | Throw what (c', a') =>
      what = "Memory budget exceeded" /\ c' = c /\ a' = a
  | Fault | Diverge => True
  end.
Proof.
  intros Hq Hlim Hsz.
  unfold ctx_allocate, allocate, would_exceed. cbn [fst snd].
  rewrite (Z.mod_small (bytes_used_ (allocator_ c) + sz)) by lia.
  destruct (bytes_used_ (allocator_ c) + sz >? memory_limit_ (allocator_ c)) eqn:E.
  { split; [reflexivity|]. split; [destruct c; reflexivity|reflexivity]. }
  zbool.
  assert (Hcheck : forall q c1,
            0 <= bytes_used_ q <= memory_limit_ q -> memory_limit_ q < 2^63 ->
            allocator_ c1 = q ->
            forall what c'',
              check_budget c1 = Throw what c'' ->
              violation_ c'' <> MEMORY_EXCEEDED).
  { intros q c1 Hq1 Hl1 Hal what c''.
    assert (Hw : would_exceed 0 (allocator_ c1) = false).
    { rewrite Hal. unfold would_exceed. rewrite Z.add_0_r, Z.mod_small by lia.
      rewrite Z.gtb_ltb. apply Z.ltb_ge. lia. }
    destruct c1 as [b al s st sd ab v clk rd]. cbn in Hw.
    unfold check_budget, check_time, check_instructions, check_rows, violate,
      now, over_time. unfold_monad. cbn.
    destruct ab; cbn; [intros [= _ <-]; discriminate|].
    destruct sd; cbn.
    - match goal with |- context [if ?late then _ else _] => destruct late end;
        cbn; [intros [= _ <-]; discriminate|].
      destruct (instructions_executed s >=? max_instructions b); cbn;
        [intros [= _ <-]; discriminate|].
      destruct (rows_returned s >=? max_result_rows b); cbn;
        [intros [= _ <-]; discriminate|].
      rewrite Hw. discriminate.
    - destruct (instructions_executed s >=? max_instructions b); cbn;
        [intros [= _ <-]; discriminate|].
      destruct (rows_returned s >=? max_result_rows b); cbn;
        [intros [= _ <-]; discriminate|].
      rewrite Hw. discriminate. }
  destruct (Arena.allocate fuel sz 8 a) as [[p|] a'|what a'| |] eqn:Ha;
    try exact I;
    [| |exfalso; exact (allocate_no_throw _ _ _ _ _ _ Ha)].
  - cbn [allocator_ bytes_used_ memory_limit_].
    split; [lia|]. split; [reflexivity|].
    apply (Hcheck (mkQueryAllocator (memory_limit_ (allocator_ c))
                     (bytes_used_ (allocator_ c) + sz)));
      cbn [allocator_ bytes_used_ memory_limit_]; try lia. reflexivity.
  - split; [destruct c as [b [ml bu] s st sd ab v clk rd]; exact Hq|].
    split; [destruct c as [b [ml bu] s st sd ab v clk rd]; reflexivity|].
    apply (Hcheck (allocator_ c)); try assumption.
    destruct c as [b [ml bu] s st sd ab v clk rd]; reflexivity.
Qed.

Lemma context_allocation_within_limit_witness :
  let c := Context.new (mkQueryBudget 16 1000 30000 1000)
             (mkQueryAllocator 16 8) Sample.frozen_clock in
  0 <= bytes_used_ (allocator_ c) <= memory_limit_ (allocator_ c) /\
  memory_limit_ (allocator_ c) < 2^63 /\ 0 <= 8 < 2^63 /\
  match ctx_allocate 2 8 (c, Arena.new 64) with
  | Val _ (c', _) =>
      0 <= bytes_used_ (allocator_ c') <= memory_limit_ (allocator_ c') /\
      memory_limit_ (allocator_ c') = memory_limit_ (allocator_ c) /\
      forall what c'',
        check_budget c' = Throw what c'' -> violation_ c'' <> MEMORY_EXCEEDED
  | Throw what (c', a') =>
      what = "Memory budget exceeded" /\ c' = c /\ a' = Arena.new 64
  | Fault | Diverge => True
  end.
Proof.
  intros c.
  assert (H1 : 0 <= bytes_used_ (allocator_ c) <= memory_limit_ (allocator_ c))
    by (cbn; lia).
  assert (H2 : memory_limit_ (allocator_ c) < 2^63) by (cbn; lia).
  split; [exact H1|]. split; [exact H2|]. split; [lia|].
  exact (context_allocation_within_limit 2 c (Arena.new 64) 8 H1 H2
           ltac:(lia)).
Defined.

End AllocatorFacts.

(** ** Write-ahead log: reading from an LSN, opening again *)

Section WalReading.
Import Mem Wal.

(** The loop of [read_from] over the images of well-formed records keeps
    those whose LSN is not below the start. *)
Lemma read_records_filter srs : forall fuel start tail acc,
  Forall (fun r => Spec.well_formed r /\ serialized_size r <= READ_BUFFER_SIZE) srs ->
  read_records (List.length srs + fuel) start
    (concat (List.map Spec.image srs) ++ tail) acc
  = read_records fuel start tail
      (acc ++ List.filter (fun r => lsn (header r) >=? start) srs).
Proof.
  induction srs as [|r srs IH]; intros fuel start tail acc Hwf.
  - cbn. rewrite app_nil_r. reflexivity.
  - apply Forall_cons in Hwf as [[Hr Hsz] Hwf].
    cbn [List.length List.map concat Nat.add List.filter]. rewrite <- app_assoc.
    rewrite read_records_step by assumption. rewrite IH by exact Hwf.
    destruct (lsn (header r) >=? start); [|reflexivity].
    rewrite <- app_assoc. reflexivity.
Qed.

Lemma length_stamped cur rs :
  List.length (Spec.stamped cur rs) = List.length rs.
Proof.
  revert cur. induction rs as [|r rs IH]; intros cur; cbn; [reflexivity|].
  rewrite IH. reflexivity.
Qed.

(** The records stamped from [cur] on carry the LSNs [cur], [cur + 1], ...;
    those not below [start] are all but the first [start - cur]. *)
Lemma filter_stamped rs : forall cur start,
  0 <= cur -> cur + Z.of_nat (List.length rs) <= 2^64 ->
  List.filter (fun r => lsn (header r) >=? start) (Spec.stamped cur rs)
  = drop (Z.to_nat (start - cur)) (Spec.stamped cur rs).
Proof.
  induction rs as [|r rs IH]; intros cur start H0 Hn.
  - cbn. rewrite drop_nil. reflexivity.
  - cbn [Spec.stamped List.filter stamp header lsn List.length] in *.
    destruct (cur >=? start) eqn:E; rewrite Z.geb_leb in E; zbool.
    + replace (Z.to_nat (start - cur)) with O by lia. rewrite drop_0.
      f_equal.
      destruct rs as [|r' rs']; [reflexivity|].
      cbn [List.length] in Hn.
      rewrite IH; [|apply Z.mod_pos_bound; lia|rewrite Z.mod_small by lia; cbn [List.length]; lia].
      rewrite Z.mod_small by lia.
      replace (Z.to_nat (start - (cur + 1))) with O by lia. apply drop_0.
    + destruct rs as [|r' rs'].
      * replace (Z.to_nat (start - cur)) with (S (Z.to_nat (start - cur - 1)))
          by lia.
        cbn. rewrite drop_nil. reflexivity.
      * cbn [List.length] in Hn.
        rewrite IH; [|apply Z.mod_pos_bound; lia|rewrite Z.mod_small by lia; cbn [List.length]; lia].
        rewrite Z.mod_small by lia.
        replace (Z.to_nat (start - cur)) with (S (Z.to_nat (start - (cur + 1))))
          by lia.
        reflexivity.
Qed.

(** [read_from] on the log that successive appends leave. *)
Lemma read_from_appended rs start :
  Forall Spec.appendable rs -> Z.of_nat (List.length rs) < 2^64 - 2 ->
  read_from start (Sample.append_all rs Sample.fresh_wal)
  = Done (drop (Z.to_nat (start - 1)) (Spec.stamped 1 rs)).
Proof.
  intros Hrs Hlen.
  destruct (append_all_file rs Sample.fresh_wal initial_file eq_refl eq_refl)
    as [Hf Ho].
  cbn [Sample.fresh_wal current_lsn_] in Hf.
  assert (Hwf : Forall (fun r => Spec.well_formed r /\
                                 serialized_size r <= READ_BUFFER_SIZE)
                       (Spec.stamped 1 rs))
    by (apply stamped_well_formed; [lia|exact Hrs]).
  unfold read_from, file_bytes. rewrite Ho, Hf. cbn [negb].
  unfold sizeof_WalFileHeader. change (Z.to_nat 24) with 24%nat.
  rewrite drop_app_length' by apply length_initial_file.
  pose proof (length_images (Spec.stamped 1 rs)) as Hn.
  rewrite <- (app_nil_r (concat _)).
  match goal with |- context [read_records (S ?n)] =>
    replace (S n) with (List.length (Spec.stamped 1 rs)
                        + S (n - List.length (Spec.stamped 1 rs)))%nat
      by (rewrite !length_app, ?app_nil_r in *; cbn [List.length]; lia) end.
  rewrite read_records_filter by exact Hwf.
  rewrite read_records_short_tail by (cbn; lia).
  cbn [app]. rewrite filter_stamped by lia. reflexivity.
Qed.

(** X18: [read_from(start_lsn)] on a log built by appends of records that
    fit the read buffer returns the records from LSN [start_lsn] on, in the
    order of the appends and as [append] stamped them: all but the first
    [start_lsn - 1]. *)
Theorem read_from_skips_older_records rs start :
  Forall Spec.appendable rs -> Z.of_nat (List.length rs) < 2^64 - 2 ->
  read_from start (Sample.append_all rs Sample.fresh_wal)
  = Done (drop (Z.to_nat (start - 1)) (Spec.stamped 1 rs)) /\
  read_from start (Sample.append_all rs Sample.fresh_wal)
  = Done (List.filter (fun r => lsn (header r) >=? start) (Spec.stamped 1 rs)).
Proof.
  intros Hrs Hlen. split; [apply read_from_appended; assumption|].
  rewrite read_from_appended by assumption.
  rewrite filter_stamped by lia. reflexivity.
Qed.

Lemma read_from_skips_older_records_witness :
  Forall Spec.appendable
    [Sample.record INSERT 1 0 0 [x41]; Sample.record DELETE 1 0 0 []] /\
  Z.of_nat (List.length
    [Sample.record INSERT 1 0 0 [x41]; Sample.record DELETE 1 0 0 []])
  < 2^64 - 2 /\
  read_from 2 Sample.wal_insert_delete
  = Done [stamp 2 (Sample.record DELETE 1 0 0 [])].
Proof.
  assert (H1 : Forall Spec.appendable
    [Sample.record INSERT 1 0 0 [x41]; Sample.record DELETE 1 0 0 []])
    by by_computation.
  assert (H2 : Z.of_nat (List.length
    [Sample.record INSERT 1 0 0 [x41]; Sample.record DELETE 1 0 0 []])
    < 2^64 - 2) by by_computation.
  split; [exact H1|]. split; [exact H2|].
  exact (proj1 (read_from_skips_older_records _ 2 H1 H2)).
Defined.

(** The scan of [read_header] over the images of well-formed records. *)
Lemma scan_images srs : forall fuel pre tail cur,
  Forall Spec.well_formed srs ->
  (List.length tail < 32)%nat ->
  scan_last_lsn (List.length srs + S fuel)
    (pre ++ concat (List.map Spec.image srs) ++ tail)
    (Z.of_nat (List.length pre)) cur
  = Some (match last srs with
          | Some r => (lsn (header r) + 1) mod 2^64
          | None => cur
          end).
Proof.
  induction srs as [|r srs IH]; intros fuel pre tail cur Hwf Htail.
  - cbn [List.length Nat.add List.map concat app scan_last_lsn last].
    unfold sizeof_WalRecordHeader.
    rewrite load_out_of_range; [reflexivity|]. rewrite length_app. lia.
  - apply Forall_cons in Hwf as [Hr Hwf].
    pose proof Hr as (Hrange & Hlen & Hcrc).
    pose proof (length_encode_header (header r)) as Hl.
    pose proof (length_image r) as Hli.
    unfold serialized_size, sizeof_WalRecordHeader in *.
    cbn [List.length Nat.add List.map concat scan_last_lsn].
    unfold sizeof_WalRecordHeader.
    rewrite load_in_range
      by (rewrite ?length_app; try lia; rewrite !length_app; lia).
    rewrite Nat2Z.id. change (Z.to_nat 32) with 32%nat.
    assert (Hhead : peek (List.length pre) 32
                      (pre ++ (Spec.image r ++ concat (List.map Spec.image srs))
                           ++ tail)
                    = encode_header (header r)).
    { rewrite peek_app_r by lia. rewrite Nat.sub_diag.
      unfold Spec.image. rewrite <- !app_assoc. apply peek_all. exact Hl. }
    rewrite Hhead, decode_encode_header by exact Hrange. rewrite Hlen.
    destruct (32 + Z.of_nat (List.length (payload r)) <? 32) eqn:E;
      [zbool; lia|].
    replace (pre ++ (Spec.image r ++ concat (List.map Spec.image srs)) ++ tail)
      with ((pre ++ Spec.image r) ++ concat (List.map Spec.image srs) ++ tail)
      by (rewrite <- !app_assoc; reflexivity).
    replace (Z.of_nat (List.length pre) + (32 + Z.of_nat (List.length (payload r))))
      with (Z.of_nat (List.length (pre ++ Spec.image r)))
      by (rewrite length_app; lia).
    rewrite IH by assumption. rewrite (last_cons r srs).
    destruct (last srs); reflexivity.
Qed.

Lemma last_stamped rs : forall cur,
  0 <= cur -> cur + Z.of_nat (List.length rs) <= 2^64 ->
  match last (Spec.stamped cur rs) with
  | Some r => lsn (header r) = cur + Z.of_nat (List.length rs) - 1
  | None => rs = []
  end.
Proof.
  induction rs as [|r rs IH]; intros cur H0 Hn; [reflexivity|].
  cbn [Spec.stamped]. rewrite last_cons.
  destruct rs as [|r' rs'].
  - cbn. lia.
  - cbn [List.length] in Hn.
    specialize (IH ((cur + 1) mod 2^64)).
    rewrite Z.mod_small in IH by lia.
    specialize (IH ltac:(lia) ltac:(cbn [List.length]; lia)).
    rewrite Z.mod_small by lia.
    destruct (last (Spec.stamped (cur + 1) (r' :: rs'))) as [y|].
    + cbn [List.length] in *. lia.
    + discriminate.
Qed.

Lemma append_all_lsn rs : forall w,
  is_open_ w = true -> 0 <= current_lsn_ w ->
  current_lsn_ w + Z.of_nat (List.length rs) < 2^64 ->
  current_lsn_ (Sample.append_all rs w)
  = current_lsn_ w + Z.of_nat (List.length rs).
Proof.
  induction rs as [|r rs IH]; intros w Ho H0 Hn.
  - cbn. lia.
  - unfold Sample.append_all in *. cbn [fold_left List.length] in *.
    unfold append at 2. rewrite Ho. cbn [negb].
    rewrite stamp_size. change (serialized_size r) with
      (serialized_size (stamp (current_lsn_ w) r)).
    rewrite serialize_exact. cbn [snd].
    rewrite IH; cbn [is_open_ current_lsn_]; try reflexivity;
      rewrite Z.mod_small by lia; lia.
Qed.

(** X19: opening again the file that a log built by appends left gives the
    log as it was: the scan of the record headers restores the next LSN,
    so that further appends continue the sequence. *)
Theorem wal_open_restores_log rs :
  Forall Spec.appendable rs -> Z.of_nat (List.length rs) < 2^64 - 2 ->
  open (new (file_ (Sample.append_all rs Sample.fresh_wal)))
  = Done (Sample.append_all rs Sample.fresh_wal) /\
  current_lsn_ (Sample.append_all rs Sample.fresh_wal)
  = 1 + Z.of_nat (List.length rs).
Proof.
  intros Hrs Hlen.
  destruct (append_all_file rs Sample.fresh_wal initial_file eq_refl eq_refl)
    as [Hf Ho].
  cbn [Sample.fresh_wal current_lsn_] in Hf.
  pose proof (append_all_lsn rs Sample.fresh_wal eq_refl ltac:(cbn; lia)
                ltac:(cbn; lia)) as Hlsn.
  cbn [Sample.fresh_wal current_lsn_] in Hlsn.
  split; [|exact Hlsn].
  assert (Hwf : Forall Spec.well_formed (Spec.stamped 1 rs)).
  { eapply Forall_impl; [apply stamped_well_formed; [lia|exact Hrs]|].
    intros r [H _]. exact H. }
  unfold open, new. cbn [is_open_ file_]. rewrite Hf.
  unfold read_header, file_bytes. cbn [file_ current_lsn_].
  unfold sizeof_WalFileHeader.
  rewrite load_in_range by (rewrite ?length_app, ?length_initial_file; lia).
  change (Z.to_nat 0) with O. change (Z.to_nat 24) with 24%nat.
  rewrite (peek_all 24 initial_file) by reflexivity.
  change (file_header_is_valid (decode_file_header initial_file)) with true.
  cbv iota.
  pose proof (length_images (Spec.stamped 1 rs)) as Hn.
  rewrite <- (app_nil_r (concat _)).
  match goal with |- context [scan_last_lsn (S ?n)] =>
    replace (S n) with (List.length (Spec.stamped 1 rs)
                        + S (n - List.length (Spec.stamped 1 rs)))%nat
      by (rewrite !length_app, ?app_nil_r in *; cbn [List.length]; lia) end.
  change 24 with (Z.of_nat (List.length initial_file)).
  rewrite scan_images by (try exact Hwf; cbn; lia).
  pose proof (last_stamped rs 1 ltac:(lia) ltac:(lia)) as Hlast.
  destruct (Sample.append_all rs Sample.fresh_wal) as [f l o] eqn:Hw.
  cbn [file_ current_lsn_ is_open_] in *. subst o l.
  rewrite app_nil_r.
  destruct (last (Spec.stamped 1 rs)) as [r|].
  - rewrite Hlast. rewrite Z.mod_small by lia. rewrite Hf. do 2 f_equal. lia.
  - subst rs. cbn [List.length]. rewrite Hf. reflexivity.
Qed.

Lemma wal_open_restores_log_witness :
  Forall Spec.appendable
    [Sample.record INSERT 1 0 0 [x41]; Sample.record DELETE 1 0 0 []] /\
  Z.of_nat (List.length
    [Sample.record INSERT 1 0 0 [x41]; Sample.record DELETE 1 0 0 []])
  < 2^64 - 2 /\
  open (new (file_ Sample.wal_insert_delete)) = Done Sample.wal_insert_delete /\
  current_lsn_ Sample.wal_insert_delete = 3.
Proof.
  assert (H1 : Forall Spec.appendable
    [Sample.record INSERT 1 0 0 [x41]; Sample.record DELETE 1 0 0 []])
    by by_computation.
  assert (H2 : Z.of_nat (List.length
    [Sample.record INSERT 1 0 0 [x41]; Sample.record DELETE 1 0 0 []])
    < 2^64 - 2) by by_computation.
  split; [exact H1|]. split; [exact H2|].
  exact (wal_open_restores_log _ H1 H2).
Defined.

End WalReading.

(** ** Recovery: where the replay starts *)

Section RecoveryStart.
Import Recovery.

Lemma is_checkpoint_stamp cur r : is_checkpoint (Wal.stamp cur r) = is_checkpoint r.
Proof. reflexivity. Qed.

Lemma stamped_app_gen l1 : forall cur l2,
  0 <= cur -> cur + Z.of_nat (List.length l1) < 2^64 ->
  Spec.stamped cur (l1 ++ l2)
  = Spec.stamped cur l1 ++ Spec.stamped (cur + Z.of_nat (List.length l1)) l2.
Proof.
  induction l1 as [|r l1 IH]; intros cur l2 H0 Hn.
  - cbn. rewrite Z.add_0_r. reflexivity.
  - cbn [app Spec.stamped List.length] in *. f_equal.
    rewrite Z.mod_small by lia. rewrite IH by lia.
    do 2 f_equal. lia.
Qed.

Lemma fold_checkpoint_none l : forall acc,
  Forall (fun r => is_checkpoint r = false) l ->
  fold_left (fun last r => if is_checkpoint r then Wal.lsn (Wal.header r) else last)
    l acc = acc.
Proof.
  induction l as [|r l IH]; intros acc H; [reflexivity|].
  apply Forall_cons in H as [Hr Hl]. cbn [fold_left]. rewrite Hr. apply IH, Hl.
Qed.

Lemma stamped_no_checkpoint l : forall cur,
  Forall (fun r => is_checkpoint r = false) l ->
  Forall (fun r => is_checkpoint r = false) (Spec.stamped cur l).
Proof.
  induction l as [|r l IH]; intros cur H; cbn [Spec.stamped]; [constructor|].
  apply Forall_cons in H as [Hr Hl]. constructor; [exact Hr|apply IH, Hl].
Qed.

(** The LSN that [find_last_checkpoint] finds in a log built by appends. *)
Lemma last_checkpoint_split pre cp post :
  Z.of_nat (List.length (pre ++ cp :: post)) < 2^64 - 2 ->
  is_checkpoint cp = true ->
  Forall (fun r => is_checkpoint r = false) post ->
  last_checkpoint_of (Spec.stamped 1 (pre ++ cp :: post))
  = 1 + Z.of_nat (List.length pre).
Proof.
  intros Hlen Hcp Hpost. rewrite length_app in Hlen. cbn [List.length] in Hlen.
  unfold last_checkpoint_of.
  rewrite stamped_app_gen by lia. rewrite fold_left_app.
  cbn [Spec.stamped fold_left]. rewrite is_checkpoint_stamp, Hcp.
  rewrite fold_checkpoint_none by (apply stamped_no_checkpoint; exact Hpost).
  reflexivity.
Qed.

Lemma last_checkpoint_absent rs :
  Forall (fun r => is_checkpoint r = false) rs ->
  last_checkpoint_of (Spec.stamped 1 rs) = 0.
Proof.
  intros H. unfold last_checkpoint_of.
  apply fold_checkpoint_none, stamped_no_checkpoint, H.
Qed.

Lemma find_last_checkpoint_appended rs :
  Forall Spec.appendable rs -> Z.of_nat (List.length rs) < 2^64 - 2 ->
  find_last_checkpoint (Sample.append_all rs Sample.fresh_wal)
  = Done (last_checkpoint_of (Spec.stamped 1 rs)).
Proof.
  intros Hrs Hlen. unfold find_last_checkpoint, Wal.read_all.
  rewrite read_from_appended by assumption. cbn. rewrite drop_0. reflexivity.
Qed.

(** [needs_recovery] on a log built by appends whose last CHECKPOINT
    record is [cp]. *)
Lemma needs_recovery_after_checkpoint pre cp post pm :
  Forall Spec.appendable (pre ++ cp :: post) ->
  Z.of_nat (List.length (pre ++ cp :: post)) < 2^64 - 2 ->
  is_checkpoint cp = true ->
  Forall (fun r => is_checkpoint r = false) post ->
  find_last_checkpoint (Sample.append_all (pre ++ cp :: post) Sample.fresh_wal)
  = Done (1 + Z.of_nat (List.length pre)) /\
  needs_recovery (new (Sample.append_all (pre ++ cp :: post) Sample.fresh_wal) pm)
  = Done (0 <? Z.of_nat (List.length post)).
Proof.
  intros Hrs Hlen Hcp Hpost.
  pose proof (find_last_checkpoint_appended _ Hrs Hlen) as Hf.
  rewrite last_checkpoint_split in Hf by assumption.
  split; [exact Hf|].
  unfold needs_recovery, new. cbn [wal_]. rewrite Hf.
  rewrite read_from_appended by assumption.
  rewrite length_drop, length_stamped, length_app. cbn [List.length].
  f_equal. rewrite Z.gtb_ltb.
  destruct (0 <? Z.of_nat (List.length post)) eqn:E; zbool;
    [apply Z.ltb_lt|apply Z.ltb_ge]; lia.
Qed.

(** X20: [needs_recovery] on a log built by appends.  When the log holds a
    CHECKPOINT record, [find_last_checkpoint] returns the LSN of the last
    one and [needs_recovery] is true exactly when a record follows it.
    When the log holds no CHECKPOINT record, [find_last_checkpoint]
    returns 0 and [needs_recovery] is true exactly when the log holds at
    least two records. *)
Theorem needs_recovery_counts_from_checkpoint rs pm :
  Forall Spec.appendable rs -> Z.of_nat (List.length rs) < 2^64 - 2 ->
  (forall pre cp post,
     rs = pre ++ cp :: post -> is_checkpoint cp = true ->
     Forall (fun r => is_checkpoint r = false) post ->
     find_last_checkpoint (Sample.append_all rs Sample.fresh_wal)
     = Done (1 + Z.of_nat (List.length pre)) /\
     needs_recovery (new (Sample.append_all rs Sample.fresh_wal) pm)
     = Done (0 <? Z.of_nat (List.length post))) /\
  (Forall (fun r => is_checkpoint r = false) rs ->
   find_last_checkpoint (Sample.append_all rs Sample.fresh_wal) = Done 0 /\
   needs_recovery (new (Sample.append_all rs Sample.fresh_wal) pm)
   = Done (1 <? Z.of_nat (List.length rs))).
Proof.
  intros Hrs Hlen. split.
  - intros pre cp post -> Hcp Hpost.
    apply needs_recovery_after_checkpoint; assumption.
  - intros Hnone.
    pose proof (find_last_checkpoint_appended _ Hrs Hlen) as Hf.
    rewrite last_checkpoint_absent in Hf by assumption.
    split; [exact Hf|].
    unfold needs_recovery, new. cbn [wal_]. rewrite Hf.
    rewrite read_from_appended by assumption.
    change (Z.to_nat (0 - 1)) with O. rewrite drop_0, length_stamped.
    f_equal. apply Z.gtb_ltb.
Qed.

Lemma needs_recovery_counts_from_checkpoint_witness :
  Forall Spec.appendable
    [Sample.record Wal.INSERT 1 0 0 [x41]; Sample.record Wal.CHECKPOINT 0 0 0 []] /\
  Z.of_nat (List.length
    [Sample.record Wal.INSERT 1 0 0 [x41]; Sample.record Wal.CHECKPOINT 0 0 0 []])
  < 2^64 - 2 /\
  needs_recovery
    (new (Sample.append_all
            [Sample.record Wal.INSERT 1 0 0 [x41];
             Sample.record Wal.CHECKPOINT 0 0 0 []] Sample.fresh_wal)
         Sample.empty_pool)
  = Done false.
Proof.
  assert (H1 : Forall Spec.appendable
    [Sample.record Wal.INSERT 1 0 0 [x41]; Sample.record Wal.CHECKPOINT 0 0 0 []])
    by by_computation.
  assert (H2 : Z.of_nat (List.length
    [Sample.record Wal.INSERT 1 0 0 [x41]; Sample.record Wal.CHECKPOINT 0 0 0 []])
    < 2^64 - 2) by by_computation.
  split; [exact H1|]. split; [exact H2|].
  exact (proj2 (proj1 (needs_recovery_counts_from_checkpoint _ Sample.empty_pool H1 H2)
                 [Sample.record Wal.INSERT 1 0 0 [x41]]
                 (Sample.record Wal.CHECKPOINT 0 0 0 []) []
                 eq_refl eq_refl (List.Forall_nil _))).
Defined.

(** The replay of [recover] on a log built by appends whose last
    CHECKPOINT record is [cp]. *)
Lemma recover_with_from_checkpoint callback pre cp post pm st0 :
  Forall Spec.appendable (pre ++ cp :: post) ->
  Z.of_nat (List.length (pre ++ cp :: post)) < 2^64 - 2 ->
  is_checkpoint cp = true ->
  Forall (fun r => is_checkpoint r = false) post ->
  recover_with callback
    (mkRecoveryManager (Sample.append_all (pre ++ cp :: post) Sample.fresh_wal)
       pm st0)
  = (finished ← replay callback
         (Spec.stamped (2 + Z.of_nat (List.length pre)) post);
     if finished : bool then rm' ← get; mret (errors (stats_ rm') =? 0)
     else mret false)
      (mkRecoveryManager (Sample.append_all (pre ++ cp :: post) Sample.fresh_wal)
         pm (mkRecoveryStats 1 0 1 0 (1 + Z.of_nat (List.length pre)) 0)).
Proof.
  intros Hrs Hlen Hcp Hpost.
  pose proof (find_last_checkpoint_appended _ Hrs Hlen) as Hf.
  rewrite last_checkpoint_split in Hf by assumption.
  pose proof (read_from_appended _ (1 + Z.of_nat (List.length pre)) Hrs Hlen)
    as Hr.
  rewrite length_app in Hlen. cbn [List.length] in Hlen.
  rewrite stamped_app_gen in Hr by lia.
  replace (Z.to_nat (1 + Z.of_nat (List.length pre) - 1))
    with (List.length (Spec.stamped 1 pre)) in Hr
    by (rewrite length_stamped; lia).
  rewrite drop_app_length in Hr.
  cbn [Spec.stamped] in Hr.
  rewrite (Z.mod_small (1 + Z.of_nat (List.length pre) + 1)) in Hr by lia.
  replace (1 + Z.of_nat (List.length pre) + 1)
    with (2 + Z.of_nat (List.length pre)) in Hr by lia.
  unfold recover_with.
  rewrite bind_eq. unfold on_stats at 1, modify. cbn [stats_ wal_ page_manager_].
  rewrite bind_eq. unfold get at 1. cbn [wal_]. rewrite Hf.
  replace (1 + Z.of_nat (List.length pre) >? 0) with true
    by (symmetry; rewrite Z.gtb_ltb; apply Z.ltb_lt; lia).
  rewrite bind_eq. unfold on_stats at 1, modify. cbn [stats_ wal_ page_manager_].
  rewrite Hr.
  rewrite bind_eq. cbn [replay].
  rewrite bind_eq. unfold on_stats at 1, modify. cbn [stats_ wal_ page_manager_].
  rewrite is_checkpoint_stamp, Hcp.
  rewrite bind_eq. unfold on_stats at 1, modify. cbn [stats_ wal_ page_manager_].
  rewrite bind_eq. reflexivity.
Qed.

(** X21: on a log built by appends, [recover] replays only what follows
    the last CHECKPOINT record: the records before it do not influence the
    run, which starts with one record processed and skipped (the
    checkpoint itself) and [start_lsn] at the checkpoint.  When the
    checkpoint is the last record, [recover] returns true and leaves the
    log and the buffer pool as they were. *)
Theorem recover_replays_after_last_checkpoint fuel pre cp post pm st0 :
  Forall Spec.appendable (pre ++ cp :: post) ->
  Z.of_nat (List.length (pre ++ cp :: post)) < 2^64 - 2 ->
  is_checkpoint cp = true ->
  Forall (fun r => is_checkpoint r = false) post ->
  recover fuel
    (mkRecoveryManager (Sample.append_all (pre ++ cp :: post) Sample.fresh_wal)
       pm st0)
  = (finished ← replay (apply_record fuel)
         (Spec.stamped (2 + Z.of_nat (List.length pre)) post);
     if finished : bool then rm' ← get; mret (errors (stats_ rm') =? 0)
     else mret false)
      (mkRecoveryManager (Sample.append_all (pre ++ cp :: post) Sample.fresh_wal)
         pm (mkRecoveryStats 1 0 1 0 (1 + Z.of_nat (List.length pre)) 0)) /\
  (post = [] ->
   recover fuel
     (mkRecoveryManager (Sample.append_all (pre ++ cp :: post) Sample.fresh_wal)
        pm st0)
   = Val true
       (mkRecoveryManager (Sample.append_all (pre ++ cp :: post) Sample.fresh_wal)
          pm (mkRecoveryStats 1 0 1 0 (1 + Z.of_nat (List.length pre)) 0))).
Proof.
  intros Hrs Hlen Hcp Hpost.
  pose proof (recover_with_from_checkpoint (apply_record fuel) pre cp post pm st0
                Hrs Hlen Hcp Hpost) as H.
  split; [exact H|].
  intros ->. unfold recover. rewrite H. reflexivity.
Qed.

Lemma recover_replays_after_last_checkpoint_witness :
  Forall Spec.appendable
    ([Sample.record Wal.INSERT 1 0 0 [x41]]
       ++ Sample.record Wal.CHECKPOINT 0 0 0 [] :: []) /\
  recover 8
    (new (Sample.append_all
            ([Sample.record Wal.INSERT 1 0 0 [x41]]
               ++ Sample.record Wal.CHECKPOINT 0 0 0 [] :: []) Sample.fresh_wal)
         Sample.empty_pool)
  = Val true
      (mkRecoveryManager
         (Sample.append_all
            ([Sample.record Wal.INSERT 1 0 0 [x41]]
               ++ Sample.record Wal.CHECKPOINT 0 0 0 [] :: []) Sample.fresh_wal)
         Sample.empty_pool (mkRecoveryStats 1 0 1 0 2 0)).
Proof.
  assert (H1 : Forall Spec.appendable
    ([Sample.record Wal.INSERT 1 0 0 [x41]]
       ++ Sample.record Wal.CHECKPOINT 0 0 0 [] :: [])) by by_computation.
  split; [exact H1|].
  refine (proj2 (recover_replays_after_last_checkpoint 8
                   [Sample.record Wal.INSERT 1 0 0 [x41]]
                   (Sample.record Wal.CHECKPOINT 0 0 0 []) []
                   Sample.empty_pool no_stats H1 _ eq_refl (List.Forall_nil _))
            eq_refl).
  vm_compute. reflexivity.
Defined.

End RecoveryStart.

(** ** Buffer pool: flushing *)

Section Flushing.
Import PageManager PoolSpec FlushSpec.

(** What the loop of [flush_all] and [close] leaves in the table files. *)
Lemma flush_fold (files0 : gmap Z (list Page.Page))
    (pool : gmap (Z * Z) BufferEntry) :
  (forall key e, pool !! key = Some e ->
     table_id e = fst key /\ page_id e = snd key /\ 0 <= snd key) ->
  (forall key e, pool !! key = Some e -> dirty e = true ->
     on_disk (map_fold (fun _ e acc => flush_entry e acc) files0 pool)
       (fst key) (snd key) = Some (page e)) /\
  (forall tid pid x, 0 <= pid -> on_disk files0 tid pid = Some x ->
     (forall e, pool !! (tid, pid) = Some e -> dirty e = false) ->
     on_disk (map_fold (fun _ e acc => flush_entry e acc) files0 pool) tid pid
     = Some x).
Proof.
  revert pool.
  apply (map_fold_weak_ind
    (fun files (m : gmap (Z * Z) BufferEntry) =>
       (forall key e, m !! key = Some e ->
          table_id e = fst key /\ page_id e = snd key /\ 0 <= snd key) ->
       (forall key e, m !! key = Some e -> dirty e = true ->
          on_disk files (fst key) (snd key) = Some (page e)) /\
       (forall tid pid x, 0 <= pid -> on_disk files0 tid pid = Some x ->
          (forall e, m !! (tid, pid) = Some e -> dirty e = false) ->
          on_disk files tid pid = Some x))
    (fun _ e acc => flush_entry e acc) files0).
  - intros _. split.
    + intros key e H. rewrite lookup_empty in H. discriminate.
    + intros tid pid x _ Hx _. exact Hx.
  - intros i x m r Hi IH Hk.
    assert (Hkm : forall key e, m !! key = Some e ->
              table_id e = fst key /\ page_id e = snd key /\ 0 <= snd key).
    { intros key e H. apply Hk. rewrite lookup_insert_ne; [exact H|].
      intros ->. rewrite Hi in H. discriminate. }
    destruct (IH Hkm) as [IH1 IH2].
    destruct (Hk i x (lookup_insert_eq _ _ _)) as (Ht & Hp & H0).
    split.
    + intros key e H Hd. unfold flush_entry.
      destruct (decide (i = key)) as [->|Hne].
      * rewrite lookup_insert_eq in H. injection H as ->. rewrite Hd, Ht, Hp.
        apply on_disk_write_eq.
      * rewrite lookup_insert_ne in H by exact Hne.
        destruct (Hkm key e H) as (_ & _ & H0').
        destruct (dirty x); [|apply IH1; assumption].
        apply on_disk_write_ne; [lia|lia| |apply IH1; assumption].
        rewrite Ht, Hp. destruct i, key; cbn in *. congruence.
    + intros tid pid y Hpid Hy Hclean. unfold flush_entry.
      assert (Hm : forall e, m !! (tid, pid) = Some e -> dirty e = false).
      { intros e H. apply Hclean. rewrite lookup_insert_ne; [exact H|].
        intros ->. rewrite Hi in H. discriminate. }
      destruct (dirty x) eqn:Hd; [|apply IH2; assumption].
      apply on_disk_write_ne; [lia|lia| |apply IH2; assumption].
      rewrite Ht, Hp. intros E.
      assert (i = (tid, pid)) as -> by (destruct i; cbn in *; congruence).
      specialize (Hclean x (lookup_insert_eq _ _ _)). congruence.
Qed.

Lemma cleared_pool_has_no_dirty (pool : gmap (Z * Z) BufferEntry) :
  size (filter (fun kv => dirty (snd kv) = true)
          ((fun e => if dirty e then set_entry_dirty false e else e) <$> pool))
  = O.
Proof.
  apply map_size_empty_iff, map_empty_filter_2.
  intros k e H. rewrite lookup_fmap in H.
  destruct (pool !! k) as [e0|]; [|discriminate]. injection H as <-.
  cbn [snd]. destruct (dirty e0) eqn:Hd; cbn; congruence.
Qed.

(** X22: [flush_all] returns the number of dirty pages and leaves none
    dirty.  Afterwards the file of each table holds, at the index of each
    page that was dirty, the bytes that the page had in memory before the
    call (with the dirty flag of its header still set, while the page in
    memory has it cleared); a page image that no dirty page covers stays
    as it was on disk, and no page leaves the pool. *)
Theorem flush_all_writes_dirty_pages pm :
  keyed pm ->
  fst (flush_all pm) = dirty_count pm /\
  dirty_count (snd (flush_all pm)) = 0 /\
  page_count (snd (flush_all pm)) = page_count pm /\
  (forall tid pid e,
     buffer_pool_ pm !! (tid, pid) = Some e -> dirty e = true ->
     on_disk (files_ (snd (flush_all pm))) tid pid = Some (page e) /\
     buffer_pool_ (snd (flush_all pm)) !! (tid, pid)
     = Some (set_entry_dirty false e)) /\
  (forall tid pid e,
     buffer_pool_ pm !! (tid, pid) = Some e -> dirty e = false ->
     buffer_pool_ (snd (flush_all pm)) !! (tid, pid) = Some e) /\
  (forall tid pid x,
     0 <= pid -> on_disk (files_ pm) tid pid = Some x ->
     (forall e, buffer_pool_ pm !! (tid, pid) = Some e -> dirty e = false) ->
     on_disk (files_ (snd (flush_all pm))) tid pid = Some x).
Proof.
  intros Hk. destruct (flush_fold (files_ pm) (buffer_pool_ pm) Hk) as [F1 F2].
  unfold flush_all, dirty_count, page_count, with_pool, with_files.
  cbn [fst snd buffer_pool_ files_].
  split; [reflexivity|].
  split; [rewrite cleared_pool_has_no_dirty; reflexivity|].
  split; [rewrite map_size_fmap; reflexivity|].
  split; [|split].
  - intros tid pid e He Hd. split.
    + exact (F1 (tid, pid) e He Hd).
    + rewrite lookup_fmap, He. cbn. rewrite Hd. reflexivity.
  - intros tid pid e He Hd. rewrite lookup_fmap, He. cbn. rewrite Hd.
    reflexivity.
  - exact F2.
Qed.

Lemma flush_all_writes_dirty_pages_witness :
  keyed Example.pool_one_dirty /\
  fst (flush_all Example.pool_one_dirty) = 1 /\
  dirty_count (snd (flush_all Example.pool_one_dirty)) = 0.
Proof.
  assert (H : keyed Example.pool_one_dirty).
  { intros key e He.
    assert (Hp : buffer_pool_ Example.pool_one_dirty
                 = {[ (1, 0) := mkBufferEntry 1 0 (Page.init 0 Page.FLAG_LEAF) true ]})
      by (vm_compute; reflexivity).
    rewrite Hp in He. apply lookup_singleton_Some in He as [<- <-].
    cbn. lia. }
  split; [exact H|].
  pose proof (flush_all_writes_dirty_pages Example.pool_one_dirty H)
    as (H1 & H2 & _).
  split; [|exact H2]. rewrite H1. vm_compute. reflexivity.
Defined.

End Flushing.

(** ** Checkpoints *)

Section Checkpoints.
Import Checkpoint.

(** The record that [Wal::checkpoint] hands to [append]. *)
Lemma checkpoint_is_append uninit w :
  Wal.checkpoint uninit w
  = Wal.append
      (Wal.mkWalRecord
         (Wal.mkWalRecordHeader (Wal.lsn uninit) (Wal.length uninit)
            (Wal.crc32 uninit) (Wal.type_code Wal.CHECKPOINT)
            (Wal.reserved uninit) 0 0 0 (Wal.padding uninit)) []) w.
Proof. reflexivity. Qed.

Lemma append_open r w :
  Wal.is_open_ w = true ->
  fst (Wal.append r w) = Wal.current_lsn_ w.
Proof.
  intros Ho. unfold Wal.append. rewrite Ho. cbn [negb].
  rewrite stamp_size.
  change (Wal.serialized_size r)
    with (Wal.serialized_size (Wal.stamp (Wal.current_lsn_ w) r)).
  rewrite serialize_exact. reflexivity.
Qed.

Lemma append_all_snoc rs r w :
  Sample.append_all (rs ++ [r]) w = snd (Wal.append r (Sample.append_all rs w)).
Proof. unfold Sample.append_all. rewrite fold_left_app. reflexivity. Qed.

(** X23: a checkpoint over a log built by appends returns the LSN after
    the last record and remembers it, and leaves no page dirty.
    Afterwards [needs_recovery] is false, and [recover] returns true
    after skipping the checkpoint record alone: it changes neither the log
    nor the buffer pool. *)
Theorem checkpoint_leaves_nothing_to_recover rs pm uninit fuel :
  Forall Spec.appendable rs -> Z.of_nat (List.length rs) < 2^64 - 3 ->
  0 <= Wal.reserved uninit < 2^24 -> 0 <= Wal.padding uninit < 2^16 ->
  fst (checkpoint uninit (new (Sample.append_all rs Sample.fresh_wal) pm))
  = 1 + Z.of_nat (List.length rs) /\
  last_checkpoint_lsn_
    (snd (checkpoint uninit (new (Sample.append_all rs Sample.fresh_wal) pm)))
  = 1 + Z.of_nat (List.length rs) /\
  page_manager_
    (snd (checkpoint uninit (new (Sample.append_all rs Sample.fresh_wal) pm)))
  = snd (PageManager.flush_all pm) /\
  PageManager.dirty_count
    (page_manager_
       (snd (checkpoint uninit (new (Sample.append_all rs Sample.fresh_wal) pm))))
  = 0 /\
  Recovery.needs_recovery
    (Recovery.new
       (wal_ (snd (checkpoint uninit
                     (new (Sample.append_all rs Sample.fresh_wal) pm))))
       (page_manager_
          (snd (checkpoint uninit
                  (new (Sample.append_all rs Sample.fresh_wal) pm)))))
  = Done false /\
  Recovery.recover fuel
    (Recovery.new
       (wal_ (snd (checkpoint uninit
                     (new (Sample.append_all rs Sample.fresh_wal) pm))))
       (page_manager_
          (snd (checkpoint uninit
                  (new (Sample.append_all rs Sample.fresh_wal) pm)))))
  = Val true
      (Recovery.mkRecoveryManager
         (wal_ (snd (checkpoint uninit
                       (new (Sample.append_all rs Sample.fresh_wal) pm))))
         (page_manager_
            (snd (checkpoint uninit
                    (new (Sample.append_all rs Sample.fresh_wal) pm))))
         (Recovery.mkRecoveryStats 1 0 1 0 (1 + Z.of_nat (List.length rs)) 0)).
Proof.
  intros Hrs Hlen Hres Hpad.
  remember (Wal.mkWalRecord
         (Wal.mkWalRecordHeader (Wal.lsn uninit) (Wal.length uninit)
            (Wal.crc32 uninit) (Wal.type_code Wal.CHECKPOINT)
            (Wal.reserved uninit) 0 0 0 (Wal.padding uninit)) []) as cp eqn:Hcp.
  assert (Hcpa : Spec.appendable cp).
  { subst cp. unfold Spec.appendable, Wal.serialized_size,
      Wal.sizeof_WalRecordHeader, Wal.READ_BUFFER_SIZE. cbn. lia. }
  assert (Hck : Recovery.is_checkpoint cp = true) by (subst cp; reflexivity).
  destruct (append_all_file rs Sample.fresh_wal Wal.initial_file eq_refl eq_refl)
    as [_ Ho].
  assert (Hl : Wal.current_lsn_ (Sample.append_all rs Sample.fresh_wal)
               = 1 + Z.of_nat (List.length rs)).
  { rewrite append_all_lsn; cbn; try reflexivity; lia. }
  assert (Hfst : fst (Wal.append cp (Sample.append_all rs Sample.fresh_wal))
                 = 1 + Z.of_nat (List.length rs)).
  { rewrite append_open by exact Ho. exact Hl. }
  assert (Hc : checkpoint uninit (new (Sample.append_all rs Sample.fresh_wal) pm)
               = (1 + Z.of_nat (List.length rs),
                  mkCheckpointManager
                    (Sample.append_all (rs ++ [cp]) Sample.fresh_wal)
                    (snd (PageManager.flush_all pm))
                    (1 + Z.of_nat (List.length rs)))).
  { unfold checkpoint, new. cbn [page_manager_ wal_ last_checkpoint_lsn_].
    destruct (PageManager.flush_all pm) as [flushed pm'] eqn:Hfl.
    rewrite checkpoint_is_append, <- Hcp. rewrite append_all_snoc.
    destruct (Wal.append cp (Sample.append_all rs Sample.fresh_wal))
      as [lsn w] eqn:Ha.
    cbn [fst snd] in *. subst lsn.
    replace (1 + Z.of_nat (List.length rs) >? 0) with true
      by (symmetry; rewrite Z.gtb_ltb; apply Z.ltb_lt; lia).
    reflexivity. }
  rewrite Hc. cbn [fst snd wal_ page_manager_ last_checkpoint_lsn_].
  assert (Hall : Forall Spec.appendable (rs ++ cp :: []))
    by (apply Forall_app; split; [exact Hrs|constructor; [exact Hcpa|constructor]]).
  assert (Hlen' : Z.of_nat (List.length (rs ++ cp :: [])) < 2^64 - 2)
    by (rewrite length_app; cbn [List.length]; lia).
  split; [reflexivity|]. split; [reflexivity|]. split; [reflexivity|].
  split.
  { unfold PageManager.flush_all, PageManager.dirty_count,
      PageManager.with_pool, PageManager.with_files.
    cbn [snd PageManager.buffer_pool_].
    rewrite cleared_pool_has_no_dirty. reflexivity. }
  split.
  - exact (proj2 (needs_recovery_after_checkpoint rs cp [] _ Hall Hlen' Hck
                    (List.Forall_nil _))).
  - unfold Recovery.recover, Recovery.new.
    rewrite (recover_with_from_checkpoint _ rs cp [] _ _ Hall Hlen' Hck
               (List.Forall_nil _)).
    reflexivity.
Qed.

Lemma checkpoint_leaves_nothing_to_recover_witness :
  Forall Spec.appendable [Sample.record Wal.INSERT 1 0 0 [x41]] /\
  fst (checkpoint (Wal.mkWalRecordHeader 0 0 0 0 0 0 0 0 0)
         (new Sample.wal_one_insert Example.pool_one_dirty)) = 2 /\
  Recovery.needs_recovery
    (Recovery.new
       (wal_ (snd (checkpoint (Wal.mkWalRecordHeader 0 0 0 0 0 0 0 0 0)
                     (new Sample.wal_one_insert Example.pool_one_dirty))))
       (page_manager_
          (snd (checkpoint (Wal.mkWalRecordHeader 0 0 0 0 0 0 0 0 0)
                  (new Sample.wal_one_insert Example.pool_one_dirty)))))
  = Done false.
Proof.
  assert (H1 : Forall Spec.appendable [Sample.record Wal.INSERT 1 0 0 [x41]])
    by by_computation.
  assert (H2 : Z.of_nat (List.length [Sample.record Wal.INSERT 1 0 0 [x41]])
               < 2^64 - 3) by by_computation.
  assert (H3 : 0 <= Wal.reserved (Wal.mkWalRecordHeader 0 0 0 0 0 0 0 0 0) < 2^24)
    by (cbn; lia).
  assert (H4 : 0 <= Wal.padding (Wal.mkWalRecordHeader 0 0 0 0 0 0 0 0 0) < 2^16)
    by (cbn; lia).
  pose proof (checkpoint_leaves_nothing_to_recover
                [Sample.record Wal.INSERT 1 0 0 [x41]] Example.pool_one_dirty
                (Wal.mkWalRecordHeader 0 0 0 0 0 0 0 0 0) 8 H1 H2 H3 H4)
    as (E1 & _ & _ & _ & E5 & _).
  split; [exact H1|]. split; [exact E1|exact E5].
Defined.

End Checkpoints.

(** ** Buffer pool: allocation and removal of tables *)

Section PoolTables.
Import PageManager PoolSpec FlushSpec.

(** X24: with [max_pages >= 1], [allocate_page] returns the next page id
    of the table (0 for a table that the manager has no counter for,
    whatever its file holds), advances the counter by one modulo 2^32 and
    leaves the page resident, dirty and initialised as an empty leaf.  A
    [get_page] for it then returns that page without reading a file and
    without evicting anything. *)
Theorem allocate_page_then_get_page tid pm :
  nodes_ok pm -> 1 <= max_pages_ pm ->
  exists pm1,
    allocate_page (S (size (buffer_pool_ pm))) tid pm
    = Val (default 0 (next_page_id_ pm !! tid)) pm1 /\
    next_page_id_ pm1 !! tid
    = Some ((default 0 (next_page_id_ pm !! tid) + 1) mod 2^32) /\
    buffer_pool_ pm1 !! (tid, default 0 (next_page_id_ pm !! tid))
    = Some (mkBufferEntry tid (default 0 (next_page_id_ pm !! tid))
              (Page.init (default 0 (next_page_id_ pm !! tid)) Page.FLAG_LEAF)
              true) /\
    page_count pm1 <= max_pages_ pm /\
    forall fuel, exists pm2,
      get_page fuel tid (default 0 (next_page_id_ pm !! tid)) pm1
      = Val (Some (tid, default 0 (next_page_id_ pm !! tid))) pm2 /\
      buffer_pool_ pm2 = buffer_pool_ pm1 /\ files_ pm2 = files_ pm1.
Proof.
  intros Hok Hmax. remember (default 0 (next_page_id_ pm !! tid)) as pid eqn:Hpid.
  unfold allocate_page. unfold_monad. rewrite <- Hpid.
  match goal with |- context [evict_while_full _ ?p] => remember p as pm0 eqn:Hpm0 end.
  assert (Hok0 : nodes_ok pm0) by (subst pm0; apply (same_keys_ok pm); auto).
  destruct (evict_while_full_terminates (size (buffer_pool_ pm)) pm0 Hok0)
    as [pm1 Hev]; [subst pm0; exact Hmax|subst pm0; reflexivity|].
  rewrite Hev.
  destruct (evict_while_full_result _ _ _ Hev Hok0) as (Hok1 & Hlt & Hmax1 & Hnp & _).
  eexists. split; [reflexivity|].
  pose proof (install_size (tid, pid)
                (mkBufferEntry tid pid (Page.init pid Page.FLAG_LEAF) true) pm1)
    as Hsz.
  split; [|split; [|split]].
  - cbn. rewrite Hnp. subst pm0. cbn. apply lookup_insert_eq.
  - cbn. apply lookup_insert_eq.
  - unfold page_count in *. cbn [max_pages_] in *.
    replace (max_pages_ pm) with (max_pages_ pm0) by (subst pm0; reflexivity).
    lia.
  - intros fuel. unfold get_page. unfold_monad.
    cbn [install lru_push_front with_pool buffer_pool_ lru_map_].
    rewrite !lookup_insert_eq. eexists. split; [reflexivity|].
    split; reflexivity.
Qed.

Lemma allocate_page_then_get_page_witness :
  nodes_ok Sample.empty_pool /\ 1 <= max_pages_ Sample.empty_pool /\
  exists pm1,
    allocate_page 1 7 Sample.empty_pool = Val 0 pm1 /\
    buffer_pool_ pm1 !! (7, 0)
    = Some (mkBufferEntry 7 0 (Page.init 0 Page.FLAG_LEAF) true).
Proof.
  assert (H1 : nodes_ok Sample.empty_pool) by (apply empty_lists_ok; reflexivity).
  assert (H2 : 1 <= max_pages_ Sample.empty_pool) by (cbn; lia).
  split; [exact H1|]. split; [exact H2|].
  destruct (allocate_page_then_get_page 7 Sample.empty_pool H1 H2)
    as (pm1 & E1 & _ & E3 & _).
  exists pm1. split; [exact E1|exact E3].
Defined.

(** The pool after the removal loop of [delete_table_file]. *)
Lemma drop_keys_lookup keys : forall pm k,
  buffer_pool_ (fold_left (fun acc key => drop_key key acc) keys pm) !! k
  = if decide (k ∈ keys) then None else buffer_pool_ pm !! k.
Proof.
  induction keys as [|key keys IH]; intros pm k; cbn [fold_left].
  - destruct (decide (k ∈ [])) as [H|]; [|reflexivity].
    apply list_elem_of_In in H. destruct H.
  - rewrite IH. cbn [drop_key buffer_pool_].
    destruct (decide (k ∈ keys)) as [Hin|Hnin].
    + destruct (decide (k ∈ key :: keys)) as [|Hn]; [reflexivity|].
      exfalso. apply Hn, list_elem_of_In. right. apply list_elem_of_In, Hin.
    + destruct (decide (key = k)) as [->|Hne].
      * rewrite lookup_delete_eq.
        destruct (decide (k ∈ k :: keys)) as [|Hn]; [reflexivity|].
        exfalso. apply Hn, list_elem_of_In. left. reflexivity.
      * rewrite lookup_delete_ne by exact Hne.
        destruct (decide (k ∈ key :: keys)) as [H|]; [|reflexivity].
        apply list_elem_of_In in H. destruct H as [?|H]; [contradiction|].
        apply list_elem_of_In in H. contradiction.
Qed.

Lemma drop_keys_others keys : forall pm,
  files_ (fold_left (fun acc key => drop_key key acc) keys pm) = files_ pm /\
  next_page_id_ (fold_left (fun acc key => drop_key key acc) keys pm)
  = next_page_id_ pm.
Proof.
  induction keys as [|key keys IH]; intros pm; cbn [fold_left]; [auto|].
  destruct (IH (drop_key key pm)) as [-> ->]. auto.
Qed.

(** Eviction does not touch the file of a table without resident pages. *)
Lemma evict_page_other_tables tid pm :
  (forall pid, buffer_pool_ pm !! (tid, pid) = None) ->
  files_ pm !! tid = None ->
  (forall pid, buffer_pool_ (evict_page pm) !! (tid, pid) = None) /\
  files_ (evict_page pm) !! tid = None.
Proof.
  intros Hp Hf. unfold evict_page.
  destruct (lru_list_ pm); [auto|].
  destruct (find_victim _ _) as [[n key]|]; [|auto].
  destruct (buffer_pool_ pm !! key) as [e|] eqn:He; [|auto].
  cbn [buffer_pool_ files_]. split.
  - intros pid. apply lookup_delete_None. right. apply Hp.
  - destruct (dirty e); [|exact Hf].
    unfold write_page. rewrite lookup_insert_ne; [exact Hf|].
    intros E. destruct key as [t0 p0]. cbn in E. subst t0.
    rewrite Hp in He. discriminate.
Qed.

Lemma evict_while_full_other_tables tid fuel : forall pm pm',
  evict_while_full fuel pm = Val tt pm' ->
  (forall pid, buffer_pool_ pm !! (tid, pid) = None) ->
  files_ pm !! tid = None ->
  (forall pid, buffer_pool_ pm' !! (tid, pid) = None) /\
  files_ pm' !! tid = None.
Proof.
  induction fuel as [|fuel IH]; intros pm pm' Hev Hp Hf; cbn in Hev;
    [discriminate|].
  destruct (page_count pm >=? max_pages_ pm).
  - destruct (evict_page_other_tables tid pm Hp Hf) as [Hp1 Hf1].
    exact (IH _ _ Hev Hp1 Hf1).
  - injection Hev as <-. auto.
Qed.

(** X25: [delete_table_file] removes every page of the table from the
    pool, the file and the page counter of the table, and leaves the pages,
    files and counters of the other tables alone.  Afterwards (with
    [max_pages >= 1]) [get_page] returns null for every page of the table
    and loads nothing, and [allocate_page] starts again at page 0. *)
Theorem delete_table_file_forgets tid pm :
  nodes_ok pm -> 1 <= max_pages_ pm ->
  (forall pid, buffer_pool_ (delete_table_file tid pm) !! (tid, pid) = None) /\
  (forall key, fst key <> tid ->
     buffer_pool_ (delete_table_file tid pm) !! key = buffer_pool_ pm !! key) /\
  files_ (delete_table_file tid pm) = delete tid (files_ pm) /\
  next_page_id_ (delete_table_file tid pm) = delete tid (next_page_id_ pm) /\
  (forall pid, exists pm',
     get_page (S (size (buffer_pool_ (delete_table_file tid pm)))) tid pid
       (delete_table_file tid pm) = Val None pm' /\
     forall pid', buffer_pool_ pm' !! (tid, pid') = None) /\
  exists pm',
    allocate_page (S (size (buffer_pool_ (delete_table_file tid pm)))) tid
      (delete_table_file tid pm) = Val 0 pm'.
Proof.
  intros Hok Hmax.
  remember (List.filter (fun key => fst key =? tid)
              (List.map fst (map_to_list (buffer_pool_ pm)))) as keys eqn:Hkeys.
  assert (Hin : forall k, k ∈ keys <->
            is_Some (buffer_pool_ pm !! k) /\ fst k = tid).
  { intros k. rewrite list_elem_of_In.
    subst keys. rewrite filter_In, in_map_iff. split.
    - intros [([k' e] & <- & Hi) Ht]. cbn [fst] in *.
      apply list_elem_of_In, elem_of_map_to_list in Hi.
      split; [eauto|]. apply Z.eqb_eq, Ht.
    - intros [[e He] Ht]. split; [|apply Z.eqb_eq, Ht].
      exists (k, e). split; [reflexivity|].
      apply list_elem_of_In, elem_of_map_to_list, He. }
  assert (Hpool : forall k, buffer_pool_ (delete_table_file tid pm) !! k
                  = if decide (k ∈ keys) then None else buffer_pool_ pm !! k).
  { intros k. unfold delete_table_file. cbn [buffer_pool_].
    rewrite <- Hkeys. apply drop_keys_lookup. }
  assert (Hnone : forall pid,
            buffer_pool_ (delete_table_file tid pm) !! (tid, pid) = None).
  { intros pid. rewrite Hpool.
    destruct (decide ((tid, pid) ∈ keys)) as [|Hn]; [reflexivity|].
    destruct (buffer_pool_ pm !! (tid, pid)) as [e|] eqn:He; [|reflexivity].
    exfalso. apply Hn, Hin. split; [eauto|reflexivity]. }
  assert (Hfiles : files_ (delete_table_file tid pm) = delete tid (files_ pm)).
  { unfold delete_table_file. cbn [files_]. rewrite <- Hkeys.
    rewrite (proj1 (drop_keys_others keys pm)). reflexivity. }
  assert (Hnext : next_page_id_ (delete_table_file tid pm)
                  = delete tid (next_page_id_ pm)).
  { unfold delete_table_file. cbn [next_page_id_]. rewrite <- Hkeys.
    rewrite (proj2 (drop_keys_others keys pm)). reflexivity. }
  assert (Hok' : nodes_ok (delete_table_file tid pm) /\
                 max_pages_ (delete_table_file tid pm) = max_pages_ pm).
  { unfold delete_table_file. rewrite <- Hkeys.
    destruct (drop_keys_ok keys pm Hok) as (H1 & _ & H3).
    split; [|cbn; exact H3].
    eapply same_keys_ok; [| | | |exact H1]; cbn; auto. }
  destruct Hok' as [Hok' Hmax'].
  split; [exact Hnone|]. split; [|split; [exact Hfiles|split; [exact Hnext|split]]].
  - intros key Hne. rewrite Hpool.
    destruct (decide (key ∈ keys)) as [Hi|]; [|reflexivity].
    apply Hin in Hi as [_ Ht]. contradiction.
  - intros pid. unfold get_page. unfold_monad. rewrite Hnone.
    unfold load_page. unfold_monad.
    destruct (evict_while_full_terminates
                (size (buffer_pool_ (delete_table_file tid pm)))
                (delete_table_file tid pm) Hok') as [pm1 Hev];
      [lia|reflexivity|].
    rewrite Hev.
    destruct (evict_while_full_other_tables tid _ _ _ Hev Hnone) as [Hp1 Hf1].
    { rewrite Hfiles. apply lookup_delete_eq. }
    rewrite Hf1. eexists. split; [reflexivity|exact Hp1].
  - destruct (allocate_page_returns tid (delete_table_file tid pm) Hok')
      as (pid & pm1 & Ha); [lia|].
    exists pm1. rewrite Ha. f_equal.
    unfold allocate_page in Ha. unfold_monad.
    rewrite Hnext, lookup_delete_eq in Ha. cbn [default] in Ha.
    destruct (evict_while_full _ _) as [[] pm2| | |]; try discriminate.
    injection Ha as <- _. reflexivity.
Qed.

(** Table 1 with its file, its page counter and page 0 resident: all three
    are gone after the call, and the page is not found again. *)
Lemma delete_table_file_forgets_witness :
  nodes_ok Example.pool_with_table /\
  1 <= max_pages_ Example.pool_with_table /\
  is_Some (buffer_pool_ Example.pool_with_table !! (1, 0)) /\
  is_Some (files_ Example.pool_with_table !! 1) /\
  next_page_id_ Example.pool_with_table !! 1 = Some 1 /\
  buffer_pool_ (delete_table_file 1 Example.pool_with_table) !! (1, 0) = None /\
  files_ (delete_table_file 1 Example.pool_with_table) !! 1 = None /\
  next_page_id_ (delete_table_file 1 Example.pool_with_table) !! 1 = None /\
  exists pm',
    get_page
      (S (size (buffer_pool_ (delete_table_file 1 Example.pool_with_table))))
      1 0 (delete_table_file 1 Example.pool_with_table) = Val None pm'.
Proof.
  assert (Hr : reachable 4 Example.pool_with_table).
  { unfold Example.pool_with_table. apply reach_flush_all.
    apply (reach_allocate_page 4 (create_table_file 1 Sample.empty_pool) 1 1 0);
      [apply reach_create_table_file, reach_new|lia|].
    vm_compute. reflexivity. }
  destruct (reachable_within 4 _ ltac:(lia) Hr) as [[H1 _] Hm].
  assert (H2 : 1 <= max_pages_ Example.pool_with_table) by (rewrite Hm; lia).
  split; [exact H1|]. split; [exact H2|].
  split; [vm_compute; eexists; reflexivity|].
  split; [vm_compute; eexists; reflexivity|].
  split; [vm_compute; reflexivity|].
  destruct (delete_table_file_forgets 1 Example.pool_with_table H1 H2)
    as (Hnone & _ & Hfiles & Hnext & Hget & _).
  split; [exact (Hnone 0)|].
  split; [rewrite Hfiles; apply lookup_delete_eq|].
  split; [rewrite Hnext; apply lookup_delete_eq|].
  destruct (Hget 0) as (pm' & Hg & _). exists pm'. exact Hg.
Defined.

End PoolTables.

(** ** Pages: room for records *)

Section PageRoom.
Import Mem Page PageSpec.

Ltac small_mod :=
  repeat match goal with
  | |- context [?a mod ?b] => rewrite (Z.mod_small a b) by lia
  end.

(** On a page that represents slots, [insert_record] refuses a record
    exactly when the free space is short: the check against the end of the
    slot directory never fires. *)
Lemma insert_record_refused_iff p A data :
  represents p A -> len data + 4 < 65536 ->
  insert_record data (len data) p = Refused
  <-> free_space (header p) < len data + 4.
Proof.
  intros Hrep Hrepr.
  pose proof (rep_length _ _ Hrep) as Hlen.
  pose proof (rep_slot_count _ _ Hrep) as Hsc.
  pose proof (rep_data_start _ _ Hrep) as Hds.
  pose proof (rep_free_space _ _ Hrep) as Hfs.
  pose proof (rep_gap _ _ Hrep) as Hgap.
  pose proof (caps_nonneg _ _ Hrep) as Hcaps.
  pose proof (total_cap_nonneg A Hcaps) as Hnn.
  assert (HlenZ : Z.of_nat (List.length p) = 8192) by (rewrite Hlen; reflexivity).
  unfold insert_record, slot_directory_end, memcpy_in, slot_address,
    sizeof_SlotEntry, sizeof_PageHeader.
  unfold PAGE_SIZE, len in *.
  remember (header p) as hp eqn:Hhp.
  remember (Z.of_nat (List.length A)) as n eqn:Hn.
  remember (data_start hp) as ds eqn:Eds.
  remember (free_space hp) as fs eqn:Efs.
  remember (Z.of_nat (List.length data)) as L eqn:EL.
  rewrite Hsc.
  assert (Hsde : ((24 + n * 4) mod 65536 + 4) mod 65536 = 28 + 4 * n)
    by (small_mod; lia).
  rewrite Hsde.
  rewrite (Z.mod_small (L + 4)) by lia.
  destruct (fs <? L + 4) eqn:E1; [zbool; tauto|]. zbool.
  rewrite (Z.mod_small (ds - L)) by lia.
  destruct (ds - L <? 28 + 4 * n) eqn:E2; [zbool; lia|]. clear E2.
  rewrite Z.leb_refl.
  assert (Htake : take (Z.to_nat L) data = data) by (apply take_ge; lia).
  rewrite Htake.
  rewrite store_in_range by lia.
  remember (poke (Z.to_nat (ds - L)) data p) as p1 eqn:Hp1.
  assert (Hlen1 : List.length p1 = List.length p)
    by (rewrite Hp1, poke_length; lia).
  assert (Hh1 : header p1 = hp)
    by (rewrite Hhp, Hp1; apply header_poke; lia).
  rewrite Hh1, Hsc.
  rewrite store_in_range by (rewrite ?length_encode_slot, ?Hlen1; lia).
  split; [discriminate|lia].
Qed.

(** X26: on a page built from [init] by inserts, updates and deletes, a
    record of fewer than 65532 bytes is inserted exactly when the free
    space holds it and a slot entry of 4 bytes.  It then gets the next
    slot index, the free space shrinks by the length plus 4, the record
    region grows downwards by the length, and [get_record] reads the
    bytes back; otherwise the call refuses. *)
Theorem insert_record_succeeds_iff_fits ops pid fl p sh data :
  Forall representable ops ->
  run ops (init pid fl, ∅) = Some (p, sh) ->
  len data + 4 < 65536 ->
  (len data + 4 <= free_space (header p) ->
   exists p',
     insert_record data (len data) p = Done (slot_count (header p), p') /\
     free_space (header p') = free_space (header p) - (len data + 4) /\
     slot_count (header p') = slot_count (header p) + 1 /\
     data_start (header p') = data_start (header p) - len data /\
     exists ptr,
       get_record (slot_count (header p)) p' = Done ptr /\
       record_bytes ptr p' = Some data) /\
  (free_space (header p) < len data + 4 ->
   insert_record data (len data) p = Refused).
Proof.
  intros Hops Hrun Hsmall.
  destruct (run_represents ops _ _ [] _ _ Hops (init_represents pid fl)
              tracks_empty Hrun) as (A & Hrep & _ & _).
  pose proof (insert_record_refused_iff p A data Hrep Hsmall) as Hiff.
  split; [|intros H; apply Hiff, H].
  intros Hfit.
  destruct (insert_record data (len data) p) as [[i p']| |] eqn:E.
  - assert (Hlt : len data < 65536) by lia.
    destruct (insert_record_represents _ _ _ _ _ Hrep Hlt E) as [-> Hrep'].
    pose proof (rep_slot_count _ _ Hrep) as Hsc.
    pose proof (rep_data_start _ _ Hrep) as Hds.
    pose proof (rep_free_space _ _ Hrep) as Hfs.
    pose proof (rep_slot_count _ _ Hrep') as Hsc'.
    pose proof (rep_data_start _ _ Hrep') as Hds'.
    pose proof (rep_free_space _ _ Hrep') as Hfs'.
    rewrite length_app in Hsc', Hfs'. cbn [List.length] in Hsc', Hfs'.
    rewrite total_cap_app in Hds'. cbn [total_cap fold_right cap] in Hds'.
    exists p'. rewrite Hsc. split; [reflexivity|].
    split; [lia|]. split; [lia|]. split; [lia|].
    pose proof (get_record_represented p' _ (Z.of_nat (List.length A)) Hrep'
                  (Nat2Z.is_nonneg _)) as Hg.
    rewrite Nat2Z.id in Hg.
    rewrite lookup_app_r in Hg by lia.
    rewrite Nat.sub_diag in Hg. cbn in Hg.
    destruct Hg as [Hg1 Hg2]. eexists. split; [exact Hg1|exact Hg2].
  - pose proof (proj1 Hiff eq_refl). lia.
  - exfalso. exact (insert_record_defined p A data Hrep Hsmall E).
Qed.

Lemma insert_record_succeeds_iff_fits_witness :
  Forall representable Sample.page_calls /\
  run Sample.page_calls (init 7 FLAG_LEAF, ∅)
  = Some (fst (Sample.after_calls Sample.page_calls),
          snd (Sample.after_calls Sample.page_calls)) /\
  len [x45; x46] + 4 < 65536 /\
  len [x45; x46] + 4
  <= free_space (header (fst (Sample.after_calls Sample.page_calls))) /\
  exists p',
    insert_record [x45; x46] (len [x45; x46])
      (fst (Sample.after_calls Sample.page_calls))
    = Done (slot_count (header (fst (Sample.after_calls Sample.page_calls))), p').
Proof.
  assert (Hops : Forall representable Sample.page_calls)
    by (repeat constructor; cbn; lia).
  assert (Hrun : run Sample.page_calls (init 7 FLAG_LEAF, ∅)
                 = Some (fst (Sample.after_calls Sample.page_calls),
                         snd (Sample.after_calls Sample.page_calls)))
    by (vm_compute; reflexivity).
  assert (Hs : len [x45; x46] + 4 < 65536) by (vm_compute; reflexivity).
  assert (Hf : len [x45; x46] + 4
               <= free_space (header (fst (Sample.after_calls Sample.page_calls))))
    by (vm_compute; discriminate).
  split; [exact Hops|]. split; [exact Hrun|]. split; [exact Hs|].
  split; [exact Hf|].
  destruct (proj1 (insert_record_succeeds_iff_fits Sample.page_calls 7 FLAG_LEAF
                     _ _ [x45; x46] Hops Hrun Hs) Hf) as (p' & E & _).
  exists p'. exact E.
Defined.

(** X27: deleting a record frees no space.  On a page built from [init] by
    inserts, updates and deletes, a successful [delete_record] leaves the
    slot count, the free space and the start of the record region as they
    were; the slot reads as absent afterwards, and [insert_record] accepts
    and refuses the same records as before. *)
Theorem delete_record_frees_no_space ops pid fl p sh k p' :
  Forall representable ops ->
  run ops (init pid fl, ∅) = Some (p, sh) ->
  0 <= k ->
  delete_record k p = Done p' ->
  slot_count (header p') = slot_count (header p) /\
  free_space (header p') = free_space (header p) /\
  data_start (header p') = data_start (header p) /\
  get_record k p' = Refused /\
  forall data, len data + 4 < 65536 ->
    (insert_record data (len data) p' = Refused
     <-> insert_record data (len data) p = Refused).
Proof.
  intros Hops Hrun Hk Hdel.
  destruct (run_represents ops _ _ [] _ _ Hops (init_represents pid fl)
              tracks_empty Hrun) as (A & Hrep & _ & _).
  destruct (delete_record_represents _ _ _ _ Hrep Hk Hdel)
    as (a & Ha & _ & Hrep').
  pose proof (rep_slot_count _ _ Hrep) as Hsc.
  pose proof (rep_data_start _ _ Hrep) as Hds.
  pose proof (rep_free_space _ _ Hrep) as Hfs.
  pose proof (rep_slot_count _ _ Hrep') as Hsc'.
  pose proof (rep_data_start _ _ Hrep') as Hds'.
  pose proof (rep_free_space _ _ Hrep') as Hfs'.
  rewrite length_insert in Hsc', Hfs'.
  rewrite total_cap_insert in Hds'
    by (intros a0 Ha0; rewrite Ha in Ha0; injection Ha0 as <-; reflexivity).
  assert (E1 : slot_count (header p') = slot_count (header p)) by lia.
  assert (E2 : data_start (header p') = data_start (header p)) by lia.
  assert (E3 : free_space (header p') = free_space (header p)) by lia.
  split; [exact E1|]. split; [exact E3|]. split; [exact E2|]. split.
  - pose proof (get_record_represented p' _ k Hrep' Hk) as Hg.
    rewrite list_lookup_insert_eq in Hg by (apply lookup_lt_Some in Ha; exact Ha).
    exact Hg.
  - intros data Hsmall.
    rewrite (insert_record_refused_iff p' _ data Hrep' Hsmall).
    rewrite (insert_record_refused_iff p A data Hrep Hsmall).
    rewrite E3. reflexivity.
Qed.

Lemma delete_record_frees_no_space_witness :
  Forall representable [Insert [x41]] /\
  delete_record 0 (fst (Sample.after_calls [Insert [x41]]))
  = Done (fst (Sample.after_calls [Insert [x41]; Delete 0])) /\
  free_space (header (fst (Sample.after_calls [Insert [x41]; Delete 0])))
  = free_space (header (fst (Sample.after_calls [Insert [x41]]))).
Proof.
  assert (Hops : Forall representable [Insert [x41]])
    by (repeat constructor; cbn; lia).
  assert (Hrun : run [Insert [x41]] (init 7 FLAG_LEAF, ∅)
                 = Some (fst (Sample.after_calls [Insert [x41]]),
                         snd (Sample.after_calls [Insert [x41]])))
    by (vm_compute; reflexivity).
  assert (Hk : 0 <= 0) by lia.
  assert (Hd : delete_record 0 (fst (Sample.after_calls [Insert [x41]]))
               = Done (fst (Sample.after_calls [Insert [x41]; Delete 0])))
    by (vm_compute; reflexivity).
  split; [exact Hops|]. split; [exact Hd|].
  exact (proj1 (proj2 (delete_record_frees_no_space [Insert [x41]] 7 FLAG_LEAF
                         _ _ 0 _ Hops Hrun Hk Hd))).
Defined.

(** X28: a record can be updated in place only with data no longer than
    it currently is.  On a page built from [init] by inserts, updates and
    deletes, [update_record] on a slot that holds [bs] succeeds exactly
    when the new data is no longer than [bs]; it then reads back as the
    new data, and the free space is unchanged, so the bytes given up by a
    shorter update are lost to the slot and to the page. *)
Theorem update_record_only_shrinks ops pid fl p sh k ptr data :
  Forall representable ops ->
  run ops (init pid fl, ∅) = Some (p, sh) ->
  0 <= k -> len data < 65536 ->
  get_record k p = Done ptr ->
  (len data <= snd ptr ->
   exists p' ptr',
     update_record k data (len data) p = Done p' /\
     get_record k p' = Done ptr' /\ snd ptr' = len data /\
     record_bytes ptr' p' = Some data /\
     free_space (header p') = free_space (header p)) /\
  (snd ptr < len data -> update_record k data (len data) p = Refused).
Proof.
  intros Hops Hrun Hk Hsmall Hget.
  destruct (run_represents ops _ _ [] _ _ Hops (init_represents pid fl)
              tracks_empty Hrun) as (A & Hrep & _ & _).
  pose proof (get_record_represented p A k Hrep Hk) as Hg.
  destruct (A !! Z.to_nat k) as [a|] eqn:Ha; [|rewrite Hget in Hg; discriminate].
  destruct (content a) as [bs|] eqn:Hc; [|rewrite Hget in Hg; discriminate].
  destruct Hg as [Hg _]. rewrite Hget in Hg. injection Hg as ->.
  cbn [snd].
  pose proof (get_slot_resident _ _ _ _ Hrep Ha) as Hslot.
  rewrite Z2Nat.id in Hslot by exact Hk.
  destruct (rep_slots _ _ Hrep _ _ Ha) as [_ Hs]. rewrite Hc in Hs.
  destruct Hs as (Hd & _ & _).
  assert (Hlive : is_empty (mkSlotEntry (extent_off A (Z.to_nat k)) (len bs))
                  || is_deleted (mkSlotEntry (extent_off A (Z.to_nat k)) (len bs))
                  = false).
  { unfold get_record in Hget. rewrite Hslot, Hd in Hget.
    destruct (is_empty _ || is_deleted _); [discriminate|reflexivity]. }
  split.
  - intros Hle.
    destruct (update_record k data (len data) p) as [p'| |] eqn:E.
    + destruct (update_record_represents _ _ _ _ _ Hrep Hk E)
        as (a' & Ha' & _ & Hrep').
      rewrite Ha in Ha'. injection Ha' as <-.
      pose proof (get_record_represented p' _ k Hrep' Hk) as Hg'.
      rewrite list_lookup_insert_eq in Hg'
        by (apply lookup_lt_Some in Ha; exact Ha).
      cbn [content] in Hg'. destruct Hg' as [Hg1 Hg2].
      exists p'. eexists. split; [reflexivity|]. split; [exact Hg1|].
      split; [reflexivity|]. split; [exact Hg2|].
      pose proof (rep_data_start _ _ Hrep) as Hds.
      pose proof (rep_free_space _ _ Hrep) as Hfs.
      pose proof (rep_data_start _ _ Hrep') as Hds'.
      pose proof (rep_free_space _ _ Hrep') as Hfs'.
      rewrite length_insert in Hfs'.
      rewrite total_cap_insert in Hds'
        by (intros a0 Ha0; rewrite Ha in Ha0; injection Ha0 as <-; reflexivity).
      lia.
    + exfalso. unfold update_record in E. rewrite Hslot, Hd, Hlive in E.
      cbn [length] in E.
      destruct (len data >? len bs) eqn:E1; [zbool; lia|].
      destruct (memcpy_in _ _ _ _) as [p1|]; [|discriminate].
      destruct (store _ _ _); discriminate.
    + exfalso. exact (update_record_defined p A k data Hrep Hk E).
  - intros Hgt. unfold update_record. rewrite Hslot, Hd, Hlive.
    cbn [length].
    destruct (len data >? len bs) eqn:E1; [reflexivity|zbool; lia].
Qed.

Lemma update_record_only_shrinks_witness :
  Forall representable [Insert [x41; x42]] /\
  get_record 0 (fst (Sample.after_calls [Insert [x41; x42]])) = Done (8190, 2) /\
  update_record 0 [x43; x44; x45] (len [x43; x44; x45])
    (fst (Sample.after_calls [Insert [x41; x42]])) = Refused.
Proof.
  assert (Hops : Forall representable [Insert [x41; x42]])
    by (repeat constructor; cbn; lia).
  assert (Hrun : run [Insert [x41; x42]] (init 7 FLAG_LEAF, ∅)
                 = Some (fst (Sample.after_calls [Insert [x41; x42]]),
                         snd (Sample.after_calls [Insert [x41; x42]])))
    by (vm_compute; reflexivity).
  assert (Hk : 0 <= 0) by lia.
  assert (Hs : len [x43; x44; x45] < 65536) by (vm_compute; reflexivity).
  assert (Hg : get_record 0 (fst (Sample.after_calls [Insert [x41; x42]]))
               = Done (8190, 2)) by (vm_compute; reflexivity).
  assert (Hlt : snd (8190, 2) < len [x43; x44; x45]) by (vm_compute; reflexivity).
  split; [exact Hops|]. split; [exact Hg|].
  exact (proj2 (update_record_only_shrinks [Insert [x41; x42]] 7 FLAG_LEAF
                  _ _ 0 (8190, 2) [x43; x44; x45] Hops Hrun Hk Hs Hg) Hlt).
Defined.

End PageRoom.

(** ** Executor: plans without an operator *)

Section UnsupportedPlans.
Context (Expression : Type).
Context (std_sort : (Executor.ResultRow -> Executor.ResultRow -> bool) ->
                    list Executor.ResultRow -> list Executor.ResultRow).
Import Executor ExecutorSpec.

Lemma execute_failure fuel plan e what :
  (forall e0, dispatch Expression std_sort fuel plan e0
              = Val (with_error what default_result) e0) ->
  fails_with Expression std_sort fuel plan e what.
Proof.
  intros Hd.
  destruct (execute_cases Expression std_sort fuel plan e)
    as (e0 & _ & E1 & E2 & _ & _ & H).
  rewrite Hd in H. destruct H as (e2 & H & F1 & F2 & _).
  eexists _, e2. split; [exact H|]. cbn.
  repeat split; congruence.
Qed.

(** X29: projections, aggregates and index scans are not executed.  A
    plan of type PROJECT or AGGREGATE, whatever it holds, fails with
    "Failed to build operator tree", and a plan of type INDEX_SCAN with
    "Unsupported plan type"; so does a filter, sort or limit plan without
    a child.  The result has no rows and the catalog and the buffer pool
    are left as they were. *)
Theorem plans_without_operator_fail fuel e :
  (forall nd,
     fails_with Expression std_sort fuel (mkPlanNode Expression PROJECT nd) e
       "Failed to build operator tree") /\
  (forall nd,
     fails_with Expression std_sort fuel (mkPlanNode Expression AGGREGATE nd) e
       "Failed to build operator tree") /\
  (forall nd,
     fails_with Expression std_sort fuel (mkPlanNode Expression INDEX_SCAN nd) e
       "Unsupported plan type") /\
  (forall predicate,
     fails_with Expression std_sort fuel
       (mkPlanNode Expression FILTER (FilterNode Expression _ None predicate)) e
       "Failed to build operator tree") /\
  (forall sort_keys ascending,
     fails_with Expression std_sort fuel
       (mkPlanNode Expression SORT
          (SortNode Expression _ None sort_keys ascending)) e
       "Failed to build operator tree") /\
  (forall limit offset,
     fails_with Expression std_sort fuel
       (mkPlanNode Expression LIMIT (LimitNode Expression _ None limit offset)) e
       "Failed to build operator tree").
Proof.
  repeat split; intros; apply execute_failure; intros e0;
    try reflexivity; destruct nd; reflexivity.
Qed.

End UnsupportedPlans.

(** ** Buffer pool: eviction and reloading *)

Section Reloading.
Import PageManager PoolSpec FlushSpec.

(** Eviction leaves the image of a page that is not resident alone. *)
Lemma evict_page_keeps_image tid pid x pm :
  0 <= pid ->
  (forall key e, buffer_pool_ pm !! key = Some e ->
     key <> (tid, pid) /\ 0 <= snd key) ->
  on_disk (files_ pm) tid pid = Some x ->
  (forall key e, buffer_pool_ (evict_page pm) !! key = Some e ->
     key <> (tid, pid) /\ 0 <= snd key) /\
  on_disk (files_ (evict_page pm)) tid pid = Some x.
Proof.
  intros Hpid Hp Hf. unfold evict_page.
  destruct (lru_list_ pm); [auto|].
  destruct (find_victim _ _) as [[n key]|]; [|auto].
  destruct (buffer_pool_ pm !! key) as [e|] eqn:He; [|auto].
  cbn [buffer_pool_ files_]. split.
  - intros key' e' H. apply lookup_delete_Some in H as [_ H]. eauto.
  - destruct (dirty e); [|exact Hf].
    destruct (Hp key e He) as [Hne H0].
    apply on_disk_write_ne; [exact H0|exact Hpid| |exact Hf].
    destruct key. exact Hne.
Qed.

Lemma evict_while_full_keeps_image tid pid x fuel : forall pm pm',
  0 <= pid ->
  evict_while_full fuel pm = Val tt pm' ->
  (forall key e, buffer_pool_ pm !! key = Some e ->
     key <> (tid, pid) /\ 0 <= snd key) ->
  on_disk (files_ pm) tid pid = Some x ->
  buffer_pool_ pm' !! (tid, pid) = None /\
  on_disk (files_ pm') tid pid = Some x.
Proof.
  induction fuel as [|fuel IH]; intros pm pm' Hpid Hev Hp Hf; cbn in Hev;
    [discriminate|].
  destruct (page_count pm >=? max_pages_ pm).
  - destruct (evict_page_keeps_image tid pid x pm Hpid Hp Hf) as [Hp1 Hf1].
    exact (IH _ _ Hpid Hev Hp1 Hf1).
  - injection Hev as <-. split; [|exact Hf].
    destruct (buffer_pool_ pm !! (tid, pid)) as [e|] eqn:He; [|reflexivity].
    destruct (Hp _ _ He) as [Hne _]. contradiction.
Qed.

(** X30: with [max_pages >= 1], [evict_page] on a pool that is not empty
    removes one page; when that page is dirty, its bytes are in the file
    of its table afterwards, and a [get_page] for it reads them back: the
    page is resident again with the bytes it had when it was evicted, and
    is not dirty. *)
Theorem evicted_dirty_page_reloads pm :
  nodes_ok pm -> keyed pm -> 1 <= max_pages_ pm ->
  (0 < size (buffer_pool_ pm))%nat ->
  exists key e,
    buffer_pool_ pm !! key = Some e /\
    buffer_pool_ (evict_page pm) = delete key (buffer_pool_ pm) /\
    (dirty e = true ->
     on_disk (files_ (evict_page pm)) (fst key) (snd key) = Some (page e) /\
     (Page.is_valid (Page.header (page e)) = true ->
      exists pm',
        get_page (S (size (buffer_pool_ (evict_page pm)))) (fst key) (snd key)
          (evict_page pm) = Val (Some key) pm' /\
        buffer_pool_ pm' !! key
        = Some (mkBufferEntry (fst key) (snd key) (page e) false))).
Proof.
  intros Hok Hk Hmax Hpos.
  destruct (evict_page_removes_one pm Hok Hpos)
    as (key & e & He & Hpool & Hfiles & _ & Hmax' & Hok').
  exists key, e. split; [exact He|]. split; [exact Hpool|].
  intros Hd. destruct (Hk key e He) as (_ & _ & H0).
  assert (Hdisk : on_disk (files_ (evict_page pm)) (fst key) (snd key)
                  = Some (page e)).
  { rewrite Hfiles, Hd. apply on_disk_write_eq. }
  split; [exact Hdisk|]. intros Hvalid.
  destruct key as [tid pid]. cbn [fst snd] in *.
  assert (Hothers : forall key' e', buffer_pool_ (evict_page pm) !! key' = Some e' ->
            key' <> (tid, pid) /\ 0 <= snd key').
  { intros key' e' H. rewrite Hpool in H.
    apply lookup_delete_Some in H as [Hne H].
    split; [congruence|]. apply (Hk key' e' H). }
  assert (Hnone : buffer_pool_ (evict_page pm) !! (tid, pid) = None)
    by (rewrite Hpool; apply lookup_delete_eq).
  unfold get_page. unfold_monad. rewrite Hnone.
  unfold load_page. unfold_monad.
  destruct (evict_while_full_terminates
              (size (buffer_pool_ (evict_page pm))) (evict_page pm) Hok')
    as [pm1 Hev]; [lia|reflexivity|].
  rewrite Hev.
  destruct (evict_while_full_keeps_image tid pid (page e) _ _ _ H0 Hev Hothers Hdisk)
    as [_ Hdisk1].
  unfold on_disk in Hdisk1.
  destruct (files_ pm1 !! tid) as [f|]; [|discriminate].
  rewrite Hdisk1, Hvalid. cbn [negb].
  eexists. split; [reflexivity|].
  cbn [install lru_push_front with_pool buffer_pool_].
  apply lookup_insert_eq.
Qed.

Lemma evicted_dirty_page_reloads_witness :
  nodes_ok Example.pool_one_dirty /\ keyed Example.pool_one_dirty /\
  1 <= max_pages_ Example.pool_one_dirty /\
  (0 < size (buffer_pool_ Example.pool_one_dirty))%nat /\
  exists key e,
    buffer_pool_ Example.pool_one_dirty !! key = Some e /\
    buffer_pool_ (evict_page Example.pool_one_dirty)
    = delete key (buffer_pool_ Example.pool_one_dirty).
Proof.
  assert (Hp : Example.pool_one_dirty
               = install (1, 0)
                   (mkBufferEntry 1 0 (Page.init 0 Page.FLAG_LEAF) true)
                   (mkPageManager 4 ∅ [] ∅ O {[ 1 := 1 ]} ∅))
    by (vm_compute; reflexivity).
  assert (H1 : nodes_ok Example.pool_one_dirty).
  { rewrite Hp. apply install_ok, empty_lists_ok; reflexivity. }
  assert (H2 : keyed Example.pool_one_dirty).
  { intros key e He. rewrite Hp in He. cbn in He.
    apply lookup_insert_Some in He as [[<- <-]|[_ He]];
      [cbn; lia|rewrite lookup_empty in He; discriminate]. }
  assert (H3 : 1 <= max_pages_ Example.pool_one_dirty)
    by (vm_compute; discriminate).
  assert (H4 : (0 < size (buffer_pool_ Example.pool_one_dirty))%nat)
    by (vm_compute; lia).
  split; [exact H1|]. split; [exact H2|]. split; [exact H3|]. split; [exact H4|].
  destruct (evicted_dirty_page_reloads Example.pool_one_dirty H1 H2 H3 H4)
    as (key & e & E1 & E2 & _).
  exists key, e. split; [exact E1|exact E2].
Defined.

End Reloading.

(** ** Buffer pool: capacity *)

Section Capacity.
Import PageManager PoolSpec FlushSpec.

Lemma evict_page_ids pm : ids_in_range pm -> ids_in_range (evict_page pm).
Proof.
  intros [Hp Hc]. unfold evict_page.
  destruct (lru_list_ pm); [split; assumption|].
  destruct (find_victim _ _) as [[n key]|]; [|split; assumption].
  destruct (buffer_pool_ pm !! key) as [e|]; [|split; assumption].
  split; cbn [buffer_pool_ next_page_id_]; [|exact Hc].
  intros key' e' H. apply lookup_delete_Some in H as [_ H]. eauto.
Qed.

Lemma evict_while_full_ids fuel : forall pm pm',
  evict_while_full fuel pm = Val tt pm' -> ids_in_range pm -> ids_in_range pm'.
Proof.
  induction fuel as [|fuel IH]; intros pm pm' Hev Hi; cbn in Hev;
    [discriminate|].
  destruct (page_count pm >=? max_pages_ pm).
  - exact (IH _ _ Hev (evict_page_ids pm Hi)).
  - injection Hev as <-. exact Hi.
Qed.

Lemma install_ids key e pm :
  0 <= snd key -> ids_in_range pm -> ids_in_range (install key e pm).
Proof.
  intros Hk [Hp Hc]. split; cbn; [|exact Hc].
  intros key' e' H. apply lookup_insert_Some in H as [[<- _]|[_ H]]; eauto.
Qed.

Lemma same_pool_keys_ids (pm pm' : t) :
  (forall k, is_Some (buffer_pool_ pm' !! k) -> is_Some (buffer_pool_ pm !! k)) ->
  (forall tid n, next_page_id_ pm' !! tid = Some n ->
     n = 0 \/ next_page_id_ pm !! tid = Some n) ->
  ids_in_range pm -> ids_in_range pm'.
Proof.
  intros Hk Hn [Hp Hc]. split.
  - intros key e H. destruct (Hk key) as [e0 He0]; eauto.
  - intros tid n H. destruct (Hn tid n H) as [->|H']; [lia|eauto].
Qed.

Lemma drop_keys_subset keys : forall pm k,
  is_Some (buffer_pool_ (fold_left (fun acc key => drop_key key acc) keys pm) !! k) ->
  is_Some (buffer_pool_ pm !! k).
Proof.
  induction keys as [|key keys IH]; intros pm k H; cbn [fold_left] in H;
    [exact H|].
  apply IH in H. cbn [drop_key buffer_pool_] in H.
  destruct H as [e H]. apply lookup_delete_Some in H as [_ H]. eauto.
Qed.

Lemma drop_keys_counters keys : forall pm,
  next_page_id_ (fold_left (fun acc key => drop_key key acc) keys pm)
  = next_page_id_ pm.
Proof.
  induction keys as [|key keys IH]; intros pm; cbn [fold_left]; [reflexivity|].
  rewrite IH. reflexivity.
Qed.

(** The page ids of a page manager that a program can hold are in range. *)
Lemma reachable_ids max_pages pm : reachable max_pages pm -> ids_in_range pm.
Proof.
  induction 1 as [files
                 |pm fuel tid pid r pm' Hr IH Htid Hpid Hg
                 |pm fuel tid r pm' Hr IH Htid Ha
                 |pm tid pid Hr IH|pm tid pid Hr IH|pm Hr IH
                 |pm tid Hr IH|pm tid Hr IH|pm Hr IH
                 |pm key pg pm' Hr IH Has].
  - split; cbn; intros ? ? H; rewrite lookup_empty in H; discriminate.
  - unfold get_page in Hg. unfold_monad.
    destruct (buffer_pool_ pm !! (tid, pid)) as [e|] eqn:He.
    + destruct (lru_map_ pm !! (tid, pid)); injection Hg as _ <-;
        [|exact IH].
      apply (same_pool_keys_ids pm); cbn; auto.
    + unfold load_page in Hg. unfold_monad.
      destruct (evict_while_full fuel pm) as [[] pm1| | |] eqn:Hev;
        try discriminate.
      pose proof (evict_while_full_ids _ _ _ Hev IH) as Hi1.
      destruct (files_ pm1 !! tid) as [f|];
        [|injection Hg as _ <-; exact Hi1].
      destruct (f !! Z.to_nat pid) as [pg|];
        [|injection Hg as _ <-; exact Hi1].
      destruct (negb (Page.is_valid (Page.header pg)));
        injection Hg as _ <-; [exact Hi1|].
      apply install_ids; [cbn; lia|exact Hi1].
  - unfold allocate_page in Ha. unfold_monad.
    match type of Ha with context [evict_while_full fuel ?p] =>
      remember p as pm0 eqn:Hpm0 end.
    assert (Hi0 : ids_in_range pm0).
    { destruct IH as [Hp Hc]. subst pm0. split; cbn; [exact Hp|].
      intros tid' n H. apply lookup_insert_Some in H as [[_ <-]|[_ H]];
        [apply Z.mod_pos_bound; lia|eauto]. }
    destruct (evict_while_full fuel pm0) as [[] pm1| | |] eqn:Hev;
      try discriminate.
    injection Ha as _ <-.
    apply install_ids; [|exact (evict_while_full_ids _ _ _ Hev Hi0)].
    cbn. destruct IH as [_ Hc].
    destruct (next_page_id_ pm !! tid) as [n|] eqn:En; cbn; [eauto|lia].
  - unfold mark_dirty.
    destruct (buffer_pool_ pm !! (tid, pid)) as [e|] eqn:He; [|exact IH].
    apply (same_pool_keys_ids pm); cbn; auto.
    intros k. apply (insert_existing_is_Some _ _ _ _ _ He).
  - unfold flush_page.
    destruct (buffer_pool_ pm !! (tid, pid)) as [e|] eqn:He; [|exact IH].
    destruct (dirty e); [|exact IH].
    apply (same_pool_keys_ids pm); cbn; auto.
    intros k. apply (insert_existing_is_Some _ _ _ _ _ He).
  - apply (same_pool_keys_ids pm); cbn; auto.
    intros k. apply map_fmap_is_Some.
  - apply (same_pool_keys_ids pm); cbn; auto.
    intros tid' n H. apply lookup_insert_Some in H as [[_ <-]|[_ H]]; auto.
  - apply (same_pool_keys_ids pm); cbn.
    + intros k. apply drop_keys_subset.
    + intros tid' n H. apply lookup_delete_Some in H as [_ H].
      rewrite drop_keys_counters in H. auto.
    + exact IH.
  - apply (same_pool_keys_ids pm); cbn; auto.
    intros k [e H]. rewrite lookup_empty in H. discriminate.
  - unfold assign in Has.
    destruct (buffer_pool_ pm !! key) as [e|] eqn:He; [|discriminate].
    injection Has as <-.
    apply (same_pool_keys_ids pm); cbn; auto.
    intros k. apply (insert_existing_is_Some _ _ _ _ _ He).
Qed.

(** C10: for a page manager built with [max_pages >= 1], the pool never
    holds more than [max_pages] pages.  [evict_page] on a pool that is not
    empty removes exactly one resident entry; when the entry is dirty, the
    file of its table afterwards holds the bytes of its page at the index
    of the page, and otherwise the files are as they were; no other page
    image that was in a file is lost.  The eviction loop ends with the
    pool below [max_pages]; and [allocate_page] and [get_page] return,
    leaving at most [max_pages] pages.  With [max_pages = 0] neither
    [allocate_page] nor [get_page] returns. *)
Theorem eviction_terminates_iff_capacity max_pages pm :
  reachable max_pages pm ->
  (1 <= max_pages ->
     page_count pm <= max_pages /\
     (0 < page_count pm ->
        exists key e,
          buffer_pool_ pm !! key = Some e /\
          buffer_pool_ (evict_page pm) = delete key (buffer_pool_ pm) /\
          (if dirty e
           then on_disk (files_ (evict_page pm)) (fst key) (snd key)
                = Some (page e)
           else files_ (evict_page pm) = files_ pm) /\
          (forall tid pid x,
             0 <= pid -> (tid, pid) <> key ->
             on_disk (files_ pm) tid pid = Some x ->
             on_disk (files_ (evict_page pm)) tid pid = Some x) /\
          page_count (evict_page pm) = page_count pm - 1) /\
     (exists fuel pm',
        evict_while_full fuel pm = Val tt pm' /\ page_count pm' < max_pages) /\
     (forall tid, exists fuel pid pm',
        allocate_page fuel tid pm = Val pid pm' /\ page_count pm' <= max_pages) /\
     (forall tid pid, exists fuel r pm',
        get_page fuel tid pid pm = Val r pm' /\ page_count pm' <= max_pages)) /\
  (max_pages = 0 ->
     forall fuel tid pid,
       allocate_page fuel tid pm = Diverge /\
       get_page fuel tid pid pm = Diverge).
Proof.
  intros Hr. split.
  - intros Hmp.
    destruct (reachable_within max_pages pm) as [[Hok Hle] Hmax]; [lia|exact Hr|].
    destruct (reachable_ids max_pages pm Hr) as [Hkeys _].
    split; [lia|]. split; [|split; [|split]].
    + intros Hpos. unfold page_count in Hpos.
      destruct (evict_page_removes_one pm Hok) as (key & e & He & Hp & Hf & Hsz & _);
        [lia|].
      exists key, e. split; [exact He|]. split; [exact Hp|].
      pose proof (Hkeys key e He) as Hk0.
      split; [|split].
      * rewrite Hf. destruct (dirty e); [apply on_disk_write_eq|reflexivity].
      * intros tid pid x Hpid Hne Hx. rewrite Hf.
        destruct (dirty e); [|exact Hx].
        apply on_disk_write_ne; [exact Hk0|exact Hpid| |exact Hx].
        destruct key. intros E. apply Hne. symmetry. exact E.
      * unfold page_count. lia.
    + destruct (evict_while_full_terminates (size (buffer_pool_ pm)) pm Hok)
        as [pm' Hev]; [lia|reflexivity|].
      exists (S (size (buffer_pool_ pm))), pm'. split; [exact Hev|].
      destruct (evict_while_full_result _ _ _ Hev Hok) as (_ & Hlt & Hm & _).
      lia.
    + intros tid.
      destruct (allocate_page_returns tid pm Hok) as (pid & pm' & Ha); [lia|].
      exists (S (size (buffer_pool_ pm))), pid, pm'. split; [exact Ha|].
      destruct (allocate_page_within _ _ _ _ _ (conj Hok Hle) Ha) as [[_ Hle'] Hm].
      lia.
    + intros tid pid.
      destruct (get_page_returns tid pid pm Hok) as (r & pm' & Hg); [lia|].
      exists (S (size (buffer_pool_ pm))), r, pm'. split; [exact Hg|].
      destruct (get_page_within _ _ _ _ _ _ (conj Hok Hle) Hg) as [[_ Hle'] Hm].
      lia.
  - intros ->.
    destruct (reachable_within 0 pm) as [[Hok Hle] Hmax]; [lia|exact Hr|].
    assert (Hempty : buffer_pool_ pm = ∅).
    { apply map_size_empty_iff. unfold page_count in Hle. lia. }
    intros fuel tid pid. split.
    + unfold allocate_page. unfold_monad.
      rewrite evict_while_full_diverges; [reflexivity|exact Hmax].
    + unfold get_page, load_page. unfold_monad.
      rewrite Hempty, lookup_empty.
      rewrite evict_while_full_diverges; [reflexivity|exact Hmax].
Qed.

(** The full pool of one page: the eviction writes its dirty page to the
    file of table 1, and an allocation for table 2 returns with the pool
    still at one page. *)
Lemma eviction_terminates_iff_capacity_witness :
  reachable 1 Example.pool_full_dirty /\
  page_count Example.pool_full_dirty = 1 /\
  files_ Example.pool_full_dirty = ∅ /\
  on_disk (files_ (evict_page Example.pool_full_dirty)) 1 0
  = Some (Page.init 0 Page.FLAG_LEAF) /\
  page_count (evict_page Example.pool_full_dirty) = 0 /\
  exists fuel pid pm',
    allocate_page fuel 2 Example.pool_full_dirty = Val pid pm' /\
    page_count pm' <= 1.
Proof.
  assert (H : reachable 1 Example.pool_full_dirty).
  { apply (reach_allocate_page 1 (new 1 ∅) 1 1 0); [apply reach_new|lia|].
    vm_compute. reflexivity. }
  assert (Hp : buffer_pool_ Example.pool_full_dirty
               = {[ (1, 0) := mkBufferEntry 1 0 (Page.init 0 Page.FLAG_LEAF) true ]})
    by (vm_compute; reflexivity).
  assert (Hc : page_count Example.pool_full_dirty = 1)
    by (vm_compute; reflexivity).
  split; [exact H|]. split; [exact Hc|]. split; [vm_compute; reflexivity|].
  destruct (eviction_terminates_iff_capacity 1 Example.pool_full_dirty H)
    as [Hpos _].
  destruct Hpos as (_ & Hev & _ & Halloc & _); [lia|].
  destruct Hev as (key & e & He & _ & Hw & _ & Hn); [lia|].
  rewrite Hp in He. apply lookup_singleton_Some in He as [<- <-].
  split; [exact Hw|]. split; [lia|]. exact (Halloc 2).
Defined.

End Capacity.
